(* ===== verification/_CoqProject ===== *)
-Q . S2P
Prelude.v
Types.v
BigEndian.v
Crc.v
Hex.v
Text.v
Binary64.v
Codec.v
Distance.v
Memory.v
AddressSpace.v
Server.v
Transport.v
ImlpClient.v
ClientProperties.v
System.v
Connection.v
TraceLog.v
Limits.v
Objects.v
Guarantee.v
Sharing.v
Commutation.v
Tools.v
Cli.v
Benchmark.v
Suite.v
Vectors.v
