(* ===== verification/Prelude.v ===== *)
(** * Verification of the IMLP/1 industrial memory protocol workbench

    The program is a C++20 library and three executables around a synthetic wire
    protocol: a codec for checksummed frames, a simulator server with a 4096 byte
    memory, a client with bounded read retries, an in-process transport that injects
    faults, a command line tool, a fuzz harness and a benchmark.  This development
    translates the library, the executables and the test suite into executable Rocq
    definitions, and proves what the parts promise and what they give together.

    ** Files, in dependency order

    - [Prelude]: C++ notions the files share (octets, unsigned widths, containers,
      loops, std::sort), the two computation types [Exec] and [Run], tactics, hint
      databases [imlp] and [imlp_simp], generic lemmas.
    - [Types]: include/imlp/types.hpp.  An enum class or struct [X] is a module [X]
      with a type or record [t]; [of_value] and [value] are the casts, and
      [unassigned v] stands for the values a cast can give that no enumerator has.
    - [BigEndian]: the value of a big-endian string and fields of a string, in which
      the wire format is specified.
    - [Crc]: the function crc32 of src/codec.cpp, its loops as [crc_bit_step] and
      [crc_byte_step], and the polynomial division that defines CRC-32.
    - [Hex]: bytes_to_hex and bytes_from_hex of src/codec.cpp.
    - [Text]: the two output streams ([Console]) and the formatting of integers.
    - [Binary64]: the values of double, their division and comparison, and their
      output with three decimals.
    - [Codec]: encode, decode and their helpers (src/codec.cpp); [wire] states the
      format of docs/protocol-spec.md, [validation] its validation order and
      [documented_frame] its tables; [protocol_frame] is the relation between the
      fields that the codec keeps, which is wider ([undocumented_frame]).
    - [Distance]: the number of bits in which frames differ.  The residues of single
      bits, as far as the largest frame reaches, are computed and searched for sums
      of three and four that vanish, in binary tries of 32-bit words.
    - [Memory]: src/memory_map.cpp, [MemoryMap.t] with construct, read and write;
      [read_status], [write_status], [bytes_at] and [store] specify them.
    - [AddressSpace]: the same memory specified address by address from the region
      table of docs/protocol-spec.md ([space_calls]), and that [MemoryMap] implements it.
    - [Server]: src/server.cpp.  [MemoryServer.handle] is the whole handler;
      [serve] decides a decoded request, [handle_spec] answers a byte string.
    - [Transport]: src/transport.cpp.  The abstract class ITransport is the type
      class [ITransport]; [TransportLaws] is what a client needs of an instance;
      [LoopbackTransport] is the instance over the server, [exchange_spec] and
      [damage] specify its exchange and its faults.
    - [ImlpClient]: src/client.cpp, the module [Client], over any [ITransport].  An
      operation runs in [Run (World T)], the state being the client and the
      transport it refers to.  [tries] specifies the attempts of an operation,
      [judge] what a response means for a request, [runs] what the transport sees.
    - [ClientProperties]: the theorems on the client over any lawful transport, for
      single operations and for sessions (sequences of operations).
    - [System]: client, loopback transport and server together, against one memory
      whose deliveries the queued faults distort ([faulty_perform]) and, without
      faults, against an atomic memory ([atomic_session]).
    - [Connection]: the state diagram of the calls a client makes ([Phase], [step],
      [path]), and the conversation of each operation.
    - [TraceLog]: the trace of the loopback transport: run again on the server
      ([replay]), and told in advance from the operations ([script_records]).
    - [Limits]: the attempts, faults, records and bytes of a session ([frugal]), as
      docs/big-o.md bounds them, and the recovery from faults.
    - [Objects]: servers, transports and clients in a store, where transports refer to
      servers and clients to transports.  [invoke] is a call of a public member on
      references; [Shared] is the transport a client sees there, an [ITransport];
      [well_typed] and [check] type calls and programs.
    - [Guarantee]: what no such program can do to a server ([guarded]).
    - [Sharing]: what such programs mean in terms of one memory per server
      ([abstract_run]).
    - [Commutation]: which operations of clients on a shared server can be done in
      either order ([compatible]).
    - [Tools]: fuzz/codec_fuzzer.cpp, and the server under the default policy.
    - [Cli]: apps/cli_main.cpp, from the argument list to the exit code and the text
      of the two output streams.
    - [Benchmark]: apps/benchmark_main.cpp, over the readings of the clock.
    - [Suite]: tests/, the harness, the twenty tests and the runner.
    - [Vectors]: the frames and outputs that the documents print, computed.

    ** How the code is modelled

    Unsigned integers are integers with the reduction of their width written out
    ([u8] ... [u64], [usize] for a 64-bit std::size_t); structures are records;
    objects that change are passed and returned.  An access outside a container, a
    call through a reference to nothing and a signed overflow give [Halt], so that a
    theorem [f x = Done r] excludes this undefined behaviour.

    LoopbackTransport holds its server and Client its transport by reference.  The
    member functions are written on the object together with what it refers to; since
    a call runs to its end before the next begins, this is all they can reach.  Which
    objects are shared is the matter of [Objects], where the same functions run on a
    store of objects that refer to each other; its [TransportEmbedding] carries the
    theorems on clients over to the store.

    A deadline is the tick count of its milliseconds, which the code only compares
    with zero.  The steady clock of the benchmark is a parameter, a sequence of
    readings in nanoseconds; doubles are the binary64 numbers of the standard
    library's SpecFloat, rounded to nearest.  Exceptions occur in the tests only, as
    outcomes.  Allocation failure is not modelled.

    Loops carry fuel and [Halt out_of_fuel] when it runs out.  The fuel is the length
    of the container for the loops over one, the bound of the counter for the loops
    of the benchmark and the tests, and one more than [maximum_read_attempts] for the
    retry loop, whose iterations number at most that.  The search of [Distance] covers
    the 2224 bits of the largest frame.  Every theorem about a function
    that loops gives its [Done] result, for all inputs of the argument types, which
    is the proof that the fuel is enough and that the loop ends.

    ** The theorems

    Theorems that state a property of the program carry a label C1, C2, ... in their
    comment, the most important ones first.

    - System (C1 to C3, C18 to C20): any session, under any faults, is a session on
      one memory with deliveries lost and damaged; reads are faithful and leave the
      server alone, and writes take effect at most once, with the outcome the reported
      error allows; transient faults below the attempt bound are absorbed, after as
      many operations as faults the memory is atomic again, and the attempts, faults,
      records and bytes of a session are bounded.
    - Shared objects (C4 to C7): well-typed programs run; clients that share
      transports and servers refine atomic memories; operations that do not
      conflict commute; no program makes a server leave its write policy.
    - Codec and checksum (C8 to C12, C22, C23): decode accepts exactly the encodings
      of the documented frames and of three kinds of others, refines the documented
      validation order, rejects bursts and any damage of up to four bits; crc32 is the
      polynomial remainder; encode by cases, and the round trip.
    - Server and memory (C13, C14, C21, C29): refinement of the handler, write safety,
      correctness of every answer; the memory map as an address space.
    - Client over any transport (C15 to C17, C24, C25): bounded identical retries with
      termination, the connection protocol with its single write attempt, correlation
      of successes, unique request IDs over sessions, metrics.
    - Loopback transport (C26 to C28): refinement of exchange; the trace determines the
      server's state, and the operations determine the trace.
    - Text and tools (C30 to C39): hexadecimal text, numerals, each command of the
      command line tool, termination of main, the fuzz harness, the report of the
      benchmark and the accuracy of its numbers.
    - Tests (C40): the generated tests pass from any seed.

    Theorems without a label are consequences that the labelled ones imply or special
    cases worth having by name (atomic sessions without faults, a write and a read of
    it, a single write attempt over any transport, single accesses of the memory, the
    trace as a log, the invariant of a single server, the rejection of each kind of
    damaged response and of every wrong length, the five bits between frames, the
    judgement of responses, the connection of the loopback transport during a session,
    the test suite on these definitions, the published examples).

    ** Not modelled

    The build files, CI configuration and documentation generators, which hold no
    run-time logic.  std::from_chars, std::sort and the formatting of numbers by
    streams are defined as the standard specifies them for the arguments the program
    uses.  The static initialisation that fills the test registry is the list that
    results from it, in any order.

    Of the C++ files every function, constant and structure has a definition.  What has
    none are declarations that repeat a definition elsewhere, include directives and
    namespaces.  The documents restrict the program to one thread and to exact frames
    (docs/limitations.md), so there are no interleavings below a call and no streams of
    frames to model. *)

From Stdlib Require Export ZArith Lia.
From Stdlib Require Export Strings.Byte.
From stdpp Require Export base list numbers option strings sets sorting.

#[global] Open Scope Z_scope.

(** ** Octets and machine words *)

(** [std::byte]: the 256-value type of the kernel's library. *)
Abbreviation byte := Byte.byte.

(** [std::to_integer<T>(b)], for every unsigned [T] of at least eight bits. *)
Definition to_integer (b : byte) : Z := Z.of_N (Byte.to_N b).

(** [static_cast<std::byte>(v)]: the value modulo 2^8. *)
Definition to_byte (v : Z) : byte :=
  default Byte.x00 (Byte.of_N (Z.to_N (v mod 256))).

(** Conversions to the unsigned types of the program: reduction modulo the
    width.  Every arithmetic expression of the source whose type is unsigned is
    written with the conversion of its type around it. *)
Definition u8 (z : Z) : Z := z mod 2 ^ 8.
Definition u16 (z : Z) : Z := z mod 2 ^ 16.
Definition u32 (z : Z) : Z := z mod 2 ^ 32.
Definition u64 (z : Z) : Z := z mod 2 ^ 64.
(** [std::size_t] of a 64-bit target. *)
Definition usize (z : Z) : Z := z mod 2 ^ 64.

(** ** Executions

    The value of a piece of code, or the reason there is none: an access outside
    a container, through a reference to no object or a signed overflow (undefined
    behaviour in C++), or the exhaustion of the fuel that bounds a loop of the model.  A theorem of the form [exists r, f x = Done r]
    says that neither can happen. *)
Inductive Stuck : Set := out_of_bounds | out_of_fuel | invalid_reference | signed_overflow.

Inductive Exec (A : Type) : Type :=
| Done (a : A)
| Halt (why : Stuck).
Arguments Done {A} a.
Arguments Halt {A} why.

#[export] Instance exec_ret : MRet Exec := fun A a => Done a.
#[export] Instance exec_bind : MBind Exec := fun A B k m =>
  match m with Done a => k a | Halt w => Halt w end.

(** Code that changes a state of type [S] and returns an [A]. *)
Definition Run (S A : Type) : Type := S -> Exec (A * S).

#[export] Instance run_ret {S} : MRet (Run S) := fun A a s => Done (a, s).
#[export] Instance run_bind {S} : MBind (Run S) := fun A B k m s =>
  match m s with Done (a, s) => k a s | Halt w => Halt w end.

Definition gets {S A} (f : S -> A) : Run S A := fun s => Done (f s, s).
Definition modify {S} (f : S -> S) : Run S unit := fun s => Done ((), f s).
Definition lift {S A} (m : Exec A) : Run S A := fun s => a ← m; Done (a, s).

(** The difference of two [std::int64_t] values. *)
Definition sub_i64 (x y : Z) : Exec Z :=
  let d := x - y in if (- 2 ^ 63 <=? d) && (d <? 2 ^ 63) then Done d else Halt signed_overflow.

(** ** Containers *)

(** [size()] of a vector, span or array. *)
Definition zlen {A} (l : list A) : Z := Z.of_nat (length l).

(** [l[i]], undefined when [i] is not below the size. *)
Definition vec_at {A} (l : list A) (i : Z) : Exec A :=
  if i <? 0 then Halt out_of_bounds
  else match l !! Z.to_nat i with Some a => Done a | None => Halt out_of_bounds end.

(** [l[i] = a]. *)
Definition vec_set {A} (l : list A) (i : Z) (a : A) : Exec (list A) :=
  if (0 <=? i) && (i <? zlen l) then Done (<[Z.to_nat i := a]> l)
  else Halt out_of_bounds.

(** The elements of the iterator range [begin() + first, begin() + last). *)
Definition vec_range {A} (l : list A) (first last : Z) : Exec (list A) :=
  if (0 <=? first) && (first <=? last) && (last <=? zlen l)
  then Done (take (Z.to_nat (last - first)) (drop (Z.to_nat first) l))
  else Halt out_of_bounds.

(** [std::equal(xs.begin(), xs.end(), ys.begin())]: reads [ys] as far as [xs]
    goes or up to the first difference. *)
Fixpoint std_equal (xs ys : list byte) : Exec bool :=
  match xs with
  | [] => Done true
  | x :: xs' =>
      match ys with
      | [] => Halt out_of_bounds
      | y :: ys' => if Byte.eqb x y then std_equal xs' ys' else Done false
      end
  end.

(** [std::copy(src.begin(), src.end(), dst.begin() + start)]. *)
Fixpoint std_copy (src dst : list byte) (start : Z) : Exec (list byte) :=
  match src with
  | [] => Done dst
  | b :: src' => dst' ← vec_set dst start b; std_copy src' dst' (start + 1)
  end.

(** [for (std::size_t i = first; i < bound; i += step) body], where the body
    either falls through with a new local state ([inl]) or returns from the
    enclosing function ([inr]). *)
Fixpoint for_loop {S R : Type} (fuel : nat) (i bound step : Z)
    (body : Z -> S -> Exec (S + R)) (s : S) : Exec (S + R) :=
  if i <? bound then
    match fuel with
    | O => Halt out_of_fuel
    | Datatypes.S fuel' =>
        r ← body i s;
        match r with
        | inl s' => for_loop fuel' (usize (i + step)) bound step body s'
        | inr x => Done (inr x)
        end
    end
  else Done (inl s).

(** [for (auto x : l) body] with a local state. *)
Fixpoint for_each {A S : Type} (l : list A) (body : S -> A -> Exec S) (s : S) : Exec S :=
  match l with
  | [] => Done s
  | a :: l' => s' ← body s a; for_each l' body s'
  end.

(** The characters of a [std::string] or [std::string_view], and the value of a
    [char] as an [unsigned char]. *)
Definition chars (s : string) : list Ascii.ascii := String.list_ascii_of_string s.
Definition of_chars (l : list Ascii.ascii) : string := String.string_of_list_ascii l.
Definition char_value (c : Ascii.ascii) : Z := Z.of_N (Ascii.N_of_ascii c).

(** ** Automation *)

Create HintDb imlp.
Create Rewrite HintDb imlp_simp.

(** Solves linear goals with divisions and remainders by constants. *)
Ltac divmod := Z.to_euclidean_division_equations; lia.

Ltac unfold_words := unfold u8, u16, u32, u64, usize in *.

(** Splits the boolean tests of hypotheses and goal into propositions. *)
Ltac bool_props :=
  repeat match goal with
  | H : _ && _ = true |- _ => apply andb_true_iff in H; destruct H
  | H : _ || _ = false |- _ => apply orb_false_iff in H; destruct H
  | H : negb _ = true |- _ => apply negb_true_iff in H
  | H : negb _ = false |- _ => apply negb_false_iff in H
  | H : (_ =? _) = true |- _ => apply Z.eqb_eq in H
  | H : (_ =? _) = false |- _ => apply Z.eqb_neq in H
  | H : (_ <? _) = true |- _ => apply Z.ltb_lt in H
  | H : (_ <? _) = false |- _ => apply Z.ltb_ge in H
  | H : (_ <=? _) = true |- _ => apply Z.leb_le in H
  | H : (_ <=? _) = false |- _ => apply Z.leb_gt in H
  end.

(** And those that decide a proposition. *)
Ltac decide_props :=
  bool_props;
  repeat match goal with
  | H : bool_decide _ = true |- _ => apply bool_decide_eq_true in H
  | H : bool_decide _ = false |- _ => apply bool_decide_eq_false in H
  end.

(** Evaluates the decisions of a goal between closed values. *)
Ltac decide_constants :=
  repeat match goal with
  | |- context [bool_decide (?a = ?b)] =>
      let r := eval vm_compute in (bool_decide (a = b)) in
      match r with true => idtac | false => idtac end;
      change (bool_decide (a = b)) with r
  end; cbn [negb andb orb].

(** Case analysis on the comparisons of a goal. *)
Ltac compare_cases :=
  repeat match goal with
  | |- context [?x =? ?y] => destruct (Z.eqb_spec x y)
  | |- context [?x <=? ?y] => destruct (Z.leb_spec x y)
  | |- context [?x <? ?y] => destruct (Z.ltb_spec x y)
  end.

Lemma Done_inj {A} (a b : A) : Done a = Done b -> a = b.
Proof. by intros [= ->]. Qed.

Section RunLaws.
Context {S A B : Type}.

Lemma run_bind_eq (m : Run S A) (k : A -> Run S B) s :
  (m ≫= k) s = ('(a, s') ← m s; k a s').
Proof. unfold mbind, run_bind, exec_bind. by destruct (m s) as [[]|]. Qed.

Lemma run_bind_Done (m : Run S A) (k : A -> Run S B) s r :
  (m ≫= k) s = Done r -> exists a s', m s = Done (a, s') /\ k a s' = Done r.
Proof. rewrite run_bind_eq. destruct (m s) as [[a s']|]; [|done]. by exists a, s'. Qed.

Lemma run_gets (f : S -> A) (k : A -> Run S B) s : (gets f ≫= k) s = k (f s) s.
Proof. done. Qed.

Lemma run_modify (f : S -> S) (k : unit -> Run S B) s : (modify f ≫= k) s = k () (f s).
Proof. done. Qed.

Lemma run_ret_bind (a : A) (k : A -> Run S B) s : ((mret a : Run S A) ≫= k) s = k a s.
Proof. done. Qed.

Lemma run_lift (a : A) (k : A -> Run S B) s : (lift (Done a) ≫= k) s = k a s.
Proof. done. Qed.
End RunLaws.

(** ** Octets *)

Lemma to_integer_range b : 0 <= to_integer b < 256.
Proof.
  unfold to_integer. pose proof (Byte.to_N_bounded b). lia.
Qed.

Lemma to_integer_to_byte v : to_integer (to_byte v) = v mod 256.
Proof.
  unfold to_integer, to_byte.
  pose proof (Z.mod_pos_bound v 256 eq_refl) as Hb.
  destruct (Byte.of_N (Z.to_N (v mod 256))) as [b|] eqn:E; simpl.
  - apply Byte.to_of_N in E. rewrite E. lia.
  - apply Byte.of_N_None_iff in E. lia.
Qed.

Lemma to_byte_to_integer b : to_byte (to_integer b) = b.
Proof.
  unfold to_byte. rewrite Z.mod_small by apply to_integer_range.
  unfold to_integer. rewrite N2Z.id, Byte.of_to_N. done.
Qed.

Lemma to_integer_inj b c : to_integer b = to_integer c -> b = c.
Proof. intros E. rewrite <-(to_byte_to_integer b), E. apply to_byte_to_integer. Qed.

Lemma to_integer_to_byte_small v : 0 <= v < 256 -> to_integer (to_byte v) = v.
Proof. intros. rewrite to_integer_to_byte. apply Z.mod_small. lia. Qed.

#[export] Instance byte_eq_dec : EqDecision byte := Byte.byte_eq_dec.

Lemma byte_eqb_eq b c : Byte.eqb b c = true <-> b = c.
Proof.
  split; [apply Byte.byte_dec_bl | apply Byte.byte_dec_lb].
Qed.

#[export] Hint Resolve to_integer_range : imlp.
#[export] Hint Rewrite to_byte_to_integer to_integer_to_byte : imlp_simp.

(** ** Lists *)

Lemma zlen_nil {A} : zlen (@nil A) = 0.
Proof. done. Qed.

Lemma zlen_cons {A} (a : A) l : zlen (a :: l) = 1 + zlen l.
Proof. unfold zlen. rewrite length_cons. lia. Qed.

Lemma zlen_app {A} (l k : list A) : zlen (l ++ k) = zlen l + zlen k.
Proof. unfold zlen. rewrite length_app. lia. Qed.

Lemma zlen_nonneg {A} (l : list A) : 0 <= zlen l.
Proof. unfold zlen. lia. Qed.

Lemma zlen_zero {A} (l : list A) : zlen l = 0 <-> l = [].
Proof. unfold zlen. destruct l; simpl; split; intros; try done; lia. Qed.

#[export] Hint Rewrite @zlen_nil @zlen_cons @zlen_app : imlp_simp.
#[export] Hint Resolve zlen_nonneg : imlp.

Lemma vec_at_Done {A} (l : list A) i a :
  0 <= i -> l !! Z.to_nat i = Some a -> vec_at l i = Done a.
Proof.
  intros Hi Hl. unfold vec_at. destruct (Z.ltb_spec i 0); [lia|]. by rewrite Hl.
Qed.

Lemma vec_at_lt {A} (l : list A) i :
  0 <= i < zlen l -> exists a, l !! Z.to_nat i = Some a /\ vec_at l i = Done a.
Proof.
  intros [Hi Hl]. unfold zlen in Hl.
  destruct (lookup_lt_is_Some_2 l (Z.to_nat i)) as [a Ha]; [lia|].
  exists a. split; [done|]. by apply vec_at_Done.
Qed.

Lemma vec_at_middle {A} (pre post : list A) a : vec_at (pre ++ a :: post) (zlen pre) = Done a.
Proof.
  apply vec_at_Done; [apply zlen_nonneg|].
  unfold zlen. by rewrite Nat2Z.id, lookup_app_r, Nat.sub_diag by lia.
Qed.

Lemma vec_range_Done {A} (l : list A) i j :
  0 <= i <= j -> j <= zlen l ->
  vec_range l i j = Done (take (Z.to_nat (j - i)) (drop (Z.to_nat i) l)).
Proof.
  intros. unfold vec_range.
  destruct (Z.leb_spec 0 i), (Z.leb_spec i j), (Z.leb_spec j (zlen l)); simpl; try lia.
  done.
Qed.

Lemma std_equal_spec xs ys :
  (length xs <= length ys)%nat ->
  std_equal xs ys = Done (bool_decide (take (length xs) ys = xs)).
Proof.
  revert ys; induction xs as [|x xs IH]; intros [|y ys] Hl; simpl in *; try done; try lia.
  destruct (Byte.eqb x y) eqn:E.
  - apply byte_eqb_eq in E as ->. rewrite IH by lia. f_equal.
    repeat case_bool_decide; congruence.
  - f_equal. symmetry. apply bool_decide_eq_false. intros [= -> _].
    rewrite (proj2 (byte_eqb_eq x x) eq_refl) in E. done.
Qed.

(** ** Bit operations *)

Lemma testbit_high n a l : 0 <= a < 2 ^ n -> 0 <= n <= l -> Z.testbit a l = false.
Proof.
  intros Ha Hl. rewrite <-(Z.mod_small a (2 ^ n)) by done.
  apply Z.mod_pow2_bits_high. lia.
Qed.

Lemma bounded_lxor n a b :
  0 <= n -> 0 <= a < 2 ^ n -> 0 <= b < 2 ^ n -> 0 <= Z.lxor a b < 2 ^ n.
Proof.
  intros Hn Ha Hb. assert (0 <= Z.lxor a b) by (apply Z.lxor_nonneg; lia).
  split; [done|]. apply Z.bounded_iff_bits_nonneg; [done..|]. intros l Hl.
  by rewrite Z.lxor_spec, !(testbit_high n) by lia.
Qed.

Lemma shiftr_1 c : Z.shiftr c 1 = c / 2.
Proof. by rewrite Z.shiftr_div_pow2 by lia. Qed.

Lemma testbit_b2z c i : 0 < i -> Z.testbit (Z.b2z c) i = false.
Proof.
  intros. apply (testbit_high 1); [|lia]. destruct c; simpl; lia.
Qed.

Lemma lor_shiftl a b n :
  0 <= n -> 0 <= b < 2 ^ n -> Z.lor (Z.shiftl a n) b = a * 2 ^ n + b.
Proof.
  intros Hn Hb. rewrite <-Z.shiftl_mul_pow2 by done. symmetry.
  apply Z.add_nocarry_lor, Z.bits_inj_0. intros i. rewrite Z.land_spec.
  destruct (decide (i < n)).
  - by rewrite Z.shiftl_spec_low.
  - by rewrite (testbit_high n b), andb_false_r by lia.
Qed.

Lemma land_byte_mask z : Z.land z 0xFF = z mod 256.
Proof. change 0xFF with (Z.ones 8). by rewrite Z.land_ones. Qed.

Lemma byte_of_shift v k :
  0 <= k -> to_integer (to_byte (Z.land (Z.shiftr v k) 0xFF)) = (v / 2 ^ k) mod 256.
Proof.
  intros. rewrite to_integer_to_byte, land_byte_mask, Z.shiftr_div_pow2 by done.
  apply Z.mod_mod. lia.
Qed.

Lemma to_byte_mask v : to_byte (Z.land v 0xFF) = to_byte v.
Proof.
  apply to_integer_inj. rewrite !to_integer_to_byte, land_byte_mask. apply Z.mod_mod. lia.
Qed.

Lemma to_byte_shift v k : 0 <= k -> to_byte (Z.land (Z.shiftr v k) 0xFF) = to_byte (v / 2 ^ k).
Proof. intros. by rewrite to_byte_mask, Z.shiftr_div_pow2. Qed.

(** ** Counting and sorting *)

(** How many elements pass a test. *)
Definition tally {A} (p : A -> bool) (l : list A) : Z := zlen (List.filter p l).

Lemma tally_app {A} (p : A -> bool) l k : tally p (l ++ k) = tally p l + tally p k.
Proof. unfold tally. by rewrite List.filter_app, zlen_app. Qed.

Lemma tally_Permutation {A} (p : A -> bool) (l k : list A) : l ≡ₚ k -> tally p l = tally p k.
Proof.
  unfold tally, zlen. induction 1 as [|x l k _ IH|x y l|l k j _ IH1 _ IH2]; cbn; [done|..|congruence].
  - destruct (p x); cbn; lia.
  - by destruct (p x), (p y).
Qed.

(** [std::sort] with the order [lt]: the elements in increasing order.  Where [lt] is
    that of a key, the result is determined up to elements of the same key. *)
Fixpoint sorted_insert {A} (lt : A -> A -> bool) (x : A) (l : list A) : list A :=
  match l with
  | [] => [x]
  | y :: l => if lt y x then y :: sorted_insert lt x l else x :: y :: l
  end.

Definition std_sort {A} (lt : A -> A -> bool) (l : list A) : list A :=
  foldr (sorted_insert lt) [] l.

Section Sort.
Context {A : Type} (lt : A -> A -> bool) (key : A -> Z) (P : A -> Prop).
Hypothesis lt_key : forall x y, P x -> P y -> lt x y = (key x <? key y).

Lemma sorted_insert_Permutation x l : sorted_insert lt x l ≡ₚ x :: l.
Proof.
  induction l as [|y l IH]; cbn; [done|]. destruct (lt y x); [|done]. rewrite IH.
  by rewrite (Permutation_swap x y l).
Qed.

Lemma std_sort_Permutation l : std_sort lt l ≡ₚ l.
Proof. induction l as [|x l IH]; cbn; [done|]. by rewrite sorted_insert_Permutation, IH. Qed.

Lemma sorted_insert_sorted x l :
  P x -> Forall P l -> StronglySorted (fun x y => key x <= key y) l ->
  StronglySorted (fun x y => key x <= key y) (sorted_insert lt x l).
Proof.
  intros Hx Hl Hs. induction Hs as [|y l Hs IH Hy]; cbn; [by repeat constructor|].
  apply Forall_cons in Hl as [HPy Hl]. rewrite lt_key by done. destruct (Z.ltb_spec (key y) (key x)).
  - constructor; [by apply IH|]. rewrite sorted_insert_Permutation. constructor; [lia|done].
  - constructor; [by constructor|]. constructor; [done|].
    eapply Forall_impl; [exact Hy|]. cbn. lia.
Qed.

Lemma std_sort_sorted l :
  Forall P l -> StronglySorted (fun x y => key x <= key y) (std_sort lt l).
Proof.
  induction 1 as [|x l Hx Hl IH]; [constructor|]. cbn [std_sort foldr].
  apply sorted_insert_sorted; [done| |done].
  change (Forall P (std_sort lt l)). by rewrite std_sort_Permutation.
Qed.
End Sort.

(** ** Exhaustive checks *)

Lemma forall_below (n : nat) (P : Z -> bool) :
  forallb P (Z.of_nat <$> seq 0 n) = true ->
  forall v, 0 <= v < Z.of_nat n -> P v = true.
Proof.
  intros HP v Hv.
  rewrite List.forallb_forall in HP. apply HP, list_elem_of_In, list_elem_of_fmap.
  exists (Z.to_nat v). split; [lia|]. apply elem_of_seq. lia.
Qed.

(** ** Loops and copies *)

(** A loop that looks for an index satisfying a test and returns when it finds one. *)
Lemma for_loop_scan {R} (p : Z -> bool) (x : R) fuel i bound :
  0 <= i -> bound < 2 ^ 63 -> (Z.to_nat (bound - i) <= fuel)%nat ->
  (forall o, i <= o < bound -> p o = false) /\
    for_loop fuel i bound 1 (fun o (_ : unit) => Done (if p o then inr x else inl ())) ()
    = Done (inl ()) \/
  (exists o, i <= o < bound /\ p o = true) /\
    for_loop fuel i bound 1 (fun o (_ : unit) => Done (if p o then inr x else inl ())) ()
    = Done (inr x).
Proof.
  revert i; induction fuel as [|fuel IH]; intros i Hi Hb Hf; cbn [for_loop];
    destruct (Z.ltb_spec i bound); [lia|left; split; [intros; lia|done]| |
                                    left; split; [intros; lia|done]].
  cbn [mbind exec_bind]. destruct (p i) eqn:Ep; [right; split; [exists i; split; [lia|done]|done]|].
  unfold usize. rewrite Z.mod_small by lia.
  destruct (IH (i + 1)) as [[Hall ->]|[(o & Ho & Hp) ->]]; [lia..| |].
  - left. split; [|done]. intros o Ho. destruct (decide (o = i)) as [->|]; [done|].
    apply Hall. lia.
  - right. split; [|done]. exists o. split; [lia|done].
Qed.

(** A loop whose body never returns preserves what each iteration preserves. *)
Lemma for_loop_invariant {St R} (inv : Z -> St -> Prop) body fuel i bound s :
  (forall j s, i <= j < bound -> inv j s ->
     exists s', body j s = Done (inl s') /\ inv (j + 1) s') ->
  0 <= i <= bound -> bound < 2 ^ 63 -> (Z.to_nat (bound - i) <= fuel)%nat -> inv i s ->
  exists s', for_loop (R := R) fuel i bound 1 body s = Done (inl s') /\ inv bound s'.
Proof.
  revert i s; induction fuel as [|fuel IH]; intros i s Hb Hi H63 Hf Hinv; cbn [for_loop].
  - assert (i = bound) as -> by lia. rewrite Z.ltb_irrefl. eauto.
  - destruct (Z.ltb_spec i bound) as [Hlt|Hge].
    + destruct (Hb i s) as (s' & -> & Hs'); [lia|done|]. cbn [mbind exec_bind].
      assert (usize (i + 1) = i + 1) as -> by (unfold usize; apply Z.mod_small; lia).
      apply IH; try lia; [|done]. intros; apply Hb; [lia|done].
    + assert (i = bound) as -> by lia. eauto.
Qed.

Lemma vec_set_middle {A} (pre post : list A) a b :
  vec_set (pre ++ a :: post) (zlen pre) b = Done (pre ++ b :: post).
Proof.
  unfold vec_set. rewrite (proj2 (Z.leb_le _ _)) by apply zlen_nonneg.
  rewrite (proj2 (Z.ltb_lt _ _)); cbn [andb].
  - unfold zlen. rewrite Nat2Z.id, <-(Nat.add_0_r (length pre)). by rewrite insert_app_r.
  - rewrite zlen_app, zlen_cons. pose proof (zlen_nonneg post). lia.
Qed.

Lemma std_copy_middle pre src mid post :
  length mid = length src ->
  std_copy src (pre ++ mid ++ post) (zlen pre) = Done (pre ++ src ++ post).
Proof.
  revert pre mid; induction src as [|b src IH]; intros pre [|m mid] Hl; try done.
  cbn [std_copy app]. rewrite vec_set_middle. cbn [mbind exec_bind].
  replace (zlen pre + 1) with (zlen (pre ++ [b])) by (rewrite zlen_app, zlen_cons, zlen_nil; lia).
  rewrite (cons_middle b pre), (app_assoc pre), IH by (simpl in Hl; lia).
  by rewrite <-app_assoc.
Qed.

(** A loop that appends the image of each element of a prefix of a container. *)
Lemma for_loop_collect {A B R : Type} (f : A -> B) fuel pre rest bound acc :
  zlen pre <= bound -> bound <= zlen (pre ++ rest) -> bound < 2 ^ 63 ->
  (Z.to_nat (bound - zlen pre) <= fuel)%nat ->
  for_loop (R := R) fuel (zlen pre) bound 1
    (fun i acc => c ← vec_at (pre ++ rest) i; Done (inl (acc ++ [f c]))) acc =
  Done (inl (acc ++ (f <$> take (Z.to_nat (bound - zlen pre)) rest))).
Proof.
  revert pre rest acc; induction fuel as [|fuel IH]; intros pre rest acc Hp Hb H63 Hf;
    pose proof (zlen_nonneg pre); cbn [for_loop];
    destruct (Z.ltb_spec (zlen pre) bound) as [Hlt|]; try lia.
  1, 3: replace (Z.to_nat (bound - zlen pre)) with 0%nat by lia; by rewrite take_0, app_nil_r.
  destruct rest as [|c rest]; [rewrite app_nil_r in Hb; lia|].
  rewrite vec_at_middle. cbn [mbind exec_bind].
  assert (Hs : zlen (pre ++ [c]) = zlen pre + 1) by (rewrite zlen_app, zlen_cons, zlen_nil; lia).
  replace (usize (zlen pre + 1)) with (zlen (pre ++ [c]))
    by (rewrite Hs; unfold usize; rewrite Z.mod_small; lia).
  rewrite (cons_middle c pre rest), (app_assoc pre [c] rest) in Hb |- *.
  rewrite IH by (rewrite ?Hs; done || lia).
  replace (Z.to_nat (bound - zlen pre)) with (S (Z.to_nat (bound - zlen (pre ++ [c])))) by lia.
  cbn [take]. by rewrite fmap_cons, <-app_assoc.
Qed.
