(* ===== verification/Types.v ===== *)
(** * Wire types, limits, frames and error categories: [include/imlp/types.hpp].

    A scoped enumeration [enum class E : T] is a [Module E] with the type [t].
    [Opcode] and [Status] are produced by casts from wire bytes, so they have, in
    addition to the source's enumerators, a constructor for the other values of
    the underlying type; [of_value] is the [static_cast] from the underlying type
    and [value] the cast back.  A struct is a [Module] with the record [t]. *)

From S2P Require Import Prelude.

(** ** Protocol constants *)

Definition magic : list byte := [to_byte 0x49; to_byte 0x4D].
Definition protocol_version : Z := 1.
Definition response_flag : Z := 0x01.
Definition header_size : Z := 18.
Definition checksum_size : Z := 4.
Definition maximum_payload_size : Z := 256.
Definition maximum_frame_size : Z := header_size + maximum_payload_size + checksum_size.

(** ** Enumerations *)

Module Opcode.
Inductive t : Set :=
| read_request
| write_request
| data_response
| write_acknowledgement
| error_response
| unassigned (v : Z).

#[global] Instance eq_dec : EqDecision t.
Proof. solve_decision. Defined.

(** [static_cast<Opcode>(v)] for a [std::uint8_t]. *)
Definition of_value (v : Z) : t :=
  if v =? 0x01 then read_request
  else if v =? 0x02 then write_request
  else if v =? 0x81 then data_response
  else if v =? 0x82 then write_acknowledgement
  else if v =? 0xFF then error_response
  else unassigned v.

(** [static_cast<std::uint8_t>(opcode)]. *)
Definition value (o : t) : Z :=
  match o with
  | read_request => 0x01
  | write_request => 0x02
  | data_response => 0x81
  | write_acknowledgement => 0x82
  | error_response => 0xFF
  | unassigned v => v
  end.

(** The representation is canonical: [unassigned] holds no enumerator's value. *)
Definition wf (o : t) : Prop := 0 <= value o < 2 ^ 8 /\ of_value (value o) = o.
End Opcode.

Module Status.
Inductive t : Set :=
| ok
| bad_request
| out_of_range
| write_disabled
| access_denied
| internal_error
| unassigned (v : Z).

#[global] Instance eq_dec : EqDecision t.
Proof. solve_decision. Defined.

(** [static_cast<Status>(v)] for a [std::uint16_t]. *)
Definition of_value (v : Z) : t :=
  if v =? 0 then ok
  else if v =? 1 then bad_request
  else if v =? 2 then out_of_range
  else if v =? 3 then write_disabled
  else if v =? 4 then access_denied
  else if v =? 5 then internal_error
  else unassigned v.

(** [static_cast<std::uint16_t>(status)]. *)
Definition value (s : t) : Z :=
  match s with
  | ok => 0
  | bad_request => 1
  | out_of_range => 2
  | write_disabled => 3
  | access_denied => 4
  | internal_error => 5
  | unassigned v => v
  end.

Definition wf (s : t) : Prop := 0 <= value s < 2 ^ 16 /\ of_value (value s) = s.
End Status.

Module CodecError.
Inductive t : Set :=
| none
| truncated
| bad_magic
| unsupported_version
| unsupported_opcode
| unsupported_flags
| nonzero_reserved
| payload_too_large
| length_mismatch
| checksum_mismatch
| invalid_semantics.

#[global] Instance eq_dec : EqDecision t.
Proof. solve_decision. Defined.
End CodecError.

(** ** Structures *)

Module Frame.
Record t : Set := mk {
  version : Z;
  opcode : Opcode.t;
  flags : Z;
  request_id : Z;
  address : Z;
  status : Status.t;
  payload : list byte;
}.

(** [operator==], defaulted: member-wise. *)
#[global] Instance eq_dec : EqDecision t.
Proof. solve_decision. Defined.

(** The member values fit the member types. *)
Definition wf (f : t) : Prop :=
  0 <= version f < 2 ^ 8 /\ Opcode.wf (opcode f) /\ 0 <= flags f < 2 ^ 8 /\
  0 <= request_id f < 2 ^ 32 /\ 0 <= address f < 2 ^ 32 /\ Status.wf (status f).
End Frame.

Module EncodeResult.
Record t : Set := mk { bytes : list byte; error : CodecError.t }.
(** [explicit operator bool]. *)
Definition to_bool (r : t) : bool := bool_decide (error r = CodecError.none).
End EncodeResult.

Module DecodeResult.
Record t : Set := mk { frame : option Frame.t; error : CodecError.t; consumed : Z }.
(** [explicit operator bool]. *)
Definition to_bool (r : t) : bool :=
  bool_decide (error r = CodecError.none) && bool_decide (is_Some (frame r)).
End DecodeResult.

(** ** Casts between enumerations and their underlying types *)

Lemma Opcode_value_of_value v : Opcode.value (Opcode.of_value v) = v.
Proof. unfold Opcode.of_value. repeat case_match; bool_props; by subst. Qed.

Lemma Status_value_of_value v : Status.value (Status.of_value v) = v.
Proof. unfold Status.of_value. repeat case_match; bool_props; by subst. Qed.

Lemma Opcode_of_value_wf v : 0 <= v < 2 ^ 8 -> Opcode.wf (Opcode.of_value v).
Proof. intros. unfold Opcode.wf. by rewrite Opcode_value_of_value. Qed.

Lemma Status_of_value_wf v : 0 <= v < 2 ^ 16 -> Status.wf (Status.of_value v).
Proof. intros. unfold Status.wf. by rewrite Status_value_of_value. Qed.

#[export] Hint Rewrite Opcode_value_of_value Status_value_of_value : imlp_simp.
#[export] Hint Resolve Opcode_of_value_wf Status_of_value_wf : imlp.
