(* ===== verification/BigEndian.v ===== *)
(** * Big-endian integers and fields of byte strings, the notions the wire format
    of [docs/protocol-spec.md] is stated with. *)

From S2P Require Import Prelude.

(** Big-endian integers: the value of a byte string, and the [n] low bytes of a
    value. *)
Fixpoint be_value (l : list byte) : Z :=
  match l with
  | [] => 0
  | b :: l' => to_integer b * 256 ^ zlen l' + be_value l'
  end.

Fixpoint be_bytes (n : nat) (v : Z) : list byte :=
  match n with
  | O => []
  | S n' => to_byte (v / 256 ^ Z.of_nat n') :: be_bytes n' v
  end.

(** [n] bytes from offset [off]. *)
Definition slice (off n : nat) (l : list byte) : list byte := take n (drop off l).


Lemma zlen_be_bytes n v : zlen (be_bytes n v) = Z.of_nat n.
Proof. unfold zlen. f_equal. revert v; induction n; intros; simpl; by f_equal. Qed.

Lemma length_be_bytes n v : length (be_bytes n v) = n.
Proof. pose proof (zlen_be_bytes n v). unfold zlen in *. lia. Qed.

Lemma pow256_pos n : 0 <= n -> 0 < 256 ^ n.
Proof. intros. apply Z.pow_pos_nonneg; lia. Qed.

Lemma be_value_range l : 0 <= be_value l < 256 ^ zlen l.
Proof.
  induction l as [|b l IH]; [done|]. cbn [be_value]. rewrite zlen_cons.
  pose proof (zlen_nonneg l). rewrite Z.pow_add_r by lia.
  pose proof (to_integer_range b). nia.
Qed.

Lemma be_bytes_add n k v : be_bytes n (k * 256 ^ Z.of_nat n + v) = be_bytes n v.
Proof.
  revert k v; induction n as [|n IH]; intros k v; [done|]. cbn [be_bytes].
  rewrite Nat2Z.inj_succ, Z.pow_succ_r by lia.
  replace (k * (256 * 256 ^ Z.of_nat n) + v) with (k * 256 * 256 ^ Z.of_nat n + v) by ring.
  rewrite IH. f_equal. rewrite Z.div_add_l by (pose proof (pow256_pos (Z.of_nat n)); lia).
  apply to_integer_inj. rewrite !to_integer_to_byte. divmod.
Qed.

Lemma be_bytes_value l : be_bytes (length l) (be_value l) = l.
Proof.
  induction l as [|b l IH]; [done|]. cbn [length be_bytes be_value].
  change (Z.of_nat (length l)) with (zlen l).
  pose proof (be_value_range l).
  rewrite Z.div_add_l, Z.div_small, Z.add_0_r, to_byte_to_integer by lia.
  f_equal. unfold zlen. by rewrite be_bytes_add.
Qed.

Lemma be_bytes_value_n n l : length l = n -> be_bytes n (be_value l) = l.
Proof. intros <-. apply be_bytes_value. Qed.

Lemma be_value_bytes n v : be_value (be_bytes n v) = v mod 256 ^ Z.of_nat n.
Proof.
  revert v; induction n as [|n IH]; intros v; cbn [be_bytes be_value]; [by rewrite Z.mod_1_r|].
  rewrite IH, zlen_be_bytes, to_integer_to_byte, Nat2Z.inj_succ, Z.pow_succ_r by lia.
  rewrite (Z.mul_comm 256). pose proof (pow256_pos (Z.of_nat n)).
  rewrite Z.rem_mul_r by lia. lia.
Qed.

Lemma be_value_bytes_small n v :
  0 <= v < 256 ^ Z.of_nat n -> be_value (be_bytes n v) = v.
Proof. intros. rewrite be_value_bytes. by apply Z.mod_small. Qed.

(** ** Slices *)

Lemma length_slice off n l :
  Z.of_nat (off + n) <= zlen l -> length (slice off n l) = n.
Proof. unfold zlen, slice. intros. rewrite length_take, length_drop. lia. Qed.

Lemma slice_lookup off n l k :
  (k < n)%nat -> slice off n l !! k = l !! (off + k)%nat.
Proof. intros. unfold slice. by rewrite lookup_take_lt, lookup_drop. Qed.

Lemma slice_middle pre mid post n :
  length mid = n -> slice (length pre) n (pre ++ mid ++ post) = mid.
Proof.
  intros <-. unfold slice. by rewrite drop_app_length, take_app_length.
Qed.

Lemma slice_split off n l :
  l = take off l ++ slice off n l ++ drop (off + n) l.
Proof. unfold slice. by rewrite <-drop_drop, take_drop, take_drop. Qed.

Lemma drop_slice off n l : drop off l = slice off n l ++ drop (off + n) l.
Proof. unfold slice. by rewrite <-drop_drop, take_drop. Qed.

Lemma be_bytes_slice off n l :
  Z.of_nat (off + n) <= zlen l -> be_bytes n (be_value (slice off n l)) = slice off n l.
Proof. intros. apply be_bytes_value_n, length_slice. done. Qed.

Lemma slice_range off n l : 0 <= be_value (slice off n l) < 256 ^ Z.of_nat n.
Proof.
  pose proof (be_value_range (slice off n l)).
  assert (zlen (slice off n l) <= Z.of_nat n)
    by (unfold zlen, slice; rewrite length_take; lia).
  pose proof (Z.pow_le_mono_r 256 (zlen (slice off n l)) (Z.of_nat n)). lia.
Qed.

Lemma vec_at_slice off k n (l : list byte) a :
  slice off n l !! k = Some a -> (k < n)%nat -> vec_at l (Z.of_nat (off + k)) = Done a.
Proof.
  intros E Hk. rewrite slice_lookup in E by done.
  apply vec_at_Done; [lia|]. by rewrite Nat2Z.id.
Qed.
