(* ===== verification/Crc.v ===== *)
(** * CRC-32: [crc32] of [src/codec.cpp].

    The routine of the source works on the reflected register, a byte at a time.
    Two reference definitions are given: the bit-serial reflected register, and
    the remainder of a division of polynomials over GF(2) by the generator of
    IEEE 802.3, which is how the checksum is published.  The rest of the file is
    about what the checksum detects. *)

From S2P Require Import Prelude Types.

(** ** The routine of the source *)

(** Body of the inner loop: one bit of the register. *)
Definition crc_bit_step (crc : Z) : Z :=
  let mask := u32 (0 - Z.land crc 1) in
  Z.lxor (Z.shiftr crc 1) (Z.land 0xEDB88320 mask).

(** Body of the outer loop: one byte of the input. *)
Definition crc_byte_step (crc : Z) (b : byte) : Z :=
  let crc := Z.lxor crc (to_integer b) in
  Nat.iter 8 crc_bit_step crc.

Definition crc32 (bytes : list byte) : Z :=
  u32 (Z.lnot (foldl crc_byte_step 0xFFFFFFFF bytes)).

(** ** Reference definitions *)

(** The [n] low bits of [v], least significant first: the order in which the
    checksum consumes the bits of a byte. *)
Fixpoint low_bits (n : nat) (v : Z) : list bool :=
  match n with
  | O => []
  | S n' => Z.odd v :: low_bits n' (v / 2)
  end.

Definition byte_bits (b : byte) : list bool := low_bits 8 (to_integer b).
Definition wire_bits (bytes : list byte) : list bool := bytes ≫= byte_bits.

(** Reflected register, one message bit at a time. *)
Definition serial_step (crc : Z) (b : bool) : Z := crc_bit_step (Z.lxor crc (Z.b2z b)).

(** Polynomials over GF(2) are the non-negative integers, bit [i] the coefficient
    of [x^i]; addition is [Z.lxor], multiplication by [x^k] is [Z.shiftl _ k].
    [poly] reads coefficients from the highest degree down, [poly_mul cs g] is the
    product of [poly cs] and [g] by Horner's rule. *)
Definition poly_mul (cs : list bool) (g : Z) : Z :=
  foldl (fun acc c => Z.lxor (Z.shiftl acc 1) (if c : bool then g else 0)) 0 cs.
Definition poly (cs : list bool) : Z := poly_mul cs 1.

(** x^32+x^26+x^23+x^22+x^16+x^12+x^11+x^10+x^8+x^7+x^5+x^4+x^2+x+1. *)
Definition generator : Z := 0x104C11DB7.

(** Exchange of the coefficients of [x^i] and [x^(31-i)]. *)
Definition reflect32 (z : Z) : Z := poly (low_bits 32 z).

(** ** The register as a linear map *)

Definition reflected_generator : Z := 0xEDB88320.

Lemma crc_bit_step_alt c :
  crc_bit_step c = Z.lxor (Z.shiftr c 1) (if Z.odd c then reflected_generator else 0).
Proof.
  unfold crc_bit_step. f_equal.
  change 1 with (Z.ones 1). rewrite Z.land_ones by lia.
  change (2 ^ 1) with 2. rewrite Zmod_odd. destruct (Z.odd c); reflexivity.
Qed.

Lemma crc_bit_step_range c : 0 <= c < 2 ^ 32 -> 0 <= crc_bit_step c < 2 ^ 32.
Proof.
  intros Hc. rewrite crc_bit_step_alt. apply bounded_lxor; [lia| |].
  - rewrite shiftr_1. divmod.
  - unfold reflected_generator. destruct (Z.odd c); lia.
Qed.

Lemma odd_lxor a b : Z.odd (Z.lxor a b) = xorb (Z.odd a) (Z.odd b).
Proof. by rewrite <-!Z.bit0_odd, Z.lxor_spec. Qed.

Lemma crc_bit_step_lxor a b :
  crc_bit_step (Z.lxor a b) = Z.lxor (crc_bit_step a) (crc_bit_step b).
Proof.
  rewrite !crc_bit_step_alt, Z.shiftr_lxor, odd_lxor.
  generalize (Z.shiftr a 1) (Z.shiftr b 1). intros x y.
  destruct (Z.odd a), (Z.odd b); simpl; rewrite ?Z.lxor_0_r, ?Z.lxor_assoc; f_equal.
  - rewrite <-(Z.lxor_assoc _ y), (Z.lxor_comm _ y), Z.lxor_assoc, Z.lxor_nilpotent.
    by rewrite Z.lxor_0_r.
  - apply Z.lxor_comm.
Qed.

Lemma crc_bit_step_0 : crc_bit_step 0 = 0.
Proof. reflexivity. Qed.

Lemma crc_bit_step_double v : crc_bit_step (2 * v) = v.
Proof.
  rewrite crc_bit_step_alt, Z.odd_mul, shiftr_1. simpl (Z.odd 2 && _).
  rewrite Z.lxor_0_r, Z.mul_comm. by apply Z.div_mul.
Qed.

(** The top bit of the register after a step is the bit shifted out, so a step
    loses no information. *)
Lemma crc_bit_step_inj_0 c : 0 <= c < 2 ^ 32 -> crc_bit_step c = 0 -> c = 0.
Proof.
  rewrite crc_bit_step_alt. intros Hc E.
  apply Z.lxor_eq in E.
  rewrite shiftr_1 in E.
  pose proof (Z.div_mod c 2 ltac:(lia)) as Hdm. rewrite Zmod_odd in Hdm.
  unfold reflected_generator in E. destruct (Z.odd c); lia.
Qed.

Lemma iter_step_range n c :
  0 <= c < 2 ^ 32 -> 0 <= Nat.iter n crc_bit_step c < 2 ^ 32.
Proof. intros; induction n; simpl; [done|]. by apply crc_bit_step_range. Qed.

Lemma iter_step_lxor n a b :
  Nat.iter n crc_bit_step (Z.lxor a b) =
  Z.lxor (Nat.iter n crc_bit_step a) (Nat.iter n crc_bit_step b).
Proof. induction n; simpl; [done|]. by rewrite IHn, crc_bit_step_lxor. Qed.

Lemma iter_step_inj_0 n c :
  0 <= c < 2 ^ 32 -> Nat.iter n crc_bit_step c = 0 -> c = 0.
Proof.
  intros Hc. induction n as [|n IH]; simpl; [done|]. intros E.
  apply IH, crc_bit_step_inj_0; [by apply iter_step_range|done].
Qed.

Lemma iter_step_inj n a b :
  0 <= a < 2 ^ 32 -> 0 <= b < 2 ^ 32 ->
  Nat.iter n crc_bit_step a = Nat.iter n crc_bit_step b -> a = b.
Proof.
  intros Ha Hb E. apply Z.lxor_eq, (iter_step_inj_0 n); [by apply bounded_lxor|].
  by rewrite iter_step_lxor, E, Z.lxor_nilpotent.
Qed.

(** ** Bytes and bits *)

(** Little-endian value of a bit string. *)
Fixpoint bits_value (bs : list bool) : Z :=
  match bs with [] => 0 | b :: bs' => Z.b2z b + 2 * bits_value bs' end.

Lemma bits_value_range bs : 0 <= bits_value bs < 2 ^ Z.of_nat (length bs).
Proof.
  induction bs as [|b bs IH]; cbn [bits_value length]; [done|].
  rewrite Nat2Z.inj_succ, Z.pow_succ_r by lia. destruct b; simpl Z.b2z; lia.
Qed.

Lemma bits_value_inj bs cs :
  length bs = length cs -> bits_value bs = bits_value cs -> bs = cs.
Proof.
  revert cs; induction bs as [|b bs IH]; intros [|c cs]; cbn [length bits_value]; try done.
  intros [= Hl] E.
  assert (b = c /\ bits_value bs = bits_value cs) as [-> Ev]
    by (destruct b, c; simpl Z.b2z in E; split; done || lia).
  f_equal. by apply IH.
Qed.

Lemma bits_value_low_bits n v : 0 <= v < 2 ^ Z.of_nat n -> bits_value (low_bits n v) = v.
Proof.
  revert v; induction n as [|n IH]; intros v; cbn [low_bits bits_value]; [lia|].
  rewrite Nat2Z.inj_succ, Z.pow_succ_r by lia. intros Hv.
  rewrite IH by divmod. rewrite (Z.div_mod v 2) at 3 by lia. rewrite Zmod_odd.
  destruct (Z.odd v); simpl Z.b2z; lia.
Qed.

Lemma length_low_bits n v : length (low_bits n v) = n.
Proof. revert v; induction n; intros; simpl; by f_equal. Qed.

(** A run of the bit-serial register adds the little-endian value of the bits to
    the state and then shifts: this is the byte-at-a-time formulation. *)
Lemma serial_run bs s :
  foldl serial_step s bs = Nat.iter (length bs) crc_bit_step (Z.lxor s (bits_value bs)).
Proof.
  revert s; induction bs as [|b bs IH]; intros s; cbn [foldl length bits_value].
  - by rewrite Z.lxor_0_r.
  - rewrite IH. rewrite Nat.iter_succ_r. f_equal. unfold serial_step.
    assert (Z.b2z b + 2 * bits_value bs = Z.lxor (Z.b2z b) (2 * bits_value bs)) as ->.
    { symmetry. rewrite Z.add_nocarry_lxor; [done|].
      apply Z.bits_inj_0. intros k. rewrite Z.land_spec.
      destruct (decide (k = 0)) as [->|].
      - by rewrite !Z.bit0_odd, Z.odd_mul, andb_false_r.
      - destruct b; simpl Z.b2z; [|by rewrite Z.testbit_0_l].
        destruct (decide (0 <= k)); [|by rewrite Z.testbit_neg_r by lia].
        by rewrite (Z.bits_above_log2 1 k) by (simpl; lia). }
    by rewrite <-Z.lxor_assoc, (crc_bit_step_lxor _ (2 * _)), crc_bit_step_double.
Qed.

Lemma crc_byte_step_serial s b : crc_byte_step s b = foldl serial_step s (byte_bits b).
Proof.
  unfold crc_byte_step, byte_bits. rewrite serial_run, length_low_bits.
  by rewrite bits_value_low_bits by apply to_integer_range.
Qed.

Lemma crc_bytes_serial s bytes :
  foldl crc_byte_step s bytes = foldl serial_step s (wire_bits bytes).
Proof.
  revert s; induction bytes as [|b bytes IH]; intros s; [done|].
  cbn [foldl]. unfold wire_bits in *. rewrite bind_cons, foldl_app, IH.
  by rewrite crc_byte_step_serial.
Qed.

Lemma serial_range s bs : 0 <= s < 2 ^ 32 -> 0 <= foldl serial_step s bs < 2 ^ 32.
Proof.
  revert s; induction bs as [|b bs IH]; intros s Hs; [done|]. cbn [foldl].
  apply IH, crc_bit_step_range, bounded_lxor; [lia|done|destruct b; simpl; lia].
Qed.

Lemma crc_bytes_range s bytes :
  0 <= s < 2 ^ 32 -> 0 <= foldl crc_byte_step s bytes < 2 ^ 32.
Proof. intros. rewrite crc_bytes_serial. by apply serial_range. Qed.

(** The final complement is a bijection of the 32-bit values. *)
Lemma u32_lnot z : 0 <= z < 2 ^ 32 -> u32 (Z.lnot z) = 2 ^ 32 - 1 - z.
Proof. intros. unfold u32, Z.lnot. divmod. Qed.

Lemma crc32_alt bytes :
  crc32 bytes = 2 ^ 32 - 1 - foldl serial_step 0xFFFFFFFF (wire_bits bytes).
Proof.
  unfold crc32. rewrite crc_bytes_serial. by apply u32_lnot, serial_range.
Qed.

Lemma crc32_range bytes : 0 <= crc32 bytes < 2 ^ 32.
Proof. unfold crc32, u32. divmod. Qed.

#[export] Hint Resolve crc32_range : imlp.

(** ** The remainder of a division of polynomials *)

Lemma poly_mul_snoc cs c g :
  poly_mul (cs ++ [c]) g = Z.lxor (Z.shiftl (poly_mul cs g) 1) (if c : bool then g else 0).
Proof. unfold poly_mul. by rewrite foldl_app. Qed.

Lemma poly_snoc cs c : poly (cs ++ [c]) = Z.lxor (Z.shiftl (poly cs) 1) (Z.b2z c).
Proof. unfold poly. rewrite poly_mul_snoc. by destruct c. Qed.

Lemma testbit_poly cs (i : nat) :
  Z.testbit (poly cs) (Z.of_nat i) = default false (reverse cs !! i).
Proof.
  revert i; induction cs as [|c cs IH] using rev_ind; intros i.
  - by rewrite Z.testbit_0_l.
  - rewrite poly_snoc, reverse_snoc, Z.lxor_spec.
    destruct i as [|i]; cbn [lookup list_lookup default].
    + rewrite Z.shiftl_spec_low by lia. by destruct c.
    + rewrite testbit_b2z, xorb_false_r, Z.shiftl_spec by lia.
      rewrite <-IH. f_equal. lia.
Qed.

Lemma low_bits_lookup n v i :
  (i < n)%nat -> low_bits n v !! i = Some (Z.testbit v (Z.of_nat i)).
Proof.
  revert v i; induction n as [|n IH]; intros v [|i] Hi; try lia; cbn [low_bits lookup list_lookup].
  - by rewrite Z.bit0_odd.
  - rewrite IH by lia. f_equal. rewrite Z.div2_bits by lia. f_equal. lia.
Qed.

Lemma testbit_reflect32 z i :
  0 <= i -> Z.testbit (reflect32 z) i = (i <? 32) && Z.testbit z (31 - i).
Proof.
  intros Hi. rewrite <-(Z2Nat.id i) at 1 by done. unfold reflect32. rewrite testbit_poly.
  destruct (Z.ltb_spec i 32); cbn [andb].
  - rewrite reverse_lookup by (rewrite length_low_bits; lia).
    rewrite length_low_bits, low_bits_lookup by lia. cbn [from_option id]. f_equal. lia.
  - rewrite lookup_ge_None_2; [done|]. rewrite length_reverse, length_low_bits. lia.
Qed.

Lemma reflect32_range z : 0 <= reflect32 z < 2 ^ 32.
Proof.
  assert (Hn : forall cs, 0 <= poly cs).
  { induction cs as [|c cs IH] using rev_ind; [done|]. rewrite poly_snoc.
    apply Z.lxor_nonneg. rewrite Z.shiftl_nonneg. destruct c; simpl; lia. }
  split; [apply Hn|]. apply Z.bounded_iff_bits_nonneg; [lia|apply Hn|].
  intros l Hl. rewrite testbit_reflect32 by lia. by destruct (Z.ltb_spec l 32); [lia|].
Qed.

(** The reflected register steps like the register of the long division. *)
Definition division_step (r : Z) (b : bool) : Z :=
  let t := Z.lxor (Z.shiftl r 1) (Z.shiftl (Z.b2z b) 32) in
  Z.lxor t (if Z.testbit t 32 then generator else 0).

Lemma generator_reflected i :
  0 <= i -> Z.testbit generator i = xorb (Z.testbit (reflect32 reflected_generator) i) (i =? 32).
Proof.
  intros Hi.
  replace generator with (Z.lxor (reflect32 reflected_generator) (2 ^ 32)) by reflexivity.
  rewrite Z.lxor_spec. f_equal. destruct (Z.eqb_spec i 32) as [->|]; [done|].
  by apply Z.pow2_bits_false.
Qed.

Lemma reflect32_bit_step s :
  0 <= s < 2 ^ 32 ->
  reflect32 (crc_bit_step s) =
  Z.lxor (Z.shiftl (reflect32 s) 1) (if Z.odd s then generator else 0).
Proof.
  intros Hs. rewrite crc_bit_step_alt. apply Z.bits_inj'. intros i Hi.
  rewrite testbit_reflect32, !Z.lxor_spec, Z.shiftl_spec by done.
  assert (Z.testbit (if Z.odd s then generator else 0) i =
          Z.odd s && xorb ((i <? 32) && Z.testbit reflected_generator (31 - i)) (i =? 32)) as ->.
  { destruct (Z.odd s); [|by rewrite Z.testbit_0_l].
    by rewrite generator_reflected, testbit_reflect32 by done. }
  assert (Z.testbit (if Z.odd s then reflected_generator else 0) (31 - i) =
          Z.odd s && Z.testbit reflected_generator (31 - i)) as ->.
  { by destruct (Z.odd s); [|rewrite Z.testbit_0_l]. }
  destruct (decide (i = 0)) as [->|].
  { rewrite (Z.testbit_neg_r _ (0 - 1)), Z.shiftr_spec by lia.
    by rewrite (testbit_high 32 s) by lia. }
  rewrite testbit_reflect32 by lia.
  destruct (Z.ltb_spec i 32); simpl.
  - rewrite Z.shiftr_spec by lia. destruct (Z.ltb_spec (i - 1) 32), (Z.eqb_spec i 32); try lia.
    rewrite xorb_false_r. simpl. do 2 f_equal. lia.
  - destruct (Z.ltb_spec (i - 1) 32), (Z.eqb_spec i 32); try lia; subst; simpl.
    + by destruct (Z.odd s).
    + by rewrite andb_false_r.
Qed.

Lemma reflect32_lxor a b : reflect32 (Z.lxor a b) = Z.lxor (reflect32 a) (reflect32 b).
Proof.
  apply Z.bits_inj'. intros i Hi. rewrite Z.lxor_spec, !testbit_reflect32, Z.lxor_spec by done.
  by destruct (i <? 32).
Qed.

Lemma reflect32_serial_step s b :
  0 <= s < 2 ^ 32 -> reflect32 (serial_step s b) = division_step (reflect32 s) b.
Proof.
  intros Hs. unfold serial_step, division_step. set (s' := Z.lxor s (Z.b2z b)).
  assert (0 <= s' < 2 ^ 32) by (apply bounded_lxor; [lia|done|destruct b; simpl; lia]).
  rewrite reflect32_bit_step by done.
  assert (Z.lxor (Z.shiftl (reflect32 s) 1) (Z.shiftl (Z.b2z b) 32)
          = Z.shiftl (reflect32 s') 1) as ->.
  { unfold s'. rewrite reflect32_lxor, Z.shiftl_lxor. f_equal. by destruct b. }
  f_equal. rewrite Z.shiftl_spec, testbit_reflect32 by lia. by rewrite <-Z.bit0_odd.
Qed.

Lemma division_run bs s :
  0 <= s < 2 ^ 32 ->
  exists q,
    Z.lxor (Z.lxor (Z.shiftl (poly bs) 32) (Z.shiftl (reflect32 s) (Z.of_nat (length bs))))
           (reflect32 (foldl serial_step s bs)) = poly_mul q generator.
Proof.
  intros Hs. induction bs as [|b bs IH] using rev_ind.
  - exists []. cbn [length foldl]. by rewrite Z.shiftl_0_r, Z.lxor_0_l, Z.lxor_nilpotent.
  - destruct IH as [q IH].
    assert (Hr : 0 <= foldl serial_step s bs < 2 ^ 32) by by apply serial_range.
    rewrite foldl_app. cbn [foldl]. rewrite reflect32_serial_step by done.
    unfold division_step. set (r := reflect32 (foldl serial_step s bs)) in *.
    set (t := Z.lxor (Z.shiftl r 1) (Z.shiftl (Z.b2z b) 32)).
    exists (q ++ [Z.testbit t 32]). rewrite poly_mul_snoc, <-IH, poly_snoc.
    generalize (if Z.testbit t 32 then generator else 0). intros g. unfold t.
    rewrite length_app, Nat2Z.inj_add. cbn [length].
    rewrite !Z.shiftl_lxor, !Z.shiftl_shiftl by lia.
    replace (Z.of_nat (length bs) + Z.of_nat 1) with (Z.of_nat (length bs) + 1) by lia.
    change (1 + 32) with (32 + 1).
    generalize (Z.shiftl (poly bs) (32 + 1)) (Z.shiftl (Z.b2z b) 32)
      (Z.shiftl (reflect32 s) (Z.of_nat (length bs) + 1)) (Z.shiftl r 1).
    intros x y z w. apply Z.bits_inj'. intros i _. rewrite !Z.lxor_spec.
    by destruct (Z.testbit x i), (Z.testbit y i), (Z.testbit z i), (Z.testbit w i),
      (Z.testbit g i).
Qed.

(** ** What the checksum detects *)

Lemma crc32_eq_serial bs1 bs2 :
  crc32 bs1 = crc32 bs2 ->
  foldl serial_step 0xFFFFFFFF (wire_bits bs1) = foldl serial_step 0xFFFFFFFF (wire_bits bs2).
Proof. rewrite !crc32_alt. lia. Qed.

(** The difference of two registers fed with the same bits evolves linearly, so
    it never disappears. *)
Lemma serial_diff s1 s2 bs :
  Z.lxor (foldl serial_step s1 bs) (foldl serial_step s2 bs) =
  Nat.iter (length bs) crc_bit_step (Z.lxor s1 s2).
Proof.
  rewrite !serial_run, <-iter_step_lxor. f_equal.
  apply Z.bits_inj'. intros i _. rewrite !Z.lxor_spec.
  by destruct (Z.testbit s1 i), (Z.testbit s2 i), (Z.testbit (bits_value bs) i).
Qed.

Lemma serial_inj s1 s2 bs :
  0 <= s1 < 2 ^ 32 -> 0 <= s2 < 2 ^ 32 ->
  foldl serial_step s1 bs = foldl serial_step s2 bs -> s1 = s2.
Proof.
  intros H1 H2 E. apply Z.lxor_eq, (iter_step_inj_0 (length bs)); [by apply bounded_lxor|].
  by rewrite <-serial_diff, E, Z.lxor_nilpotent.
Qed.

Lemma serial_window s w1 w2 :
  0 <= s < 2 ^ 32 -> length w1 = length w2 -> (length w1 <= 32)%nat ->
  foldl serial_step s w1 = foldl serial_step s w2 -> w1 = w2.
Proof.
  intros Hs Hl H32. rewrite !serial_run, Hl. intros E.
  assert (Hb : forall w, (length w <= 32)%nat -> 0 <= bits_value w < 2 ^ 32).
  { intros w Hw. pose proof (bits_value_range w).
    pose proof (Z.pow_le_mono_r 2 (Z.of_nat (length w)) 32). lia. }
  apply iter_step_inj in E; [|apply bounded_lxor; [lia|done|apply Hb; lia]..].
  apply bits_value_inj; [done|].
  apply (f_equal (Z.lxor s)) in E. by rewrite <-!Z.lxor_assoc, !Z.lxor_nilpotent, !Z.lxor_0_l in E.
Qed.

(** Two byte strings whose bits, in transmission order, differ only inside a
    window of at most [n] consecutive bits. *)
Definition differ_in_window (n : nat) (bs1 bs2 : list byte) : Prop :=
  exists pre w1 w2 post,
    wire_bits bs1 = pre ++ w1 ++ post /\ wire_bits bs2 = pre ++ w2 ++ post /\
    length w1 = length w2 /\ (length w1 <= n)%nat /\ w1 <> w2.

Lemma crc32_window bs1 bs2 : differ_in_window 32 bs1 bs2 -> crc32 bs1 <> crc32 bs2.
Proof.
  intros (pre & w1 & w2 & post & E1 & E2 & Hl & H32 & Hne) E.
  apply crc32_eq_serial in E. rewrite E1, E2, !foldl_app in E.
  assert (0 <= foldl serial_step 0xFFFFFFFF pre < 2 ^ 32) by by apply serial_range.
  apply serial_inj in E; [|by apply serial_range..].
  by apply Hne, (serial_window _ _ _ ltac:(done) Hl H32 E).
Qed.

(** The bits of the two strings differ in exactly two places. *)
Definition differ_in_two_bits (bs1 bs2 : list byte) : Prop :=
  exists pre a mid b post,
    wire_bits bs1 = pre ++ a :: mid ++ b :: post /\
    wire_bits bs2 = pre ++ negb a :: mid ++ negb b :: post.

(** No power of [x] below the length of a frame in bits is congruent to 1. *)
Fixpoint avoids_one (n : nat) (c : Z) : bool :=
  match n with
  | O => true
  | S n' => let c' := crc_bit_step c in negb (c' =? 1) && avoids_one n' c'
  end.

Lemma avoids_one_spec n c k :
  avoids_one n c = true -> (0 < k <= n)%nat -> Nat.iter k crc_bit_step c <> 1.
Proof.
  revert c k; induction n as [|n IH]; intros c k; cbn [avoids_one]; [lia|].
  intros Ht Hk. bool_props. destruct k as [|k]; [lia|].
  rewrite Nat.iter_succ_r. destruct k as [|k]; [done|]. apply IH; [done|lia].
Qed.

Definition maximum_frame_bits : nat := Z.to_nat (8 * maximum_frame_size).

Lemma no_short_period : avoids_one maximum_frame_bits 1 = true.
Proof. vm_compute. reflexivity. Qed.

Lemma length_wire_bits bs : length (wire_bits bs) = (8 * length bs)%nat.
Proof.
  unfold wire_bits. induction bs as [|b bs IH]; [done|].
  rewrite bind_cons, length_app, IH. unfold byte_bits. rewrite length_low_bits.
  cbn [length]. lia.
Qed.

Lemma iter_add n m (c : Z) :
  Nat.iter n crc_bit_step (Nat.iter m crc_bit_step c) = Nat.iter (n + m) crc_bit_step c.
Proof. induction n; simpl; congruence. Qed.

Lemma crc32_two_bits bs1 bs2 :
  zlen bs1 <= maximum_frame_size -> differ_in_two_bits bs1 bs2 -> crc32 bs1 <> crc32 bs2.
Proof.
  intros Hlen (pre & a & mid & b & post & E1 & E2) E.
  apply crc32_eq_serial in E. rewrite E1, E2 in E.
  rewrite !foldl_app in E. cbn [foldl] in E. rewrite !foldl_app in E. cbn [foldl] in E.
  set (s := foldl serial_step 0xFFFFFFFF pre) in *.
  assert (Hs : 0 <= s < 2 ^ 32) by by apply serial_range.
  assert (Hr : forall s c, 0 <= s < 2 ^ 32 -> 0 <= serial_step s c < 2 ^ 32)
    by (intros s0 c ?; apply (serial_range s0 [c]); done).
  apply serial_inj in E; [|by apply Hr, serial_range, Hr..].
  assert (Hd : forall s1 s2 c1 c2, Z.lxor (serial_step s1 c1) (serial_step s2 c2) =
     crc_bit_step (Z.lxor (Z.lxor s1 s2) (Z.b2z (xorb c1 c2)))).
  { intros s1 s2 c1 c2. unfold serial_step. rewrite <-crc_bit_step_lxor. f_equal.
    apply Z.bits_inj'. intros i _. rewrite !Z.lxor_spec.
    destruct c1, c2; simpl Z.b2z; rewrite ?Z.testbit_0_l;
      by destruct (Z.testbit s1 i), (Z.testbit s2 i), (Z.testbit 1 i). }
  apply (f_equal (Z.lxor (serial_step (foldl serial_step (serial_step s a) mid) b))) in E.
  rewrite Z.lxor_nilpotent, !Hd, serial_diff, Hd, Z.lxor_nilpotent in E.
  assert (Hx : forall c, Z.b2z (xorb c (negb c)) = 1) by by intros [].
  rewrite !Hx, Z.lxor_0_l in E.
  assert (Hm : (S (length mid) <= maximum_frame_bits)%nat).
  { apply (f_equal length) in E1. rewrite length_wire_bits, !length_app in E1.
    cbn [length] in E1. rewrite length_app in E1. cbn [length] in E1.
    unfold maximum_frame_bits, zlen in *. lia. }
  symmetry in E. apply crc_bit_step_inj_0 in E.
  - apply Z.lxor_eq in E. rewrite <-Nat.iter_succ_r in E.
    by apply (avoids_one_spec _ _ (S (length mid)) no_short_period) in E; [|lia].
  - apply bounded_lxor; [lia| |lia]. apply iter_step_range. by apply crc_bit_step_range.
Qed.

(** ** Properties *)

(** C12. [crc32] is the checksum IEEE 802.3 defines: with the message bits in
    transmission order as the coefficients of a polynomial M of degree below n,
    the reflected complement of the result is the remainder of
    M x^32 + (x^31 + ... + 1) x^n by the generator. *)
Theorem crc32_is_polynomial_remainder bytes :
  let bits := wire_bits bytes in
  let remainder := reflect32 (u32 (Z.lnot (crc32 bytes))) in
  0 <= remainder < 2 ^ 32 /\
  exists quotient,
    Z.lxor (Z.lxor (Z.shiftl (poly bits) 32)
                   (Z.shiftl 0xFFFFFFFF (Z.of_nat (length bits))))
           remainder
    = poly_mul quotient generator.
Proof.
  cbn zeta. split; [apply reflect32_range|].
  destruct (division_run (wire_bits bytes) 0xFFFFFFFF) as [q Hq]; [lia|].
  exists q. rewrite <-Hq. change (reflect32 0xFFFFFFFF) with 0xFFFFFFFF.
  rewrite u32_lnot by apply crc32_range. rewrite crc32_alt. do 2 f_equal. lia.
Qed.

(** Two byte strings whose bits differ only inside a window of 32 consecutive
    bits, or differ in exactly two bits and are no longer than a frame, have
    different checksums. *)
Theorem crc32_detects_bursts_and_double_errors bs1 bs2 :
  differ_in_window 32 bs1 bs2 \/
    (zlen bs1 <= maximum_frame_size /\ differ_in_two_bits bs1 bs2) ->
  crc32 bs1 <> crc32 bs2.
Proof. intros [H|[Hl H]]; [by apply crc32_window | by apply crc32_two_bits]. Qed.

Lemma crc32_detects_bursts_and_double_errors_witness :
  crc32 [to_byte 0x31; to_byte 0x32] <> crc32 [to_byte 0x3E; to_byte 0x32].
Proof.
  apply crc32_detects_bursts_and_double_errors. left.
  exists [], [true; false; false; false], [false; true; true; true],
    [true; true; false; false; false; true; false; false; true; true; false; false].
  repeat split; simpl; done || lia.
Defined.

(** The published check value, also asserted by [tests/test_codec.cpp]. *)
Example crc32_check_value :
  crc32 (to_byte <$> (char_value <$> chars "123456789")) = 0xCBF43926.
Proof. vm_compute. reflexivity. Qed.
