(* ===== verification/Hex.v ===== *)
(** * Hexadecimal text: [bytes_to_hex], [bytes_from_hex] and [hex_nibble] of
    [src/codec.cpp]. *)

From Stdlib Require Import Ascii.
From S2P Require Import Prelude Types.

(** ** The routines of the source *)

(** A [char] compares with an ASCII character the same way whether it is signed
    or not, because a negative [char] is below every bound and a value above 127
    is above every bound. *)
Definition hex_nibble (value : Ascii.ascii) : option Z :=
  let v := char_value value in
  if (48 <=? v) && (v <=? 57) then Some (u8 (v - 48))
  else if (97 <=? v) && (v <=? 102) then Some (u8 (v - 97 + 10))
  else if (65 <=? v) && (v <=? 70) then Some (u8 (v - 65 + 10))
  else None.

(** The constant [digits] of [bytes_to_hex]. *)
Definition digits : list Ascii.ascii := chars "0123456789abcdef".

Definition bytes_to_hex (bytes : list byte) : Exec string :=
  result ← for_each bytes (fun result b =>
    let value := to_integer b in
    high ← vec_at digits (Z.shiftr value 4);
    low ← vec_at digits (Z.land value 0x0F);
    Done (result ++ [high] ++ [low])) [];
  Done (of_chars result).

(** Body of the loop of [bytes_from_hex]. *)
Definition from_hex_step (text : list Ascii.ascii) (index : Z) (result : list byte)
    : Exec (list byte + option (list byte)) :=
  c ← vec_at text index;
  let high := hex_nibble c in
  c' ← vec_at text (usize (index + 1));
  let low := hex_nibble c' in
  match high, low with
  | Some high, Some low =>
      Done (inl (result ++ [to_byte (u8 (Z.lor (Z.shiftl high 4) low))]))
  | _, _ => Done (inr None)
  end.

Definition bytes_from_hex (text : string) : Exec (option (list byte)) :=
  let text := chars text in
  if negb (zlen text mod 2 =? 0) || (maximum_frame_size <? zlen text / 2) then Done None
  else
    r ← for_loop (length text) 0 (zlen text) 2 (from_hex_step text) [];
    match r with
    | inl result => Done (Some result)
    | inr returned => Done returned
    end.

(** ** Reference definitions *)

(** The two lower-case digits of a byte. *)
Definition hex_digit (v : Z) : Ascii.ascii := default "0"%char (digits !! Z.to_nat v).
Definition hex_of_byte (b : byte) : list Ascii.ascii :=
  [hex_digit (to_integer b / 16); hex_digit (to_integer b mod 16)].
Definition hex_of_bytes (bs : list byte) : list Ascii.ascii := bs ≫= hex_of_byte.

(** Reading pairs of digits. *)
Fixpoint hex_pairs (cs : list Ascii.ascii) : option (list byte) :=
  match cs with
  | c :: c' :: cs' =>
      match hex_nibble c, hex_nibble c', hex_pairs cs' with
      | Some high, Some low, Some bs => Some (to_byte (16 * high + low) :: bs)
      | _, _, _ => None
      end
  | _ => Some []
  end.

(** The letters A to F in lower case, every other character unchanged. *)
Definition lower_hex_char (c : Ascii.ascii) : Ascii.ascii :=
  let v := char_value c in
  if (65 <=? v) && (v <=? 70) then Ascii.ascii_of_N (Z.to_N (v + 32)) else c.
Definition lower_hex (s : string) : string := of_chars (map lower_hex_char (chars s)).

(** ** Characters *)

Ltac all_chars c := destruct c as [[] [] [] [] [] [] [] []].

Lemma hex_nibble_lower c : hex_nibble (lower_hex_char c) = hex_nibble c.
Proof. all_chars c; vm_compute; reflexivity. Qed.

Lemma hex_nibble_range c v : hex_nibble c = Some v -> 0 <= v < 16.
Proof.
  unfold hex_nibble, u8. repeat case_match; intros [= <-]; bool_props; divmod.
Qed.

Lemma hex_digit_nibble c v : hex_nibble c = Some v -> hex_digit v = lower_hex_char c.
Proof.
  assert (match hex_nibble c with Some v => hex_digit v = lower_hex_char c | None => True end)
    as H by (all_chars c; vm_compute; exact I || reflexivity).
  by intros E; rewrite E in H.
Qed.

Lemma below_16_cases (P : Z -> Prop) :
  Forall P [0;1;2;3;4;5;6;7;8;9;10;11;12;13;14;15] -> forall v, 0 <= v < 16 -> P v.
Proof.
  intros HP v Hv. rewrite Forall_forall in HP. apply HP.
  assert (v ∈ (Z.of_nat <$> seq 0 16)) as Hin; [|exact Hin].
  apply list_elem_of_fmap. exists (Z.to_nat v). split; [lia|]. apply elem_of_seq. lia.
Qed.

Lemma hex_nibble_digit v : 0 <= v < 16 -> hex_nibble (hex_digit v) = Some v.
Proof. revert v. apply below_16_cases. repeat constructor. Qed.

Lemma hex_digit_lower v : 0 <= v < 16 -> lower_hex_char (hex_digit v) = hex_digit v.
Proof. revert v. apply below_16_cases. repeat constructor. Qed.

Lemma vec_at_digits v : 0 <= v < 16 -> vec_at digits v = Done (hex_digit v).
Proof. revert v. apply below_16_cases. repeat constructor. Qed.

(** ** The routines against the reference *)

Lemma bytes_to_hex_spec bs : bytes_to_hex bs = Done (of_chars (hex_of_bytes bs)).
Proof.
  unfold bytes_to_hex.
  match goal with |- context [for_each bs ?f] => set (body := f) end.
  assert (Hstep : forall acc b, body acc b = Done (acc ++ hex_of_byte b)).
  { intros acc b. pose proof (to_integer_range b). unfold body. cbn zeta.
    change 0x0F with (Z.ones 4). rewrite Z.land_ones, Z.shiftr_div_pow2 by lia.
    by rewrite !vec_at_digits by divmod. }
  assert (H : forall acc, for_each bs body acc = Done (acc ++ hex_of_bytes bs)).
  { unfold hex_of_bytes. induction bs as [|b bs IH]; intros acc; cbn [for_each].
    { by rewrite app_nil_r. }
    rewrite Hstep. cbn [mbind exec_bind]. by rewrite IH, bind_cons, <-app_assoc. }
  by rewrite H.
Qed.

Lemma pair_value high low :
  0 <= high < 16 -> 0 <= low < 16 -> u8 (Z.lor (Z.shiftl high 4) low) = 16 * high + low.
Proof. intros. rewrite lor_shiftl by lia. unfold u8. divmod. Qed.

Lemma from_hex_step_spec pre c c' rest acc :
  zlen (pre ++ c :: c' :: rest) < 2 ^ 32 ->
  from_hex_step (pre ++ c :: c' :: rest) (zlen pre) acc =
  Done match hex_nibble c, hex_nibble c' with
       | Some high, Some low => inl (acc ++ [to_byte (16 * high + low)])
       | _, _ => inr None
       end.
Proof.
  rewrite zlen_app, !zlen_cons. intros Hlt.
  pose proof (zlen_nonneg pre). pose proof (zlen_nonneg rest).
  unfold from_hex_step. rewrite vec_at_middle. cbn [mbind exec_bind].
  replace (usize (zlen pre + 1)) with (zlen (pre ++ [c]))
    by (rewrite zlen_app, !zlen_cons, zlen_nil; unfold usize; rewrite Z.mod_small; lia).
  rewrite (cons_middle c pre), (app_assoc pre), vec_at_middle. cbn [mbind exec_bind].
  destruct (hex_nibble c) eqn:Eh, (hex_nibble c') eqn:El; try done.
  by rewrite pair_value by (eapply hex_nibble_range; eassumption).
Qed.

Lemma from_hex_loop fuel pre rest acc :
  Nat.even (length rest) -> zlen (pre ++ rest) < 2 ^ 32 -> (length rest <= fuel)%nat ->
  for_loop fuel (zlen pre) (zlen (pre ++ rest)) 2 (from_hex_step (pre ++ rest)) acc =
  Done match hex_pairs rest with
       | Some bs => inl (acc ++ bs)
       | None => inr None
       end.
Proof.
  revert pre rest acc; induction fuel as [fuel IH] using lt_wf_ind;
    intros pre rest acc Hev Hlt Hfuel.
  destruct rest as [|c [|c' rest]]; [|done|].
  - cbn [hex_pairs]. rewrite !app_nil_r. by destruct fuel; cbn [for_loop]; rewrite Z.ltb_irrefl.
  - pose proof (zlen_nonneg pre). pose proof (zlen_nonneg rest).
    destruct fuel as [|fuel]; [simpl in Hfuel; lia|]. cbn [for_loop].
    pose proof Hlt as Hz. rewrite zlen_app, !zlen_cons in Hz.
    rewrite (proj2 (Z.ltb_lt _ _)) by (rewrite zlen_app, !zlen_cons; lia).
    rewrite from_hex_step_spec by done. cbn [mbind exec_bind hex_pairs].
    destruct (hex_nibble c) as [high|]; [|done].
    destruct (hex_nibble c') as [low|]; [|done].
    replace (usize (zlen pre + 2)) with (zlen (pre ++ [c; c']))
      by (rewrite zlen_app, !zlen_cons, zlen_nil; unfold usize; rewrite Z.mod_small; lia).
    change (c :: c' :: rest) with ([c; c'] ++ rest) in *.
    rewrite (app_assoc pre) in *.
    rewrite IH; [|lia|done|done|simpl in Hfuel; lia].
    destruct (hex_pairs rest); [|done]. by rewrite <-app_assoc.
Qed.

Definition hex_text_fits (text : string) : bool :=
  (zlen (chars text) mod 2 =? 0) && (zlen (chars text) / 2 <=? maximum_frame_size).

Lemma bytes_from_hex_spec text :
  bytes_from_hex text =
  Done (if hex_text_fits text then hex_pairs (chars text) else None).
Proof.
  unfold bytes_from_hex, hex_text_fits.
  destruct (Z.eqb_spec (zlen (chars text) mod 2) 0) as [He|]; cbn [negb orb andb]; [|done].
  rewrite Z.ltb_antisym.
  destruct (Z.leb_spec (zlen (chars text) / 2) maximum_frame_size) as [Hm|]; cbn [negb]; [|done].
  rewrite (from_hex_loop _ [] (chars text)); [| | |done].
  - simpl. by destruct (hex_pairs _).
  - apply Is_true_true, Nat.even_spec. exists (Z.to_nat (zlen (chars text) / 2)).
    unfold zlen in *. divmod.
  - cbn [app]. unfold maximum_frame_size, header_size, maximum_payload_size, checksum_size in Hm. divmod.
Qed.

(** ** Decoding and encoding *)

Lemma hex_of_byte_pair b c c' high low :
  hex_nibble c = Some high -> hex_nibble c' = Some low ->
  (to_byte (16 * high + low) = b <->
   hex_of_byte b = [lower_hex_char c; lower_hex_char c']).
Proof.
  intros Eh El.
  pose proof (hex_nibble_range _ _ Eh). pose proof (hex_nibble_range _ _ El).
  rewrite <-(hex_digit_nibble _ _ Eh), <-(hex_digit_nibble _ _ El).
  pose proof (to_integer_range b). split.
  - intros <-. unfold hex_of_byte. rewrite to_integer_to_byte_small by lia.
    do 2 f_equal; [f_equal; divmod|]. do 2 f_equal. divmod.
  - unfold hex_of_byte. intros [= E1 E2].
    apply (f_equal hex_nibble) in E1, E2.
    rewrite !hex_nibble_digit in E1, E2 by divmod. injection E1 as E1. injection E2 as E2.
    rewrite <-(to_byte_to_integer b). f_equal. divmod.
Qed.

Lemma hex_nibble_of_byte b c c' :
  hex_of_byte b = [lower_hex_char c; lower_hex_char c'] ->
  is_Some (hex_nibble c) /\ is_Some (hex_nibble c').
Proof.
  pose proof (to_integer_range b). unfold hex_of_byte. intros [= E1 E2].
  rewrite <-(hex_nibble_lower c), <-(hex_nibble_lower c'), <-E1, <-E2.
  rewrite !hex_nibble_digit by divmod. eauto.
Qed.

Lemma length_hex_of_bytes bs : length (hex_of_bytes bs) = (2 * length bs)%nat.
Proof.
  unfold hex_of_bytes. induction bs as [|b bs IH]; [done|].
  rewrite bind_cons, length_app, IH. cbn [length hex_of_byte]. lia.
Qed.

Lemma hex_pairs_spec cs bs :
  Nat.even (length cs) ->
  (hex_pairs cs = Some bs <-> hex_of_bytes bs = map lower_hex_char cs).
Proof.
  revert bs; induction cs as [cs IH] using (induction_ltof1 _ length).
  intros bs Hev. destruct cs as [|c [|c' cs]]; [|done|].
  - cbn [hex_pairs map]. split; [by intros [= <-]|].
    intros E. apply (f_equal length) in E. rewrite length_hex_of_bytes in E.
    by destruct bs.
  - assert (IHcs : forall bs, hex_pairs cs = Some bs <-> hex_of_bytes bs = map lower_hex_char cs)
      by (intros; apply IH; [unfold ltof; simpl; lia|done]).
    cbn [hex_pairs map]. split.
    + destruct (hex_nibble c) as [high|] eqn:Eh; [|done].
      destruct (hex_nibble c') as [low|] eqn:El; [|done].
      destruct (hex_pairs cs) as [bs'|]; [|done]. intros [= <-].
      unfold hex_of_bytes. rewrite bind_cons.
      rewrite (proj1 (hex_of_byte_pair _ c c' _ _ Eh El) eq_refl).
      cbn [app]. do 2 f_equal. by apply IHcs.
    + destruct bs as [|b bs]; [done|]. unfold hex_of_bytes. rewrite bind_cons.
      intros E. change (hex_of_byte b ++ hex_of_bytes bs =
        [lower_hex_char c; lower_hex_char c'] ++ map lower_hex_char cs) in E.
      apply app_inj_1 in E as [E1 E2]; [|done].
      destruct (hex_nibble_of_byte _ _ _ E1) as [[high Eh] [low El]].
      apply (hex_of_byte_pair _ _ _ _ _ Eh El) in E1.
      apply IHcs in E2. by rewrite Eh, El, E2, E1.
Qed.

Lemma chars_of_chars l : chars (of_chars l) = l.
Proof. apply String.list_ascii_of_string_of_list_ascii. Qed.

Lemma of_chars_chars s : of_chars (chars s) = s.
Proof. apply String.string_of_list_ascii_of_string. Qed.

Lemma of_chars_inj l k : of_chars l = of_chars k -> l = k.
Proof. intros E. apply (f_equal chars) in E. by rewrite !chars_of_chars in E. Qed.

(** What [bytes_from_hex] answers, in terms of [bytes_to_hex] alone. *)
Lemma bytes_from_hex_iff text bs :
  bytes_from_hex text = Done (Some bs) <->
  zlen bs <= maximum_frame_size /\ bytes_to_hex bs = Done (lower_hex text).
Proof.
  rewrite bytes_from_hex_spec, bytes_to_hex_spec. unfold hex_text_fits, lower_hex.
  assert (Hlen : hex_of_bytes bs = map lower_hex_char (chars text) ->
                 zlen (chars text) = 2 * zlen bs).
  { intros E. apply (f_equal length) in E. rewrite length_hex_of_bytes, length_map in E.
    unfold zlen. lia. }
  assert (Heven : zlen (chars text) mod 2 = 0 -> Nat.even (length (chars text))).
  { intros He. apply Is_true_true, Nat.even_spec.
    exists (Z.to_nat (zlen (chars text) / 2)). unfold zlen in *. divmod. }
  split.
  - destruct (Z.eqb_spec (zlen (chars text) mod 2) 0) as [He|]; [|done].
    destruct (Z.leb_spec (zlen (chars text) / 2) maximum_frame_size) as [Hm|]; [|done].
    cbn [andb]. intros [= E]. apply hex_pairs_spec in E; [|by apply Heven].
    split; [|by rewrite E]. specialize (Hlen E). rewrite Hlen in Hm.
    by rewrite Z.mul_comm, Z.div_mul in Hm.
  - intros [Hm [= E]]. apply of_chars_inj in E. specialize (Hlen E).
    assert (He : zlen (chars text) mod 2 = 0) by (rewrite Hlen; divmod).
    rewrite He, Z.eqb_refl. rewrite (proj2 (Z.leb_le _ _))
      by (rewrite Hlen, Z.mul_comm, Z.div_mul by lia; done).
    cbn [andb]. do 2 f_equal. apply hex_pairs_spec; [by apply Heven|done].
Qed.

Lemma lower_hex_to_hex bs : lower_hex (of_chars (hex_of_bytes bs)) = of_chars (hex_of_bytes bs).
Proof.
  unfold lower_hex, hex_of_bytes. rewrite chars_of_chars. f_equal.
  induction bs as [|b bs IH]; [done|]. pose proof (to_integer_range b).
  rewrite !bind_cons, map_app, IH. f_equal. cbn [map hex_of_byte].
  by rewrite !hex_digit_lower by divmod.
Qed.

(** ** Properties *)

(** C30. Hexadecimal text: [bytes_to_hex] is total; [bytes_from_hex] is total (its
    reads stay inside the text) and answers bytes exactly when there are at most
    278 of them and the text is their hexadecimal form up to the case of the
    letters, so it accepts no separator, odd digit or partial input. *)
Theorem hex_round_trip :
  (forall bs, exists text, bytes_to_hex bs = Done text) /\
  (forall text, exists answer, bytes_from_hex text = Done answer) /\
  (forall text bs, bytes_from_hex text = Done (Some bs) <->
     zlen bs <= maximum_frame_size /\ bytes_to_hex bs = Done (lower_hex text)) /\
  (forall bs text, zlen bs <= maximum_frame_size -> bytes_to_hex bs = Done text ->
     bytes_from_hex text = Done (Some bs)).
Proof.
  split; [intros bs; rewrite bytes_to_hex_spec; eauto|].
  split; [intros text; rewrite bytes_from_hex_spec; eauto|].
  split; [apply bytes_from_hex_iff|].
  intros bs text Hbs Ht. apply bytes_from_hex_iff. split; [done|].
  rewrite bytes_to_hex_spec in *. injection Ht as <-. by rewrite lower_hex_to_hex.
Qed.
