(* ===== verification/Text.v ===== *)
(** * Text output: the two standard streams and the formatting of integers.

    A program that prints is code over a [Console]; the lemmas rewrite sequences of
    outputs to one. *)

From Stdlib Require Import Ascii.
From stdpp Require Import pretty.
From S2P Require Import Prelude Hex.

(** ** Streams and integers *)

Record Console : Set := { out : string; err : string }.

Definition print (text : string) : Run Console unit :=
  modify (fun c => {| out := String.append (out c) text; err := err c |}).
Definition print_error (text : string) : Run Console unit :=
  modify (fun c => {| out := out c; err := String.append (err c) text |}).

Definition newline : string := String (Ascii.ascii_of_N 10) EmptyString.

(** [operator<<] of an unsigned integer, with [std::dec] and, for an octet, with
    [std::hex]. *)
Definition show_dec (v : Z) : string := pretty (Z.to_N v).
Definition show_hex (v : Z) : string :=
  of_chars (if v <? 16 then [hex_digit v] else [hex_digit (v / 16); hex_digit (v mod 16)]).

Fixpoint concat_strings (l : list string) : string :=
  match l with [] => "" | s :: l => String.append s (concat_strings l) end.

(** ** Lemmas *)

Definition said (con : Console) (text : string) : Console :=
  {| out := String.append (out con) text; err := err con |}.
Definition complained (con : Console) (text : string) : Console :=
  {| out := out con; err := String.append (err con) text |}.

Lemma append_assoc a b c : String.append (String.append a b) c = String.append a (String.append b c).
Proof. induction a as [|x a IH]; [done|]. exact (f_equal (String x) IH). Qed.

Lemma append_empty a : String.append a "" = a.
Proof. induction a as [|x a IH]; [done|]. exact (f_equal (String x) IH). Qed.

Lemma said_said con a b : said (said con a) b = said con (String.append a b).
Proof. unfold said. cbn. by rewrite append_assoc. Qed.

Lemma run_print {A} text (k : unit -> Run Console A) con :
  (print text ≫= k) con = k () (said con text).
Proof. done. Qed.

Lemma run_print_error {A} text (k : unit -> Run Console A) con :
  (print_error text ≫= k) con = k () (complained con text).
Proof. done. Qed.

Definition hex_text (bs : list byte) : string := of_chars (hex_of_bytes bs).

Lemma run_bytes_to_hex {A} bs (k : string -> Run Console A) con :
  (lift (bytes_to_hex bs) ≫= k) con = k (hex_text bs) con.
Proof. by rewrite bytes_to_hex_spec. Qed.
