(* ===== verification/Binary64.v ===== *)
(** * [double]: IEEE 754 binary64 numbers.

    The standard library's [spec_float] with precision 53 and exponents below 1024,
    rounding to nearest, as the C++ type on the platforms of the program; conversion
    from integers, division and comparison with the facts the program needs, and
    output in fixed notation with three decimals. *)

From Stdlib Require Import SpecFloat.
From S2P Require Import Prelude Text.

(** ** Operations *)

Abbreviation double := spec_float.

Definition of_int (z : Z) : double := binary_normalize 53 1024 z 0 false.
Definition div (x y : double) : double := SFdiv 53 1024 x y.
Definition mul (x y : double) : double := SFmul 53 1024 x y.
Definition less (x y : double) : bool := SFltb x y.

(** *** Output with [std::fixed] and [std::setprecision(3)] *)

(** [m * 2^e] in thousandths, rounded to nearest, ties to even. *)
Definition thousandths (m e : Z) : Z :=
  if 0 <=? e then m * 1000 * 2 ^ e
  else
    let d := 2 ^ (- e) in
    let q := m * 1000 / d in
    let r := m * 1000 mod d in
    if 2 * r <? d then q
    else if d <? 2 * r then q + 1
    else if Z.even q then q else q + 1.

(** The text of a number of thousandths. *)
Definition fixed_text (t : Z) : string :=
  concat_strings [show_dec (t / 1000); "."; show_dec (t mod 1000 / 100);
                  show_dec (t mod 100 / 10); show_dec (t mod 10)].

Definition signed (negative : bool) (text : string) : string :=
  if negative then String.append "-" text else text.

Definition fixed3 (x : double) : string :=
  match x with
  | S754_zero s => signed s (fixed_text 0)
  | S754_infinity s => signed s "inf"
  | S754_nan => "nan"
  | S754_finite s m e => signed s (fixed_text (thousandths (Zpos m) e))
  end.

(** ** Normal numbers

    All numbers of the program but zero have a mantissa of exactly 53 bits. *)
Inductive normal : double -> Z -> Z -> Prop :=
| is_normal m e :
    2 ^ 52 <= Zpos m < 2 ^ 53 -> -1074 <= e <= 971 -> normal (S754_finite false m e) (Zpos m) e.

Lemma digits_log2 m : 0 < m -> Zdigits2 m = Z.log2 m + 1.
Proof.
  destruct m as [|p|p]; try lia. intros _. cbn [Zdigits2].
  assert (digits2_pos p = Pos.size p) as -> by (induction p; cbn; congruence).
  destruct p; cbn; lia.
Qed.

Lemma digits_range m d : 0 < d -> 2 ^ (d - 1) <= m < 2 ^ d -> Zdigits2 m = d.
Proof.
  intros Hd Hm. assert (0 < 2 ^ (d - 1)) by (apply Z.pow_pos_nonneg; lia).
  rewrite digits_log2 by lia. rewrite (Z.log2_unique m (d - 1)); [lia|lia|].
  by replace (Z.succ (d - 1)) with d by lia.
Qed.

(** *** Shifting right *)

Lemma shr_1_half r : 0 <= shr_m r -> shr_m (shr_1 r) = shr_m r / 2.
Proof.
  destruct r as [[|[p|p|]|p] b s]; cbn [shr_m shr_1]; intros H; try done.
  - rewrite Pos2Z.inj_xI. divmod.
  - rewrite Pos2Z.inj_xO. divmod.
Qed.

Lemma div_pow2_div_pow2 m a b : 0 <= a -> 0 <= b -> m / 2 ^ a / 2 ^ b = m / 2 ^ (a + b).
Proof.
  intros Ha Hb. rewrite Z.div_div, <-Z.pow_add_r by (try apply Z.pow_nonzero; try apply Z.pow_pos_nonneg; lia).
  done.
Qed.

Lemma div_pow2_nonneg m a : 0 <= m -> 0 <= a -> 0 <= m / 2 ^ a.
Proof. intros. apply Z.div_pos; [done|]. by apply Z.pow_pos_nonneg. Qed.

Lemma iter_shr_1 p r : 0 <= shr_m r -> shr_m (SpecFloat.iter_pos shr_1 p r) = shr_m r / 2 ^ Zpos p.
Proof.
  revert r; induction p as [p IH|p IH|]; intros r Hr; cbn [SpecFloat.iter_pos].
  - pose proof (shr_1_half r Hr) as E. rewrite <-(Z.pow_1_r 2) in E at 1.
    assert (0 <= shr_m (shr_1 r)) by (rewrite E; by apply div_pow2_nonneg).
    rewrite IH by (rewrite IH by done; by apply div_pow2_nonneg).
    rewrite IH, E, !div_pow2_div_pow2 by done. f_equal. f_equal. lia.
  - rewrite IH by (rewrite IH by done; by apply div_pow2_nonneg).
    rewrite IH, div_pow2_div_pow2 by done. f_equal. f_equal. lia.
  - by rewrite shr_1_half.
Qed.

Lemma shr_nonneg r e n : 0 <= shr_m r ->
  shr_m (shr r e n).1 = shr_m r / 2 ^ Z.max 0 n /\ (shr r e n).2 = e + Z.max 0 n.
Proof.
  intros Hr. destruct n as [|n|n]; cbn [shr fst snd].
  - by rewrite Z.div_1_r, Z.add_0_r.
  - by rewrite iter_shr_1.
  - change (Z.max 0 (Zneg n)) with 0. by rewrite Z.div_1_r, Z.add_0_r.
Qed.

Lemma shr_fexp_shift m e l d :
  Zdigits2 m = d -> 53 <= d -> -1074 <= e -> 0 <= m ->
  let p := shr_fexp 53 1024 m e l in
  shr_m p.1 = m / 2 ^ (d - 53) /\ p.2 = e + (d - 53) /\ (d = 53 -> p.1 = shr_record_of_loc m l).
Proof.
  intros Hd H53 He Hm. unfold shr_fexp. rewrite Hd.
  assert (fexp 53 1024 (d + e) - e = d - 53) as -> by (unfold fexp, emin; lia).
  destruct (shr_nonneg (shr_record_of_loc m l) e (d - 53)) as [H1 H2].
  { destruct l as [|[| |]]; done. }
  rewrite H1, H2. replace (Z.max 0 (d - 53)) with (d - 53) by lia.
  split; [by destruct l as [|[| |]]|]. split; [done|]. intros ->. done.
Qed.

Lemma round_nearest_even_cases m l :
  (round_nearest_even m l = m \/ round_nearest_even m l = m + 1) /\
  (l = loc_Exact -> round_nearest_even m l = m).
Proof.
  split; [|by intros ->]. destruct l as [|[| |]]; cbn; try destruct (Z.even m); auto.
Qed.

(** Rounding a mantissa of at least 53 bits: to 53 bits, and off by at most one of
    the last of them. *)
Lemma round_normal m e l :
  let k := Z.log2 m - 52 in
  2 ^ 52 <= m -> -1074 <= e -> e + k <= 970 ->
  exists m' e', normal (binary_round_aux 53 1024 false m e l) m' e' /\
    e + k <= e' <= e + k + 1 /\
    m / 2 ^ k <= m' * 2 ^ (e' - (e + k)) <= m / 2 ^ k + 1 /\
    (k = 0 -> l = loc_Exact -> m' = m /\ e' = e).
Proof.
  intros k Hm He Hmax. pose proof (Z.log2_spec m ltac:(lia)) as Hlog.
  assert (52 <= Z.log2 m) as H52 by (apply Z.log2_le_pow2; lia).
  assert (Hk : 0 <= k) by lia. unfold binary_round_aux.
  destruct (shr_fexp_shift m e l (k + 53)) as (H1 & H2 & H3);
    [rewrite digits_log2 by lia; lia|lia|lia|lia|].
  destruct (shr_fexp 53 1024 m e l) as [r1 e1]. cbn [fst snd] in *.
  replace (k + 53 - 53) with k in * by lia. subst e1.
  assert (Hq : 2 ^ 52 <= m / 2 ^ k < 2 ^ 53).
  { replace (Z.succ (Z.log2 m)) with (53 + k) in Hlog by lia.
    replace (Z.log2 m) with (52 + k) in Hlog by lia. rewrite !Z.pow_add_r in Hlog by lia.
    split; [apply Z.div_le_lower_bound|apply Z.div_lt_upper_bound]; lia. }
  destruct (round_nearest_even_cases (shr_m r1) (loc_of_shr_record r1)) as [Hr Hex].
  rewrite H1 in Hr, Hex. rewrite H1. set (q := m / 2 ^ k) in *. set (r := round_nearest_even q _) in *.
  assert (Hexact : k = 0 -> l = loc_Exact -> r = m).
  { intros E ->. rewrite Hex; [unfold q; rewrite E; apply Z.div_1_r|]. by rewrite H3 by lia. }
  clear Hex. clearbody r. destruct (decide (r < 2 ^ 53)) as [Hlt|Hge].
  - destruct (shr_fexp_shift r (e + k) loc_Exact 53) as (H4 & H5 & _); [apply digits_range; lia|lia..|].
    destruct (shr_fexp 53 1024 r (e + k) loc_Exact) as [r2 e2]. cbn [fst snd] in *.
    change (53 - 53) with 0 in *. rewrite Z.add_0_r in H5. rewrite Z.div_1_r in H4. subst e2. rewrite H4.
    destruct r as [|r'|r']; try lia. rewrite (proj2 (Z.leb_le _ _)) by lia.
    exists (Zpos r'), (e + k). split; [constructor; lia|]. rewrite Z.sub_diag, Z.mul_1_r.
    split; [lia|]. split; [lia|]. intros E El. rewrite <-(Hexact E El). lia.
  - assert (r = 2 ^ 53) as Er by lia.
    destruct (shr_fexp_shift r (e + k) loc_Exact 54) as (H4 & H5 & _); [apply digits_range; lia|lia..|].
    destruct (shr_fexp 53 1024 r (e + k) loc_Exact) as [r2 e2]. cbn [fst snd] in *.
    change (54 - 53) with 1 in *. rewrite Er in H4. change (2 ^ 53 / 2 ^ 1) with (2 ^ 52) in H4.
    subst e2. rewrite H4. change (2 ^ 52) with (Zpos 4503599627370496).
    rewrite (proj2 (Z.leb_le _ _)) by lia.
    exists (2 ^ 52), (e + k + 1). split; [constructor; lia|].
    replace (e + k + 1 - (e + k)) with 1 by lia. split; [lia|]. split; [lia|].
    intros E El. exfalso. pose proof (Hexact E El) as Em.
    assert (Z.log2 m - 52 = 0) as E' by exact E. by rewrite <-Em, Er in E'.
Qed.

(** *** Conversion and division *)

Lemma iter_xO m n : Zpos (Pos.iter xO m n) = Zpos m * 2 ^ Zpos n.
Proof.
  induction n as [|n IH] using Pos.peano_ind; [cbn; lia|].
  rewrite Pos.iter_succ, Pos2Z.inj_succ, Z.pow_succ_r by lia. lia.
Qed.

(** Aligning a mantissa to 53 bits. *)
Lemma shl_align_53 z :
  0 < Zpos z < 2 ^ 63 ->
  let n := Z.log2 (Zpos z) - 52 in
  let '(m, e) := shl_align z 0 n in
  e = Z.min n 0 /\ Zpos m = Zpos z * 2 ^ (- e) /\ Z.log2 (Zpos m) = Z.max 52 (Z.log2 (Zpos z)).
Proof.
  intros Hz n. unfold shl_align. rewrite Z.sub_0_r. destruct n as [|n'|n'] eqn:En.
  1, 2: (split; [lia|]; change (2 ^ (- 0)) with 1; split; lia).
  split; [lia|]. rewrite iter_xO. split; [done|]. rewrite Z.log2_mul_pow2 by lia. lia.
Qed.

(** Integers below 2^53 are converted exactly. *)
Lemma of_int_normal z :
  0 < z < 2 ^ 63 ->
  exists m e, normal (of_int z) m e /\ -52 <= e <= 11 /\ (z < 2 ^ 53 -> e <= 0 /\ m = z * 2 ^ (- e)).
Proof.
  intros Hz. destruct z as [|z|z]; try lia.
  assert (0 <= Z.log2 (Zpos z) <= 62) as Hl.
  { split; [apply Z.log2_nonneg|]. assert (Z.log2 (Zpos z) < 63) by (apply Z.log2_lt_pow2; lia). lia. }
  unfold of_int, binary_normalize, binary_round.
  change (Zpos (digits2_pos z)) with (Zdigits2 (Zpos z)). rewrite digits_log2 by lia.
  assert (fexp 53 1024 (Z.log2 (Zpos z) + 1 + 0) = Z.log2 (Zpos z) - 52) as -> by (unfold fexp, emin; lia).
  pose proof (shl_align_53 z Hz) as Ha. cbn zeta in Ha. destruct (shl_align z 0 _) as [m e].
  destruct Ha as (-> & Hm & Hlog).
  destruct (round_normal (Zpos m) (Z.min (Z.log2 (Zpos z) - 52) 0) loc_Exact)
    as (m' & e' & Hn & He & _ & Hex); [|lia..|].
  { pose proof (Z.log2_spec (Zpos m) ltac:(lia)) as Hs.
    assert (2 ^ 52 <= 2 ^ Z.log2 (Zpos m)) by (apply Z.pow_le_mono_r; lia). lia. }
  exists m', e'. split; [done|]. split; [lia|]. intros H53.
  assert (Z.log2 (Zpos z) < 53) by (apply Z.log2_lt_pow2; lia).
  destruct (Hex ltac:(lia) eq_refl) as [-> ->]. split; [lia|]. done.
Qed.

(** A quotient of normal numbers, in units of the last place of the integer quotient
    of their mantissas, is off by at most two. *)
Lemma div_normal x mx ex y my ey :
  normal x mx ex -> normal y my ey -> -900 <= ex - ey <= 900 ->
  let e0 := ex - ey - 53 in
  exists m e, normal (div x y) m e /\ e0 <= e <= e0 + 2 /\
    - (2 * my) <= m * 2 ^ (e - e0) * my - mx * 2 ^ 53 <= 2 * my.
Proof.
  intros [mx' ex' Hx Hex] [my' ey' Hy Hey] Hd e0. rename mx' into px, my' into py.
  unfold div. cbn [SFdiv xorb]. unfold SFdiv_core_binary.
  rewrite !(digits_range _ 53) by lia.
  assert (Z.min (fexp 53 1024 (53 + ex' - (53 + ey'))) (ex' - ey') = e0) as ->
    by (unfold fexp, emin; lia).
  replace (ex' - ey' - e0) with 53 by lia.
  rewrite Z.shiftl_mul_pow2 by lia.
  pose proof (Z_div_mod (Zpos px * 2 ^ 53) (Zpos py) ltac:(lia)) as Hqr.
  destruct (Z.div_eucl _ _) as [q r]. destruct Hqr as [Hq Hr].
  assert (2 ^ 52 <= q < 2 ^ 54) as Hq' by nia.
  assert (Z.log2 q = 52 \/ Z.log2 q = 53) as Hlog.
  { assert (52 <= Z.log2 q) by (apply Z.log2_le_pow2; lia).
    assert (Z.log2 q < 54) by (apply Z.log2_lt_pow2; lia). lia. }
  destruct (round_normal q e0 (new_location (Zpos py) r)) as (m & e & Hn & He & Hm & _); [lia..|].
  exists m, e. split; [done|]. split; [lia|].
  replace (2 ^ (e - e0)) with (2 ^ (e - (e0 + (Z.log2 q - 52))) * 2 ^ (Z.log2 q - 52))
    by (rewrite <-Z.pow_add_r by lia; f_equal; lia).
  destruct Hlog as [E|E]; rewrite E in *.
  - change (2 ^ (52 - 52)) with 1 in *. rewrite Z.div_1_r in Hm. nia.
  - change (2 ^ (53 - 52)) with 2 in *.
    assert (q - 1 <= q / 2 * 2 <= q) by divmod. nia.
Qed.

(** *** Signs *)

Lemma round_opposite m e l :
  binary_round_aux 53 1024 true m e l = SFopp (binary_round_aux 53 1024 false m e l).
Proof.
  unfold binary_round_aux. destruct (shr_fexp 53 1024 m e l) as [r1 e1].
  destruct (shr_fexp _ _ _ e1 _) as [r2 e2]. destruct (shr_m r2); try done. by destruct (_ <=? _).
Qed.

Lemma of_int_opposite z : 0 < z -> of_int (- z) = SFopp (of_int z).
Proof.
  intros Hz. destruct z as [|z|z]; try lia. change (of_int (- Zpos z)) with (binary_round 53 1024 true z 0).
  change (of_int (Zpos z)) with (binary_round 53 1024 false z 0).
  unfold binary_round. destruct (shl_align _ _ _). apply round_opposite.
Qed.

Lemma div_opposite x mx ex y my ey :
  normal x mx ex -> normal y my ey -> div (SFopp x) y = SFopp (div x y).
Proof.
  intros [px ex' _ _] [py ey' _ _]. unfold div. cbn [SFopp SFdiv negb xorb].
  destruct (SFdiv_core_binary _ _ _ _ _ _) as [[m e] l]. apply round_opposite.
Qed.

(** *** The order of the values *)

(** Zero and the normal numbers, which are the values of the program. *)
Definition ordinary (x : double) : Prop := x = S754_zero false \/ exists m e, normal x m e.

(** The value of such a number, as a multiple of the least positive one. *)
Definition key (x : double) : Z :=
  match x with S754_finite false m e => Zpos m * 2 ^ (e + 1074) | _ => 0 end.

Lemma mantissa_order m1 e1 m2 e2 :
  2 ^ 52 <= m1 < 2 ^ 53 -> 2 ^ 52 <= m2 < 2 ^ 53 -> 0 <= e1 < e2 -> m1 * 2 ^ e1 < m2 * 2 ^ e2.
Proof.
  intros H1 H2 He. replace (2 ^ e2) with (2 ^ e1 * 2 ^ (e2 - e1))
    by (rewrite <-Z.pow_add_r by lia; f_equal; lia).
  assert (0 < 2 ^ e1) by (apply Z.pow_pos_nonneg; lia).
  assert (2 ^ 1 <= 2 ^ (e2 - e1)) by (apply Z.pow_le_mono_r; lia).
  assert (m1 < m2 * 2 ^ (e2 - e1)) by nia.
  rewrite (Z.mul_comm (2 ^ e1)), Z.mul_assoc. by apply Z.mul_lt_mono_pos_r.
Qed.

Lemma less_key x y : ordinary x -> ordinary y -> less x y = (key x <? key y).
Proof.
  intros [-> |(m1 & e1 & [p1 e1' H1 He1])] [-> |(m2 & e2 & [p2 e2' H2 He2])]; unfold less; cbn.
  - done.
  - symmetry. apply Z.ltb_lt. assert (0 < 2 ^ (e2' + 1074)) by (apply Z.pow_pos_nonneg; lia). nia.
  - symmetry. apply Z.ltb_ge. assert (0 < 2 ^ (e1' + 1074)) by (apply Z.pow_pos_nonneg; lia). nia.
  - unfold SFltb. cbn [SFcompare]. destruct (Z.compare_spec e1' e2') as [-> |He|He].
    + change (Pos.compare_cont Eq p1 p2) with (Pos.compare p1 p2).
      assert (0 < 2 ^ (e2' + 1074)) by (apply Z.pow_pos_nonneg; lia).
      destruct (Pos.compare_spec p1 p2); symmetry; [apply Z.ltb_ge|apply Z.ltb_lt|apply Z.ltb_ge]; nia.
    + symmetry. apply Z.ltb_lt. apply mantissa_order; lia.
    + symmetry. apply Z.ltb_ge. apply Z.lt_le_incl, mantissa_order; lia.
Qed.

(** *** Rounding to thousandths *)

Lemma thousandths_half m e :
  e < 0 -> - 2 ^ (- e) <= 2 * (2 ^ (- e) * thousandths m e - 1000 * m) <= 2 ^ (- e).
Proof.
  intros He. unfold thousandths. rewrite (proj2 (Z.leb_gt _ _)) by lia.
  set (d := 2 ^ (- e)). assert (0 < d) by (apply Z.pow_pos_nonneg; lia).
  pose proof (Z.div_mod (m * 1000) d ltac:(lia)) as Hdm.
  pose proof (Z.mod_pos_bound (m * 1000) d ltac:(lia)) as Hr.
  set (q := m * 1000 / d) in *. set (r := (m * 1000) mod d) in *.
  destruct (Z.ltb_spec (2 * r) d); [lia|]. destruct (Z.ltb_spec d (2 * r)); [lia|].
  destruct (Z.even q); lia.
Qed.
