(* ===== verification/Codec.v ===== *)
(** * Frames on the wire: [encode] and [decode] of [src/codec.cpp].

    The first part is the code.  The second part states the wire format and the
    validation order of [docs/protocol-spec.md] without reference to the code.
    The rest relates the two. *)

From S2P Require Import Prelude Types BigEndian Crc.

(** ** The routines of the source *)

(** The functions that append to a vector return the extended vector. *)
Definition append_u16 (output : list byte) (value : Z) : list byte :=
  let output := output ++ [to_byte (Z.land (Z.shiftr value 8) 0xFF)] in
  output ++ [to_byte (Z.land value 0xFF)].

Definition append_u32 (output : list byte) (value : Z) : list byte :=
  let output := output ++ [to_byte (Z.land (Z.shiftr value 24) 0xFF)] in
  let output := output ++ [to_byte (Z.land (Z.shiftr value 16) 0xFF)] in
  let output := output ++ [to_byte (Z.land (Z.shiftr value 8) 0xFF)] in
  output ++ [to_byte (Z.land value 0xFF)].

Definition read_u16 (bytes : list byte) (offset : Z) : Exec Z :=
  high ← vec_at bytes offset;
  low ← vec_at bytes (usize (offset + 1));
  Done (u16 (Z.lor (Z.shiftl (to_integer high) 8) (to_integer low))).

Definition read_u32 (bytes : list byte) (offset : Z) : Exec Z :=
  b0 ← vec_at bytes offset;
  b1 ← vec_at bytes (usize (offset + 1));
  b2 ← vec_at bytes (usize (offset + 2));
  b3 ← vec_at bytes (usize (offset + 3));
  Done (Z.lor (Z.lor (Z.lor (u32 (Z.shiftl (to_integer b0) 24))
                            (u32 (Z.shiftl (to_integer b1) 16)))
                     (u32 (Z.shiftl (to_integer b2) 8)))
              (to_integer b3)).

Definition is_supported_opcode (opcode : Opcode.t) : bool :=
  match opcode with
  | Opcode.read_request
  | Opcode.write_request
  | Opcode.data_response
  | Opcode.write_acknowledgement
  | Opcode.error_response => true
  | Opcode.unassigned _ => false
  end.

Definition has_valid_semantics (frame : Frame.t) : bool :=
  let is_response := negb (Z.land (Frame.flags frame) response_flag =? 0) in
  let expects_response_flag :=
    bool_decide (Frame.opcode frame = Opcode.data_response) ||
    bool_decide (Frame.opcode frame = Opcode.write_acknowledgement) ||
    bool_decide (Frame.opcode frame = Opcode.error_response) in
  if negb (Bool.eqb is_response expects_response_flag) then false
  else if negb (Z.land (Frame.flags frame) (u8 (Z.lnot response_flag)) =? 0) then false
  else if bool_decide (Frame.opcode frame = Opcode.read_request) then
    bool_decide (Frame.status frame = Status.ok) && (zlen (Frame.payload frame) =? 2)
  else if bool_decide (Frame.opcode frame = Opcode.write_request) then
    bool_decide (Frame.status frame = Status.ok) && negb (zlen (Frame.payload frame) =? 0)
  else if bool_decide (Frame.opcode frame = Opcode.data_response) then
    bool_decide (Frame.status frame = Status.ok)
  else if bool_decide (Frame.opcode frame = Opcode.write_acknowledgement) then
    bool_decide (Frame.status frame = Status.ok) && (zlen (Frame.payload frame) =? 0)
  else
    bool_decide (Frame.opcode frame = Opcode.error_response) &&
    bool_decide (Frame.status frame <> Status.ok).

Definition encode (frame : Frame.t) : EncodeResult.t :=
  if negb (Frame.version frame =? protocol_version) then
    EncodeResult.mk [] CodecError.unsupported_version
  else if negb (is_supported_opcode (Frame.opcode frame)) then
    EncodeResult.mk [] CodecError.unsupported_opcode
  else if maximum_payload_size <? zlen (Frame.payload frame) then
    EncodeResult.mk [] CodecError.payload_too_large
  else if negb (has_valid_semantics frame) then
    EncodeResult.mk [] CodecError.invalid_semantics
  else
    let output := [] in
    let output := output ++ magic in
    let output := output ++ [to_byte (Frame.version frame)] in
    let output := output ++ [to_byte (Opcode.value (Frame.opcode frame))] in
    let output := output ++ [to_byte (Frame.flags frame)] in
    let output := output ++ [to_byte 0] in
    let output := append_u32 output (Frame.request_id frame) in
    let output := append_u32 output (Frame.address frame) in
    let output := append_u16 output (u16 (zlen (Frame.payload frame))) in
    let output := append_u16 output (u16 (Status.value (Frame.status frame))) in
    let output := output ++ Frame.payload frame in
    let output := append_u32 output (crc32 output) in
    EncodeResult.mk output CodecError.none.

Definition decode (bytes : list byte) : Exec DecodeResult.t :=
  let reject error consumed := Done (DecodeResult.mk None error consumed) in
  if zlen bytes <? header_size then reject CodecError.truncated 0 else
  same_magic ← std_equal magic bytes;
  if negb same_magic then reject CodecError.bad_magic 0 else
  b2 ← vec_at bytes 2;
  if negb (to_integer b2 =? protocol_version) then
    reject CodecError.unsupported_version 0 else
  b3 ← vec_at bytes 3;
  let opcode := Opcode.of_value (to_integer b3) in
  if negb (is_supported_opcode opcode) then reject CodecError.unsupported_opcode 0 else
  b4 ← vec_at bytes 4;
  let flags := to_integer b4 in
  if negb (Z.land flags (u8 (Z.lnot response_flag)) =? 0) then
    reject CodecError.unsupported_flags 0 else
  b5 ← vec_at bytes 5;
  if negb (Byte.eqb b5 (to_byte 0)) then reject CodecError.nonzero_reserved 0 else
  payload_size ← read_u16 bytes 14;
  if maximum_payload_size <? payload_size then reject CodecError.payload_too_large 0 else
  let expected_size := usize (header_size + payload_size + checksum_size) in
  if zlen bytes <? expected_size then reject CodecError.truncated 0 else
  if negb (zlen bytes =? expected_size) then
    reject CodecError.length_mismatch expected_size else
  expected_crc ← read_u32 bytes (usize (expected_size - checksum_size));
  covered ← vec_range bytes 0 (usize (expected_size - checksum_size));
  if negb (crc32 covered =? expected_crc) then
    reject CodecError.checksum_mismatch expected_size else
  request_id ← read_u32 bytes 6;
  address ← read_u32 bytes 10;
  status ← read_u16 bytes 16;
  payload ← vec_range bytes header_size (usize (header_size + payload_size));
  let frame := {|
    Frame.version := protocol_version;
    Frame.opcode := opcode;
    Frame.flags := flags;
    Frame.request_id := request_id;
    Frame.address := address;
    Frame.status := Status.of_value status;
    Frame.payload := payload |} in
  if negb (has_valid_semantics frame) then
    reject CodecError.invalid_semantics expected_size else
  Done (DecodeResult.mk (Some frame) CodecError.none expected_size).

Definition codec_error_name (error : CodecError.t) : string :=
  match error with
  | CodecError.none => "none"
  | CodecError.truncated => "truncated"
  | CodecError.bad_magic => "bad_magic"
  | CodecError.unsupported_version => "unsupported_version"
  | CodecError.unsupported_opcode => "unsupported_opcode"
  | CodecError.unsupported_flags => "unsupported_flags"
  | CodecError.nonzero_reserved => "nonzero_reserved"
  | CodecError.payload_too_large => "payload_too_large"
  | CodecError.length_mismatch => "length_mismatch"
  | CodecError.checksum_mismatch => "checksum_mismatch"
  | CodecError.invalid_semantics => "invalid_semantics"
  end%string.

(** ** The protocol specification *)

(** The layout of a frame: table "Wire format". *)
Definition wire_body (f : Frame.t) : list byte :=
  magic ++ be_bytes 1 (Frame.version f) ++ be_bytes 1 (Opcode.value (Frame.opcode f)) ++
  be_bytes 1 (Frame.flags f) ++ be_bytes 1 0 ++
  be_bytes 4 (Frame.request_id f) ++ be_bytes 4 (Frame.address f) ++
  be_bytes 2 (zlen (Frame.payload f)) ++ be_bytes 2 (Status.value (Frame.status f)) ++
  Frame.payload f.

Definition wire (f : Frame.t) : list byte := wire_body f ++ be_bytes 4 (crc32 (wire_body f)).

(** The relation between opcode, flags, status and payload that the codec keeps.  It is
    wider than the tables of the document, see [documented_frame]. *)
Inductive protocol_frame : Frame.t -> Prop :=
| protocol_read_request id a p :
    zlen p = 2 ->
    protocol_frame (Frame.mk 1 Opcode.read_request 0 id a Status.ok p)
| protocol_write_request id a p :
    1 <= zlen p <= 256 ->
    protocol_frame (Frame.mk 1 Opcode.write_request 0 id a Status.ok p)
| protocol_data_response id a p :
    zlen p <= 256 ->
    protocol_frame (Frame.mk 1 Opcode.data_response 1 id a Status.ok p)
| protocol_write_acknowledgement id a :
    protocol_frame (Frame.mk 1 Opcode.write_acknowledgement 1 id a Status.ok [])
| protocol_error_response id a s p :
    s <> Status.ok -> zlen p <= 256 ->
    protocol_frame (Frame.mk 1 Opcode.error_response 1 id a s p).

(** The tables "Opcodes" and "Status values" of the document: a read asks for 1 to 256
    bytes, which a data response carries, and an error response has one of the
    statuses 1 to 5.  Any bytes count as its diagnostic text. *)
Definition documented_error (s : Status.t) : Prop :=
  match s with
  | Status.bad_request | Status.out_of_range | Status.write_disabled | Status.access_denied
  | Status.internal_error => True
  | Status.ok | Status.unassigned _ => False
  end.

Inductive documented_frame : Frame.t -> Prop :=
| documented_read_request id a p :
    zlen p = 2 -> 1 <= be_value p <= 256 ->
    documented_frame (Frame.mk 1 Opcode.read_request 0 id a Status.ok p)
| documented_write_request id a p :
    1 <= zlen p <= 256 ->
    documented_frame (Frame.mk 1 Opcode.write_request 0 id a Status.ok p)
| documented_data_response id a p :
    1 <= zlen p <= 256 ->
    documented_frame (Frame.mk 1 Opcode.data_response 1 id a Status.ok p)
| documented_write_acknowledgement id a :
    documented_frame (Frame.mk 1 Opcode.write_acknowledgement 1 id a Status.ok [])
| documented_error_response id a s p :
    documented_error s -> zlen p <= 256 ->
    documented_frame (Frame.mk 1 Opcode.error_response 1 id a s p).

(** The other frames that the codec lets pass. *)
Inductive undocumented_frame : Frame.t -> Prop :=
| undocumented_read_length id a p :
    zlen p = 2 -> be_value p = 0 \/ 256 < be_value p ->
    undocumented_frame (Frame.mk 1 Opcode.read_request 0 id a Status.ok p)
| undocumented_empty_data id a :
    undocumented_frame (Frame.mk 1 Opcode.data_response 1 id a Status.ok [])
| undocumented_status id a v p :
    zlen p <= 256 ->
    undocumented_frame (Frame.mk 1 Opcode.error_response 1 id a (Status.unassigned v) p).

(** The fields of a byte string that may be a frame. *)
Definition declared_payload_size (bytes : list byte) : Z := be_value (slice 14 2 bytes).
Definition declared_frame_size (bytes : list byte) : Z :=
  header_size + declared_payload_size bytes + checksum_size.
Definition parsed_frame (bytes : list byte) : Frame.t := {|
  Frame.version := be_value (slice 2 1 bytes);
  Frame.opcode := Opcode.of_value (be_value (slice 3 1 bytes));
  Frame.flags := be_value (slice 4 1 bytes);
  Frame.request_id := be_value (slice 6 4 bytes);
  Frame.address := be_value (slice 10 4 bytes);
  Frame.status := Status.of_value (be_value (slice 16 2 bytes));
  Frame.payload := slice 18 (Z.to_nat (declared_payload_size bytes)) bytes |}.

(** The validation order: each check with the error and the consumed byte count
    reported when it is the first that fails. *)
Definition validation (bytes : list byte) : list (bool * CodecError.t * Z) :=
  let f := parsed_frame bytes in
  let size := declared_frame_size bytes in
  let body := Z.to_nat (size - checksum_size) in
  [ (18 <=? zlen bytes, CodecError.truncated, 0);
    (bool_decide (slice 0 2 bytes = magic), CodecError.bad_magic, 0);
    (Frame.version f =? 1, CodecError.unsupported_version, 0);
    (is_supported_opcode (Frame.opcode f), CodecError.unsupported_opcode, 0);
    (Frame.flags f <=? 1, CodecError.unsupported_flags, 0);
    (be_value (slice 5 1 bytes) =? 0, CodecError.nonzero_reserved, 0);
    (declared_payload_size bytes <=? 256, CodecError.payload_too_large, 0);
    (size <=? zlen bytes, CodecError.truncated, 0);
    (zlen bytes =? size, CodecError.length_mismatch, size);
    (be_value (drop body bytes) =? crc32 (take body bytes), CodecError.checksum_mismatch, size);
    (has_valid_semantics f, CodecError.invalid_semantics, size) ].

Fixpoint first_failure (checks : list (bool * CodecError.t * Z)) : option (CodecError.t * Z) :=
  match checks with
  | [] => None
  | (true, _, _) :: checks' => first_failure checks'
  | (false, error, consumed) :: _ => Some (error, consumed)
  end.

Definition decode_by_validation (bytes : list byte) : DecodeResult.t :=
  match first_failure (validation bytes) with
  | Some (error, consumed) => DecodeResult.mk None error consumed
  | None =>
      DecodeResult.mk (Some (parsed_frame bytes)) CodecError.none (declared_frame_size bytes)
  end.

(** ** Big-endian fields *)

Lemma append_u16_spec output v : append_u16 output v = output ++ be_bytes 2 v.
Proof.
  unfold append_u16. rewrite <-app_assoc. f_equal. cbn [be_bytes app].
  by rewrite to_byte_shift, to_byte_mask, Z.div_1_r.
Qed.

Lemma append_u32_spec output v : append_u32 output v = output ++ be_bytes 4 v.
Proof.
  unfold append_u32. rewrite <-!app_assoc. f_equal. cbn [be_bytes app].
  by rewrite !to_byte_shift, to_byte_mask, Z.div_1_r.
Qed.

Lemma list_of_length_2 {A} (l : list A) : length l = 2%nat -> exists a b, l = [a; b].
Proof. destruct l as [|a [|b [|]]]; try done. eauto. Qed.

Lemma list_of_length_4 {A} (l : list A) :
  length l = 4%nat -> exists a b c d, l = [a; b; c; d].
Proof. destruct l as [|a [|b [|c [|d [|]]]]]; try done. eauto. Qed.

Lemma usize_small z : 0 <= z < 2 ^ 64 -> usize z = z.
Proof. apply Z.mod_small. Qed.

Lemma read_u16_spec bytes (off : nat) :
  Z.of_nat off < 2 ^ 32 -> Z.of_nat (off + 2) <= zlen bytes ->
  read_u16 bytes (Z.of_nat off) = Done (be_value (slice off 2 bytes)).
Proof.
  intros Ho Hl. destruct (list_of_length_2 (slice off 2 bytes)) as (a & b & E).
  { by apply length_slice. }
  unfold read_u16. rewrite usize_small by lia.
  replace (Z.of_nat off) with (Z.of_nat (off + 0)) by lia.
  replace (Z.of_nat (off + 0) + 1) with (Z.of_nat (off + 1)) by lia.
  rewrite (vec_at_slice off 0 2 _ a), (vec_at_slice off 1 2 _ b) by (rewrite ?E; done || lia).
  cbn [mbind exec_bind]. f_equal. rewrite E. cbn [be_value zlen length].
  pose proof (to_integer_range a). pose proof (to_integer_range b).
  rewrite lor_shiftl by lia. unfold u16. rewrite !zlen_cons, !zlen_nil. divmod.
Qed.

Lemma read_u32_spec bytes (off : nat) :
  Z.of_nat off < 2 ^ 32 -> Z.of_nat (off + 4) <= zlen bytes ->
  read_u32 bytes (Z.of_nat off) = Done (be_value (slice off 4 bytes)).
Proof.
  intros Ho Hl. destruct (list_of_length_4 (slice off 4 bytes)) as (a & b & c & d & E).
  { by apply length_slice. }
  unfold read_u32. rewrite !usize_small by lia.
  replace (Z.of_nat off) with (Z.of_nat (off + 0)) by lia.
  replace (Z.of_nat (off + 0) + 1) with (Z.of_nat (off + 1)) by lia.
  replace (Z.of_nat (off + 0) + 2) with (Z.of_nat (off + 2)) by lia.
  replace (Z.of_nat (off + 0) + 3) with (Z.of_nat (off + 3)) by lia.
  rewrite (vec_at_slice off 0 4 _ a), (vec_at_slice off 1 4 _ b),
    (vec_at_slice off 2 4 _ c), (vec_at_slice off 3 4 _ d) by (rewrite ?E; done || lia).
  cbn [mbind exec_bind]. f_equal. rewrite E. cbn [be_value].
  pose proof (to_integer_range a). pose proof (to_integer_range b).
  pose proof (to_integer_range c). pose proof (to_integer_range d).
  unfold u32. rewrite !(Z.mod_small (Z.shiftl _ _)) by (rewrite Z.shiftl_mul_pow2; lia).
  rewrite !zlen_cons, !zlen_nil.
  rewrite <-(Z.lor_assoc _ _ (to_integer d)), <-(Z.lor_assoc _ _ (Z.lor _ _)).
  rewrite (lor_shiftl (to_integer c) (to_integer d)) by lia.
  rewrite (lor_shiftl (to_integer b) _ 16) by lia.
  rewrite (lor_shiftl (to_integer a) _ 24) by lia. lia.
Qed.

Lemma vec_at_be_value bytes (off : nat) i :
  i = Z.of_nat off -> i < zlen bytes ->
  exists b, vec_at bytes i = Done b /\ slice off 1 bytes = [b] /\
            to_integer b = be_value (slice off 1 bytes).
Proof.
  intros -> Hl'. assert (Hl : Z.of_nat (off + 1) <= zlen bytes) by lia.
  destruct (slice off 1 bytes) as [|b [|]] eqn:E;
    pose proof (length_slice off 1 bytes Hl) as H; rewrite E in H; try done.
  exists b. split.
  - replace off with (off + 0)%nat by lia. apply (vec_at_slice off 0 1); [by rewrite E|lia].
  - split; [done|]. cbn [be_value]. rewrite zlen_nil. lia.
Qed.

(** ** Encoding *)

Lemma wire_body_appends f :
  append_u16 (append_u16 (append_u32 (append_u32
    (((((([] ++ magic) ++ [to_byte (Frame.version f)]) ++
      [to_byte (Opcode.value (Frame.opcode f))]) ++ [to_byte (Frame.flags f)]) ++
      [to_byte 0])) (Frame.request_id f)) (Frame.address f))
    (zlen (Frame.payload f))) (Status.value (Frame.status f)) ++ Frame.payload f
  = wire_body f.
Proof.
  rewrite !append_u16_spec, !append_u32_spec. unfold wire_body. cbn [be_bytes].
  rewrite !Z.div_1_r. by rewrite <-!app_assoc.
Qed.

Lemma be_bytes_u16 v : be_bytes 2 (u16 v) = be_bytes 2 v.
Proof.
  unfold u16. rewrite (Z.div_mod v (2 ^ 16)) at 2 by lia.
  rewrite (Z.mul_comm (2 ^ 16)). change (2 ^ 16) with (256 ^ Z.of_nat 2).
  by rewrite be_bytes_add.
Qed.

(** The error [encode] reports, [none] when it produces bytes. *)
Definition encode_error (f : Frame.t) : CodecError.t :=
  if negb (Frame.version f =? 1) then CodecError.unsupported_version
  else if negb (is_supported_opcode (Frame.opcode f)) then CodecError.unsupported_opcode
  else if 256 <? zlen (Frame.payload f) then CodecError.payload_too_large
  else if negb (has_valid_semantics f) then CodecError.invalid_semantics
  else CodecError.none.

Lemma encode_spec f :
  encode f = EncodeResult.mk
    (if bool_decide (encode_error f = CodecError.none) then wire f else []) (encode_error f).
Proof.
  unfold encode, encode_error, protocol_version, maximum_payload_size.
  repeat case_match; try done.
  cbn zeta. rewrite !append_u16_spec, !be_bytes_u16, <-!append_u16_spec.
  rewrite wire_body_appends, append_u32_spec. done.
Qed.

Lemma flags_upper_bits v :
  0 <= v < 256 -> (Z.land v (u8 (Z.lnot response_flag)) =? 0) = (v <=? 1).
Proof.
  intros Hv. apply eqb_prop. revert v Hv.
  apply (forall_below 256 (fun v => Bool.eqb _ _)). vm_compute. reflexivity.
Qed.

Lemma encode_error_none f :
  encode_error f = CodecError.none <->
  Frame.version f = 1 /\ is_supported_opcode (Frame.opcode f) = true /\
  zlen (Frame.payload f) <= 256 /\ has_valid_semantics f = true.
Proof.
  unfold encode_error. split.
  - repeat case_match; try done; intros _; by bool_props.
  - intros (-> & -> & Hp & ->). by rewrite (proj2 (Z.ltb_ge _ _) Hp).
Qed.

(** The table of the specification, as a test. *)
Lemma has_valid_semantics_iff f :
  0 <= Frame.flags f < 256 ->
  (encode_error f = CodecError.none <-> protocol_frame f).
Proof.
  destruct f as [v o fl id a s p]. unfold encode_error, has_valid_semantics.
  cbn [Frame.version Frame.opcode Frame.flags Frame.status Frame.payload]. intros Hfl.
  rewrite flags_upper_bits by done. pose proof (zlen_nonneg p). split.
  - destruct (Z.eqb_spec v 1) as [->|]; [|done]. cbn [negb].
    destruct (Z.ltb_spec 256 (zlen p)); [by case_match|].
    destruct (Z.leb_spec fl 1); [|by repeat case_match].
    assert (fl = 0 \/ fl = 1) as [-> | ->] by lia;
      destruct o; simpl; try done; repeat case_bool_decide; try done; subst; simpl;
      try (destruct (Z.eqb_spec (zlen p) 2)); try (destruct (Z.eqb_spec (zlen p) 0));
      try done; intros _; try (constructor; done || lia).
    all: assert (p = []) as -> by by apply zlen_zero.
    all: constructor.
  - inversion 1; subst; simpl; try done;
      rewrite ?(proj2 (Z.ltb_ge 256 _)) by lia; repeat case_bool_decide; try done; simpl.
    + by rewrite (proj2 (Z.eqb_eq _ _)).
    + by rewrite (proj2 (Z.eqb_neq _ _)) by lia.
Qed.

(** ** Decoding *)

Lemma first_failure_cons b e c checks :
  first_failure ((b, e, c) :: checks) = if b then first_failure checks else Some (e, c).
Proof. by destruct b. Qed.

(** The checksum field, read at the end of a string of the declared size. *)
Lemma checksum_field bytes (n : nat) :
  zlen bytes = Z.of_nat (n + 4) -> slice n 4 bytes = drop n bytes.
Proof.
  intros Hl. unfold slice. apply take_ge. rewrite length_drop. unfold zlen in Hl. lia.
Qed.

Lemma reserved_check b : Byte.eqb b (to_byte 0) = (to_integer b =? 0).
Proof.
  apply eq_true_iff_eq. rewrite Z.eqb_eq, byte_eqb_eq. split; [by intros ->|].
  intros E. apply to_integer_inj. by rewrite E.
Qed.

Lemma declared_payload_size_range bytes : 0 <= declared_payload_size bytes < 2 ^ 16.
Proof. apply (slice_range 14 2). Qed.

Lemma declared_frame_size_eq bytes :
  declared_frame_size bytes = declared_payload_size bytes + 22.
Proof. unfold declared_frame_size, header_size, checksum_size. lia. Qed.

(** The reads of the header fields wider than an octet. *)
Lemma header_fields bytes :
  18 <= zlen bytes ->
  read_u32 bytes 6 = Done (be_value (slice 6 4 bytes)) /\
  read_u32 bytes 10 = Done (be_value (slice 10 4 bytes)) /\
  read_u16 bytes 14 = Done (declared_payload_size bytes) /\
  read_u16 bytes 16 = Done (be_value (slice 16 2 bytes)).
Proof.
  intros Hl. change 6 with (Z.of_nat 6). change 10 with (Z.of_nat 10).
  change 14 with (Z.of_nat 14). change 16 with (Z.of_nat 16).
  rewrite !read_u32_spec, !read_u16_spec by lia. done.
Qed.

(** The code performs the checks of the specification, in its order, and never
    reads outside the input. *)
Lemma decode_validation bytes : decode bytes = Done (decode_by_validation bytes).
Proof.
  unfold decode, decode_by_validation, validation.
  rewrite !first_failure_cons. cbn [first_failure].
  unfold header_size, protocol_version, maximum_payload_size.
  rewrite (Z.leb_antisym (zlen bytes) 18). destruct (Z.ltb_spec (zlen bytes) 18) as [|H18]; [done|].
  cbn [negb]. rewrite std_equal_spec by (unfold zlen in H18; simpl; lia).
  cbn [mbind exec_bind length magic]. change (take 2 bytes) with (slice 0 2 bytes).
  change [to_byte 0x49; to_byte 0x4D] with magic.
  destruct (bool_decide (slice 0 2 bytes = magic)); [|done]. cbn [negb].
  destruct (vec_at_be_value bytes 2 2) as (b2 & -> & E2 & V2); [done|lia|].
  cbn [mbind exec_bind parsed_frame Frame.version Frame.opcode Frame.flags].
  rewrite V2. destruct (be_value (slice 2 1 bytes) =? 1) eqn:Ev; [|done]. cbn [negb].
  destruct (vec_at_be_value bytes 3 3) as (b3 & -> & E3 & V3); [done|lia|]. cbn [mbind exec_bind].
  rewrite V3. destruct (is_supported_opcode _); [|done]. cbn [negb].
  destruct (vec_at_be_value bytes 4 4) as (b4 & -> & E4 & V4); [done|lia|]. cbn [mbind exec_bind].
  rewrite flags_upper_bits by apply to_integer_range. rewrite V4.
  destruct (be_value (slice 4 1 bytes) <=? 1); [|done]. cbn [negb].
  destruct (vec_at_be_value bytes 5 5) as (b5 & -> & E5 & V5); [done|lia|]. cbn [mbind exec_bind].
  rewrite reserved_check, V5.
  destruct (be_value (slice 5 1 bytes) =? 0); [|done]. cbn [negb].
  destruct (header_fields bytes H18) as (-> & -> & -> & ->). cbn [mbind exec_bind].
  pose proof (declared_payload_size_range bytes) as Hn0.
  rewrite declared_frame_size_eq. set (n := declared_payload_size bytes) in *.
  rewrite (Z.ltb_antisym n 256). destruct (Z.leb_spec n 256) as [Hn|]; [|done]. cbn [negb].
  unfold checksum_size. rewrite !usize_small by lia.
  replace (18 + n + 4) with (n + 22) by lia. replace (n + 22 - 4) with (n + 18) by lia.
  rewrite (Z.leb_antisym (zlen bytes) (n + 22)). destruct (Z.ltb_spec (zlen bytes) (n + 22)); [done|].
  cbn [negb]. destruct (Z.eqb_spec (zlen bytes) (n + 22)) as [Hlen|]; [|done]. cbn [negb].
  set (body := Z.to_nat (n + 18)).
  replace (n + 18) with (Z.of_nat body) by (unfold body; lia).
  rewrite read_u32_spec by (unfold body; lia). cbn [mbind exec_bind].
  rewrite checksum_field by (unfold body; lia).
  rewrite (vec_range_Done bytes 0) by (unfold body; lia). cbn [mbind exec_bind].
  rewrite Z.sub_0_r, Nat2Z.id, drop_0, (Z.eqb_sym (crc32 _)).
  destruct (be_value (drop body bytes) =? crc32 (take body bytes)); [|done]. cbn [negb].
  rewrite vec_range_Done by lia. cbn [mbind exec_bind].
  replace (Z.to_nat (18 + n - 18)) with (Z.to_nat n) by lia.
  change (Z.to_nat 18) with 18%nat.
  apply Z.eqb_eq in Ev. unfold parsed_frame. fold n. rewrite Ev.
  unfold slice at 4. destruct (has_valid_semantics _); reflexivity.
Qed.

(** *** Accepted strings are the encodings of protocol frames *)

Lemma zlen_wire_body f : zlen (wire_body f) = 18 + zlen (Frame.payload f).
Proof. unfold wire_body, magic. rewrite !zlen_app, !zlen_be_bytes, !zlen_cons, zlen_nil. lia. Qed.

Lemma zlen_wire f : zlen (wire f) = 22 + zlen (Frame.payload f).
Proof. unfold wire. rewrite zlen_app, zlen_wire_body, zlen_be_bytes. lia. Qed.

Lemma parsed_frame_wf bytes : Frame.wf (parsed_frame bytes).
Proof.
  unfold Frame.wf, parsed_frame.
  cbn [Frame.version Frame.opcode Frame.flags Frame.request_id Frame.address Frame.status].
  pose proof (slice_range 2 1 bytes). pose proof (slice_range 4 1 bytes).
  pose proof (slice_range 6 4 bytes). pose proof (slice_range 10 4 bytes).
  repeat split; try lia; try by rewrite ?Opcode_value_of_value, ?Status_value_of_value.
  all: rewrite ?Opcode_value_of_value, ?Status_value_of_value.
  all: pose proof (slice_range 3 1 bytes); pose proof (slice_range 16 2 bytes); lia.
Qed.

Lemma parsed_payload_size bytes :
  zlen bytes = declared_payload_size bytes + 22 ->
  zlen (Frame.payload (parsed_frame bytes)) = declared_payload_size bytes.
Proof.
  intros Hlen. pose proof (declared_payload_size_range bytes).
  unfold zlen. cbn [parsed_frame Frame.payload]. rewrite length_slice; lia.
Qed.

(** The bytes before the checksum are the body of the frame read from them. *)
Lemma parsed_body bytes :
  let n := declared_payload_size bytes in
  zlen bytes = n + 22 -> slice 0 2 bytes = magic -> be_value (slice 5 1 bytes) = 0 ->
  take (18 + Z.to_nat n) bytes = wire_body (parsed_frame bytes).
Proof.
  intros n Hlen Hm H5. pose proof (declared_payload_size_range bytes) as Hn. fold n in Hn.
  pose proof (parsed_payload_size bytes Hlen) as Hp. fold n in Hp.
  assert (Hb : drop 0 bytes = wire_body (parsed_frame bytes) ++ drop (18 + Z.to_nat n) bytes).
  { rewrite (drop_slice 0 2), (drop_slice (0 + 2) 1), (drop_slice (0 + 2 + 1) 1),
      (drop_slice (0 + 2 + 1 + 1) 1), (drop_slice (0 + 2 + 1 + 1 + 1) 1),
      (drop_slice (0 + 2 + 1 + 1 + 1 + 1) 4), (drop_slice (0 + 2 + 1 + 1 + 1 + 1 + 4) 4),
      (drop_slice (0 + 2 + 1 + 1 + 1 + 1 + 4 + 4) 2),
      (drop_slice (0 + 2 + 1 + 1 + 1 + 1 + 4 + 4 + 2) 2).
    change (0 + 2 + 1 + 1 + 1 + 1 + 4 + 4 + 2 + 2)%nat with 18%nat.
    rewrite (drop_slice 18 (Z.to_nat n)). unfold wire_body. rewrite Hp. unfold parsed_frame.
    cbn [Frame.version Frame.opcode Frame.flags Frame.request_id Frame.address
         Frame.status Frame.payload].
    rewrite Opcode_value_of_value, Status_value_of_value. fold n. rewrite <-H5.
    change (be_bytes 2 n) with (be_bytes 2 (be_value (slice 14 2 bytes))).
    rewrite !be_bytes_slice by (cbn; lia). rewrite Hm, <-!app_assoc. done. }
  rewrite drop_0 in Hb. rewrite Hb at 1. apply take_app_length'.
  pose proof (zlen_wire_body (parsed_frame bytes)). unfold zlen in *. lia.
Qed.

Lemma validation_sound bytes :
  first_failure (validation bytes) = None ->
  bytes = wire (parsed_frame bytes) /\ protocol_frame (parsed_frame bytes) /\
  declared_frame_size bytes = zlen bytes.
Proof.
  unfold validation. rewrite !first_failure_cons. cbn [first_failure].
  set (f := parsed_frame bytes). set (n := declared_payload_size bytes).
  set (body := Z.to_nat (declared_frame_size bytes - checksum_size)).
  repeat case_match; try done; intros _; bool_props.
  match goal with H : bool_decide _ = true |- _ => apply bool_decide_eq_true in H as Hm end.
  pose proof (declared_payload_size_range bytes) as Hn. fold n in Hn.
  pose proof (declared_frame_size_eq bytes) as Hsize. fold n in Hsize.
  assert (Hlen : zlen bytes = n + 22) by lia.
  assert (Hbody : body = (18 + Z.to_nat n)%nat) by (unfold body, checksum_size; lia).
  assert (Hwb : take body bytes = wire_body f) by (rewrite Hbody; by apply parsed_body).
  assert (Hc : drop body bytes = be_bytes 4 (crc32 (wire_body f))).
  { rewrite <-Hwb. match goal with H : be_value (drop body bytes) = _ |- _ => rewrite <-H end.
    symmetry. apply be_bytes_value_n. rewrite length_drop. unfold zlen in Hlen. lia. }
  split; [|split; [|lia]].
  - unfold wire. by rewrite <-Hc, <-Hwb, take_drop.
  - pose proof (parsed_frame_wf bytes) as (_ & _ & Hf & _). apply has_valid_semantics_iff; [done|].
    unfold encode_error. fold f.
    repeat match goal with H : _ = true |- _ => rewrite H end.
    pose proof (parsed_payload_size bytes Hlen) as Hp. fold f n in Hp.
    rewrite (proj2 (Z.eqb_eq _ _)) by done. rewrite (proj2 (Z.ltb_ge _ _)) by lia. done.
Qed.

(** *** Strings that start with the body of a protocol frame *)

Section BodyTail.
Context (f : Frame.t) (tail : list byte).

Lemma body_fields :
  slice 0 2 (wire_body f ++ tail) = magic /\
  slice 2 1 (wire_body f ++ tail) = be_bytes 1 (Frame.version f) /\
  slice 3 1 (wire_body f ++ tail) = be_bytes 1 (Opcode.value (Frame.opcode f)) /\
  slice 4 1 (wire_body f ++ tail) = be_bytes 1 (Frame.flags f) /\
  slice 5 1 (wire_body f ++ tail) = be_bytes 1 0 /\
  slice 6 4 (wire_body f ++ tail) = be_bytes 4 (Frame.request_id f) /\
  slice 10 4 (wire_body f ++ tail) = be_bytes 4 (Frame.address f) /\
  slice 14 2 (wire_body f ++ tail) = be_bytes 2 (zlen (Frame.payload f)) /\
  slice 16 2 (wire_body f ++ tail) = be_bytes 2 (Status.value (Frame.status f)) /\
  drop 18 (wire_body f ++ tail) = Frame.payload f ++ tail.
Proof. repeat split. Qed.

Hypothesis protocol : protocol_frame f.
Hypothesis well_formed : Frame.wf f.

Lemma protocol_frame_bounds :
  Frame.version f = 1 /\ 0 <= Frame.flags f <= 1 /\ zlen (Frame.payload f) <= 256.
Proof.
  clear well_formed.
  inversion protocol; subst; cbn [Frame.version Frame.flags Frame.payload]; lia || by repeat split.
Qed.

Lemma protocol_frame_status :
  Frame.status f <> Status.ok <-> Frame.opcode f = Opcode.error_response.
Proof. clear well_formed. by inversion protocol; subst. Qed.

Lemma protocol_frame_encode_error : encode_error f = CodecError.none.
Proof. pose proof protocol_frame_bounds. apply has_valid_semantics_iff; [lia|done]. Qed.

Lemma body_declared_size :
  declared_payload_size (wire_body f ++ tail) = zlen (Frame.payload f).
Proof.
  destruct body_fields as (_ & _ & _ & _ & _ & _ & _ & E14 & _).
  pose proof protocol_frame_bounds. pose proof (zlen_nonneg (Frame.payload f)).
  unfold declared_payload_size. rewrite E14. apply be_value_bytes_small. simpl Z.of_nat. lia.
Qed.

Lemma body_parsed : parsed_frame (wire_body f ++ tail) = f.
Proof.
  destruct body_fields as (_ & E2 & E3 & E4 & _ & E6 & E10 & _ & E16 & E18).
  destruct well_formed as (Hv & [Hor Ho] & Hfl & Hid & Ha & [Hsr Hs]).
  unfold parsed_frame. rewrite body_declared_size, E2, E3, E4, E6, E10, E16.
  rewrite !be_value_bytes_small by (simpl Z.of_nat; lia). rewrite Ho, Hs.
  unfold slice. rewrite E18, take_app_length' by (unfold zlen; lia).
  by destruct f.
Qed.

(** Only the length and the value of the checksum field remain to be checked. *)
Lemma decode_body_tail :
  let size := zlen (Frame.payload f) + 22 in
  decode (wire_body f ++ tail) =
  Done (if zlen tail <? 4 then DecodeResult.mk None CodecError.truncated 0
        else if negb (zlen tail =? 4) then DecodeResult.mk None CodecError.length_mismatch size
        else if negb (be_value tail =? crc32 (wire_body f)) then
          DecodeResult.mk None CodecError.checksum_mismatch size
        else DecodeResult.mk (Some f) CodecError.none size).
Proof.
  cbn zeta. rewrite decode_validation. f_equal. unfold decode_by_validation.
  pose proof protocol_frame_bounds as (_ & Hfl & _).
  pose proof (proj1 (encode_error_none f) protocol_frame_encode_error) as (Hv & Ho & Hp & Hsem).
  pose proof (zlen_wire_body f) as Hb.
  assert (Hsize : declared_frame_size (wire_body f ++ tail) = zlen (Frame.payload f) + 22).
  { unfold declared_frame_size, header_size, checksum_size. rewrite body_declared_size. lia. }
  destruct body_fields as (E0 & _ & _ & _ & E5 & _).
  unfold validation. rewrite !first_failure_cons. cbn [first_failure].
  rewrite body_parsed, body_declared_size, Hsize, E0, E5, zlen_app, Hb.
  pose proof (zlen_nonneg tail). pose proof (zlen_nonneg (Frame.payload f)).
  replace (Z.to_nat (_ - checksum_size)) with (length (wire_body f))
    by (unfold checksum_size, zlen in *; lia).
  rewrite drop_app_length, take_app_length, bool_decide_eq_true_2 by done.
  rewrite Hv, Ho, Hsem, (proj2 (Z.leb_le 18 _)) by lia.
  rewrite (proj2 (Z.leb_le (Frame.flags f) 1)), (proj2 (Z.leb_le _ 256)) by lia.
  change (1 =? 1) with true. change (be_value (be_bytes 1 0) =? 0) with true. cbn iota.
  destruct (Z.ltb_spec (zlen tail) 4).
  { by rewrite (proj2 (Z.leb_gt _ _)) by lia. }
  rewrite (proj2 (Z.leb_le _ _)) by lia.
  destruct (Z.eqb_spec (zlen tail) 4); cbn [negb].
  - rewrite (proj2 (Z.eqb_eq _ _)) by lia.
    by destruct (be_value tail =? crc32 (wire_body f)).
  - by rewrite (proj2 (Z.eqb_neq _ _)) by lia.
Qed.
End BodyTail.

Lemma wire_checksum f : be_value (be_bytes 4 (crc32 (wire_body f))) = crc32 (wire_body f).
Proof. apply be_value_bytes_small, crc32_range. Qed.

Lemma decode_wire f :
  protocol_frame f -> Frame.wf f ->
  decode (wire f) = Done (DecodeResult.mk (Some f) CodecError.none (zlen (wire f))).
Proof.
  intros Hf Hwf. unfold wire at 1. rewrite decode_body_tail by done.
  rewrite zlen_be_bytes, wire_checksum, !Z.eqb_refl, zlen_wire.
  change (Z.of_nat 4 <? 4) with false. cbn [negb].
  do 2 f_equal. lia.
Qed.

(** *** Decoding, in one statement *)

(** [decode] reports a frame exactly on the encodings of protocol frames. *)
Lemma decode_accepts bytes f :
  DecodeResult.frame (decode_by_validation bytes) = Some f ->
  bytes = wire f /\ protocol_frame f /\ Frame.wf f /\
  decode_by_validation bytes = DecodeResult.mk (Some f) CodecError.none (zlen bytes).
Proof.
  unfold decode_by_validation.
  destruct (first_failure (validation bytes)) as [[e c]|] eqn:E; [done|].
  intros [= <-]. destruct (validation_sound _ E) as (Hb & Hf & Hs).
  rewrite Hs. split; [done|]. split; [done|]. split; [apply parsed_frame_wf|done].
Qed.

(** The errors of the validation order are never [none]. *)
Lemma decode_by_validation_error bytes :
  DecodeResult.frame (decode_by_validation bytes) = None <->
  DecodeResult.error (decode_by_validation bytes) <> CodecError.none.
Proof.
  unfold decode_by_validation.
  destruct (first_failure (validation bytes)) as [[e c]|] eqn:E; cbn; [|by split].
  split; [|done]. intros _ ->.
  revert E. unfold validation. rewrite !first_failure_cons. cbn [first_failure].
  repeat case_match; done.
Qed.

(** What the callers of [decode] use: a rejection, or a protocol frame whose
    encoding is the input. *)
Lemma decode_cases bytes :
  (exists e c, e <> CodecError.none /\ decode bytes = Done (DecodeResult.mk None e c)) \/
  (exists f, bytes = wire f /\ protocol_frame f /\ Frame.wf f /\
     decode bytes = Done (DecodeResult.mk (Some f) CodecError.none (zlen bytes))).
Proof.
  rewrite decode_validation.
  destruct (DecodeResult.frame (decode_by_validation bytes)) as [f|] eqn:E.
  - right. exists f. destruct (decode_accepts _ _ E) as (? & ? & ? & ->). done.
  - left. pose proof (proj1 (decode_by_validation_error bytes) E) as He.
    destruct (decode_by_validation bytes) as [fr e c]. cbn in *. subst. eauto.
Qed.

Lemma encode_wire f :
  protocol_frame f -> encode f = EncodeResult.mk (wire f) CodecError.none.
Proof. intros Hf. by rewrite encode_spec, protocol_frame_encode_error. Qed.

Lemma wire_inj f g :
  Frame.wf f -> Frame.wf g -> protocol_frame f -> protocol_frame g -> wire f = wire g -> f = g.
Proof.
  intros Hf Hg Pf Pg E. pose proof (body_parsed f (be_bytes 4 (crc32 (wire_body f))) Pf Hf) as Ef.
  pose proof (body_parsed g (be_bytes 4 (crc32 (wire_body g))) Pg Hg) as Eg.
  fold (wire f) in Ef. fold (wire g) in Eg. congruence.
Qed.

(** *** Damaged frames *)

Lemma be_bytes_inj n v w :
  0 <= v < 256 ^ Z.of_nat n -> 0 <= w < 256 ^ Z.of_nat n -> be_bytes n v = be_bytes n w -> v = w.
Proof. intros Hv Hw E. by rewrite <-(be_value_bytes_small n v), E, be_value_bytes_small. Qed.

(** A string accepted by [decode] splits in one way into a body and the checksum
    of that body. *)
Lemma accepted_checksum body trailer f e c :
  decode (body ++ trailer) = Done (DecodeResult.mk (Some f) e c) ->
  zlen trailer = 4 -> trailer = be_bytes 4 (crc32 body).
Proof.
  intros Hd Ht. destruct (decode_cases (body ++ trailer)) as [(e' & c' & _ & E)|(g & Eb & _ & _ & E)];
    rewrite E in Hd; [done|].
  unfold wire in Eb. apply app_inj_2 in Eb as [-> ->]; [done|].
  rewrite length_be_bytes. unfold zlen in Ht. lia.
Qed.

Lemma damaged_body_rejected body body' f e c :
  decode (body' ++ be_bytes 4 (crc32 body)) = Done (DecodeResult.mk (Some f) e c) ->
  crc32 body = crc32 body'.
Proof.
  intros Hd. apply accepted_checksum in Hd; [|by rewrite zlen_be_bytes].
  by apply (be_bytes_inj 4) in Hd; [|apply crc32_range..].
Qed.

Lemma slice_take off n k (l : list byte) :
  (off + n <= k)%nat -> slice off n (take k l) = slice off n l.
Proof.
  intros H. unfold slice. rewrite skipn_firstn_comm, take_take. f_equal. lia.
Qed.

(** A proper prefix that contains the header fails the second length check; a
    shorter one fails the first. *)
Lemma decode_prefix f k :
  protocol_frame f -> Frame.wf f -> (k < length (wire f))%nat ->
  decode (take k (wire f)) = Done (DecodeResult.mk None CodecError.truncated 0).
Proof.
  intros Hf Hwf Hk. rewrite decode_validation. f_equal. unfold decode_by_validation.
  assert (Hz : zlen (take k (wire f)) = Z.of_nat k)
    by (unfold zlen; rewrite length_take; lia).
  pose proof (protocol_frame_bounds f Hf) as (_ & Hfl & _).
  pose proof (proj1 (encode_error_none f) (protocol_frame_encode_error f Hf)) as (Hv & Ho & Hp & _).
  unfold validation. rewrite !first_failure_cons, Hz.
  destruct (Z.leb_spec 18 (Z.of_nat k)); [|done].
  pose proof (body_parsed f (be_bytes 4 (crc32 (wire_body f))) Hf Hwf) as Ep.
  pose proof (body_declared_size f (be_bytes 4 (crc32 (wire_body f))) Hf) as Es.
  destruct (body_fields f (be_bytes 4 (crc32 (wire_body f)))) as (E0 & _ & _ & _ & E5 & _).
  fold (wire f) in *.
  assert (Hs : forall off n, (off + n <= 18)%nat ->
                 slice off n (take k (wire f)) = slice off n (wire f))
    by (intros; apply slice_take; lia).
  assert (Ed : declared_payload_size (take k (wire f)) = zlen (Frame.payload f))
    by (unfold declared_payload_size; rewrite Hs by lia; done).
  rewrite !Hs, E0, E5, bool_decide_eq_true_2 by lia || done.
  assert (Ev : Frame.version (parsed_frame (take k (wire f))) = Frame.version f)
    by (rewrite <-Ep at 2; cbn [parsed_frame Frame.version]; by rewrite Hs by lia).
  assert (Eo : Frame.opcode (parsed_frame (take k (wire f))) = Frame.opcode f)
    by (rewrite <-Ep at 2; cbn [parsed_frame Frame.opcode]; by rewrite Hs by lia).
  assert (El : Frame.flags (parsed_frame (take k (wire f))) = Frame.flags f)
    by (rewrite <-Ep at 2; cbn [parsed_frame Frame.flags]; by rewrite Hs by lia).
  rewrite Ev, Eo, El, Ho, Hv, Ed.
  rewrite (proj2 (Z.leb_le (Frame.flags f) 1)), (proj2 (Z.leb_le _ 256)) by lia.
  change (1 =? 1) with true. change (be_value (be_bytes 1 0) =? 0) with true. cbn iota.
  unfold declared_frame_size, header_size, checksum_size. rewrite Ed.
  pose proof (zlen_wire f). unfold zlen in *.
  by rewrite (proj2 (Z.leb_gt _ _)) by lia.
Qed.

Lemma zlen_wire_bound f : protocol_frame f -> zlen (wire f) <= maximum_frame_size.
Proof.
  intros Hf. pose proof (protocol_frame_bounds f Hf). rewrite zlen_wire.
  unfold maximum_frame_size, header_size, maximum_payload_size, checksum_size. lia.
Qed.


(** *** The document and the codec *)

Lemma be_value_nonneg p : 0 <= be_value p.
Proof. apply be_value_range. Qed.

Lemma protocol_frame_documented f :
  protocol_frame f <-> documented_frame f \/ undocumented_frame f.
Proof.
  split.
  - destruct 1 as [id a p Hp|id a p Hp|id a p Hp|id a|id a s p Hs Hp].
    + pose proof (be_value_nonneg p).
      destruct (decide (1 <= be_value p <= 256)); [left|right]; constructor; done || lia.
    + left. by constructor.
    + destruct p as [|b p]; [right; constructor|left; constructor].
      rewrite zlen_cons in *. pose proof (zlen_nonneg p). lia.
    + left. constructor.
    + destruct s; try (by left; constructor); by right; constructor.
  - intros [[id a p Hp Hl|id a p Hp|id a p Hp|id a|id a s p Hs Hp]|[id a p Hp Hl|id a|id a v p Hp]];
      constructor; try done; try lia; by destruct s.
Qed.

Lemma documented_exclusive f : documented_frame f -> undocumented_frame f -> False.
Proof.
  intros H. inversion H; subst; inversion 1; subst; rewrite ?zlen_nil in *; try lia.
  by match goal with H : documented_error _ |- _ => destruct H end.
Qed.

(** ** Properties *)

Definition sample_frame : Frame.t :=
  Frame.mk 1 Opcode.write_request 0 7 0x0100 Status.ok [to_byte 0xAA; to_byte 0x55].

Lemma sample_frame_wf : Frame.wf sample_frame.
Proof. unfold Frame.wf, Opcode.wf, Status.wf; repeat split; cbn; lia. Qed.

Lemma sample_frame_protocol : protocol_frame sample_frame.
Proof. constructor. by split. Qed.

(** C9. [decode] refines the validation order of the protocol document on every
    byte string: it ends with a result, so no access is outside the input, and the
    result is that of the first failing check, or the parsed frame. *)
Theorem decode_refines_validation_order bytes :
  decode bytes = Done (decode_by_validation bytes).
Proof. apply decode_validation. Qed.

(** C8. The language of [decode]: it reports a frame exactly when the input is the
    encoding of that frame, the frame keeps the relation between opcode, flags, status
    and payload that the codec checks, the error is [none] and every byte is consumed.
    So accepted input re-encodes to itself and no two inputs decode to the same frame.
    The frames are those that the tables of the protocol document describe and, beyond
    these, read requests for 0 or for more than 256 bytes, empty data responses, and
    error responses with an unassigned status; no others. *)
Theorem decode_accepts_exactly_these_frames bytes f e n :
  (decode bytes = Done (DecodeResult.mk (Some f) e n) <->
   protocol_frame f /\ Frame.wf f /\ bytes = wire f /\ e = CodecError.none /\ n = zlen bytes) /\
  (protocol_frame f <-> documented_frame f \/ undocumented_frame f) /\
  (documented_frame f -> undocumented_frame f -> False).
Proof.
  split; [|split; [apply protocol_frame_documented|apply documented_exclusive]]. split.
  - intros Hd. destruct (decode_cases bytes) as [(e' & c' & _ & E)|(g & Eb & Hg & Hw & E)];
      rewrite E in Hd; [done|].
    by injection Hd as <- <- <-.
  - intros (Hf & Hw & -> & -> & ->). by apply decode_wire.
Qed.

(** C23. [encode] on every frame: the errors in their order of precedence, which are
    unsupported version, unsupported opcode, oversized payload and invalid semantics,
    each with no bytes, and otherwise the layout of the protocol document, of at most
    278 bytes.  Flags have no error of their own: other flags than 0 and 1 give
    [invalid_semantics], after the three other checks. *)
Theorem encode_by_cases f :
  exists bytes error, encode f = EncodeResult.mk bytes error /\
  (Frame.version f <> 1 -> error = CodecError.unsupported_version) /\
  (Frame.version f = 1 -> is_supported_opcode (Frame.opcode f) = false ->
     error = CodecError.unsupported_opcode) /\
  (Frame.version f = 1 -> is_supported_opcode (Frame.opcode f) = true ->
     256 < zlen (Frame.payload f) -> error = CodecError.payload_too_large) /\
  (Frame.version f = 1 -> is_supported_opcode (Frame.opcode f) = true ->
     zlen (Frame.payload f) <= 256 ->
     error = if has_valid_semantics f then CodecError.none else CodecError.invalid_semantics) /\
  (Frame.version f = 1 -> is_supported_opcode (Frame.opcode f) = true ->
     zlen (Frame.payload f) <= 256 -> 1 < Frame.flags f < 256 ->
     error = CodecError.invalid_semantics) /\
  (error <> CodecError.none -> bytes = []) /\
  (error = CodecError.none -> bytes = wire f /\ zlen bytes <= maximum_frame_size).
Proof.
  rewrite encode_spec. do 2 eexists. split; [reflexivity|]. split_and!.
  - intros Hv. unfold encode_error. by rewrite (proj2 (Z.eqb_neq _ _) Hv).
  - intros Hv Ho. unfold encode_error. by rewrite Hv, Ho.
  - intros Hv Ho Hp. unfold encode_error. rewrite Hv, Ho. cbn [negb]. by rewrite (proj2 (Z.ltb_lt _ _) Hp).
  - intros Hv Ho Hp. unfold encode_error. rewrite Hv, Ho, (proj2 (Z.ltb_ge _ _) Hp). cbn [negb Z.eqb].
    by destruct (has_valid_semantics f).
  - intros Hv Ho Hp Hfl. assert (encode_error f <> CodecError.none) as Hne.
    { intros He%has_valid_semantics_iff; [|lia]. apply protocol_frame_bounds in He. lia. }
    revert Hne. unfold encode_error. rewrite Hv, Ho, (proj2 (Z.ltb_ge _ _) Hp). cbn [negb Z.eqb].
    by destruct (has_valid_semantics f).
  - intros He. by rewrite bool_decide_eq_false_2.
  - intros He. rewrite bool_decide_eq_true_2 by done. split; [done|].
    apply encode_error_none in He as (_ & _ & Hp & _). rewrite zlen_wire.
    unfold maximum_frame_size, header_size, maximum_payload_size, checksum_size. lia.
Qed.

(** C22. Round trip: the frames whose members fit their types that [encode] accepts
    are those that keep the relation between opcode, flags, status and payload, and
    [decode] gives each back from its bytes. *)
Theorem encode_decode_round_trip f :
  Frame.wf f ->
  (EncodeResult.error (encode f) = CodecError.none <-> protocol_frame f) /\
  (EncodeResult.error (encode f) = CodecError.none ->
   decode (EncodeResult.bytes (encode f)) =
   Done (DecodeResult.mk (Some f) CodecError.none (zlen (EncodeResult.bytes (encode f))))).
Proof.
  intros Hwf. rewrite encode_spec. cbn [EncodeResult.error EncodeResult.bytes].
  assert (Hiff : encode_error f = CodecError.none <-> protocol_frame f)
    by (apply has_valid_semantics_iff; apply Hwf).
  split; [done|]. intros He. rewrite bool_decide_eq_true_2 by done.
  by apply decode_wire; [apply Hiff|].
Qed.

Lemma encode_decode_round_trip_witness :
  decode (EncodeResult.bytes (encode sample_frame)) =
  Done (DecodeResult.mk (Some sample_frame) CodecError.none 24).
Proof.
  refine (eq_trans (proj2 (encode_decode_round_trip sample_frame sample_frame_wf) _) _);
    vm_compute; reflexivity.
Defined.

(** Truncation and trailing data: every proper prefix of an encoding is
    [truncated], every proper extension is a [length_mismatch] that reports the
    declared size. *)
Theorem decode_requires_exact_length f :
  protocol_frame f -> Frame.wf f ->
  (forall k, (k < length (wire f))%nat ->
     decode (take k (wire f)) = Done (DecodeResult.mk None CodecError.truncated 0)) /\
  (forall extra, extra <> [] ->
     decode (wire f ++ extra) =
     Done (DecodeResult.mk None CodecError.length_mismatch (zlen (wire f)))).
Proof.
  intros Hf Hwf. split; [intros; by apply decode_prefix|]. intros extra Hx.
  unfold wire at 1. rewrite <-app_assoc, decode_body_tail by done.
  rewrite zlen_app, zlen_be_bytes, zlen_wire.
  assert (0 < zlen extra) by (destruct extra; [done|rewrite zlen_cons; pose proof (zlen_nonneg extra); lia]).
  rewrite (proj2 (Z.ltb_ge _ _)), (proj2 (Z.eqb_neq _ _)) by lia. cbn [negb].
  do 2 f_equal. lia.
Qed.

Lemma decode_requires_exact_length_witness :
  decode (take 23 (wire sample_frame)) = Done (DecodeResult.mk None CodecError.truncated 0).
Proof.
  refine (proj1 (decode_requires_exact_length sample_frame sample_frame_protocol
                   sample_frame_wf) 23%nat _).
  vm_compute. lia.
Defined.

(** C10. Damage inside a frame: if the bits before the checksum are changed inside a
    window of 32 bits or in exactly two places, or the checksum alone is changed,
    then the result is not accepted. *)
Theorem decode_rejects_damaged_frames f body trailer g e n :
  protocol_frame f ->
  (trailer = be_bytes 4 (crc32 (wire_body f)) /\
     (differ_in_window 32 (wire_body f) body \/ differ_in_two_bits (wire_body f) body)) \/
  (body = wire_body f /\ zlen trailer = 4 /\ trailer <> be_bytes 4 (crc32 (wire_body f))) ->
  decode (body ++ trailer) <> Done (DecodeResult.mk (Some g) e n).
Proof.
  intros Hf H Hd. destruct H as [[-> Hx]|(-> & Ht & Hne)].
  - apply damaged_body_rejected in Hd. revert Hd.
    destruct Hx as [Hx|Hx]; [by apply crc32_window|apply crc32_two_bits; [|done]].
    pose proof (protocol_frame_bounds f Hf). rewrite zlen_wire_body.
    unfold maximum_frame_size, header_size, maximum_payload_size, checksum_size. lia.
  - by apply Hne, (accepted_checksum _ _ _ _ _ Hd).
Qed.

Lemma decode_rejects_damaged_frames_witness :
  decode (wire_body sample_frame ++ be_bytes 4 0) <>
  Done (DecodeResult.mk (Some sample_frame) CodecError.none 24).
Proof.
  apply (decode_rejects_damaged_frames sample_frame); [exact sample_frame_protocol|].
  right. split; [done|]. split; [done|]. vm_compute. congruence.
Defined.
