(* ===== verification/Distance.v ===== *)
(** * The distance of the frames: how many bit errors the decoder detects.

    The bit-serial register is linear, so a set of bit errors goes unnoticed exactly
    when the states that single errors leave behind cancel out.  No two, three or four
    of the states within the length of a frame do; an exhaustive search over a binary
    tree of the states shows it.  Frames of the same length therefore differ in at
    least five bits. *)

From S2P Require Import Prelude Types BigEndian Crc Codec.

(** ** Sets of words *)

(** A set of bit strings of one length, as a binary tree. *)
Inductive Words : Set := nothing | stop | branch (zero one : Words).

Fixpoint add_word (w : list bool) (t : Words) : Words :=
  match w with
  | [] => stop
  | b :: w =>
      let '(zero, one) := match t with branch zero one => (zero, one) | _ => (nothing, nothing) end in
      if b then branch zero (add_word w one) else branch (add_word w zero) one
  end.

Fixpoint has_word (w : list bool) (t : Words) : bool :=
  match w, t with
  | [], stop => true
  | b :: w, branch zero one => has_word w (if b then one else zero)
  | _, _ => false
  end.

(** Whether the sum of two words is there; the search follows both at once. *)
Fixpoint has_sum (v w : list bool) (t : Words) : bool :=
  match t with
  | branch zero one =>
      match v, w with
      | a :: v, b :: w => has_sum v w (if xorb a b then one else zero)
      | _, _ => false
      end
  | stop => match v, w with [], [] => true | _, _ => false end
  | nothing => false
  end.

Lemma has_sum_spec v w t :
  length v = length w -> has_sum v w t = has_word (zip_with xorb v w) t.
Proof.
  revert w t; induction v as [|a v IH]; intros [|b w] [| |zero one]; cbn; try done.
  intros [= Hl]. by apply IH.
Qed.

Lemma has_word_added w t : has_word w (add_word w t) = true.
Proof. revert t; induction w as [|[] w IH]; intros [| |zero one]; cbn; done. Qed.

Lemma has_word_kept v w t :
  length v = length w -> has_word v t = true -> has_word v (add_word w t) = true.
Proof.
  revert w t; induction v as [|a v IH]; intros [|b w] [| |zero one]; cbn; try done.
  intros [= Hl] Hv. destruct a, b; cbn; try done; by apply IH.
Qed.

Definition words (ws : list (list bool)) : Words := foldr add_word nothing ws.

Lemma has_word_words n ws w :
  Forall (fun v => length v = n) ws -> w ∈ ws -> has_word w (words ws) = true.
Proof.
  induction 1 as [|v ws Hv Hws IH]; [by intros ?%elem_of_nil|].
  intros [->|Hw]%elem_of_cons; cbn [words foldr]; [apply has_word_added|].
  apply has_word_kept; [|by apply IH].
  rewrite Hv. rewrite Forall_forall in Hws. by apply Hws.
Qed.

(** No two members of the list have their sum in the set. *)
Fixpoint no_sum (ws : list (list bool)) (t : Words) : bool :=
  match ws with
  | [] => true
  | v :: ws => forallb (fun w => negb (has_sum v w t)) ws && no_sum ws t
  end.

Lemma no_sum_spec ws t i j v w :
  no_sum ws t = true -> (i < j)%nat -> ws !! i = Some v -> ws !! j = Some w ->
  has_sum v w t = false.
Proof.
  revert i j; induction ws as [|u ws IH]; intros i j Hn Hij Hv Hw; [done|].
  cbn [no_sum] in Hn. bool_props. destruct j as [|j]; [lia|]. destruct i as [|i].
  - injection Hv as ->. rewrite List.forallb_forall in H.
    apply negb_true_iff, H, list_elem_of_In, list_elem_of_lookup. by exists j.
  - by apply (IH i j); [|lia|..].
Qed.

(** ** What single errors leave in the register *)

(** The state that an error leaves behind when [k] more bits follow it, its own step
    included. *)
Definition residue (k : nat) : Z := Nat.iter k crc_bit_step 1.

Fixpoint residues_from (n : nat) (c : Z) : list (list bool) :=
  match n with O => [] | S n => low_bits 32 c :: residues_from n (crc_bit_step c) end.

(** The residues of the other errors in a frame, next to one in its last bit. *)
Definition other_residues : list (list bool) :=
  residues_from (maximum_frame_bits - 1) (crc_bit_step 1).
Definition residues_with_last : Words := words (zip_with xorb (low_bits 32 1) <$> other_residues).

Lemma residue_range k : 0 <= residue k < 2 ^ 32.
Proof. by apply iter_step_range. Qed.

Lemma residues_from_lookup n k i :
  (i < n)%nat -> residues_from n (residue k) !! i = Some (low_bits 32 (residue (k + i))).
Proof.
  revert k i; induction n as [|n IH]; intros k [|i] Hi; cbn [residues_from lookup list_lookup];
    [lia|lia|by rewrite Nat.add_0_r|].
  change (crc_bit_step (residue k)) with (residue (S k)). rewrite IH by lia. do 3 f_equal. lia.
Qed.

Lemma residues_from_length n c : Forall (fun w => length w = 32%nat) (residues_from n c).
Proof.
  revert c; induction n; intros c; cbn [residues_from]; constructor; [apply length_low_bits|done].
Qed.

Lemma low_bits_lxor n a b :
  zip_with xorb (low_bits n a) (low_bits n b) = low_bits n (Z.lxor a b).
Proof.
  revert a b; induction n as [|n IH]; intros a b; cbn [low_bits zip_with]; [done|].
  rewrite odd_lxor, <-!Z.div2_div, IH, !Z.div2_spec, Z.shiftr_lxor. done.
Qed.

(** The search, over all triples of positions. *)
Lemma no_triple_sum :
  forallb (fun w => negb (has_word w residues_with_last)) other_residues = true.
Proof. vm_cast_no_check (eq_refl true). Qed.

Lemma no_quadruple_sum : no_sum other_residues residues_with_last = true.
Proof. vm_cast_no_check (eq_refl true). Qed.

Lemma other_residue k :
  (0 < k < maximum_frame_bits)%nat -> other_residues !! (k - 1)%nat = Some (low_bits 32 (residue k)).
Proof.
  intros Hk. unfold other_residues. change (crc_bit_step 1) with (residue 1).
  rewrite residues_from_lookup by lia. do 3 f_equal. lia.
Qed.

Lemma has_residue_with_last k :
  (0 < k < maximum_frame_bits)%nat ->
  has_word (low_bits 32 (Z.lxor 1 (residue k))) residues_with_last = true.
Proof.
  intros Hk. apply (has_word_words 32).
  - apply Forall_fmap. eapply Forall_impl; [apply residues_from_length|].
    intros w Hw. unfold compose. by rewrite length_zip_with, Hw, length_low_bits.
  - rewrite <-low_bits_lxor. apply list_elem_of_fmap. eexists. split; [done|].
    apply list_elem_of_lookup. exists (k - 1)%nat. by apply other_residue.
Qed.
Lemma two_residues k : (0 < k < maximum_frame_bits)%nat -> Z.lxor 1 (residue k) <> 0.
Proof.
  intros Hk E. apply Z.lxor_eq in E. by apply (avoids_one_spec _ _ k no_short_period); [lia|].
Qed.

Lemma three_residues j k :
  (0 < j < maximum_frame_bits)%nat -> (0 < k < maximum_frame_bits)%nat ->
  Z.lxor (residue j) (Z.lxor 1 (residue k)) <> 0.
Proof.
  intros Hj Hk E. apply Z.lxor_eq in E. pose proof no_triple_sum as H.
  rewrite List.forallb_forall in H. specialize (H (low_bits 32 (residue j))).
  rewrite E, has_residue_with_last in H by done. discriminate H.
  rewrite <-E. apply list_elem_of_In, list_elem_of_lookup. exists (j - 1)%nat. by apply other_residue.
Qed.

Lemma four_residues i j k :
  (0 < i < j)%nat -> (j < maximum_frame_bits)%nat -> (0 < k < maximum_frame_bits)%nat ->
  Z.lxor (Z.lxor (residue i) (residue j)) (Z.lxor 1 (residue k)) <> 0.
Proof.
  intros Hij Hj Hk E. apply Z.lxor_eq in E.
  pose proof (no_sum_spec _ _ (i - 1) (j - 1) _ _ no_quadruple_sum ltac:(lia)
    (other_residue i ltac:(lia)) (other_residue j ltac:(lia))) as H.
  rewrite has_sum_spec, low_bits_lxor, E, has_residue_with_last in H by
    (done || by rewrite !length_low_bits). done.
Qed.

(** ** Patterns of errors *)

(** The sum of the residues of the errors that [ks] bits follow. *)
Definition residue_sum (ks : list nat) : Z := foldr (fun k => Z.lxor (residue k)) 0 ks.

Lemma residue_shift m k : (m <= k)%nat -> residue k = Nat.iter m crc_bit_step (residue (k - m)).
Proof. intros Hm. unfold residue. rewrite iter_add. f_equal. lia. Qed.

Lemma residue_sum_range ks : 0 <= residue_sum ks < 2 ^ 32.
Proof.
  induction ks as [|k ks IH]; cbn [residue_sum foldr]; [done|].
  apply bounded_lxor; [done|apply residue_range|exact IH].
Qed.

Lemma residue_sum_snoc ks m :
  Forall (fun k => (m <= k)%nat) ks ->
  residue_sum (ks ++ [m]) =
  Nat.iter m crc_bit_step (Z.lxor 1 (residue_sum ((fun k => (k - m)%nat) <$> ks))).
Proof.
  induction 1 as [|k ks Hk _ IH]; cbn [residue_sum fmap list_fmap app foldr].
  - by rewrite !Z.lxor_0_r.
  - fold (residue_sum (ks ++ [m])). rewrite IH, (residue_shift m k Hk), <-iter_step_lxor. f_equal.
    fold (residue_sum ((fun k => (k - m)%nat) <$> ks)).
    by rewrite <-!Z.lxor_assoc, (Z.lxor_comm 1).
Qed.

(** An error in the last bit and up to three others. *)
Lemma residue_sum_with_last ks :
  StronglySorted (fun k l => (l < k)%nat) ks ->
  Forall (fun k => (0 < k < maximum_frame_bits)%nat) ks -> (length ks <= 3)%nat ->
  Z.lxor 1 (residue_sum ks) <> 0.
Proof.
  intros Hs Hks Hl.
  destruct ks as [|k [|j [|i [|]]]]; cbn [residue_sum foldr length] in *; try lia;
    repeat match goal with
    | H : StronglySorted _ (_ :: _) |- _ => apply StronglySorted_inv in H as [? ?]
    | H : Forall _ (_ :: _) |- _ => apply Forall_cons in H as [? ?]
    end; rewrite ?Z.lxor_0_r.
  - done.
  - apply two_residues. lia.
  - rewrite <-Z.lxor_assoc, Z.lxor_comm. apply three_residues; lia.
  - rewrite <-Z.lxor_assoc, Z.lxor_comm, (Z.lxor_comm (residue j)). apply four_residues; lia.
Qed.

(** Up to four different errors in a frame leave something behind. *)
Lemma residue_sum_nonzero ks :
  StronglySorted (fun k l => (l < k)%nat) ks ->
  Forall (fun k => (1 <= k <= maximum_frame_bits)%nat) ks ->
  (1 <= length ks <= 4)%nat -> residue_sum ks <> 0.
Proof.
  destruct ks as [|m ks _] using rev_ind; [cbn; lia|]. rewrite length_app. cbn [length].
  intros [Hlt [Hs _]]%StronglySorted_app [Hks [Hm _]%Forall_cons]%Forall_app Hl E.
  assert (Hgt : Forall (fun k => (m < k)%nat) ks)
    by (apply Forall_forall; intros k Hk; by apply Hlt, list_elem_of_singleton).
  rewrite residue_sum_snoc in E by (eapply Forall_impl; [exact Hgt|cbn; lia]).
  apply iter_step_inj_0 in E; [|apply bounded_lxor; [lia|done|apply residue_sum_range]].
  revert E. apply residue_sum_with_last; [| |by rewrite length_fmap; lia].
  - clear -Hs Hgt. induction Hs as [|k ks Hs IH Hk]; [constructor|].
    apply Forall_cons in Hgt as [Hmk Hgt]. cbn [fmap list_fmap]. constructor; [by apply IH|].
    apply Forall_fmap. eapply Forall_impl; [exact Hk|]. intros l Hl. cbn in *. lia.
  - apply Forall_fmap. eapply Forall_impl; [apply Forall_and; exact (conj Hgt Hks)|]. intros k [Hk1 Hk2]. cbn beta in *. unfold compose. lia.
Qed.

(** The positions of the errors of a pattern, by the number of bits from there to the
    end. *)
Fixpoint errors (e : list bool) : list nat :=
  match e with
  | [] => []
  | b :: e => if b then S (length e) :: errors e else errors e
  end.

Lemma errors_range e : Forall (fun k => (1 <= k <= length e)%nat) (errors e).
Proof.
  induction e as [|b e IH]; cbn [errors length]; [constructor|].
  assert (Forall (fun k => (1 <= k <= S (length e))%nat) (errors e))
    by (eapply Forall_impl; [exact IH|]; cbn; lia).
  destruct b; [|done]. constructor; [lia|done].
Qed.

Lemma errors_sorted e : StronglySorted (fun k l => (l < k)%nat) (errors e).
Proof.
  induction e as [|b e IH]; cbn [errors]; [constructor|]. destruct b; [|done].
  constructor; [done|]. eapply Forall_impl; [apply errors_range|]. cbn. lia.
Qed.

Lemma length_errors e : Z.of_nat (length (errors e)) = tally id e.
Proof.
  unfold tally, zlen. induction e as [|[] e IH]; cbn [errors length List.filter id]; [done|lia|done].
Qed.

Lemma serial_step_lxor s t a b :
  Z.lxor (serial_step s a) (serial_step t b) = serial_step (Z.lxor s t) (xorb a b).
Proof.
  unfold serial_step. rewrite <-crc_bit_step_lxor. f_equal. apply Z.bits_inj'. intros i _.
  rewrite !Z.lxor_spec. destruct a, b; cbn [xorb Z.b2z]; rewrite ?Z.testbit_0_l;
    by destruct (Z.testbit s i), (Z.testbit t i), (Z.testbit 1 i).
Qed.

(** The register sees the pattern only. *)
Lemma serial_lxor s t v w :
  length v = length w ->
  Z.lxor (foldl serial_step s v) (foldl serial_step t w) =
  foldl serial_step (Z.lxor s t) (zip_with xorb v w).
Proof.
  revert s t w; induction v as [|a v IH]; intros s t [|b w]; cbn; try done.
  intros [= Hl]. by rewrite IH, serial_step_lxor.
Qed.

Lemma serial_errors e : foldl serial_step 0 e = residue_sum (errors e).
Proof.
  induction e as [|b e IH]; [done|]. cbn [foldl errors].
  assert (foldl serial_step (serial_step 0 b) e =
          Z.lxor (Nat.iter (length e) crc_bit_step (serial_step 0 b)) (foldl serial_step 0 e)) as ->.
  { rewrite !serial_run, <-iter_step_lxor. by rewrite Z.lxor_0_l. }
  rewrite IH. unfold serial_step. rewrite Z.lxor_0_l. destruct b; cbn [Z.b2z residue_sum foldr].
  - unfold residue. by rewrite Nat.iter_succ_r.
  - rewrite crc_bit_step_0. assert (Nat.iter (length e) crc_bit_step 0 = 0) as ->; [|done].
    clear. induction (length e) as [|n IHn]; [done|]. by rewrite Nat.iter_succ, IHn.
Qed.

(** Two strings that leave the register in one state, not longer than a frame, are
    equal or differ in at least five bits. *)
Lemma serial_distance s v w :
  length v = length w -> (length v <= maximum_frame_bits)%nat ->
  foldl serial_step s v = foldl serial_step s w -> tally id (zip_with xorb v w) <= 4 -> v = w.
Proof.
  intros Hl Hmax E Hd. set (e := zip_with xorb v w) in *.
  assert (Hz : residue_sum (errors e) = 0).
  { rewrite <-serial_errors. pose proof (serial_lxor s s v w Hl) as Hx.
    by rewrite E, !Z.lxor_nilpotent in Hx. }
  assert (Hle : length e = length v) by (unfold e; rewrite length_zip_with; lia).
  pose proof (length_errors e) as Hlen.
  destruct (decide (errors e = [])) as [He|He].
  - clear -Hl He. unfold e in He. clear e. revert w Hl He.
    induction v as [|a v IH]; intros [|b w] Hl He; try done. cbn [zip_with errors] in He.
    destruct (xorb a b) eqn:Ex; [done|]. apply xorb_eq in Ex as ->. f_equal. apply IH; [|done].
    by injection Hl.
  - destruct (residue_sum_nonzero (errors e)); [apply errors_sorted| | |done].
    + eapply Forall_impl; [apply errors_range|]. cbn. lia.
    + destruct (errors e); [done|]. cbn [length] in *. lia.
Qed.

(** ** Bytes in the order of the register *)

(** The number of bits in which two strings of one length differ. *)
Definition bit_distance (l k : list byte) : Z := tally id (zip_with xorb (wire_bits l) (wire_bits k)).

Lemma wire_bits_app l k : wire_bits (l ++ k) = wire_bits l ++ wire_bits k.
Proof. unfold wire_bits. by rewrite bind_app. Qed.

Lemma length_byte_bits b : length (byte_bits b) = 8%nat.
Proof. apply length_low_bits. Qed.

Lemma byte_bits_inj b c : byte_bits b = byte_bits c -> b = c.
Proof.
  intros E. apply (f_equal bits_value) in E. unfold byte_bits in E.
  rewrite !bits_value_low_bits in E by apply to_integer_range. by apply to_integer_inj.
Qed.

Lemma wire_bits_inj l k : wire_bits l = wire_bits k -> l = k.
Proof.
  revert k; induction l as [|b l IH]; intros [|c k] E; [done|by apply (f_equal length) in E..|].
  change (byte_bits b ++ wire_bits l = byte_bits c ++ wire_bits k) in E.
  apply app_inj_1 in E as [Eb El]; [|by rewrite !length_byte_bits].
  f_equal; [by apply byte_bits_inj|by apply IH].
Qed.

Lemma bit_distance_app l k l' k' :
  length l = length k -> bit_distance (l ++ l') (k ++ k') = bit_distance l k + bit_distance l' k'.
Proof.
  intros Hl. unfold bit_distance.
  by rewrite !wire_bits_app, zip_with_app, tally_app by by rewrite !length_wire_bits, Hl.
Qed.

Lemma bit_distance_reverse l k :
  length l = length k -> bit_distance (reverse l) (reverse k) = bit_distance l k.
Proof.
  revert k; induction l as [|b l IH]; intros [|c k] Hl; try done. injection Hl as Hl.
  rewrite !reverse_cons, bit_distance_app by by rewrite !length_reverse.
  rewrite IH by done. change (b :: l) with ([b] ++ l). change (c :: k) with ([c] ++ k).
  rewrite bit_distance_app by done. lia.
Qed.

Lemma bits_value_app v w :
  bits_value (v ++ w) = bits_value v + 2 ^ Z.of_nat (length v) * bits_value w.
Proof.
  induction v as [|b v IH]; cbn [app bits_value length]; [lia|].
  rewrite IH, Nat2Z.inj_succ, Z.pow_succ_r by lia. lia.
Qed.

Lemma bits_value_reverse l : bits_value (wire_bits (reverse l)) = be_value l.
Proof.
  induction l as [|b l IH]; [done|].
  rewrite reverse_cons, wire_bits_app, bits_value_app, IH, length_wire_bits, length_reverse.
  change (wire_bits [b]) with (byte_bits b ++ []). rewrite app_nil_r. unfold byte_bits.
  rewrite bits_value_low_bits by apply to_integer_range. cbn [be_value]. unfold zlen.
  rewrite Nat2Z.inj_mul, (Z.pow_mul_r 2) by lia. change (2 ^ Z.of_nat 8) with 256. lia.
Qed.

Lemma lxor_complement r : 0 <= r < 2 ^ 32 -> Z.lxor r (2 ^ 32 - 1 - r) = 2 ^ 32 - 1.
Proof.
  intros Hr. rewrite <-u32_lnot by done. unfold u32.
  change (2 ^ 32 - 1) with (Z.ones 32). rewrite <-Z.land_ones by lia. apply Z.bits_inj'. intros i Hi.
  rewrite Z.lxor_spec, Z.land_spec, Z.lnot_spec by done.
  destruct (decide (i < 32)).
  - rewrite Z.ones_spec_low by lia. by destruct (Z.testbit r i).
  - rewrite Z.ones_spec_high, (testbit_high 32 r) by lia. done.
Qed.

(** A body and its checksum, least significant byte first, leave the register in the
    same state for every body. *)
Lemma checksummed_state body :
  foldl serial_step 0xFFFFFFFF (wire_bits (body ++ reverse (be_bytes 4 (crc32 body)))) =
  Nat.iter 32 crc_bit_step 0xFFFFFFFF.
Proof.
  rewrite wire_bits_app, foldl_app, serial_run, bits_value_reverse, length_wire_bits.
  rewrite length_reverse, length_be_bytes, be_value_bytes_small by apply crc32_range.
  change (8 * 4)%nat with 32%nat. f_equal. rewrite crc32_alt.
  apply lxor_complement. by apply serial_range.
Qed.

Lemma wire_distance f g :
  zlen (wire f) = zlen (wire g) -> zlen (wire f) <= maximum_frame_size ->
  bit_distance (wire f) (wire g) <= 4 -> wire f = wire g.
Proof.
  unfold wire. rewrite !zlen_app, !zlen_be_bytes. intros Hl Hmax Hd.
  assert (Hb : length (wire_body f) = length (wire_body g)) by (unfold zlen in Hl; lia).
  pose proof (checksummed_state (wire_body f)) as Hf. pose proof (checksummed_state (wire_body g)) as Hg.
  set (t := be_bytes 4 (crc32 (wire_body f))) in *. set (u := be_bytes 4 (crc32 (wire_body g))) in *.
  assert (Ht4 : length t = 4%nat) by apply length_be_bytes.
  assert (Hu4 : length u = 4%nat) by apply length_be_bytes.
  assert (Ht : length t = length u) by congruence.
  clearbody t u. rewrite (bit_distance_app _ _ t u Hb) in Hd.
  rewrite <-(bit_distance_reverse t u Ht), <-(bit_distance_app _ _ _ _ Hb) in Hd.
  assert (E : wire_body f ++ reverse t = wire_body g ++ reverse u).
  { apply wire_bits_inj, (serial_distance 0xFFFFFFFF); [| |by rewrite Hf, Hg|exact Hd];
      rewrite !length_wire_bits, !length_app, !length_reverse, Hb, Ht; [done|].
    unfold maximum_frame_bits. unfold zlen in Hmax. lia. }
  apply app_inj_1 in E as [-> E]; [|done]. by apply (inj reverse) in E as ->.
Qed.

(** ** Properties *)

(** C11. Any few bit errors are detected.  If between one and four bits of an encoded
    frame are inverted, anywhere in it, the header, the length field and the checksum
    included, then the decoder rejects the result; for every frame of the protocol, up
    to the maximum size. *)
Theorem decode_rejects_four_bit_errors f bytes :
  protocol_frame f -> zlen bytes = zlen (wire f) -> 1 <= bit_distance (wire f) bytes <= 4 ->
  exists e n, e <> CodecError.none /\ decode bytes = Done (DecodeResult.mk None e n).
Proof.
  intros Hf Hl [Hpos Hd].
  destruct (decode_cases bytes) as [Hr|(g & -> & _ & _ & _)]; [exact Hr|].
  assert (wire f = wire g) as E by (apply wire_distance; [done|by apply zlen_wire_bound|done]).
  rewrite E in Hpos. exfalso. revert Hpos. unfold bit_distance. generalize (wire_bits (wire g)).
  intros v. induction v as [|b v IH]; cbn [zip_with]; [done|].
  rewrite xorb_nilpotent. exact IH.
Qed.

(** So different frames of the same length differ in at least five bits. *)
Theorem frames_differ_in_five_bits f g :
  protocol_frame f -> Frame.wf f -> protocol_frame g -> Frame.wf g -> f <> g ->
  zlen (Frame.payload f) = zlen (Frame.payload g) -> 5 <= bit_distance (wire f) (wire g).
Proof.
  intros Hf Hwf Hg Hwg Hne Hl. destruct (Z.le_gt_cases 5 (bit_distance (wire f) (wire g))); [done|].
  destruct Hne. apply wire_inj; try done.
  apply wire_distance; [by rewrite !zlen_wire, Hl|by apply zlen_wire_bound|lia].
Qed.

(** *** The properties at concrete inputs *)

(** The sample frame with a bit inverted in the opcode, the payload and the checksum. *)
Definition sample_damaged : list byte :=
  foldr (fun i => alter (fun b => to_byte (Z.lxor (to_integer b) 0x10)) i) (wire sample_frame)
    [3; 18; 21]%nat.

Lemma decode_rejects_four_bit_errors_witness :
  bit_distance (wire sample_frame) sample_damaged = 3 /\
  exists e n, e <> CodecError.none /\ decode sample_damaged = Done (DecodeResult.mk None e n).
Proof.
  split; [vm_compute; reflexivity|].
  apply (decode_rejects_four_bit_errors sample_frame); [exact sample_frame_protocol| |].
  - vm_compute. reflexivity.
  - split; vm_compute; discriminate.
Defined.

Definition other_sample_frame : Frame.t :=
  Frame.mk 1 Opcode.write_request 0 7 0x0101 Status.ok [to_byte 0xAA; to_byte 0x55].

Lemma frames_differ_in_five_bits_witness :
  5 <= bit_distance (wire sample_frame) (wire other_sample_frame).
Proof.
  apply (frames_differ_in_five_bits sample_frame other_sample_frame sample_frame_protocol
           sample_frame_wf).
  - constructor. by split.
  - unfold Frame.wf, Opcode.wf, Status.wf; repeat split; cbn; lia.
  - discriminate.
  - reflexivity.
Defined.
