(* ===== verification/Memory.v ===== *)
(** * The simulated memory: [include/imlp/memory_map.hpp] and [src/memory_map.cpp].

    The state is the array of 4096 bytes.  The specification is a pair of status
    functions over intervals of addresses and the array as a list. *)

From S2P Require Import Prelude Types BigEndian.

Definition memory_capacity : Z := 4096.

Module Access.
Inductive t : Set := read_only | read_write | denied.

#[global] Instance eq_dec : EqDecision t.
Proof. solve_decision. Defined.
End Access.

Module MemoryResult.
Record t : Set := mk { status : Status.t; data : list byte }.
(** [explicit operator bool]. *)
Definition to_bool (r : t) : bool := bool_decide (status r = Status.ok).
End MemoryResult.

Definition range_fits (address length : Z) : bool :=
  if (length =? 0) || (memory_capacity <? length) then false
  else
    let start := address in
    (start <? memory_capacity) && (length <=? usize (memory_capacity - start)).

Module MemoryMap.
Record t : Set := mk { bytes_ : list byte }.

(** The string constant of the constructor. *)
Definition identity : list Ascii.ascii := chars "IMLP/1 synthetic memory simulator".

(** The constructor: [bytes_] starts zeroed. *)
Definition construct : Exec t :=
  r ← for_loop (length identity) 0 (zlen identity) 1
        (fun index bytes =>
           c ← vec_at identity index;
           bytes' ← vec_set bytes index (to_byte (char_value c));
           Done (inl bytes'))
        (replicate (Z.to_nat memory_capacity) (to_byte 0));
  match r with
  | inl bytes =>
      bytes' ← vec_set bytes 0x40 (to_byte protocol_version);
      Done (mk bytes')
  | inr returned => match (returned : Empty_set) with end
  end.

Definition access_for (address : Z) : Access.t :=
  if address <=? 0x00FF then Access.read_only
  else if address <=? 0x07FF then Access.read_write
  else Access.denied.

Definition read (m : t) (address length : Z) : Exec MemoryResult.t :=
  if negb (range_fits address length) || (maximum_payload_size <? length) then
    Done (MemoryResult.mk Status.out_of_range [])
  else
    let start := address in
    r ← for_loop (Z.to_nat length) 0 length 1
          (fun offset (_ : unit) => Done (
             if bool_decide (access_for (u32 (usize (start + offset))) = Access.denied)
             then inr (MemoryResult.mk Status.access_denied [])
             else inl ())) ();
    match r with
    | inr returned => Done returned
    | inl _ =>
        data ← vec_range (bytes_ m) start (usize (start + length));
        Done (MemoryResult.mk Status.ok data)
    end.

Definition write (m : t) (address : Z) (data : list byte) : Exec (Status.t * t) :=
  if negb (range_fits address (zlen data)) || (maximum_payload_size <? zlen data) then
    Done (Status.out_of_range, m)
  else
    let start := address in
    r ← for_loop (length data) 0 (zlen data) 1
          (fun offset (_ : unit) => Done (
             if bool_decide (access_for (u32 (usize (start + offset))) <> Access.read_write)
             then inr Status.access_denied
             else inl ())) ();
    match r with
    | inr returned => Done (returned, m)
    | inl _ =>
        bytes ← std_copy data (bytes_ m) start;
        Done (Status.ok, mk bytes)
    end.

(** The array has its fixed size. *)
Definition wf (m : t) : Prop := zlen (bytes_ m) = memory_capacity.
End MemoryMap.

(** ** Specification *)

(** A non-empty interval of at most 256 addresses inside the memory. *)
Definition interval_fits (a n : Z) : bool := (0 <? n) && (n <=? 256) && (a + n <=? 4096).

(** Addresses below 0x800 can be read, those from 0x100 to 0x7ff written. *)
Definition read_status (a n : Z) : Status.t :=
  if negb (interval_fits a n) then Status.out_of_range
  else if a + n <=? 0x800 then Status.ok else Status.access_denied.

Definition write_status (a n : Z) : Status.t :=
  if negb (interval_fits a n) then Status.out_of_range
  else if (0x100 <=? a) && (a + n <=? 0x800) then Status.ok else Status.access_denied.

(** The [n] bytes from address [a], and the memory with [data] at address [a]. *)
Definition bytes_at (m : MemoryMap.t) (a n : Z) : list byte :=
  slice (Z.to_nat a) (Z.to_nat n) (MemoryMap.bytes_ m).

Definition store (m : MemoryMap.t) (a : Z) (data : list byte) : MemoryMap.t :=
  MemoryMap.mk (take (Z.to_nat a) (MemoryMap.bytes_ m) ++ data ++
                drop (Z.to_nat a + length data) (MemoryMap.bytes_ m)).

(** ** The operations against the specification *)

(** The subtraction of [range_fits] does not wrap, and the test is the one on the
    mathematical sum. *)
Lemma range_fits_spec a n :
  0 <= a < 2 ^ 32 -> 0 <= n < 2 ^ 64 ->
  range_fits a n && (n <=? maximum_payload_size) = interval_fits a n.
Proof.
  intros Ha Hn. unfold range_fits, interval_fits, memory_capacity, maximum_payload_size.
  assert (Hu : a < 4096 -> usize (4096 - a) = 4096 - a)
    by (intros; unfold usize; apply Z.mod_small; lia).
  destruct (Z.ltb_spec a 4096); [rewrite Hu by done|]; compare_cases; done || lia.
Qed.

Lemma access_word a o : 0 <= a < 2 ^ 32 -> 0 <= o -> a + o < 2 ^ 32 -> u32 (usize (a + o)) = a + o.
Proof. intros. unfold u32, usize. rewrite (Z.mod_small _ (2 ^ 64)), Z.mod_small; lia. Qed.

Lemma access_denied_iff a : MemoryMap.access_for a = Access.denied <-> 0x800 <= a.
Proof.
  unfold MemoryMap.access_for.
  destruct (Z.leb_spec a 0xFF), (Z.leb_spec a 0x7FF); split; done || lia.
Qed.

Lemma access_read_write_iff a :
  MemoryMap.access_for a = Access.read_write <-> 0x100 <= a < 0x800.
Proof.
  unfold MemoryMap.access_for.
  destruct (Z.leb_spec a 0xFF), (Z.leb_spec a 0x7FF); split; done || lia.
Qed.

Lemma std_copy_at src dst start :
  0 <= start -> start + zlen src <= zlen dst ->
  std_copy src dst start =
  Done (take (Z.to_nat start) dst ++ src ++ drop (Z.to_nat start + length src) dst).
Proof.
  intros Hs Hl. unfold zlen in *.
  pose proof (slice_split (Z.to_nat start) (length src) dst) as E.
  remember (take (Z.to_nat start) dst) as pre eqn:Epre.
  assert (Hp : zlen pre = start) by (unfold zlen; rewrite Epre, length_take; lia).
  transitivity (std_copy src (pre ++ slice (Z.to_nat start) (length src) dst ++
                              drop (Z.to_nat start + length src) dst) (zlen pre)).
  { by rewrite <-E, Hp. }
  apply std_copy_middle, length_slice. unfold zlen. lia.
Qed.

Section Operations.
Context (m : MemoryMap.t) (a : Z).
Hypothesis m_wf : MemoryMap.wf m.
Hypothesis a_u32 : 0 <= a < 2 ^ 32.

Lemma memory_read_spec n :
  0 <= n < 2 ^ 64 ->
  MemoryMap.read m a n = Done (MemoryResult.mk (read_status a n)
    (if bool_decide (read_status a n = Status.ok) then bytes_at m a n else [])).
Proof.
  intros Hn. unfold MemoryMap.read, read_status. rewrite Z.ltb_antisym, <-negb_andb.
  rewrite range_fits_spec by done. destruct (interval_fits a n) eqn:Hf; [|done]. cbn [negb].
  unfold interval_fits in Hf. bool_props.
  destruct (for_loop_scan
    (fun o => bool_decide (MemoryMap.access_for (u32 (usize (a + o))) = Access.denied))
    (MemoryResult.mk Status.access_denied []) (Z.to_nat n) 0 n)
    as [[Hall ->]|[(o & Ho & Hp) ->]]; [lia..| |]; cbn [mbind exec_bind].
  - specialize (Hall (n - 1) ltac:(lia)). rewrite access_word in Hall by lia.
    apply bool_decide_eq_false in Hall. rewrite access_denied_iff in Hall.
    rewrite (proj2 (Z.leb_le _ _)) by lia. unfold usize. rewrite Z.mod_small by lia.
    unfold MemoryMap.wf, memory_capacity in m_wf.
    rewrite vec_range_Done by lia. cbn [mbind exec_bind].
    rewrite bool_decide_eq_true_2 by done. unfold bytes_at, slice. do 3 f_equal. lia.
  - apply bool_decide_eq_true in Hp. rewrite access_word, access_denied_iff in Hp by lia.
    by rewrite (proj2 (Z.leb_gt _ _)) by lia.
Qed.

Lemma memory_write_spec data :
  zlen data < 2 ^ 64 ->
  MemoryMap.write m a data = Done (write_status a (zlen data),
    if bool_decide (write_status a (zlen data) = Status.ok) then store m a data else m).
Proof.
  intros Hn. pose proof (zlen_nonneg data) as H0.
  unfold MemoryMap.write, write_status. rewrite Z.ltb_antisym, <-negb_andb.
  rewrite range_fits_spec by lia. destruct (interval_fits a (zlen data)) eqn:Hf; [|done].
  cbn [negb]. unfold interval_fits in Hf. bool_props.
  destruct (for_loop_scan
    (fun o => bool_decide (MemoryMap.access_for (u32 (usize (a + o))) <> Access.read_write))
    Status.access_denied (length data) 0 (zlen data))
    as [[Hall ->]|[(o & Ho & Hp) ->]]; [done|lia|unfold zlen; lia| |]; cbn [mbind exec_bind].
  - pose proof (Hall 0 ltac:(lia)) as Hfst. pose proof (Hall (zlen data - 1) ltac:(lia)) as Hlst.
    rewrite access_word in Hfst, Hlst by lia.
    apply bool_decide_eq_false, dec_stable, access_read_write_iff in Hfst, Hlst.
    rewrite !(proj2 (Z.leb_le _ _)) by lia. cbn [andb].
    rewrite bool_decide_eq_true_2 by done. unfold store.
    unfold MemoryMap.wf, memory_capacity, zlen in *.
    by rewrite std_copy_at by (unfold zlen; lia).
  - apply bool_decide_eq_true in Hp. rewrite access_word, access_read_write_iff in Hp by lia.
    destruct (Z.leb_spec 0x100 a), (Z.leb_spec (a + zlen data) 0x800); cbn [andb]; done || lia.
Qed.
End Operations.

(** ** The array as a function of addresses *)

(** The byte at an address. *)
Definition byte_at (m : MemoryMap.t) (i : Z) : option byte :=
  if i <? 0 then None else MemoryMap.bytes_ m !! Z.to_nat i.

Lemma store_wf m a data :
  MemoryMap.wf m -> 0 <= a -> a + zlen data <= 4096 -> MemoryMap.wf (store m a data).
Proof.
  unfold MemoryMap.wf, memory_capacity, zlen, store. intros. cbn [MemoryMap.bytes_].
  rewrite !length_app, length_take, length_drop. lia.
Qed.

Lemma byte_at_store m a data i :
  MemoryMap.wf m -> 0 <= a -> a + zlen data <= 4096 ->
  byte_at (store m a data) i =
  if (a <=? i) && (i <? a + zlen data) then data !! Z.to_nat (i - a) else byte_at m i.
Proof.
  unfold MemoryMap.wf, memory_capacity, zlen, byte_at, store. cbn [MemoryMap.bytes_].
  intros Hw Ha Hl. destruct (Z.ltb_spec i 0).
  { by rewrite (proj2 (Z.leb_gt _ _)) by lia. }
  assert (Ht : length (take (Z.to_nat a) (MemoryMap.bytes_ m)) = Z.to_nat a)
    by (rewrite length_take; lia).
  destruct (Z.leb_spec a i); cbn [andb].
  - rewrite lookup_app_r by lia. rewrite Ht.
    replace (Z.to_nat i - Z.to_nat a)%nat with (Z.to_nat (i - a)) by lia.
    destruct (Z.ltb_spec i (a + Z.of_nat (length data))).
    + by rewrite lookup_app_l by lia.
    + rewrite lookup_app_r, lookup_drop by lia. f_equal. lia.
  - rewrite lookup_app_l, lookup_take_lt by lia. done.
Qed.

Lemma bytes_at_lookup m a n k :
  0 <= a -> 0 <= k < n -> bytes_at m a n !! Z.to_nat k = byte_at m (a + k).
Proof.
  intros. unfold bytes_at, byte_at. rewrite slice_lookup by lia.
  rewrite (proj2 (Z.ltb_ge _ _)) by lia. f_equal. lia.
Qed.

Lemma zlen_bytes_at m a n :
  MemoryMap.wf m -> 0 <= a -> 0 <= n -> a + n <= 4096 -> zlen (bytes_at m a n) = n.
Proof.
  unfold MemoryMap.wf, memory_capacity. intros. unfold bytes_at, zlen.
  rewrite length_slice; lia.
Qed.

Lemma bytes_at_store m a data :
  MemoryMap.wf m -> 0 <= a -> a + zlen data <= 4096 ->
  bytes_at (store m a data) a (zlen data) = data.
Proof.
  unfold MemoryMap.wf, memory_capacity, zlen, bytes_at, store. intros. cbn [MemoryMap.bytes_].
  rewrite Nat2Z.id. replace (Z.to_nat a) with (length (take (Z.to_nat a) (MemoryMap.bytes_ m))) at 1
    by (rewrite length_take; lia).
  by apply slice_middle.
Qed.

(** ** Statuses *)

Lemma bytes_at_store_disjoint m a data a' n :
  MemoryMap.wf m -> 0 <= a -> a + zlen data <= 4096 -> 0 <= a' -> 0 <= n ->
  a' + n <= a \/ a + zlen data <= a' ->
  bytes_at (store m a data) a' n = bytes_at m a' n.
Proof.
  intros Hw Ha Hl Ha' Hn Hd. apply list_eq. intros i. unfold bytes_at.
  destruct (decide (i < Z.to_nat n)%nat) as [Hi|Hi].
  - pose proof (bytes_at_lookup (store m a data) a' n (Z.of_nat i)) as E1.
    pose proof (bytes_at_lookup m a' n (Z.of_nat i)) as E2.
    unfold bytes_at in E1, E2. rewrite Nat2Z.id in E1, E2. rewrite E1, E2 by lia.
    rewrite byte_at_store by done.
    destruct (Z.leb_spec a (a' + Z.of_nat i)), (Z.ltb_spec (a' + Z.of_nat i) (a + zlen data));
      cbn [andb]; done || lia.
  - unfold slice. rewrite !lookup_take_ge by lia. done.
Qed.

Lemma interval_fits_iff a n : interval_fits a n = true <-> 0 < n <= 256 /\ a + n <= 4096.
Proof. unfold interval_fits. rewrite !andb_true_iff, Z.ltb_lt, !Z.leb_le. lia. Qed.

Lemma read_status_ok a n : read_status a n = Status.ok <-> 0 < n <= 256 /\ a + n <= 0x800.
Proof.
  unfold read_status. pose proof (interval_fits_iff a n).
  destruct (interval_fits a n), (Z.leb_spec (a + n) 0x800); cbn [negb]; intuition (done || lia).
Qed.

Lemma write_status_ok a n :
  write_status a n = Status.ok <-> 0 < n <= 256 /\ 0x100 <= a /\ a + n <= 0x800.
Proof.
  unfold write_status. pose proof (interval_fits_iff a n).
  destruct (interval_fits a n), (Z.leb_spec 0x100 a), (Z.leb_spec (a + n) 0x800);
    cbn [negb andb]; intuition (done || lia).
Qed.

Lemma read_status_cases a n :
  read_status a n = Status.ok \/ read_status a n = Status.out_of_range \/
  read_status a n = Status.access_denied.
Proof. unfold read_status. repeat case_match; auto. Qed.

Lemma write_status_cases a n :
  write_status a n = Status.ok \/ write_status a n = Status.out_of_range \/
  write_status a n = Status.access_denied.
Proof. unfold write_status. repeat case_match; auto. Qed.

(** ** Regions that no write changes *)

(** Two memories that agree outside the read/write region. *)
Definition same_protected (m m' : MemoryMap.t) : Prop :=
  forall i, ~ (0x100 <= i < 0x800) -> byte_at m i = byte_at m' i.

#[export] Instance same_protected_equivalence : Equivalence same_protected.
Proof.
  split.
  - by intros m i.
  - intros m m' H i Hi. symmetry. by apply H.
  - intros m1 m2 m3 H12 H23 i Hi. rewrite H12 by done. by apply H23.
Qed.

Lemma store_same_protected m a data :
  MemoryMap.wf m -> write_status a (zlen data) = Status.ok ->
  same_protected m (store m a data).
Proof.
  intros Hw Hs i Hi. apply write_status_ok in Hs. rewrite byte_at_store by (done || lia).
  destruct (Z.leb_spec a i), (Z.ltb_spec i (a + zlen data)); cbn [andb]; done || lia.
Qed.

(** The memory after the constructor. *)
Definition initial_memory : MemoryMap.t :=
  match MemoryMap.construct with Done m => m | Halt _ => MemoryMap.mk [] end.

Lemma construct_spec : MemoryMap.construct = Done initial_memory.
Proof. vm_compute. reflexivity. Qed.

Lemma initial_memory_wf : MemoryMap.wf initial_memory.
Proof. vm_compute. reflexivity. Qed.

(** From here on the initial contents are used through their lemmas. *)
#[global] Opaque initial_memory.

(** The states of a memory map: construction, then any sequence of writes. *)
Inductive memory_reachable : MemoryMap.t -> Prop :=
| memory_constructed m :
    MemoryMap.construct = Done m -> memory_reachable m
| memory_written m a data s m' :
    memory_reachable m -> 0 <= a < 2 ^ 32 -> zlen data < 2 ^ 64 ->
    MemoryMap.write m a data = Done (s, m') -> memory_reachable m'.

(** ** Properties *)

(** [MemoryMap::read] on every argument of its types: [out_of_range] unless the
    interval is non-empty, at most 256 bytes and inside the 4096 bytes;
    [access_denied] when it reaches 0x800; otherwise exactly the bytes of the
    interval.  No access is outside the array and no sum wraps. *)
Theorem memory_read_correct m a n :
  MemoryMap.wf m -> 0 <= a < 2 ^ 32 -> 0 <= n < 2 ^ 64 ->
  exists r, MemoryMap.read m a n = Done r /\
    MemoryResult.status r =
      (if negb ((0 <? n) && (n <=? 256) && (a + n <=? 4096)) then Status.out_of_range
       else if a + n <=? 0x800 then Status.ok else Status.access_denied) /\
    (MemoryResult.status r <> Status.ok -> MemoryResult.data r = []) /\
    (MemoryResult.status r = Status.ok ->
       zlen (MemoryResult.data r) = n /\
       forall k, 0 <= k < n -> MemoryResult.data r !! Z.to_nat k = byte_at m (a + k)).
Proof.
  intros Hw Ha Hn. rewrite memory_read_spec by done. eexists; split; [done|].
  cbn [MemoryResult.status MemoryResult.data]. split; [done|].
  split; intros Hs; [by rewrite bool_decide_eq_false_2|].
  rewrite bool_decide_eq_true_2 by done. apply read_status_ok in Hs. split.
  - apply zlen_bytes_at; done || lia.
  - intros k Hk. by apply bytes_at_lookup; lia.
Qed.

Lemma memory_read_correct_witness :
  exists r, MemoryMap.read initial_memory 0 4 = Done r /\ MemoryResult.status r = Status.ok.
Proof.
  destruct (memory_read_correct initial_memory 0 4 initial_memory_wf) as (r & E & Hs & _);
    [by split|by split|].
  exists r. split; [exact E|exact Hs].
Defined.

(** [MemoryMap::write] is all or nothing: unless the whole interval is inside
    0x100-0x7ff (and non-empty, of at most 256 bytes) the memory is unchanged and
    the status says why; otherwise exactly the bytes of the interval change, to the
    data.  No access is outside the array. *)
Theorem memory_write_atomic m a data :
  MemoryMap.wf m -> 0 <= a < 2 ^ 32 -> zlen data < 2 ^ 64 ->
  exists s m', MemoryMap.write m a data = Done (s, m') /\ MemoryMap.wf m' /\
    s = (if negb ((0 <? zlen data) && (zlen data <=? 256) && (a + zlen data <=? 4096))
         then Status.out_of_range
         else if (0x100 <=? a) && (a + zlen data <=? 0x800) then Status.ok
         else Status.access_denied) /\
    (s <> Status.ok -> m' = m) /\
    (s = Status.ok -> forall i, byte_at m' i =
       if (a <=? i) && (i <? a + zlen data) then data !! Z.to_nat (i - a) else byte_at m i).
Proof.
  intros Hw Ha Hn. rewrite memory_write_spec by done. do 2 eexists; split; [done|].
  assert (Hok : write_status a (zlen data) = Status.ok -> a + zlen data <= 4096)
    by (intros E%write_status_ok; lia).
  split; [case_bool_decide; [apply store_wf; auto; lia|done]|].
  split; [done|]. split; intros Hs.
  - by rewrite bool_decide_eq_false_2.
  - rewrite bool_decide_eq_true_2 by done. intros i. apply byte_at_store; auto; lia.
Qed.

Lemma memory_write_atomic_witness :
  exists s m', MemoryMap.write initial_memory 0x7FF [to_byte 1; to_byte 2] = Done (s, m') /\
    s = Status.access_denied.
Proof.
  destruct (memory_write_atomic initial_memory 0x7FF [to_byte 1; to_byte 2] initial_memory_wf)
    as (s & m' & E & _ & Hs & _); [by split|done|].
  exists s, m'. split; [exact E|exact Hs].
Defined.

(** A successful write is what a read of the same interval gives back. *)
Theorem memory_read_after_write m a data m' :
  MemoryMap.wf m -> 0 <= a < 2 ^ 32 -> zlen data < 2 ^ 64 ->
  MemoryMap.write m a data = Done (Status.ok, m') ->
  MemoryMap.read m' a (zlen data) = Done (MemoryResult.mk Status.ok data).
Proof.
  intros Hw Ha Hn. rewrite memory_write_spec by done. intros [= Hs <-].
  rewrite bool_decide_eq_true_2 by done. pose proof (proj1 (write_status_ok _ _) Hs) as Hb.
  pose proof (zlen_nonneg data).
  assert (Hr : read_status a (zlen data) = Status.ok) by (apply read_status_ok; lia).
  rewrite memory_read_spec by (done || lia || apply store_wf; done || lia).
  by rewrite Hr, bool_decide_eq_true_2, bytes_at_store by (done || lia).
Qed.

Lemma memory_read_after_write_witness :
  MemoryMap.read (store initial_memory 0x100 [to_byte 0x11; to_byte 0x22]) 0x100 2 =
  Done (MemoryResult.mk Status.ok [to_byte 0x11; to_byte 0x22]).
Proof.
  apply (memory_read_after_write initial_memory 0x100 [to_byte 0x11; to_byte 0x22]
           (store initial_memory 0x100 [to_byte 0x11; to_byte 0x22]) initial_memory_wf);
    [by split|done|vm_compute; reflexivity].
Defined.

(** In every reachable state the array has 4096 bytes, and the identity region
    and the denied region hold what the constructor put there. *)
Theorem memory_protected_regions_constant m :
  memory_reachable m -> MemoryMap.wf m /\ same_protected initial_memory m.
Proof.
  induction 1 as [m Hc|m a data s m' _ [IHw IHp] Ha Hn Hwr].
  - rewrite construct_spec in Hc. apply Done_inj in Hc as <-. split; [apply initial_memory_wf|done].
  - rewrite memory_write_spec in Hwr by done. injection Hwr as <- <-.
    case_bool_decide as Hs; [|done]. split.
    + apply write_status_ok in Hs. apply store_wf; done || lia.
    + etransitivity; [exact IHp|]. by apply store_same_protected.
Qed.

Lemma memory_protected_regions_constant_witness :
  MemoryMap.wf initial_memory /\ same_protected initial_memory initial_memory.
Proof.
  apply (memory_protected_regions_constant initial_memory).
  apply memory_constructed, construct_spec.
Defined.
