(* ===== verification/AddressSpace.v ===== *)
(** * The memory as an address space.

    The specification knows no array and no interval: an address has a byte and, by
    the table of docs/protocol-spec.md, a right of access, and an access is a visit of
    its addresses one by one.  [MemoryMap] implements it. *)

From S2P Require Import Prelude Types BigEndian Memory.

(** ** Specification *)

(** The table "Memory map": first and last address, and what a region allows. *)
Definition regions : list (Z * Z * Access.t) :=
  [ (0x0000, 0x00FF, Access.read_only);
    (0x0100, 0x07FF, Access.read_write);
    (0x0800, 0x0FFF, Access.denied) ].

Definition region_of (i : Z) : option Access.t :=
  snd <$> head (filter (fun '(first, last, _) => first <= i <= last) regions).

Definition may_read (i : Z) : bool :=
  match region_of i with Some Access.read_only | Some Access.read_write => true | _ => false end.
Definition may_write (i : Z) : bool :=
  match region_of i with Some Access.read_write => true | _ => false end.

Definition Space : Type := Z -> byte.

(** The identity text, the version at 0x40, and zeros. *)
Definition initial_space : Space := fun i =>
  match MemoryMap.identity !! Z.to_nat i with
  | Some c => to_byte (char_value c)
  | None => if i =? 0x40 then to_byte protocol_version else to_byte 0
  end.

(** The addresses of an access. *)
Definition footprint (a n : Z) : list Z := seqZ a n.

Definition space_status (allowed : Z -> bool) (a n : Z) : Status.t :=
  if negb ((0 <? n) && (n <=? 256) && forallb (fun i => bool_decide (is_Some (region_of i))) (footprint a n))
  then Status.out_of_range
  else if forallb allowed (footprint a n) then Status.ok
  else Status.access_denied.

Definition space_read (σ : Space) (a n : Z) : Status.t * list byte :=
  let status := space_status may_read a n in
  (status, if bool_decide (status = Status.ok) then σ <$> footprint a n else []).

Definition space_set (σ : Space) (i : Z) (b : byte) : Space := fun j => if j =? i then b else σ j.

Fixpoint space_update (σ : Space) (a : Z) (data : list byte) : Space :=
  match data with
  | [] => σ
  | b :: data => space_update (space_set σ a b) (a + 1) data
  end.

Definition space_write (σ : Space) (a : Z) (data : list byte) : Status.t * Space :=
  let status := space_status may_write a (zlen data) in
  (status, if bool_decide (status = Status.ok) then space_update σ a data else σ).

(** ** Sequences of calls, of the code and of the specification *)

Inductive MemoryCall : Set :=
| read_call (address length : Z)
| write_call (address : Z) (data : list byte).

(** The arguments fit the types of the parameters. *)
Definition memory_call_wf (call : MemoryCall) : Prop :=
  match call with
  | read_call address length => 0 <= address < 2 ^ 32 /\ 0 <= length < 2 ^ 64
  | write_call address data => 0 <= address < 2 ^ 32 /\ zlen data < 2 ^ 64
  end.

Definition memory_call (m : MemoryMap.t) (call : MemoryCall)
    : Exec ((Status.t * list byte) * MemoryMap.t) :=
  match call with
  | read_call address length =>
      r ← MemoryMap.read m address length;
      Done ((MemoryResult.status r, MemoryResult.data r), m)
  | write_call address data =>
      '(status, m) ← MemoryMap.write m address data; Done ((status, []), m)
  end.

Definition space_call (σ : Space) (call : MemoryCall) : (Status.t * list byte) * Space :=
  match call with
  | read_call address length => (space_read σ address length, σ)
  | write_call address data =>
      let '(status, σ) := space_write σ address data in ((status, []), σ)
  end.

Fixpoint memory_calls (m : MemoryMap.t) (calls : list MemoryCall)
    : Exec (list (Status.t * list byte) * MemoryMap.t) :=
  match calls with
  | [] => Done ([], m)
  | call :: calls =>
      '(x, m) ← memory_call m call; '(xs, m) ← memory_calls m calls; Done (x :: xs, m)
  end.

Fixpoint space_calls (σ : Space) (calls : list MemoryCall)
    : list (Status.t * list byte) * Space :=
  match calls with
  | [] => ([], σ)
  | call :: calls =>
      let '(x, σ) := space_call σ call in
      let '(xs, σ) := space_calls σ calls in (x :: xs, σ)
  end.

(** The array holds the bytes of the space. *)
Definition represents (m : MemoryMap.t) (σ : Space) : Prop :=
  MemoryMap.wf m /\ forall i, 0 <= i < memory_capacity -> byte_at m i = Some (σ i).

(** ** Statuses *)

Lemma region_of_cases i :
  region_of i =
  if (0 <=? i) && (i <=? 0xFF) then Some Access.read_only
  else if (0x100 <=? i) && (i <=? 0x7FF) then Some Access.read_write
  else if (0x800 <=? i) && (i <=? 0xFFF) then Some Access.denied else None.
Proof.
  unfold region_of, regions. rewrite !filter_cons, filter_nil.
  repeat case_decide; compare_cases; cbn [andb]; first [reflexivity|lia].
Qed.

Lemma region_of_Some i : is_Some (region_of i) <-> 0 <= i < 4096.
Proof.
  rewrite region_of_cases, <-not_eq_None_Some. compare_cases; cbn [andb]; split; done || lia.
Qed.

Lemma may_read_iff i : 0 <= i < 4096 -> may_read i = true <-> i < 0x800.
Proof.
  intros. unfold may_read. rewrite region_of_cases. compare_cases; cbn [andb]; split; done || lia.
Qed.

Lemma may_write_iff i : may_write i = true <-> 0x100 <= i < 0x800.
Proof.
  unfold may_write. rewrite region_of_cases. compare_cases; cbn [andb]; split; done || lia.
Qed.

Lemma forallb_footprint f a n :
  forallb f (footprint a n) = true <-> forall i, a <= i < a + n -> f i = true.
Proof.
  unfold footprint. rewrite List.forallb_forall. split; intros H i Hi; apply H.
  - by apply list_elem_of_In, elem_of_seqZ.
  - by apply elem_of_seqZ, list_elem_of_In.
Qed.

Lemma fits_footprint a n :
  0 <= a ->
  (0 <? n) && (n <=? 256) &&
    forallb (fun i => bool_decide (is_Some (region_of i))) (footprint a n) = interval_fits a n.
Proof.
  intros Ha. apply eq_iff_eq_true. rewrite interval_fits_iff, !andb_true_iff, forallb_footprint.
  rewrite Z.ltb_lt, Z.leb_le. split.
  - intros [[H0 Hn] H]. specialize (H (a + n - 1) ltac:(lia)).
    apply bool_decide_eq_true, region_of_Some in H. lia.
  - intros [Hn He]. split; [lia|]. intros i Hi. apply bool_decide_eq_true, region_of_Some. lia.
Qed.

Lemma space_status_read a n : 0 <= a -> space_status may_read a n = read_status a n.
Proof.
  intros Ha. unfold space_status, read_status. rewrite fits_footprint by done.
  destruct (interval_fits a n) eqn:Hf; cbn [negb]; [|done]. apply interval_fits_iff in Hf.
  pose proof (forallb_footprint may_read a n) as H.
  destruct (forallb may_read _), (Z.leb_spec (a + n) 0x800) as [Hr|Hr]; try done.
  - pose proof (proj1 H eq_refl (a + n - 1) ltac:(lia)) as Hl. apply may_read_iff in Hl; lia.
  - assert (false = true) as [=]; apply H. intros i Hi. apply may_read_iff; lia.
Qed.

Lemma space_status_write a n : 0 <= a -> space_status may_write a n = write_status a n.
Proof.
  intros Ha. unfold space_status, write_status. rewrite fits_footprint by done.
  destruct (interval_fits a n) eqn:Hf; cbn [negb]; [|done]. apply interval_fits_iff in Hf.
  pose proof (forallb_footprint may_write a n) as H.
  destruct (forallb may_write _), (Z.leb_spec 0x100 a), (Z.leb_spec (a + n) 0x800);
    cbn [andb]; try done.
  4: { assert (false = true) as [=]; apply H. intros i Hi. apply may_write_iff; lia. }
  all: pose proof (proj1 H eq_refl a ltac:(lia)) as Hf'; apply may_write_iff in Hf'.
  all: pose proof (proj1 H eq_refl (a + n - 1) ltac:(lia)) as Hl; apply may_write_iff in Hl; lia.
Qed.

(** ** Contents *)

Lemma space_update_at σ a data i :
  Some (space_update σ a data i) =
  (if (a <=? i) && (i <? a + zlen data) then data !! Z.to_nat (i - a) else Some (σ i)).
Proof.
  revert σ a; induction data as [|b data IH]; intros σ a; cbn [space_update].
  { rewrite zlen_nil. by compare_cases; cbn [andb]; try done; lia. }
  rewrite IH, zlen_cons. unfold space_set. pose proof (zlen_nonneg data).
  destruct (Z.eqb_spec i a) as [->|].
  - compare_cases; cbn [andb]; try lia. by rewrite Z.sub_diag.
  - compare_cases; cbn [andb]; try lia; try done.
    by replace (Z.to_nat (i - a)) with (S (Z.to_nat (i - (a + 1)))) by lia.
Qed.

Lemma represents_store m σ a data :
  represents m σ -> 0 <= a -> a + zlen data <= 4096 ->
  represents (store m a data) (space_update σ a data).
Proof.
  intros [Hw Hb] Ha He. split; [by apply store_wf|]. intros i Hi.
  rewrite byte_at_store, space_update_at by done. destruct (_ && _); [done|by apply Hb].
Qed.

Lemma represents_bytes m σ a n :
  represents m σ -> 0 <= a -> 0 <= n -> a + n <= 4096 -> bytes_at m a n = σ <$> footprint a n.
Proof.
  intros [Hw Hb] Ha Hn He. apply list_eq. intros k.
  pose proof (zlen_bytes_at m a n Hw Ha Hn He) as Hl. unfold zlen in Hl.
  unfold footprint. rewrite list_lookup_fmap.
  destruct (decide (k < Z.to_nat n)%nat) as [Hk|Hk].
  - rewrite lookup_seqZ_lt by lia. cbn [fmap option_fmap option_map].
    rewrite <-Hb by (unfold memory_capacity; lia).
    rewrite <-(bytes_at_lookup m a n) by lia. by rewrite Nat2Z.id.
  - rewrite lookup_seqZ_ge by lia. apply lookup_ge_None. lia.
Qed.

Lemma represents_initial : represents initial_memory initial_space.
Proof.
  split; [apply initial_memory_wf|]. intros i Hi. unfold byte_at, memory_capacity in *.
  rewrite (proj2 (Z.ltb_ge _ _)) by lia.
  set (prefix := initial_space <$> seqZ 0 65).
  assert (MemoryMap.bytes_ initial_memory = prefix ++ replicate 4031 (to_byte 0)) as ->
    by by vm_compute.
  assert (length prefix = 65%nat) as Hp by done.
  destruct (Z.lt_ge_cases i 65).
  - rewrite lookup_app_l by lia. unfold prefix.
    rewrite list_lookup_fmap, lookup_seqZ_lt by lia. cbn [fmap option_fmap option_map].
    do 2 f_equal. lia.
  - rewrite lookup_app_r, lookup_replicate_2 by lia. unfold initial_space.
    rewrite lookup_ge_None_2; [by rewrite (proj2 (Z.eqb_neq _ _)) by lia|].
    change (length MemoryMap.identity) with 33%nat. lia.
Qed.

(** ** Simulation *)

Lemma call_simulates m σ call :
  represents m σ -> memory_call_wf call ->
  exists m', memory_call m call = Done ((space_call σ call).1, m') /\
    represents m' (space_call σ call).2.
Proof.
  intros Hr Hc. pose proof Hr as [Hw _].
  destruct call as [a n|a data]; destruct Hc as [Ha Hn]; cbn [memory_call space_call].
  - rewrite memory_read_spec by done. exists m. split; [|exact Hr].
    cbn [mbind exec_bind MemoryResult.status MemoryResult.data fst].
    unfold space_read. rewrite space_status_read by lia.
    case_bool_decide as E; [|done]. apply read_status_ok in E.
    rewrite (represents_bytes m σ) by (done || lia). done.
  - rewrite memory_write_spec by done. cbn [mbind exec_bind]. unfold space_write.
    rewrite space_status_write by lia. eexists. split; [reflexivity|]. cbn [snd].
    case_bool_decide as E; [|exact Hr]. apply write_status_ok in E.
    apply represents_store; [exact Hr|lia..].
Qed.

Lemma calls_simulate calls m σ :
  represents m σ -> Forall memory_call_wf calls ->
  exists m', memory_calls m calls = Done ((space_calls σ calls).1, m') /\
    represents m' (space_calls σ calls).2.
Proof.
  intros Hr Hc. revert m σ Hr; induction Hc as [|call calls Hc _ IH]; intros m σ Hr.
  { by exists m. }
  destruct (call_simulates m σ call Hr Hc) as (m1 & E1 & Hr1).
  cbn [memory_calls space_calls]. rewrite E1. cbn [mbind exec_bind].
  destruct (space_call σ call) as [x σ1]. cbn [fst snd] in *.
  destruct (IH m1 σ1 Hr1) as (m2 & E2 & Hr2). rewrite E2. cbn [mbind exec_bind].
  destruct (space_calls σ1 calls) as [xs σ2]. by exists m2.
Qed.

(** ** Properties *)

(** C29. The memory map implements the address space of the protocol document.  From
    the constructor on, any sequence of reads and writes with arguments of the
    parameter types runs to its end, with no access outside the array and no sum that
    wraps, and gives the statuses and data of the specification: [out_of_range] unless
    there are 1 to 256 addresses and each is in a region; [access_denied] if one of
    them does not allow the access; otherwise the bytes of the addresses, or new bytes
    at these addresses and nowhere else.  The array then holds the space. *)
Theorem memory_map_refines_address_space calls :
  Forall memory_call_wf calls ->
  exists m0 m, MemoryMap.construct = Done m0 /\
    memory_calls m0 calls = Done ((space_calls initial_space calls).1, m) /\
    represents m (space_calls initial_space calls).2.
Proof.
  intros Hc. destruct (calls_simulate calls _ _ represents_initial Hc) as (m & E & Hr).
  exists initial_memory, m. split; [exact construct_spec|]. split; [exact E|exact Hr].
Qed.

(** *** The properties at concrete inputs *)

(** A write across the end of the writable region, one inside it, and reads. *)
Definition sample_calls : list MemoryCall := [
  write_call 0x7FF [to_byte 1; to_byte 2]; write_call 0x7FE [to_byte 3; to_byte 4];
  read_call 0x7FE 2; read_call 0x40 1; read_call 0xFFF 2 ].

Lemma memory_map_refines_address_space_witness :
  exists m0 m, MemoryMap.construct = Done m0 /\
    memory_calls m0 sample_calls =
      Done ([ (Status.access_denied, []); (Status.ok, []);
              (Status.ok, [to_byte 3; to_byte 4]); (Status.ok, [to_byte 1]);
              (Status.out_of_range, []) ], m).
Proof.
  destruct (memory_map_refines_address_space sample_calls) as (m0 & m & E0 & E & _).
  - repeat (constructor; [split; [by split|first [by split|done]]|]). constructor.
  - exists m0, m. split; [exact E0|]. rewrite E. reflexivity.
Defined.
