(* ===== verification/Server.v ===== *)
(** * The simulator server: [include/imlp/server.hpp] and [src/server.cpp].

    [handle] is the whole handler.  [serve] is the specification of what a
    decoded request does to the memory and which frame answers it. *)

From S2P Require Import Prelude Types BigEndian Crc Codec Memory.

(** ** Data *)

Module ServerPolicy.
Record t : Set := mk {
  writes_enabled : bool;
  write_allow_begin : Z;
  write_allow_end : Z;
}.

(** The default member initialisers. *)
Definition default : t := mk false 0x0100 0x07FF.

Definition wf (p : t) : Prop :=
  0 <= write_allow_begin p < 2 ^ 32 /\ 0 <= write_allow_end p < 2 ^ 32.
End ServerPolicy.

Module ServerEvent.
Record t : Set := mk {
  request_decoded : bool;
  request_id : Z;
  status : Status.t;
  detail : string;
}.
End ServerEvent.

Module HandleResult.
Record t : Set := mk { response : list byte; event : ServerEvent.t }.
End HandleResult.

(** ** The handler of the source *)

Definition text_payload (text : string) : Exec (list byte) :=
  let text := chars text in
  let length := Z.min (zlen text) maximum_payload_size in
  r ← for_loop (Z.to_nat length) 0 length 1
        (fun index bytes =>
           c ← vec_at text index;
           Done (inl (bytes ++ [to_byte (char_value c)]))) [];
  match r with
  | inl bytes => Done bytes
  | inr returned => match (returned : Empty_set) with end
  end.

Module MemoryServer.
Record t : Set := mk { policy_ : ServerPolicy.t; memory_ : MemoryMap.t }.

Definition construct (policy : ServerPolicy.t) : Exec t :=
  memory ← MemoryMap.construct;
  Done (mk policy memory).

Definition memory (s : t) : MemoryMap.t := memory_ s.

Definition write_is_allowed (s : t) (address length : Z) : bool :=
  let p := policy_ s in
  if (length =? 0) || (address <? ServerPolicy.write_allow_begin p) ||
     (ServerPolicy.write_allow_end p <? address) then false
  else
    let available := u64 (u64 (ServerPolicy.write_allow_end p - address) + 1) in
    length <=? available.

Definition make_response (request : Frame.t) (opcode : Opcode.t) (status : Status.t)
    (payload : list byte) (detail : string) : HandleResult.t :=
  let response := {|
    Frame.version := protocol_version;
    Frame.opcode := opcode;
    Frame.flags := response_flag;
    Frame.request_id := Frame.request_id request;
    Frame.address := Frame.address request;
    Frame.status := status;
    Frame.payload := payload |} in
  let encoded := encode response in
  if negb (EncodeResult.to_bool encoded) then
    HandleResult.mk []
      (ServerEvent.mk true (Frame.request_id request) Status.internal_error
         "response_encoding_failed")
  else
    HandleResult.mk (EncodeResult.bytes encoded)
      (ServerEvent.mk true (Frame.request_id request) status detail).

Definition handle (s : t) (request_bytes : list byte) : Exec (HandleResult.t * t) :=
  decoded ← decode request_bytes;
  match DecodeResult.to_bool decoded, DecodeResult.frame decoded with
  | true, Some request =>
      if bool_decide (Frame.opcode request = Opcode.read_request) then
        b0 ← vec_at (Frame.payload request) 0;
        b1 ← vec_at (Frame.payload request) 1;
        let length := Z.lor (usize (Z.shiftl (to_integer b0) 8)) (to_integer b1) in
        result ← MemoryMap.read (memory_ s) (Frame.address request) length;
        if MemoryResult.to_bool result then
          Done (make_response request Opcode.data_response Status.ok
                  (MemoryResult.data result) "read_ok", s)
        else
          payload ← text_payload "read_rejected";
          Done (make_response request Opcode.error_response (MemoryResult.status result)
                  payload "read_rejected", s)
      else if bool_decide (Frame.opcode request = Opcode.write_request) then
        if negb (ServerPolicy.writes_enabled (policy_ s)) then
          payload ← text_payload "write_disabled";
          Done (make_response request Opcode.error_response Status.write_disabled
                  payload "write_disabled", s)
        else if negb (write_is_allowed s (Frame.address request)
                        (zlen (Frame.payload request))) then
          payload ← text_payload "outside_write_allowlist";
          Done (make_response request Opcode.error_response Status.access_denied
                  payload "outside_write_allowlist", s)
        else
          '(status, memory) ← MemoryMap.write (memory_ s) (Frame.address request)
                                (Frame.payload request);
          let s := mk (policy_ s) memory in
          if bool_decide (status <> Status.ok) then
            payload ← text_payload "memory_write_rejected";
            Done (make_response request Opcode.error_response status
                    payload "memory_write_rejected", s)
          else
            Done (make_response request Opcode.write_acknowledgement Status.ok [] "write_ok", s)
      else
        payload ← text_payload "request_opcode_required";
        Done (make_response request Opcode.error_response Status.bad_request
                payload "request_opcode_required", s)
  | _, _ =>
      Done (HandleResult.mk []
              (ServerEvent.mk false 0 Status.bad_request
                 (codec_error_name (DecodeResult.error decoded))), s)
  end.

Definition wf (s : t) : Prop := ServerPolicy.wf (policy_ s) /\ MemoryMap.wf (memory_ s).
End MemoryServer.

(** ** Specification *)

(** The interval [a, a+n) is non-empty and inside the inclusive allowlist. *)
Definition in_allowlist (p : ServerPolicy.t) (a n : Z) : bool :=
  (0 <? n) && (ServerPolicy.write_allow_begin p <=? a) &&
  (a + n - 1 <=? ServerPolicy.write_allow_end p).

(** What the server decides about a decoded request: status, event detail,
    response payload and the memory afterwards. *)
Record Verdict : Set := {
  decided_status : Status.t;
  decided_detail : string;
  decided_payload : list byte;
  decided_memory : MemoryMap.t;
}.

Definition text_bytes (text : string) : list byte := to_byte ∘ char_value <$> chars text.

Definition reject (m : MemoryMap.t) (status : Status.t) (detail : string) : Verdict :=
  {| decided_status := status; decided_detail := detail;
     decided_payload := text_bytes detail; decided_memory := m |}.

Definition serve (p : ServerPolicy.t) (m : MemoryMap.t) (f : Frame.t) : Verdict :=
  let a := Frame.address f in
  match Frame.opcode f with
  | Opcode.read_request =>
      let n := be_value (Frame.payload f) in
      if bool_decide (read_status a n = Status.ok) then
        {| decided_status := Status.ok; decided_detail := "read_ok";
           decided_payload := bytes_at m a n; decided_memory := m |}
      else reject m (read_status a n) "read_rejected"
  | Opcode.write_request =>
      let n := zlen (Frame.payload f) in
      if negb (ServerPolicy.writes_enabled p) then
        reject m Status.write_disabled "write_disabled"
      else if negb (in_allowlist p a n) then
        reject m Status.access_denied "outside_write_allowlist"
      else if bool_decide (write_status a n = Status.ok) then
        {| decided_status := Status.ok; decided_detail := "write_ok";
           decided_payload := []; decided_memory := store m a (Frame.payload f) |}
      else reject m (write_status a n) "memory_write_rejected"
  | _ => reject m Status.bad_request "request_opcode_required"
  end.

(** The opcode of the answer, by the request's opcode and the decision. *)
Definition response_opcode (request : Opcode.t) (status : Status.t) : Opcode.t :=
  if bool_decide (status = Status.ok) then
    match request with
    | Opcode.read_request => Opcode.data_response
    | _ => Opcode.write_acknowledgement
    end
  else Opcode.error_response.

(** The answer echoes request ID and address. *)
Definition response_frame (f : Frame.t) (d : Verdict) : Frame.t :=
  Frame.mk 1 (response_opcode (Frame.opcode f) (decided_status d)) 1
    (Frame.request_id f) (Frame.address f) (decided_status d) (decided_payload d).

Definition answer (f : Frame.t) (d : Verdict) : HandleResult.t :=
  HandleResult.mk (wire (response_frame f d))
    (ServerEvent.mk true (Frame.request_id f) (decided_status d) (decided_detail d)).

(** What [handle] answers: the event, the response and the state afterwards. *)
Definition handle_spec (s : MemoryServer.t) (bytes : list byte)
    : HandleResult.t * MemoryServer.t :=
  let decoded := decode_by_validation bytes in
  match DecodeResult.frame decoded with
  | None =>
      (HandleResult.mk [] (ServerEvent.mk false 0 Status.bad_request
         (codec_error_name (DecodeResult.error decoded))), s)
  | Some f =>
      let d := serve (MemoryServer.policy_ s) (MemoryServer.memory_ s) f in
      (answer f d, MemoryServer.mk (MemoryServer.policy_ s) (decided_memory d))
  end.

(** ** The parts of the handler *)

Lemma text_payload_spec text : text_payload text = Done (take 256 (text_bytes text)).
Proof.
  unfold text_payload. set (l := chars text).
  set (n := Z.min (zlen l) maximum_payload_size).
  assert (Hn : 0 <= n <= 256)
    by (pose proof (zlen_nonneg l); unfold n, maximum_payload_size; lia).
  pose proof (for_loop_collect (R := Empty_set) (fun c => to_byte (char_value c))
                (Z.to_nat n) [] l n []) as H.
  change (zlen []) with 0 in H. cbn [app] in H.
  rewrite H by (rewrite ?zlen_nil; unfold n, maximum_payload_size; lia).
  cbn [mbind exec_bind]. f_equal. unfold text_bytes. fold l. rewrite Z.sub_0_r.
  rewrite <-fmap_take. unfold n, maximum_payload_size, zlen.
  destruct (decide (length l <= 256)%nat).
  - rewrite !take_ge by lia. done.
  - by rewrite Z.min_r by lia.
Qed.

Lemma text_payload_short text :
  (length (chars text) <= 256)%nat -> text_payload text = Done (text_bytes text).
Proof.
  intros. rewrite text_payload_spec, take_ge; [done|]. unfold text_bytes. by rewrite length_fmap.
Qed.

(** The subtraction and the sum of [write_is_allowed] do not wrap. *)
Lemma write_is_allowed_spec s a n :
  ServerPolicy.wf (MemoryServer.policy_ s) -> 0 <= a < 2 ^ 32 -> 0 <= n < 2 ^ 64 ->
  MemoryServer.write_is_allowed s a n = in_allowlist (MemoryServer.policy_ s) a n.
Proof.
  unfold ServerPolicy.wf, MemoryServer.write_is_allowed, in_allowlist.
  destruct (MemoryServer.policy_ s) as [en b e]. cbn. intros [Hb He] Ha Hn.
  destruct (Z.ltb_spec e a).
  - rewrite orb_true_r. symmetry. apply andb_false_iff.
    destruct (Z.ltb_spec 0 n); [right; lia|left; done].
  - assert (u64 (u64 (e - a) + 1) = e - a + 1) as ->
      by (unfold u64; rewrite (Z.mod_small (e - a)), Z.mod_small; lia).
    compare_cases; done || lia.
Qed.

Lemma make_response_spec f opcode status payload detail :
  protocol_frame (Frame.mk 1 opcode 1 (Frame.request_id f) (Frame.address f) status payload) ->
  MemoryServer.make_response f opcode status payload detail =
  HandleResult.mk
    (wire (Frame.mk 1 opcode 1 (Frame.request_id f) (Frame.address f) status payload))
    (ServerEvent.mk true (Frame.request_id f) status detail).
Proof.
  intros Hp. unfold MemoryServer.make_response, protocol_version, response_flag.
  by rewrite encode_wire by done.
Qed.

Lemma rejection f (s : MemoryServer.t) m status detail :
  status <> Status.ok -> (length (chars detail) <= 256)%nat ->
  (payload ← text_payload detail;
   Done (MemoryServer.make_response f Opcode.error_response status payload detail, s)) =
  Done (answer f (reject m status detail), s).
Proof.
  intros Hs Hl. rewrite text_payload_short by done. cbn [mbind exec_bind].
  unfold answer, response_frame, response_opcode, reject.
  cbn [decided_status decided_detail decided_payload].
  rewrite bool_decide_eq_false_2, make_response_spec; [done| |done].
  constructor; [done|]. unfold text_bytes, zlen. rewrite length_fmap. lia.
Qed.

(** The length field of a read request. *)
Lemma read_length_field p :
  zlen p = 2 ->
  exists b0 b1, vec_at p 0 = Done b0 /\ vec_at p 1 = Done b1 /\
    Z.lor (usize (Z.shiftl (to_integer b0) 8)) (to_integer b1) = be_value p /\
    0 <= be_value p < 2 ^ 16.
Proof.
  intros Hp. destruct (list_of_length_2 p) as (b0 & b1 & ->); [unfold zlen in Hp; lia|].
  exists b0, b1. split; [done|]. split; [done|].
  pose proof (to_integer_range b0). pose proof (to_integer_range b1).
  split; [|apply (be_value_range [b0; b1])].
  unfold usize. rewrite Z.mod_small by (rewrite Z.shiftl_mul_pow2; lia).
  rewrite lor_shiftl by lia. cbn [be_value]. rewrite zlen_cons, zlen_nil. lia.
Qed.

(** ** The handler against the specification *)

Lemma server_eta s : MemoryServer.mk (MemoryServer.policy_ s) (MemoryServer.memory_ s) = s.
Proof. by destruct s. Qed.

Section Handle.
Context (s : MemoryServer.t) (f : Frame.t).
Hypothesis s_wf : MemoryServer.wf s.
Hypothesis f_wf : Frame.wf f.
Hypothesis f_protocol : protocol_frame f.

Let decision := serve (MemoryServer.policy_ s) (MemoryServer.memory_ s) f.
Let outcome : Exec (HandleResult.t * MemoryServer.t) :=
  Done (answer f decision, MemoryServer.mk (MemoryServer.policy_ s) (decided_memory decision)).

Lemma handle_read :
  Frame.opcode f = Opcode.read_request -> MemoryServer.handle s (wire f) = outcome.
Proof.
  intros Ho. destruct s_wf as [_ Hm]. destruct f_wf as (_ & _ & _ & _ & Ha & _).
  unfold MemoryServer.handle. rewrite decode_wire by done. cbn [mbind exec_bind].
  unfold DecodeResult.to_bool. cbn [DecodeResult.error DecodeResult.frame].
  rewrite !bool_decide_eq_true_2 by eauto. cbn [andb].
  assert (Hp : zlen (Frame.payload f) = 2) by (by inversion f_protocol; subst f).
  destruct (read_length_field _ Hp) as (b0 & b1 & -> & -> & Hl & Hn).
  cbn [mbind exec_bind]. rewrite Hl, memory_read_spec by (done || lia).
  cbn [mbind exec_bind]. unfold MemoryResult.to_bool.
  cbn [MemoryResult.status MemoryResult.data].
  unfold outcome, decision, serve. rewrite Ho.
  case_bool_decide as Hs; cbn [decided_memory reject]; rewrite server_eta.
  - rewrite make_response_spec; [by unfold answer, response_frame, response_opcode; rewrite Ho|].
    apply read_status_ok in Hs. constructor. rewrite zlen_bytes_at; done || lia.
  - by apply rejection; [|vm_compute; lia].
Qed.

Lemma handle_write :
  Frame.opcode f = Opcode.write_request -> MemoryServer.handle s (wire f) = outcome.
Proof.
  intros Ho. destruct s_wf as [Hp Hm]. destruct f_wf as (_ & _ & _ & _ & Ha & _).
  unfold MemoryServer.handle. rewrite decode_wire by done. cbn [mbind exec_bind].
  unfold DecodeResult.to_bool. cbn [DecodeResult.error DecodeResult.frame].
  rewrite !bool_decide_eq_true_2 by eauto. cbn [andb].
  pose proof (protocol_frame_bounds f f_protocol) as (_ & _ & Hlen).
  pose proof (zlen_nonneg (Frame.payload f)).
  rewrite Ho, bool_decide_eq_false_2, bool_decide_eq_true_2 by done.
  unfold outcome, decision, serve. rewrite Ho, write_is_allowed_spec by (done || lia).
  destruct (ServerPolicy.writes_enabled _); cbn [negb].
  2: { cbn [decided_memory reject]. rewrite server_eta. by apply rejection; [|vm_compute; lia]. }
  destruct (in_allowlist _ _ _); cbn [negb].
  2: { cbn [decided_memory reject]. rewrite server_eta. by apply rejection; [|vm_compute; lia]. }
  rewrite memory_write_spec by (done || lia). cbn [mbind exec_bind].
  destruct (decide (write_status (Frame.address f) (zlen (Frame.payload f)) = Status.ok)) as [Hs|Hs].
  - rewrite !(bool_decide_eq_true_2 _ Hs), bool_decide_eq_false_2 by tauto.
    rewrite make_response_spec by constructor.
    by unfold answer, response_frame, response_opcode; rewrite Ho.
  - rewrite !(bool_decide_eq_false_2 _ Hs), bool_decide_eq_true_2 by done.
    cbn [decided_memory reject]. rewrite server_eta. by apply rejection; [|vm_compute; lia].
Qed.

Lemma handle_other :
  Frame.opcode f <> Opcode.read_request -> Frame.opcode f <> Opcode.write_request ->
  MemoryServer.handle s (wire f) = outcome.
Proof.
  intros Hr Hw. unfold MemoryServer.handle. rewrite decode_wire by done. cbn [mbind exec_bind].
  unfold DecodeResult.to_bool. cbn [DecodeResult.error DecodeResult.frame].
  rewrite !bool_decide_eq_true_2 by eauto. cbn [andb].
  rewrite !bool_decide_eq_false_2 by done.
  unfold outcome, decision, serve.
  destruct (Frame.opcode f); try done;
    cbn [decided_memory reject]; rewrite server_eta; by apply rejection; [|vm_compute; lia].
Qed.
End Handle.

(** *** Refinement *)

Lemma handle_refines s bytes :
  MemoryServer.wf s -> MemoryServer.handle s bytes = Done (handle_spec s bytes).
Proof.
  intros Hs. unfold handle_spec.
  destruct (DecodeResult.frame (decode_by_validation bytes)) as [f|] eqn:E.
  - destruct (decode_accepts _ _ E) as (-> & Hf & Hw & _).
    destruct (decide (Frame.opcode f = Opcode.read_request)); [by rewrite handle_read|].
    destruct (decide (Frame.opcode f = Opcode.write_request)); [by rewrite handle_write|].
    by rewrite handle_other.
  - unfold MemoryServer.handle. rewrite decode_validation. cbn [mbind exec_bind].
    rewrite E. by destruct (DecodeResult.to_bool _).
Qed.

(** ** Invariants *)

Lemma handle_spec_wf s bytes : MemoryServer.wf s -> MemoryServer.wf (handle_spec s bytes).2.
Proof.
  intros [Hp Hm]. unfold handle_spec.
  destruct (DecodeResult.frame (decode_by_validation bytes)) as [f|]; [|done].
  split; [done|]. cbn [snd MemoryServer.memory_]. unfold serve, reject.
  repeat case_match; try done. cbn [decided_memory].
  match goal with H : bool_decide (write_status _ _ = _) = true |- _ =>
    apply bool_decide_eq_true, write_status_ok in H end.
  apply store_wf; done || lia.
Qed.

Lemma text_bytes_length text : zlen (text_bytes text) = zlen (chars text).
Proof. unfold zlen, text_bytes. by rewrite length_fmap. Qed.

(** The statuses a rejection can carry. *)
Definition rejection_status (st : Status.t) : bool :=
  match st with
  | Status.bad_request | Status.out_of_range | Status.write_disabled | Status.access_denied => true
  | _ => false
  end.

Lemma read_rejection a n : read_status a n <> Status.ok -> rejection_status (read_status a n) = true.
Proof. by destruct (read_status_cases a n) as [|[-> | ->]]. Qed.

Lemma write_rejection a n :
  write_status a n <> Status.ok -> rejection_status (write_status a n) = true.
Proof. by destruct (write_status_cases a n) as [|[-> | ->]]. Qed.

(** An answer the protocol allows, and that is not the fallback of
    [make_response]. *)
Definition proper_answer (f : Frame.t) (d : Verdict) : Prop :=
  protocol_frame (response_frame f d) /\ Frame.wf (response_frame f d) /\
  decided_status d <> Status.internal_error.

Lemma reject_proper f m st detail :
  Frame.wf f -> rejection_status st = true -> zlen (chars detail) <= 256 ->
  proper_answer f (reject m st detail).
Proof.
  intros (_ & _ & _ & Hid & Ha & _) Hst Hl.
  unfold proper_answer, response_frame, response_opcode, reject.
  cbn [decided_status decided_payload].
  split; [|split; [repeat split|]]; cbn; try (lia || by destruct st).
  rewrite bool_decide_eq_false_2 by (by intros ->).
  constructor; [by destruct st|by rewrite text_bytes_length].
Qed.

(** The decisions are answered by frames the protocol allows. *)
Lemma serve_proper p m f :
  MemoryMap.wf m -> Frame.wf f -> protocol_frame f -> proper_answer f (serve p m f).
Proof.
  intros Hm Hwf Hf. pose proof Hwf as (_ & _ & _ & Hid & Ha & _).
  unfold serve. destruct (Frame.opcode f) eqn:Ho;
    repeat case_match; decide_props;
    try (apply reject_proper; [done|done || by (apply read_rejection || apply write_rejection)
                              |vm_compute; done]).
  - apply read_status_ok in H as Hs. unfold proper_answer, response_frame, response_opcode.
    rewrite Ho. cbn [decided_status decided_payload].
    rewrite bool_decide_eq_true_2 by done.
    split; [constructor; rewrite zlen_bytes_at; done || lia|].
    repeat split; cbn; done || lia.
  - unfold proper_answer, response_frame, response_opcode. rewrite Ho.
    cbn [decided_status decided_payload]. rewrite bool_decide_eq_true_2 by done.
    split; [constructor|]. repeat split; cbn; done || lia.
Qed.

(** The only requests that change the memory. *)
Definition write_accepted (p : ServerPolicy.t) (f : Frame.t) : Prop :=
  let a := Frame.address f in
  let n := zlen (Frame.payload f) in
  Frame.opcode f = Opcode.write_request /\ ServerPolicy.writes_enabled p = true /\
  ServerPolicy.write_allow_begin p <= a /\ a + n - 1 <= ServerPolicy.write_allow_end p /\
  0x100 <= a /\ a + n <= 0x800 /\ 0 < n <= 256.

(** A request the server decides to store. *)
Definition stores (p : ServerPolicy.t) (m : MemoryMap.t) (f : Frame.t) : Prop :=
  Frame.opcode f = Opcode.write_request /\ decided_status (serve p m f) = Status.ok.

Lemma serve_stores p m f :
  stores p m f ->
  write_accepted p f /\
  serve p m f = {| decided_status := Status.ok; decided_detail := "write_ok";
                   decided_payload := [];
                   decided_memory := store m (Frame.address f) (Frame.payload f) |}.
Proof.
  intros [Ho Hok]. unfold serve, write_accepted, in_allowlist in *. rewrite Ho in *.
  repeat case_match; decide_props; try done. split; [|done].
  match goal with H : write_status _ _ = _ |- _ => apply write_status_ok in H end.
  repeat split; done || lia.
Qed.

Lemma serve_keeps p m f : ~ stores p m f -> decided_memory (serve p m f) = m.
Proof.
  unfold stores, serve. intros Hn.
  destruct (Frame.opcode f); repeat case_match; try done. by destruct Hn.
Qed.

#[export] Instance stores_decision p m f : Decision (stores p m f).
Proof. unfold stores. apply _. Defined.

Lemma serve_memory p m f :
  decided_memory (serve p m f) = m \/
  (write_accepted p f /\
  decided_memory (serve p m f) = store m (Frame.address f) (Frame.payload f)).
Proof.
  destruct (decide (stores p m f)) as [Hs|Hs]; [right|left; by apply serve_keeps].
  by destruct (serve_stores p m f Hs) as [? ->].
Qed.

(** The states of a server: construction, then any sequence of requests. *)
Inductive server_reachable : MemoryServer.t -> Prop :=
| server_constructed policy s :
    ServerPolicy.wf policy -> MemoryServer.construct policy = Done s -> server_reachable s
| server_handled s bytes r s' :
    server_reachable s -> MemoryServer.handle s bytes = Done (r, s') -> server_reachable s'.

Lemma server_construct_spec policy :
  MemoryServer.construct policy = Done (MemoryServer.mk policy initial_memory).
Proof. unfold MemoryServer.construct. by rewrite construct_spec. Qed.

Lemma server_reachable_wf s : server_reachable s -> MemoryServer.wf s.
Proof.
  induction 1 as [policy s Hp Hc|s bytes r s' _ IH Hh].
  - rewrite server_construct_spec in Hc. apply Done_inj in Hc as <-.
    split; [done|apply initial_memory_wf].
  - rewrite handle_refines in Hh by done. apply Done_inj in Hh.
    pose proof (handle_spec_wf s bytes IH) as Hw. by rewrite Hh in Hw.
Qed.

Lemma ServerPolicy_default_wf : ServerPolicy.wf ServerPolicy.default.
Proof. by repeat split. Qed.

(** Addresses no accepted write of the policy reaches keep their bytes. *)
Definition same_outside_allowlist (p : ServerPolicy.t) (m m' : MemoryMap.t) : Prop :=
  forall i, ~ (ServerPolicy.write_allow_begin p <= i <= ServerPolicy.write_allow_end p) ->
  byte_at m i = byte_at m' i.

Lemma write_accepted_status p f :
  write_accepted p f -> write_status (Frame.address f) (zlen (Frame.payload f)) = Status.ok.
Proof. intros (_ & _ & _ & _ & Ha & He & Hn). by apply write_status_ok. Qed.

Lemma accepted_store_confined p m f :
  MemoryMap.wf m -> write_accepted p f ->
  same_outside_allowlist p m (store m (Frame.address f) (Frame.payload f)).
Proof.
  intros Hm (_ & _ & Hb & He & Ha & Hl & Hn) i Hi. rewrite byte_at_store by (done || lia).
  destruct (Z.leb_spec (Frame.address f) i),
    (Z.ltb_spec i (Frame.address f + zlen (Frame.payload f))); cbn [andb]; done || lia.
Qed.

(** What every request leaves alone. *)
Definition memory_guarantee (p : ServerPolicy.t) (m m' : MemoryMap.t) : Prop :=
  same_protected m m' /\ same_outside_allowlist p m m' /\
  (ServerPolicy.writes_enabled p = false -> m = m').

#[export] Instance memory_guarantee_preorder p : PreOrder (memory_guarantee p).
Proof.
  split; [by intros m|]. intros m1 m2 m3 (P1 & O1 & E1) (P2 & O2 & E2). split; [by etrans|].
  split; [|by intros Hp; rewrite E1, E2].
  intros i Hi. rewrite O1 by done. by apply O2.
Qed.

Lemma serve_guarantee p m f :
  MemoryMap.wf m -> memory_guarantee p m (decided_memory (serve p m f)).
Proof.
  intros Hm. destruct (serve_memory p m f) as [-> | (Ha & ->)]; [reflexivity|].
  split; [by apply store_same_protected, (write_accepted_status p)|].
  split; [by apply accepted_store_confined|].
  intros Hp. destruct Ha as (_ & He & _). congruence.
Qed.

Lemma handle_spec_guarantee s bytes :
  MemoryServer.wf s ->
  MemoryServer.policy_ (handle_spec s bytes).2 = MemoryServer.policy_ s /\
  memory_guarantee (MemoryServer.policy_ s) (MemoryServer.memory_ s)
    (MemoryServer.memory_ (handle_spec s bytes).2).
Proof.
  intros [_ Hm]. unfold handle_spec. case_match; split; try done. by apply serve_guarantee.
Qed.

(** The frame an answer carries decodes to itself. *)
Lemma proper_answer_decodes f d :
  proper_answer f d ->
  decode (HandleResult.response (answer f d)) =
  Done (DecodeResult.mk (Some (response_frame f d)) CodecError.none
          (zlen (HandleResult.response (answer f d)))).
Proof. intros (Hp & Hw & _). by apply decode_wire. Qed.

(** An answer that is not an error answers the request of its kind. *)
Definition answers_kind (f g : Frame.t) : Prop :=
  match Frame.opcode g with
  | Opcode.data_response =>
      Frame.opcode f = Opcode.read_request /\ zlen (Frame.payload g) = be_value (Frame.payload f)
  | Opcode.write_acknowledgement => Frame.opcode f = Opcode.write_request
  | Opcode.error_response => Frame.status g <> Status.ok
  | _ => False
  end.

Lemma serve_answers_kind p m f :
  MemoryMap.wf m -> Frame.wf f -> answers_kind f (response_frame f (serve p m f)).
Proof.
  intros Hm (_ & _ & _ & _ & Ha & _).
  unfold answers_kind, response_frame, response_opcode, serve.
  cbn [Frame.opcode Frame.status Frame.payload].
  repeat case_match; decide_props;
    cbn [decided_status decided_payload reject] in *; try done; try congruence.
  split; [done|]. match goal with H : read_status _ _ = _ |- _ => apply read_status_ok in H end.
  apply zlen_bytes_at; done || lia.
Qed.

(** The answer that is due: the status by the regions and the policy, and with [ok]
    the bytes read or the acknowledgement; an error response with a diagnostic text in
    every other case and in no other. *)
Definition due_status (p : ServerPolicy.t) (f : Frame.t) : Status.t :=
  let a := Frame.address f in
  match Frame.opcode f with
  | Opcode.read_request => read_status a (be_value (Frame.payload f))
  | Opcode.write_request =>
      if negb (ServerPolicy.writes_enabled p) then Status.write_disabled
      else if negb (in_allowlist p a (zlen (Frame.payload f))) then Status.access_denied
      else write_status a (zlen (Frame.payload f))
  | _ => Status.bad_request
  end.

Definition answers (p : ServerPolicy.t) (m : MemoryMap.t) (f g : Frame.t) (detail : string) : Prop :=
  Frame.status g = due_status p f /\
  (if bool_decide (due_status p f = Status.ok) then
     if bool_decide (Frame.opcode f = Opcode.read_request) then
       Frame.opcode g = Opcode.data_response /\
       Frame.payload g = bytes_at m (Frame.address f) (be_value (Frame.payload f))
     else Frame.opcode g = Opcode.write_acknowledgement /\ Frame.payload g = []
   else Frame.opcode g = Opcode.error_response /\ Frame.payload g = text_bytes detail).

Lemma serve_answers p m f :
  answers p m f (response_frame f (serve p m f)) (decided_detail (serve p m f)).
Proof.
  unfold answers, due_status, response_frame, response_opcode, serve.
  cbn [Frame.opcode Frame.status Frame.payload].
  destruct (Frame.opcode f); cbn [decided_status decided_payload reject]; try done.
  - destruct (decide (read_status (Frame.address f) (be_value (Frame.payload f)) = Status.ok))
      as [E|E]; [rewrite !(bool_decide_eq_true_2 _ E), E|rewrite !(bool_decide_eq_false_2 _ E)];
      cbn [decided_status decided_payload decided_detail reject];
      rewrite ?(bool_decide_eq_false_2 _ E); done.
  - destruct (ServerPolicy.writes_enabled p); cbn [negb]; [|done].
    destruct (in_allowlist _ _ _); cbn [negb]; [|done].
    destruct (decide (write_status (Frame.address f) (zlen (Frame.payload f)) = Status.ok))
      as [E|E]; [rewrite !(bool_decide_eq_true_2 _ E), E|rewrite !(bool_decide_eq_false_2 _ E)];
      cbn [decided_status decided_payload decided_detail reject];
      rewrite ?(bool_decide_eq_false_2 _ E); done.
Qed.

(** ** Properties *)

(** C13. The handler refines its specification: in every state a server can be in
    and on every byte string, [handle] ends with a result, and the result (answer,
    event and new state) is the one of [handle_spec]: the decoder's validation, then
    [serve]'s decision on the memory, then the encoding of the response frame. *)
Theorem handle_refines_specification s bytes :
  server_reachable s -> MemoryServer.handle s bytes = Done (handle_spec s bytes).
Proof. intros Hs. by apply handle_refines, server_reachable_wf. Qed.

Lemma handle_refines_specification_witness :
  MemoryServer.handle (MemoryServer.mk ServerPolicy.default initial_memory) [] =
  Done (handle_spec (MemoryServer.mk ServerPolicy.default initial_memory) []).
Proof.
  apply handle_refines_specification.
  exact (server_constructed _ _ ServerPolicy_default_wf (server_construct_spec _)).
Defined.

(** C21. Every request gets the answer that is due.  A string that decodes to a frame
    [f] gets a response that decodes to a frame [g] with the request ID and address of
    [f]: a data response with the bytes of the memory for a read whose addresses are
    all readable, an acknowledgement for a write that the policy enables and allows and
    the regions permit, and otherwise, and only then, an error response whose status
    says which of these failed, or [bad_request] if [f] is no request, and whose
    payload is the text of the event; the status is the event's and never
    [internal_error].  A string that does not decode gets an empty response, an event
    that says so, and changes nothing. *)
Theorem handle_answers_every_request s bytes :
  server_reachable s ->
  exists r s', MemoryServer.handle s bytes = Done (r, s') /\
  let e := HandleResult.event r in
  ((exists f g n, decode bytes = Done (DecodeResult.mk (Some f) CodecError.none n) /\
      decode (HandleResult.response r) =
        Done (DecodeResult.mk (Some g) CodecError.none (zlen (HandleResult.response r))) /\
      Frame.request_id g = Frame.request_id f /\ Frame.address g = Frame.address f /\
      answers (MemoryServer.policy_ s) (MemoryServer.memory_ s) f g (ServerEvent.detail e) /\
      Frame.status g <> Status.internal_error /\
      ServerEvent.request_decoded e = true /\ ServerEvent.request_id e = Frame.request_id f /\
      ServerEvent.status e = Frame.status g) \/
   (exists err n, decode bytes = Done (DecodeResult.mk None err n) /\
      HandleResult.response r = [] /\ ServerEvent.request_decoded e = false /\ s' = s)).
Proof.
  intros Hs. apply server_reachable_wf in Hs as Hw. pose proof Hw as [_ Hm].
  rewrite handle_refines by done. unfold handle_spec.
  destruct (decode_cases bytes) as [(err & n & He & Hd)|(f & -> & Hp & Hf & Hd)];
    pose proof Hd as Hv; rewrite decode_validation in Hv; apply Done_inj in Hv as ->;
    cbn [DecodeResult.frame DecodeResult.error]; eexists _, _; (split; [reflexivity|]).
  - right. by exists err, n.
  - left. set (d := serve _ _ _). exists f, (response_frame f d). eexists. split; [exact Hd|].
    assert (Hd' : proper_answer f d) by by apply serve_proper.
    split; [by apply proper_answer_decodes|].
    split; [done|]. split; [done|]. split; [exact (serve_answers _ _ f)|].
    split; [apply Hd'|done].
Qed.

Lemma handle_answers_every_request_witness :
  exists r s' g n,
    MemoryServer.handle (MemoryServer.mk ServerPolicy.default initial_memory) (wire sample_frame) =
      Done (r, s') /\
    decode (HandleResult.response r) = Done (DecodeResult.mk (Some g) CodecError.none n) /\
    answers ServerPolicy.default initial_memory sample_frame g (ServerEvent.detail (HandleResult.event r)).
Proof.
  pose proof (decode_wire sample_frame sample_frame_protocol sample_frame_wf) as Hw.
  destruct (handle_answers_every_request (MemoryServer.mk ServerPolicy.default initial_memory)
              (wire sample_frame)
              (server_constructed _ _ ServerPolicy_default_wf (server_construct_spec _)))
    as (r & s' & E & [(f & g & n & Hd & Hg & _ & _ & Ha & _)|(err & n & Hd & _)]);
    rewrite Hw in Hd; [|discriminate (Done_inj _ _ Hd)].
  injection (Done_inj _ _ Hd) as <- _.
  exists r, s', g, (zlen (HandleResult.response r)). split; [exact E|]. split; [exact Hg|exact Ha].
Defined.

(** C14. The memory changes only by an accepted write, which stores exactly the
    payload and is acknowledged: the memory after a request is the memory before,
    or the request is a write that the policy enables, whose interval is inside the
    allowlist and inside the writable region, the new memory holds its payload at
    its address, and the response is the acknowledgement with status [ok].  An
    acknowledgement is sent in no other case. *)
Theorem handle_changes_memory_only_by_accepted_writes s bytes r s' :
  server_reachable s -> MemoryServer.handle s bytes = Done (r, s') ->
  MemoryServer.policy_ s' = MemoryServer.policy_ s /\
  ((exists f, bytes = wire f /\ write_accepted (MemoryServer.policy_ s) f /\
      MemoryServer.memory_ s' =
        store (MemoryServer.memory_ s) (Frame.address f) (Frame.payload f) /\
      HandleResult.response r =
        wire (Frame.mk 1 Opcode.write_acknowledgement 1 (Frame.request_id f)
                (Frame.address f) Status.ok [])) \/
   (MemoryServer.memory_ s' = MemoryServer.memory_ s /\
    forall g e n, decode (HandleResult.response r) = Done (DecodeResult.mk (Some g) e n) ->
      Frame.opcode g <> Opcode.write_acknowledgement)).
Proof.
  intros Hs Hh. apply server_reachable_wf in Hs as Hw. pose proof Hw as [_ Hm].
  rewrite handle_refines in Hh by done. apply Done_inj in Hh.
  pose proof (handle_spec_guarantee s bytes Hw) as [Hpol _]. rewrite Hh in Hpol. split; [done|].
  unfold handle_spec in Hh.
  destruct (DecodeResult.frame (decode_by_validation bytes)) as [f|] eqn:E; simplify_eq/=.
  2: { right. split; [done|]. intros g e n Hg. by vm_compute in Hg. }
  destruct (decode_accepts _ _ E) as (-> & Hp & Hf & _).
  destruct (decide (stores (MemoryServer.policy_ s) (MemoryServer.memory_ s) f)) as [Hst|Hst].
  - left. exists f. destruct (serve_stores _ _ _ Hst) as [Ha ->]. destruct Hst as [Ho _].
    split; [done|]. split; [done|]. split; [done|].
    unfold response_frame, response_opcode. by rewrite Ho.
  - right. split; [by apply serve_keeps|]. intros g e n Hg Hack.
    rewrite decode_wire in Hg by (eapply serve_proper; done).
    apply Done_inj in Hg. injection Hg as <- _ _. apply Hst. cbn [response_frame Frame.opcode] in Hack.
    pose proof (serve_answers_kind (MemoryServer.policy_ s) _ f Hm Hf) as Hk.
    unfold answers_kind in Hk. cbn [response_frame Frame.opcode] in Hk. rewrite Hack in Hk.
    split; [done|]. unfold response_opcode in Hack. by case_bool_decide.
Qed.

Lemma handle_changes_memory_only_by_accepted_writes_witness :
  exists r s',
    MemoryServer.handle (MemoryServer.mk ServerPolicy.default initial_memory) (wire sample_frame) =
      Done (r, s') /\
  MemoryServer.policy_ s' = ServerPolicy.default.
Proof.
  eexists _, _.
  split; [vm_compute; reflexivity|].
  refine (proj1 (handle_changes_memory_only_by_accepted_writes
                   (MemoryServer.mk ServerPolicy.default initial_memory) (wire sample_frame) _ _
                   (server_constructed _ _ ServerPolicy_default_wf (server_construct_spec _)) _)).
  vm_compute. reflexivity.
Defined.

(** In every state a server can be in, whatever requests it has received:
    the memory has its 4096 bytes; outside 0x100..0x7ff and outside the policy's
    allowlist every byte is the initial one; and with writes disabled the whole
    memory is. *)
Theorem server_memory_invariant s :
  server_reachable s ->
  MemoryServer.wf s /\
  memory_guarantee (MemoryServer.policy_ s) initial_memory (MemoryServer.memory_ s).
Proof.
  induction 1 as [policy s Hp Hc|s bytes r s' _ [IHw IHg] Hh].
  - rewrite server_construct_spec in Hc. apply Done_inj in Hc as <-.
    split; [|reflexivity]. split; [done|apply initial_memory_wf].
  - rewrite handle_refines in Hh by done. apply Done_inj in Hh.
    pose proof (handle_spec_wf s bytes IHw) as Hw.
    pose proof (handle_spec_guarantee s bytes IHw) as [Hp Hg].
    rewrite Hh in *. cbn [snd] in *. split; [done|]. rewrite Hp. by etrans.
Qed.

Lemma server_memory_invariant_witness :
  memory_guarantee ServerPolicy.default initial_memory initial_memory.
Proof.
  apply (server_memory_invariant (MemoryServer.mk ServerPolicy.default initial_memory)).
  exact (server_constructed _ _ ServerPolicy_default_wf (server_construct_spec _)).
Defined.
