(* ===== verification/Transport.v ===== *)
(** * The transport: [include/imlp/transport.hpp] and [src/transport.cpp].

    [ITransport] is the interface the client is written against, [TransportLaws]
    what the client's theorems assume of an implementation.  [LoopbackTransport]
    implements it over the server of [Server], with scripted faults and a trace. *)

From S2P Require Import Prelude Types BigEndian Crc Codec Memory Server.

(** ** Data *)

Module TransportError.
Inductive t : Set := none | not_connected | timeout | disconnected.

#[global] Instance eq_dec : EqDecision t.
Proof. solve_decision. Defined.
End TransportError.

Module TransportFault.
Inductive t : Set :=
| timeout
| disconnect
| truncate_response
| corrupt_response
| wrong_request_id.

#[global] Instance eq_dec : EqDecision t.
Proof. solve_decision. Defined.
End TransportFault.

Module TransportReply.
Record t : Set := mk { error : TransportError.t; bytes : list byte }.
(** [explicit operator bool]. *)
Definition to_bool (r : t) : bool := bool_decide (error r = TransportError.none).
End TransportReply.

Module TraceRecord.
Record t : Set := mk {
  sequence : Z;
  direction : string;
  outcome : string;
  bytes : list byte;
}.
End TraceRecord.

Definition transport_error_name (error : TransportError.t) : string :=
  match error with
  | TransportError.none => "none"
  | TransportError.not_connected => "not_connected"
  | TransportError.timeout => "timeout"
  | TransportError.disconnected => "disconnected"
  end.

(** ** The interface

    A deadline is the tick count of a [std::chrono::milliseconds]. *)
Class ITransport (T : Type) := {
  connect : T -> Exec (bool * T);
  close : T -> T;
  connected : T -> bool;
  exchange : T -> list byte -> Z -> Exec (TransportReply.t * T);
}.

(** What a client needs of an implementation to end with a result: a set of states
    that the operations preserve and in which they return. *)
Class TransportLaws (T : Type) `{ITransport T} (valid : T -> Prop) := {
  connect_returns t : valid t -> exists b t', connect t = Done (b, t') /\ valid t';
  close_valid t : valid t -> valid (close t);
  exchange_returns t request deadline :
    valid t -> exists r t', exchange t request deadline = Done (r, t') /\ valid t';
}.

(** ** The loopback transport *)

Module LoopbackTransport.
(** The server is a member by reference.  A member function reads and writes it for
    the time of a call, so it works on the state of the server kept here; [Objects]
    lends it from a store in which servers are shared, and takes it back. *)
Record t : Set := mk {
  server_ : MemoryServer.t;
  connected_ : bool;
  faults_ : list TransportFault.t;
  trace_ : list TraceRecord.t;
  next_sequence_ : Z;
}.

(** The constructor and the default member initialisers. *)
Definition construct (server : MemoryServer.t) : t := mk server false [] [] 1.

Definition connect (s : t) : Exec (bool * t) :=
  Done (true, mk (server_ s) true (faults_ s) (trace_ s) (next_sequence_ s)).

Definition close (s : t) : t := mk (server_ s) false (faults_ s) (trace_ s) (next_sequence_ s).

Definition connected (s : t) : bool := connected_ s.

Definition record (s : t) (direction outcome : string) (bytes : list byte) : t :=
  mk (server_ s) (connected_ s) (faults_ s)
     (trace_ s ++ [TraceRecord.mk (next_sequence_ s) direction outcome bytes])
     (u64 (next_sequence_ s + 1)).

Definition push_fault (s : t) (fault : TransportFault.t) : t :=
  mk (server_ s) (connected_ s) (faults_ s ++ [fault]) (trace_ s) (next_sequence_ s).

Definition trace (s : t) : list TraceRecord.t := trace_ s.

Definition clear_trace (s : t) : t :=
  mk (server_ s) (connected_ s) (faults_ s) [] (next_sequence_ s).

(** [faults_.pop_front()]. *)
Definition pop_fault (s : t) : t :=
  mk (server_ s) (connected_ s) (drop 1 (faults_ s)) (trace_ s) (next_sequence_ s).

Definition set_server (s : t) (server : MemoryServer.t) : t :=
  mk server (connected_ s) (faults_ s) (trace_ s) (next_sequence_ s).

(** What a fault that reaches the response makes of it. *)
Definition apply_fault (has_fault : bool) (fault : TransportFault.t) (response : list byte)
    : Exec (list byte) :=
  let empty := bool_decide (response = []) in
  if has_fault && bool_decide (fault = TransportFault.truncate_response) && negb empty then
    Done (take (length response - 1) response)
  else if has_fault && bool_decide (fault = TransportFault.corrupt_response) && negb empty then
    back ← vec_at response (zlen response - 1);
    vec_set response (zlen response - 1) (to_byte (Z.lxor (to_integer back) 0x01))
  else if has_fault && bool_decide (fault = TransportFault.wrong_request_id) then
    decoded ← decode response;
    match DecodeResult.to_bool decoded, DecodeResult.frame decoded with
    | true, Some frame =>
        let encoded := encode {|
          Frame.version := Frame.version frame;
          Frame.opcode := Frame.opcode frame;
          Frame.flags := Frame.flags frame;
          Frame.request_id := u32 (Frame.request_id frame + 1);
          Frame.address := Frame.address frame;
          Frame.status := Frame.status frame;
          Frame.payload := Frame.payload frame |} in
        if EncodeResult.to_bool encoded then Done (EncodeResult.bytes encoded)
        else Done response
    | _, _ => Done response
    end
  else Done response.

Definition exchange (s : t) (request : list byte) (deadline : Z)
    : Exec (TransportReply.t * t) :=
  if negb (connected_ s) then Done (TransportReply.mk TransportError.not_connected [], s)
  else
    let s := record s "client_to_server" "sent" request in
    if deadline <=? 0 then
      Done (TransportReply.mk TransportError.timeout [],
            record s "server_to_client" "deadline_expired" [])
    else
      let has_fault := negb (bool_decide (faults_ s = [])) in
      fault ← (if has_fault then vec_at (faults_ s) 0 else Done TransportFault.timeout);
      let s := if has_fault then pop_fault s else s in
      if has_fault && bool_decide (fault = TransportFault.timeout) then
        Done (TransportReply.mk TransportError.timeout [],
              record s "server_to_client" "timeout" [])
      else if has_fault && bool_decide (fault = TransportFault.disconnect) then
        Done (TransportReply.mk TransportError.disconnected [],
              record (close s) "server_to_client" "disconnected" [])
      else
        '(handled, server) ← MemoryServer.handle (server_ s) request;
        let s := set_server s server in
        response ← apply_fault has_fault fault (HandleResult.response handled);
        let outcome :=
          if ServerEvent.request_decoded (HandleResult.event handled)
          then ServerEvent.detail (HandleResult.event handled) else "rejected" in
        Done (TransportReply.mk TransportError.none response,
              record s "server_to_client" outcome response).
End LoopbackTransport.

#[export] Instance LoopbackTransport_ITransport : ITransport LoopbackTransport.t := {
  connect := LoopbackTransport.connect;
  close := LoopbackTransport.close;
  connected := LoopbackTransport.connected;
  exchange := LoopbackTransport.exchange;
}.

(** ** Specification *)

Definition with_request_id (f : Frame.t) (id : Z) : Frame.t :=
  Frame.mk (Frame.version f) (Frame.opcode f) (Frame.flags f) id (Frame.address f)
    (Frame.status f) (Frame.payload f).

Definition next_id (f : Frame.t) : Frame.t := with_request_id f (u32 (Frame.request_id f + 1)).

Definition flip_low_bit (b : byte) : byte := to_byte (Z.lxor (to_integer b) 1).

(** What the fault at the head of the queue makes of a response. *)
Definition damage (fault : option TransportFault.t) (response : list byte) : list byte :=
  match fault with
  | Some TransportFault.truncate_response => take (length response - 1) response
  | Some TransportFault.corrupt_response => alter flip_low_bit (length response - 1)%nat response
  | Some TransportFault.wrong_request_id =>
      match DecodeResult.frame (decode_by_validation response) with
      | Some g => wire (next_id g)
      | None => response
      end
  | _ => response
  end.

(** The trace of one exchange: the request, then what came of it. *)
Definition exchange_records (n : Z) (request : list byte) (outcome : string)
    (response : list byte) : list TraceRecord.t :=
  [ TraceRecord.mk n "client_to_server" "sent" request;
    TraceRecord.mk (u64 (n + 1)) "server_to_client" outcome response ].

Definition after_exchange (s : LoopbackTransport.t) (server : MemoryServer.t) (connected : bool)
    (faults : list TransportFault.t) (request : list byte) (outcome : string)
    (response : list byte) : LoopbackTransport.t :=
  LoopbackTransport.mk server connected faults
    (LoopbackTransport.trace_ s ++
     exchange_records (LoopbackTransport.next_sequence_ s) request outcome response)
    (u64 (u64 (LoopbackTransport.next_sequence_ s + 1) + 1)).

Definition handle_outcome (h : HandleResult.t) : string :=
  if ServerEvent.request_decoded (HandleResult.event h)
  then ServerEvent.detail (HandleResult.event h) else "rejected".

Definition exchange_spec (s : LoopbackTransport.t) (request : list byte) (deadline : Z)
    : TransportReply.t * LoopbackTransport.t :=
  let server := LoopbackTransport.server_ s in
  let faults := LoopbackTransport.faults_ s in
  if negb (LoopbackTransport.connected_ s) then
    (TransportReply.mk TransportError.not_connected [], s)
  else if deadline <=? 0 then
    (TransportReply.mk TransportError.timeout [],
     after_exchange s server true faults request "deadline_expired" [])
  else
    match head faults with
    | Some TransportFault.timeout =>
        (TransportReply.mk TransportError.timeout [],
         after_exchange s server true (tail faults) request "timeout" [])
    | Some TransportFault.disconnect =>
        (TransportReply.mk TransportError.disconnected [],
         after_exchange s server false (tail faults) request "disconnected" [])
    | fault =>
        let '(h, server) := handle_spec server request in
        let response := damage fault (HandleResult.response h) in
        (TransportReply.mk TransportError.none response,
         after_exchange s server true (tail faults) request (handle_outcome h) response)
    end.

(** ** The operations against the specification *)

Lemma protocol_frame_with_id f id : protocol_frame f -> protocol_frame (with_request_id f id).
Proof. inversion 1; subst; by constructor. Qed.

Lemma next_id_wf f : Frame.wf f -> Frame.wf (next_id f).
Proof.
  intros (Hv & Ho & Hf & Hid & Ha & Hs). repeat split; cbn; try done; try apply Ho; try apply Hs;
    try lia; unfold u32; apply Z.mod_pos_bound; lia.
Qed.

Lemma next_id_differs f : Frame.wf f -> Frame.request_id (next_id f) <> Frame.request_id f.
Proof.
  intros (_ & _ & _ & Hid & _). cbn. unfold u32.
  destruct (decide (Frame.request_id f = 2 ^ 32 - 1)) as [->|]; [done|].
  rewrite Z.mod_small; lia.
Qed.

Lemma apply_fault_none fault response :
  LoopbackTransport.apply_fault false fault response = Done (damage None response).
Proof. done. Qed.

Lemma apply_fault_truncate response :
  LoopbackTransport.apply_fault true TransportFault.truncate_response response =
  Done (damage (Some TransportFault.truncate_response) response).
Proof. by destruct response. Qed.

Lemma apply_fault_corrupt response :
  LoopbackTransport.apply_fault true TransportFault.corrupt_response response =
  Done (damage (Some TransportFault.corrupt_response) response).
Proof.
  unfold LoopbackTransport.apply_fault. cbn [andb].
  destruct response as [|b l] using rev_ind; [done|].
  rewrite (bool_decide_eq_false_2 (l ++ [b] = [])) by by destruct l.
  decide_constants. rewrite zlen_app, zlen_cons, zlen_nil. replace (zlen l + (1 + 0) - 1) with (zlen l) by lia.
  rewrite vec_at_middle. cbn [mbind exec_bind]. rewrite vec_set_middle. f_equal. unfold damage.
  rewrite length_app, Nat.add_sub, alter_app_r_alt, Nat.sub_diag by lia. done.
Qed.

Lemma apply_fault_wrong_id response :
  LoopbackTransport.apply_fault true TransportFault.wrong_request_id response =
  Done (damage (Some TransportFault.wrong_request_id) response).
Proof.
  unfold LoopbackTransport.apply_fault, damage. decide_constants.
  rewrite decode_validation. cbn [mbind exec_bind].
  destruct (DecodeResult.frame _) as [g|] eqn:E; [|by destruct (DecodeResult.to_bool _)].
  destruct (decode_accepts _ _ E) as (_ & Hp & _ & ->).
  unfold DecodeResult.to_bool. cbn [DecodeResult.error DecodeResult.frame].
  rewrite !bool_decide_eq_true_2 by eauto. cbn [andb].
  change {| Frame.version := _ |} with (next_id g).
  by rewrite encode_wire by by apply protocol_frame_with_id.
Qed.

(** The exchange that reaches the server. *)
Lemma delivery s server request has_fault fault queued :
  MemoryServer.wf server ->
  (forall response, LoopbackTransport.apply_fault has_fault fault response =
     Done (damage queued response)) ->
  ('(handled, server) ← MemoryServer.handle server request;
   let s := LoopbackTransport.set_server s server in
   response ← LoopbackTransport.apply_fault has_fault fault (HandleResult.response handled);
   let outcome :=
     if ServerEvent.request_decoded (HandleResult.event handled)
     then ServerEvent.detail (HandleResult.event handled) else "rejected" in
   Done (TransportReply.mk TransportError.none response,
         LoopbackTransport.record s "server_to_client" outcome response)) =
  Done (let '(h, server) := handle_spec server request in
        let response := damage queued (HandleResult.response h) in
        (TransportReply.mk TransportError.none response,
         LoopbackTransport.record (LoopbackTransport.set_server s server)
           "server_to_client" (handle_outcome h) response)).
Proof.
  intros Hw Ha. rewrite handle_refines by done. cbn [mbind exec_bind].
  destruct (handle_spec _ _) as [h server']. by rewrite Ha.
Qed.

Lemma two_records s server connected faults request outcome response :
  let sent := LoopbackTransport.record s "client_to_server" "sent" request in
  LoopbackTransport.record
    (LoopbackTransport.mk server connected faults (LoopbackTransport.trace_ sent)
       (LoopbackTransport.next_sequence_ sent)) "server_to_client" outcome response =
  after_exchange s server connected faults request outcome response.
Proof.
  unfold after_exchange, LoopbackTransport.record.
  cbn [LoopbackTransport.server_ LoopbackTransport.connected_ LoopbackTransport.faults_
       LoopbackTransport.trace_ LoopbackTransport.next_sequence_].
  by rewrite <-app_assoc.
Qed.

Lemma exchange_refines s request deadline :
  MemoryServer.wf (LoopbackTransport.server_ s) ->
  LoopbackTransport.exchange s request deadline = Done (exchange_spec s request deadline).
Proof.
  intros Hw. unfold LoopbackTransport.exchange, exchange_spec.
  destruct s as [server [|] faults trace n]; [|done].
  cbn [negb LoopbackTransport.connected_ LoopbackTransport.faults_ LoopbackTransport.server_] in *.
  destruct (deadline <=? 0); [by rewrite <-two_records|].
  set (sent := LoopbackTransport.record _ "client_to_server" "sent" request).
  change (LoopbackTransport.faults_ sent) with faults.
  destruct faults as [|[| | | |] faults]; decide_constants; cbn [head tail];
    rewrite ?(vec_at_middle []); cbn [mbind exec_bind]; decide_constants.
  2, 3: by rewrite <-two_records.
  - refine (eq_trans (delivery sent server request _ _ None Hw
                       (apply_fault_none TransportFault.timeout)) _).
    destruct (handle_spec server request).
    by rewrite <-two_records.
  - refine (eq_trans (delivery _ server request _ _ (Some _) Hw apply_fault_truncate) _).
    destruct (handle_spec server request).
    by rewrite <-two_records.
  - refine (eq_trans (delivery _ server request _ _ (Some _) Hw apply_fault_corrupt) _).
    destruct (handle_spec server request).
    by rewrite <-two_records.
  - refine (eq_trans (delivery _ server request _ _ (Some _) Hw apply_fault_wrong_id) _).
    destruct (handle_spec server request).
    by rewrite <-two_records.
Qed.

(** The laws the client relies on hold of the loopback transport. *)
Definition loopback_valid (s : LoopbackTransport.t) : Prop :=
  MemoryServer.wf (LoopbackTransport.server_ s).

Lemma exchange_spec_server s request deadline :
  LoopbackTransport.server_ (exchange_spec s request deadline).2 = LoopbackTransport.server_ s /\
    TransportReply.error (exchange_spec s request deadline).1 <> TransportError.none \/
  LoopbackTransport.server_ (exchange_spec s request deadline).2 =
    (handle_spec (LoopbackTransport.server_ s) request).2 /\
    TransportReply.error (exchange_spec s request deadline).1 = TransportError.none.
Proof.
  unfold exchange_spec. destruct (handle_spec _ request) as [h server'].
  repeat case_match; simplify_eq/=; auto.
Qed.

#[export] Instance LoopbackTransport_laws : TransportLaws LoopbackTransport.t loopback_valid.
Proof.
  split.
  - intros s Hs. by eexists _, _.
  - done.
  - intros s request deadline Hs.
    exists (exchange_spec s request deadline).1, (exchange_spec s request deadline).2.
    cbn [exchange LoopbackTransport_ITransport]. rewrite exchange_refines by done.
    rewrite <-surjective_pairing. split; [done|]. unfold loopback_valid.
    destruct (exchange_spec_server s request deadline) as [[-> _]|[-> _]];
      [done|by apply handle_spec_wf].
Qed.

(** ** Reachable states *)

Inductive loopback_reachable : LoopbackTransport.t -> Prop :=
| loopback_constructed server :
    server_reachable server -> loopback_reachable (LoopbackTransport.construct server)
| loopback_connected s b s' :
    loopback_reachable s -> LoopbackTransport.connect s = Done (b, s') -> loopback_reachable s'
| loopback_closed s :
    loopback_reachable s -> loopback_reachable (LoopbackTransport.close s)
| loopback_exchanged s request deadline r s' :
    loopback_reachable s -> LoopbackTransport.exchange s request deadline = Done (r, s') ->
    loopback_reachable s'
| loopback_fault_pushed s fault :
    loopback_reachable s -> loopback_reachable (LoopbackTransport.push_fault s fault)
| loopback_trace_cleared s :
    loopback_reachable s -> loopback_reachable (LoopbackTransport.clear_trace s).

(** The records of a trace are numbered one after the other, up to [next]. *)
Definition numbered (trace : list TraceRecord.t) (next : Z) : Prop :=
  exists start, next = u64 (start + zlen trace) /\
  forall (i : nat) r, trace !! i = Some r -> TraceRecord.sequence r = u64 (start + Z.of_nat i).

Lemma numbered_nil next : 0 <= next < 2 ^ 64 -> numbered [] next.
Proof.
  intros Hn. exists next. split; [|done]. rewrite zlen_nil. unfold u64.
  by rewrite Z.add_0_r, Z.mod_small.
Qed.

Lemma u64_succ n : u64 (u64 n + 1) = u64 (n + 1).
Proof. unfold u64. rewrite Zplus_mod_idemp_l. done. Qed.

Lemma numbered_snoc trace next direction outcome bytes :
  numbered trace next ->
  numbered (trace ++ [TraceRecord.mk next direction outcome bytes]) (u64 (next + 1)).
Proof.
  intros (start & -> & Ht). exists start. rewrite zlen_app, zlen_cons, zlen_nil, u64_succ.
  split; [f_equal; lia|]. intros i r Hr.
  apply lookup_app_Some in Hr as [Hr|[Hi Hr]]; [by apply Ht|].
  destruct (i - length trace)%nat eqn:E; [|done]. injection Hr as <-. cbn. unfold zlen.
  do 2 f_equal. lia.
Qed.

Definition trace_numbered (s : LoopbackTransport.t) : Prop :=
  numbered (LoopbackTransport.trace_ s) (LoopbackTransport.next_sequence_ s) /\
  0 <= LoopbackTransport.next_sequence_ s < 2 ^ 64.

Lemma after_exchange_numbered s server c faults request outcome response :
  trace_numbered s -> trace_numbered (after_exchange s server c faults request outcome response).
Proof.
  intros [Hn _]. split; [|apply Z.mod_pos_bound; lia].
  rewrite <-two_records. unfold LoopbackTransport.record.
  cbn [LoopbackTransport.trace_ LoopbackTransport.next_sequence_].
  by apply numbered_snoc, numbered_snoc.
Qed.

Lemma exchange_spec_numbered s request deadline :
  trace_numbered s -> trace_numbered (exchange_spec s request deadline).2.
Proof.
  intros Hs. unfold exchange_spec. destruct (handle_spec _ request) as [h server'].
  repeat case_match; simplify_eq/=; try done; by apply after_exchange_numbered.
Qed.

Lemma handle_spec_reachable s bytes : server_reachable s -> server_reachable (handle_spec s bytes).2.
Proof.
  intros Hs. apply (server_handled s bytes (handle_spec s bytes).1); [done|].
  rewrite handle_refines by by apply server_reachable_wf. by rewrite <-surjective_pairing.
Qed.

Lemma loopback_reachable_inv s :
  loopback_reachable s -> server_reachable (LoopbackTransport.server_ s) /\ trace_numbered s.
Proof.
  induction 1 as [server Hs|s b s' _ IH Hc|s _ IH|s request deadline r s' _ [IHs IHn] He
                 |s fault _ IH|s _ [IHs [_ IHn]]].
  - split; [done|]. split; [by apply numbered_nil|done].
  - by apply Done_inj in Hc as [= _ <-].
  - done.
  - rewrite exchange_refines in He by by apply server_reachable_wf.
    apply Done_inj in He.
    pose proof (exchange_spec_numbered s request deadline IHn) as Hn.
    destruct (exchange_spec_server s request deadline) as [[Hs _]|[Hs _]];
      rewrite He in Hs, Hn; (split; [|done]); cbn [snd] in Hs; rewrite Hs; [done|].
    by apply handle_spec_reachable.
  - done.
  - split; [done|]. split; [by apply numbered_nil|done].
Qed.

Lemma loopback_reachable_wf s :
  loopback_reachable s -> MemoryServer.wf (LoopbackTransport.server_ s).
Proof. intros Hs. by apply server_reachable_wf, loopback_reachable_inv. Qed.

(** ** Damaged responses *)

Lemma truncated_response_rejected g :
  protocol_frame g -> Frame.wf g ->
  decode (damage (Some TransportFault.truncate_response) (wire g)) =
  Done (DecodeResult.mk None CodecError.truncated 0).
Proof.
  intros Hp Hw. apply decode_prefix; try done.
  pose proof (zlen_wire g) as Hl. pose proof (zlen_nonneg (Frame.payload g)). unfold zlen in *. lia.
Qed.

Lemma flip_low_bit_differs b : flip_low_bit b <> b.
Proof.
  intros E. apply (f_equal to_integer) in E. unfold flip_low_bit in E.
  pose proof (to_integer_range b) as Hb.
  assert (0 <= Z.lxor (to_integer b) 1 < 2 ^ 8) by (apply bounded_lxor; lia).
  rewrite to_integer_to_byte_small in E by lia.
  apply (f_equal (fun z => Z.testbit z 0)) in E. rewrite Z.lxor_spec in E.
  by destruct (Z.testbit _ 0).
Qed.

Lemma corrupted_response_rejected g :
  protocol_frame g -> Frame.wf g ->
  decode (damage (Some TransportFault.corrupt_response) (wire g)) =
  Done (DecodeResult.mk None CodecError.checksum_mismatch (zlen (Frame.payload g) + 22)).
Proof.
  intros Hp Hw. unfold damage, wire. set (c := be_bytes 4 (crc32 (wire_body g))).
  assert (Hl : length c = 4%nat) by apply length_be_bytes.
  rewrite length_app, Hl, alter_app_r_alt by lia.
  replace (length (wire_body g) + 4 - 1 - length (wire_body g))%nat with 3%nat by lia.
  set (c' := alter flip_low_bit 3%nat c).
  assert (Hl' : zlen c' = 4) by (unfold zlen, c'; by rewrite length_alter, Hl).
  rewrite decode_body_tail, Hl' by done. change (4 <? 4) with false. change (4 =? 4) with true. cbn [negb].
  rewrite (proj2 (Z.eqb_neq _ _)); [done|]. intros E.
  assert (Hc : c' = c).
  { rewrite <-(be_bytes_value_n 4 c'), E by (unfold zlen in Hl'; lia). done. }
  destruct (list_of_length_4 c Hl) as (b0 & b1 & b2 & b3 & Hcb). unfold c' in Hc.
  rewrite Hcb in Hc. cbn in Hc. injection Hc as Hb. by apply flip_low_bit_differs in Hb.
Qed.

Lemma wrong_id_response g :
  protocol_frame g -> Frame.wf g ->
  damage (Some TransportFault.wrong_request_id) (wire g) = wire (next_id g) /\
  decode (wire (next_id g)) =
    Done (DecodeResult.mk (Some (next_id g)) CodecError.none (zlen (wire (next_id g)))).
Proof.
  intros Hp Hw. unfold damage.
  pose proof (decode_wire g Hp Hw) as Hd. rewrite decode_validation in Hd.
  apply Done_inj in Hd as ->. cbn [DecodeResult.frame]. split; [done|].
  apply decode_wire; [by apply protocol_frame_with_id|by apply next_id_wf].
Qed.

(** ** Properties *)

Definition initial_server : MemoryServer.t :=
  MemoryServer.mk (ServerPolicy.mk true 0x100 0x7FF) initial_memory.

Lemma initial_server_reachable : server_reachable initial_server.
Proof.
  apply (server_constructed (ServerPolicy.mk true 0x100 0x7FF)); [by repeat split|].
  apply server_construct_spec.
Qed.

Definition initial_loopback : LoopbackTransport.t := LoopbackTransport.construct initial_server.

Lemma initial_loopback_reachable : loopback_reachable initial_loopback.
Proof. exact (loopback_constructed _ initial_server_reachable). Qed.

(** C26. An exchange over the loopback transport ends with a result in every state
    the transport can be in, and does what its specification says: nothing when
    not connected; a timeout that consumes no fault when the deadline has passed;
    else the fault at the head of the queue is consumed and decides between
    timeout, disconnection and a response, which the server computed and the fault
    damaged. *)
Theorem loopback_exchange_refines_specification s request deadline :
  loopback_reachable s ->
  LoopbackTransport.exchange s request deadline = Done (exchange_spec s request deadline).
Proof. intros Hs. by apply exchange_refines, loopback_reachable_wf. Qed.

Lemma loopback_exchange_refines_specification_witness :
  LoopbackTransport.exchange initial_loopback [] 5 = Done (exchange_spec initial_loopback [] 5).
Proof.
  exact (loopback_exchange_refines_specification initial_loopback [] 5 initial_loopback_reachable).
Defined.

(** Each response fault is one the receiver detects.  Of the encoding of any
    protocol frame, [truncate_response] makes a string the decoder reports as
    truncated, [corrupt_response] one whose checksum it rejects, and
    [wrong_request_id] a valid frame that differs in the request ID and in nothing
    else, the ID 2^32-1 included.  The two other faults leave it alone. *)
Theorem loopback_faults_are_detected fault g :
  protocol_frame g -> Frame.wf g ->
  exists response,
    LoopbackTransport.apply_fault true fault (wire g) = Done response /\
    match fault with
    | TransportFault.truncate_response =>
        decode response = Done (DecodeResult.mk None CodecError.truncated 0)
    | TransportFault.corrupt_response =>
        exists n, decode response = Done (DecodeResult.mk None CodecError.checksum_mismatch n)
    | TransportFault.wrong_request_id =>
        exists f n, decode response = Done (DecodeResult.mk (Some f) CodecError.none n) /\
          Frame.request_id f <> Frame.request_id g /\
          with_request_id f (Frame.request_id g) = g
    | TransportFault.timeout | TransportFault.disconnect => response = wire g
    end.
Proof.
  intros Hp Hw. destruct fault.
  - by exists (wire g).
  - by exists (wire g).
  - eexists. split; [apply apply_fault_truncate|]. by apply truncated_response_rejected.
  - eexists. split; [apply apply_fault_corrupt|]. eexists. by apply corrupted_response_rejected.
  - destruct (wrong_id_response g Hp Hw) as [Hr Hd].
    eexists. split; [apply apply_fault_wrong_id|]. rewrite Hr. exists (next_id g). eexists.
    split; [exact Hd|]. split; [by apply next_id_differs|by destruct g].
Qed.

Lemma loopback_faults_are_detected_witness :
  exists response,
    LoopbackTransport.apply_fault true TransportFault.truncate_response (wire sample_frame) =
      Done response /\
    decode response = Done (DecodeResult.mk None CodecError.truncated 0).
Proof.
  exact (loopback_faults_are_detected TransportFault.truncate_response sample_frame
           sample_frame_protocol sample_frame_wf).
Defined.

(** The trace is a faithful log: the records are numbered consecutively (the
    64-bit counter wrapping) in every reachable state, whatever was cleared before,
    and an exchange of a connected transport appends exactly two records, the
    request as it was sent and the bytes that came back; an unconnected one
    appends none. *)
Theorem loopback_trace_is_a_log s request deadline r s' :
  loopback_reachable s -> LoopbackTransport.exchange s request deadline = Done (r, s') ->
  numbered (LoopbackTransport.trace s') (LoopbackTransport.next_sequence_ s') /\
  (LoopbackTransport.connected s = false -> s' = s) /\
  (LoopbackTransport.connected s = true ->
   exists outcome,
     LoopbackTransport.trace s' =
     LoopbackTransport.trace s ++
     exchange_records (LoopbackTransport.next_sequence_ s) request outcome
       (TransportReply.bytes r)).
Proof.
  intros Hs He.
  assert (Hs' : loopback_reachable s') by by eapply loopback_exchanged.
  apply loopback_reachable_inv in Hs' as [_ [Hn _]]. split; [done|].
  rewrite exchange_refines in He by by apply loopback_reachable_wf.
  apply Done_inj in He. unfold exchange_spec, LoopbackTransport.connected in *.
  destruct (handle_spec _ request) as [h server'].
  destruct s as [server [|] faults trace n]; cbn [negb LoopbackTransport.connected_] in He |- *;
    (split; intros; try done); repeat case_match; simplify_eq/=; by eexists.
Qed.

Definition connected_loopback : LoopbackTransport.t :=
  LoopbackTransport.mk initial_server true [TransportFault.timeout] [] 1.

Lemma connected_loopback_reachable : loopback_reachable connected_loopback.
Proof.
  apply (loopback_fault_pushed (LoopbackTransport.mk initial_server true [] [] 1)
           TransportFault.timeout).
  exact (loopback_connected _ true _ initial_loopback_reachable eq_refl).
Qed.

Lemma loopback_trace_is_a_log_witness :
  LoopbackTransport.exchange connected_loopback [] 5 =
    Done (exchange_spec connected_loopback [] 5) /\
  numbered (LoopbackTransport.trace (exchange_spec connected_loopback [] 5).2) 3.
Proof.
  split; [reflexivity|].
  refine (proj1 (loopback_trace_is_a_log connected_loopback [] 5
                   (TransportReply.mk TransportError.timeout [])
                   (exchange_spec connected_loopback [] 5).2 connected_loopback_reachable _)).
  reflexivity.
Defined.

(** A failed exchange has no effect at the server, a completed one has the
    effect of handling the request exactly once; in both cases at most one queued
    fault is consumed, and only [disconnect] closes the connection. *)
Theorem loopback_exchange_effect s request deadline r s' :
  loopback_reachable s -> LoopbackTransport.exchange s request deadline = Done (r, s') ->
  (if TransportReply.to_bool r then
     exists h, MemoryServer.handle (LoopbackTransport.server_ s) request =
               Done (h, LoopbackTransport.server_ s')
   else LoopbackTransport.server_ s' = LoopbackTransport.server_ s) /\
  (LoopbackTransport.faults_ s' = LoopbackTransport.faults_ s \/
   exists fault, LoopbackTransport.faults_ s = fault :: LoopbackTransport.faults_ s') /\
  LoopbackTransport.connected s' =
    LoopbackTransport.connected s &&
    negb (bool_decide (TransportReply.error r = TransportError.disconnected)).
Proof.
  intros Hs He. apply loopback_reachable_wf in Hs.
  rewrite exchange_refines in He by done. apply Done_inj in He.
  rewrite handle_refines by done.
  unfold exchange_spec, LoopbackTransport.connected in *.
  destruct (handle_spec _ request) as [h server'].
  destruct s as [server [|] [|[| | | |] faults] trace n]; cbn [negb head tail
    LoopbackTransport.connected_ LoopbackTransport.faults_ LoopbackTransport.server_] in He;
    repeat case_match; simplify_eq/=; eauto 10.
Qed.

Lemma loopback_exchange_effect_witness :
  LoopbackTransport.exchange connected_loopback [] 5 =
    Done (exchange_spec connected_loopback [] 5) /\
  LoopbackTransport.server_ (exchange_spec connected_loopback [] 5).2 = initial_server.
Proof.
  split; [reflexivity|].
  refine (proj1 (loopback_exchange_effect connected_loopback [] 5
                   (TransportReply.mk TransportError.timeout [])
                   (exchange_spec connected_loopback [] 5).2 connected_loopback_reachable _)).
  reflexivity.
Defined.
