(* ===== verification/ImlpClient.v ===== *)
(** * The client: [include/imlp/client.hpp] and [src/client.cpp].

    The operations are written over an arbitrary transport [T] of class
    [ITransport]; the state of an operation is the client and its transport.
    [tries] and [judge] specify them: how often and with what the transport is
    called, and what a response means for a request. *)

From S2P Require Import Prelude Types BigEndian Crc Codec Memory Server Transport.

(** ** Data *)

Module ClientError.
Inductive t : Set :=
| none
| invalid_argument
| connect_failed
| timeout
| disconnected
| encoding_failed
| malformed_response
| correlation_mismatch
| unexpected_response
| remote_error.

#[global] Instance eq_dec : EqDecision t.
Proof. solve_decision. Defined.
End ClientError.

Definition client_error_name (error : ClientError.t) : string :=
  match error with
  | ClientError.none => "none"
  | ClientError.invalid_argument => "invalid_argument"
  | ClientError.connect_failed => "connect_failed"
  | ClientError.timeout => "timeout"
  | ClientError.disconnected => "disconnected"
  | ClientError.encoding_failed => "encoding_failed"
  | ClientError.malformed_response => "malformed_response"
  | ClientError.correlation_mismatch => "correlation_mismatch"
  | ClientError.unexpected_response => "unexpected_response"
  | ClientError.remote_error => "remote_error"
  end.

Module ClientOptions.
Record t : Set := mk { maximum_read_attempts : Z }.
Definition default : t := mk 2.
Definition wf (o : t) : Prop := 0 <= maximum_read_attempts o < 2 ^ 64.
End ClientOptions.

Module ClientMetrics.
Record t : Set := mk {
  operations : Z;
  transport_attempts : Z;
  reconnects : Z;
  retries : Z;
  timeouts : Z;
  protocol_errors : Z;
}.

Definition initial : t := mk 0 0 0 0 0 0.

Definition wf (m : t) : Prop :=
  0 <= operations m < 2 ^ 64 /\ 0 <= transport_attempts m < 2 ^ 64 /\
  0 <= reconnects m < 2 ^ 64 /\ 0 <= retries m < 2 ^ 64 /\
  0 <= timeouts m < 2 ^ 64 /\ 0 <= protocol_errors m < 2 ^ 64.

(** The increments [++metrics_.member] of [std::uint64_t] members. *)
Definition count_operation (m : t) : t :=
  mk (u64 (operations m + 1)) (transport_attempts m) (reconnects m) (retries m) (timeouts m)
     (protocol_errors m).
Definition count_transport_attempt (m : t) : t :=
  mk (operations m) (u64 (transport_attempts m + 1)) (reconnects m) (retries m) (timeouts m)
     (protocol_errors m).
Definition count_reconnect (m : t) : t :=
  mk (operations m) (transport_attempts m) (u64 (reconnects m + 1)) (retries m) (timeouts m)
     (protocol_errors m).
Definition count_retry (m : t) : t :=
  mk (operations m) (transport_attempts m) (reconnects m) (u64 (retries m + 1)) (timeouts m)
     (protocol_errors m).
Definition count_timeout (m : t) : t :=
  mk (operations m) (transport_attempts m) (reconnects m) (retries m) (u64 (timeouts m + 1))
     (protocol_errors m).
Definition count_protocol_error (m : t) : t :=
  mk (operations m) (transport_attempts m) (reconnects m) (retries m) (timeouts m)
     (u64 (protocol_errors m + 1)).
End ClientMetrics.

Module OperationResult.
Record t : Set := mk {
  error : ClientError.t;
  remote_status : Status.t;
  request_id : Z;
  attempts : Z;
  data : list byte;
  detail : string;
}.
(** [explicit operator bool]. *)
Definition to_bool (r : t) : bool := bool_decide (error r = ClientError.none).
End OperationResult.

(** ** The operations of the source *)

Module Client.
Record t : Set := mk {
  options_ : ClientOptions.t;
  metrics_ : ClientMetrics.t;
  next_request_id_ : Z;
}.

(** The constructor: at least one attempt. *)
Definition construct (options : ClientOptions.t) : t :=
  mk (ClientOptions.mk (Z.max 1 (ClientOptions.maximum_read_attempts options)))
     ClientMetrics.initial 1.

Definition metrics (c : t) : ClientMetrics.t := metrics_ c.

Section Operations.
Context {T : Type} `{ITransport T}.

(** The client and the transport it refers to. *)
Definition World : Type := t * T.

Definition count (f : ClientMetrics.t -> ClientMetrics.t) : Run World unit :=
  modify (fun '(c, tr) => (mk (options_ c) (f (metrics_ c)) (next_request_id_ c), tr)).

(** The virtual calls [transport_.connected()], [connect()], [close()] and
    [exchange(request, deadline)]. *)
Definition transport_connected : Run World bool := gets (fun '(c, tr) => connected tr).
Definition transport_connect : Run World bool :=
  fun '(c, tr) => '(b, tr) ← connect tr; Done (b, (c, tr)).
Definition transport_close : Run World unit := modify (fun '(c, tr) => (c, close tr)).
Definition transport_exchange (request : list byte) (deadline : Z) : Run World TransportReply.t :=
  fun '(c, tr) => '(reply, tr) ← exchange tr request deadline; Done (reply, (c, tr)).

Definition allocate_request_id : Run World Z :=
  fun '(c, tr) =>
    let allocated := next_request_id_ c in
    let next := u32 (next_request_id_ c + 1) in
    let next := if next =? 0 then 1 else next in
    Done (allocated, (mk (options_ c) (metrics_ c) next, tr)).

Definition ensure_connected : Run World bool :=
  is_connected ← transport_connected;
  if is_connected : bool then mret true
  else
    _ ← count ClientMetrics.count_reconnect;
    transport_connect.

Definition validate_response (request : Frame.t) (response : list byte)
    (expected_opcode : Opcode.t) (expected_length attempts : Z)
    : Run World OperationResult.t :=
  decoded ← lift (decode response);
  match DecodeResult.to_bool decoded, DecodeResult.frame decoded with
  | true, Some frame =>
      if bool_decide (Frame.request_id frame <> Frame.request_id request) ||
         bool_decide (Frame.address frame <> Frame.address request) then
        _ ← count ClientMetrics.count_protocol_error;
        mret {|
          OperationResult.error := ClientError.correlation_mismatch;
          OperationResult.remote_status := Frame.status frame;
          OperationResult.request_id := Frame.request_id request;
          OperationResult.attempts := attempts;
          OperationResult.data := [];
          OperationResult.detail := "response request ID or address did not match" |}
      else if bool_decide (Frame.opcode frame = Opcode.error_response) then
        mret {|
          OperationResult.error := ClientError.remote_error;
          OperationResult.remote_status := Frame.status frame;
          OperationResult.request_id := Frame.request_id request;
          OperationResult.attempts := attempts;
          OperationResult.data := Frame.payload frame;
          OperationResult.detail := "remote request rejected" |}
      else if bool_decide (Frame.opcode frame <> expected_opcode) ||
              negb (zlen (Frame.payload frame) =? expected_length) then
        _ ← count ClientMetrics.count_protocol_error;
        mret {|
          OperationResult.error := ClientError.unexpected_response;
          OperationResult.remote_status := Frame.status frame;
          OperationResult.request_id := Frame.request_id request;
          OperationResult.attempts := attempts;
          OperationResult.data := [];
          OperationResult.detail := "response opcode or payload length did not match" |}
      else
        mret {|
          OperationResult.error := ClientError.none;
          OperationResult.remote_status := Frame.status frame;
          OperationResult.request_id := Frame.request_id request;
          OperationResult.attempts := attempts;
          OperationResult.data := Frame.payload frame;
          OperationResult.detail := "ok" |}
  | _, _ =>
      _ ← count ClientMetrics.count_protocol_error;
      mret {|
        OperationResult.error := ClientError.malformed_response;
        OperationResult.remote_status := Status.ok;
        OperationResult.request_id := Frame.request_id request;
        OperationResult.attempts := attempts;
        OperationResult.data := [];
        OperationResult.detail := codec_error_name (DecodeResult.error decoded) |}
  end.

(** A failure that no response describes. *)
Definition failure (error : ClientError.t) (request : Frame.t) (attempts : Z) (detail : string)
    : OperationResult.t := {|
  OperationResult.error := error;
  OperationResult.remote_status := Status.ok;
  OperationResult.request_id := Frame.request_id request;
  OperationResult.attempts := attempts;
  OperationResult.data := [];
  OperationResult.detail := detail |}.

Definition count_timeout_of (error : TransportError.t) : Run World unit :=
  if bool_decide (error = TransportError.timeout) then count ClientMetrics.count_timeout
  else mret ().

Definition error_of (error : TransportError.t) : ClientError.t :=
  if bool_decide (error = TransportError.timeout) then ClientError.timeout
  else ClientError.disconnected.

(** The loop of [execute_read], at the value [attempt] of its variable. *)
Fixpoint read_attempts (fuel : nat) (request : Frame.t) (bytes : list byte)
    (expected_length deadline attempt : Z) : Run World OperationResult.t :=
  match fuel with
  | O => fun _ => Halt out_of_fuel
  | S fuel =>
      maximum ← gets (fun '(c, _) => ClientOptions.maximum_read_attempts (options_ c));
      if attempt <=? maximum then
        is_connected ← ensure_connected;
        if negb is_connected then
          mret (failure ClientError.connect_failed request attempt "transport connect failed")
        else
          _ ← count ClientMetrics.count_transport_attempt;
          reply ← transport_exchange bytes deadline;
          if TransportReply.to_bool reply then
            validate_response request (TransportReply.bytes reply) Opcode.data_response
              expected_length attempt
          else
            _ ← count_timeout_of (TransportReply.error reply);
            let can_retry :=
              (attempt <? maximum) &&
              (bool_decide (TransportReply.error reply = TransportError.timeout) ||
               bool_decide (TransportReply.error reply = TransportError.disconnected) ||
               bool_decide (TransportReply.error reply = TransportError.not_connected)) in
            _ ← transport_close;
            if can_retry then
              _ ← count ClientMetrics.count_retry;
              read_attempts fuel request bytes expected_length deadline (usize (attempt + 1))
            else
              mret (failure (error_of (TransportReply.error reply)) request attempt
                      (transport_error_name (TransportReply.error reply)))
      else
        mret (failure ClientError.disconnected request maximum "read attempts exhausted")
  end.

Definition execute_read (request : Frame.t) (expected_length deadline : Z)
    : Run World OperationResult.t :=
  let encoded := encode request in
  if negb (EncodeResult.to_bool encoded) then
    mret (failure ClientError.encoding_failed request 0
            (codec_error_name (EncodeResult.error encoded)))
  else
    maximum ← gets (fun '(c, _) => ClientOptions.maximum_read_attempts (options_ c));
    read_attempts (S (Z.to_nat maximum)) request (EncodeResult.bytes encoded)
      expected_length deadline 1.

Definition execute_write (request : Frame.t) (deadline : Z) : Run World OperationResult.t :=
  let encoded := encode request in
  if negb (EncodeResult.to_bool encoded) then
    mret (failure ClientError.encoding_failed request 0
            (codec_error_name (EncodeResult.error encoded)))
  else
    is_connected ← ensure_connected;
    if negb is_connected then
      mret (failure ClientError.connect_failed request 1 "transport connect failed")
    else
      _ ← count ClientMetrics.count_transport_attempt;
      reply ← transport_exchange (EncodeResult.bytes encoded) deadline;
      if negb (TransportReply.to_bool reply) then
        _ ← count_timeout_of (TransportReply.error reply);
        _ ← transport_close;
        mret (failure (error_of (TransportReply.error reply)) request 1
                (String.append "write not retried: "
                   (transport_error_name (TransportReply.error reply))))
      else
        validate_response request (TransportReply.bytes reply) Opcode.write_acknowledgement 0 1.

(** The result of an operation whose arguments are refused. *)
Definition invalid_argument (request_id : Z) (detail : string) : OperationResult.t := {|
  OperationResult.error := ClientError.invalid_argument;
  OperationResult.remote_status := Status.ok;
  OperationResult.request_id := request_id;
  OperationResult.attempts := 0;
  OperationResult.data := [];
  OperationResult.detail := detail |}.

Definition read (address length deadline : Z) : Run World OperationResult.t :=
  _ ← count ClientMetrics.count_operation;
  request_id ← allocate_request_id;
  if (length =? 0) || (maximum_payload_size <? length) || (deadline <=? 0) then
    mret (invalid_argument request_id "read length and deadline must be positive and bounded")
  else
    let wire_length := u16 length in
    let request := {|
      Frame.version := protocol_version;
      Frame.opcode := Opcode.read_request;
      Frame.flags := 0;
      Frame.request_id := request_id;
      Frame.address := address;
      Frame.status := Status.ok;
      Frame.payload := [to_byte (Z.land (Z.shiftr wire_length 8) 0xFF);
                        to_byte (Z.land wire_length 0xFF)] |} in
    execute_read request length deadline.

Definition write (address : Z) (data : list byte) (deadline : Z) : Run World OperationResult.t :=
  _ ← count ClientMetrics.count_operation;
  request_id ← allocate_request_id;
  if bool_decide (data = []) || (maximum_payload_size <? zlen data) || (deadline <=? 0) then
    mret (invalid_argument request_id "write payload and deadline must be positive and bounded")
  else
    let request := {|
      Frame.version := protocol_version;
      Frame.opcode := Opcode.write_request;
      Frame.flags := 0;
      Frame.request_id := request_id;
      Frame.address := address;
      Frame.status := Status.ok;
      Frame.payload := data |} in
    execute_write request deadline.
End Operations.
Arguments World T : clear implicits.

(** The members are in range, and the next ID is not zero. *)
Definition wf (c : t) : Prop :=
  1 <= ClientOptions.maximum_read_attempts (options_ c) < 2 ^ 64 /\
  1 <= next_request_id_ c < 2 ^ 32 /\ ClientMetrics.wf (metrics_ c).
End Client.

(** ** Specification *)

(** How one attempt at an exchange ends. *)
Inductive Outcome : Set :=
| cannot_connect
| failed (error : TransportError.t)
| replied (response : list byte).

(** An attempt, with whether it had to connect first. *)
Record Attempt : Set := { reconnected : bool; outcome : Outcome }.

Definition is_failed (o : Outcome) : bool := match o with failed _ => true | _ => false end.

(** The exchanges of an operation: up to [n] attempts with the same bytes, until one
    of them does not fail, closing the connection after each failure. *)
Section Tries.
Context {T : Type} `{ITransport T} (bytes : list byte) (deadline : Z).

Definition try_exchange (tr : T) : Exec (Attempt * T) :=
  '(ok, tr1) ← (if connected tr then Done (true, tr) else connect tr);
  let result := Build_Attempt (negb (connected tr)) in
  if negb ok then Done (result cannot_connect, tr1)
  else
    '(reply, tr2) ← exchange tr1 bytes deadline;
    if TransportReply.to_bool reply then Done (result (replied (TransportReply.bytes reply)), tr2)
    else Done (result (failed (TransportReply.error reply)), close tr2).

Fixpoint tries (n : nat) (tr : T) : Exec (list Attempt * T) :=
  match n with
  | O => Done ([], tr)
  | S n =>
      '(a, tr) ← try_exchange tr;
      if is_failed (outcome a) then '(l, tr) ← tries n tr; Done (a :: l, tr)
      else Done ([a], tr)
  end.
End Tries.

(** What a response means for a request. *)
Definition judge (request : Frame.t) (expected_opcode : Opcode.t)
    (expected_length attempts : Z) (response : list byte) : OperationResult.t :=
  let result error status data detail :=
    OperationResult.mk error status (Frame.request_id request) attempts data detail in
  let decoded := decode_by_validation response in
  match DecodeResult.frame decoded with
  | None =>
      result ClientError.malformed_response Status.ok []
        (codec_error_name (DecodeResult.error decoded))
  | Some g =>
      if negb (bool_decide (Frame.request_id g = Frame.request_id request /\
                            Frame.address g = Frame.address request)) then
        result ClientError.correlation_mismatch (Frame.status g) []
          "response request ID or address did not match"
      else if bool_decide (Frame.opcode g = Opcode.error_response) then
        result ClientError.remote_error (Frame.status g) (Frame.payload g)
          "remote request rejected"
      else if bool_decide (Frame.opcode g = expected_opcode /\
                           zlen (Frame.payload g) = expected_length) then
        result ClientError.none (Frame.status g) (Frame.payload g) "ok"
      else
        result ClientError.unexpected_response (Frame.status g) []
          "response opcode or payload length did not match"
  end.

Definition is_protocol_error (e : ClientError.t) : bool :=
  bool_decide (e ∈ [ClientError.malformed_response; ClientError.correlation_mismatch;
                    ClientError.unexpected_response]).

(** The result of an operation whose last attempt, the [attempts]-th, ended with [o]. *)
Definition conclude (request : Frame.t) (expected_opcode : Opcode.t) (expected_length : Z)
    (prefix : string) (attempts : Z) (o : Outcome) : OperationResult.t :=
  match o with
  | cannot_connect =>
      Client.failure ClientError.connect_failed request attempts "transport connect failed"
  | failed e =>
      Client.failure (Client.error_of e) request attempts
        (String.append prefix (transport_error_name e))
  | replied response => judge request expected_opcode expected_length attempts response
  end.

(** What an operation counts: each attempt, a retry between two of them, and a
    protocol error of its result. *)
Definition count_attempt (m : ClientMetrics.t) (a : Attempt) : ClientMetrics.t :=
  let m := if reconnected a then ClientMetrics.count_reconnect m else m in
  match outcome a with
  | cannot_connect => m
  | failed e =>
      let m := ClientMetrics.count_transport_attempt m in
      if bool_decide (e = TransportError.timeout) then ClientMetrics.count_timeout m else m
  | replied _ => ClientMetrics.count_transport_attempt m
  end.

Fixpoint count_attempts (m : ClientMetrics.t) (l : list Attempt) : ClientMetrics.t :=
  match l with
  | [] => m
  | [a] => count_attempt m a
  | a :: l => count_attempts (ClientMetrics.count_retry (count_attempt m a)) l
  end.

Definition count_result (m : ClientMetrics.t) (r : OperationResult.t) : ClientMetrics.t :=
  if is_protocol_error (OperationResult.error r) then ClientMetrics.count_protocol_error m else m.

Definition with_metrics (c : Client.t) (m : ClientMetrics.t) : Client.t :=
  Client.mk (Client.options_ c) m (Client.next_request_id_ c).

(** The client after the attempts [l] of an operation with result [r]. *)
Definition client_after (c : Client.t) (l : list Attempt) (r : OperationResult.t) : Client.t :=
  with_metrics c (count_result (count_attempts (Client.metrics_ c) l) r).

(** ** The operations against the specification *)

Section Operations.
Context {T : Type} `{ITransport T}.
Implicit Types (c : Client.t) (tr : T).

Lemma validate_response_spec request expected_opcode expected_length attempts response c tr :
  Client.validate_response request response expected_opcode expected_length attempts (c, tr) =
  let r := judge request expected_opcode expected_length attempts response in
  Done (r, (with_metrics c (count_result (Client.metrics_ c) r), tr)).
Proof.
  unfold Client.validate_response, judge, lift, mbind, run_bind, exec_bind, Client.count, modify.
  rewrite decode_validation.
  destruct (DecodeResult.frame (decode_by_validation response)) as [g|] eqn:E.
  2: { by destruct (DecodeResult.to_bool _). }
  destruct (decode_accepts _ _ E) as (_ & _ & _ & ->).
  unfold DecodeResult.to_bool. cbn [DecodeResult.error DecodeResult.frame].
  rewrite !bool_decide_eq_true_2 by eauto. cbn [andb].
  destruct c as [o m n].
  destruct (decide (Frame.request_id g = Frame.request_id request /\
                    Frame.address g = Frame.address request)) as [Hc|Hc].
  - rewrite (bool_decide_eq_true_2 _ Hc), !bool_decide_eq_false_2 by tauto. cbn [orb negb].
    case_bool_decide; [done|].
    destruct (Z.eqb_spec (zlen (Frame.payload g)) expected_length); cbn [negb].
    + rewrite orb_false_r. case_bool_decide as Ho.
      * rewrite bool_decide_eq_false_2 by tauto. done.
      * by rewrite bool_decide_eq_true_2.
    + rewrite orb_true_r, bool_decide_eq_false_2 by tauto. done.
  - rewrite (bool_decide_eq_false_2 _ Hc). cbn [negb].
    replace (bool_decide _ || bool_decide _) with true; [done|]. symmetry.
    apply orb_true_iff. rewrite !bool_decide_eq_true.
    destruct (decide (Frame.request_id g = Frame.request_id request)); tauto.
Qed.

Lemma run_count {A} f (k : unit -> Run (Client.World T) A) c tr :
  (Client.count f ≫= k) (c, tr) = k () (with_metrics c (f (Client.metrics_ c)), tr).
Proof. done. Qed.

Lemma ensure_connected_spec c tr :
  Client.ensure_connected (c, tr) =
  ('(ok, tr1) ← (if connected tr then Done (true, tr) else connect tr);
   Done (ok, (with_metrics c (if negb (connected tr)
                              then ClientMetrics.count_reconnect (Client.metrics_ c)
                              else Client.metrics_ c), tr1))).
Proof.
  unfold Client.ensure_connected, Client.transport_connected, Client.transport_connect, gets,
    Client.count, modify, mbind, run_bind, exec_bind.
  destruct c as [o m n], (connected tr); [done|]. cbn [negb]. by destruct (connect tr) as [[]|].
Qed.

Definition maximum c : Z := ClientOptions.maximum_read_attempts (Client.options_ c).

Lemma can_retry_all e attempt m :
  e <> TransportError.none ->
  (attempt <? m) &&
    (bool_decide (e = TransportError.timeout) || bool_decide (e = TransportError.disconnected) ||
     bool_decide (e = TransportError.not_connected)) = (attempt <? m).
Proof. intros He. destruct e; try done; decide_constants; by rewrite andb_true_r. Qed.

(** One iteration of the loop, by the outcome of its attempt. *)
Lemma read_attempts_step fuel request bytes len deadline attempt c tr a tr' :
  attempt <= maximum c -> try_exchange bytes deadline tr = Done (a, tr') ->
  Client.read_attempts (S fuel) request bytes len deadline attempt (c, tr) =
  let c1 := with_metrics c (count_attempt (Client.metrics_ c) a) in
  if is_failed (outcome a) && (attempt <? maximum c) then
    Client.read_attempts fuel request bytes len deadline (usize (attempt + 1))
      (with_metrics c1 (ClientMetrics.count_retry (Client.metrics_ c1)), tr')
  else
    let r := conclude request Opcode.data_response len "" attempt (outcome a) in
    Done (r, (with_metrics c1 (count_result (Client.metrics_ c1) r), tr')).
Proof.
  unfold maximum, try_exchange. intros Hle Ht. cbn [Client.read_attempts].
  rewrite run_gets, (proj2 (Z.leb_le _ _)), run_bind_eq, ensure_connected_spec by done.
  destruct c as [o m n].
  destruct (if connected tr then _ else _) as [[[] tr1]|]; cbn [mbind exec_bind negb] in Ht |- *;
    [|by apply Done_inj in Ht as [= <- <-]|done].
  rewrite run_count, run_bind_eq.
  unfold Client.transport_exchange.
  destruct (exchange tr1 bytes deadline) as [[reply tr2]|]; cbn [mbind exec_bind] in Ht |- *;
    [|done].
  unfold TransportReply.to_bool in *. case_bool_decide as He; apply Done_inj in Ht as [= <- <-].
  - rewrite validate_response_spec. done.
  - rewrite can_retry_all by done.
    cbn [is_failed outcome andb conclude]. unfold Client.count_timeout_of, Client.error_of.
    destruct (attempt <? _), (TransportReply.error reply); done.
Qed.

Lemma tries_S bytes deadline n tr :
  tries bytes deadline (S n) tr =
  ('(a, tr) ← try_exchange bytes deadline tr;
   if is_failed (outcome a) then '(l, tr) ← tries bytes deadline n tr; Done (a :: l, tr)
   else Done ([a], tr)).
Proof. done. Qed.

Lemma tries_nonempty bytes deadline n tr l tr' :
  tries bytes deadline (S n) tr = Done (l, tr') -> l <> [].
Proof.
  rewrite tries_S. destruct (try_exchange _ _ _) as [[a tr1]|]; cbn [mbind exec_bind]; [|done].
  destruct (is_failed _).
  - destruct (tries _ _ n tr1) as [[]|]; cbn [mbind exec_bind]; [|done]. by intros [= <- _].
  - by intros [= <- _].
Qed.

Lemma read_attempts_spec request bytes len deadline n fuel attempt c tr l tr' :
  (n < fuel)%nat -> 1 <= attempt -> attempt + Z.of_nat n = maximum c -> maximum c < 2 ^ 64 ->
  tries bytes deadline (S n) tr = Done (l, tr') ->
  exists a, last l = Some a /\
    Client.read_attempts fuel request bytes len deadline attempt (c, tr) =
    let r := conclude request Opcode.data_response len "" (attempt + zlen l - 1) (outcome a) in
    Done (r, (client_after c l r, tr')).
Proof.
  revert fuel attempt c tr l tr'.
  induction n as [|n IH]; intros [|fuel] attempt c tr l tr' Hf Ha Hn Hm Ht; try lia;
    rewrite tries_S in Ht;
    destruct (try_exchange bytes deadline tr) as [[a tr1]|] eqn:Ea; try done;
    cbn [mbind exec_bind] in Ht; rewrite (read_attempts_step _ _ _ _ _ _ _ _ a tr1) by (done || lia).
  - assert (l = [a] /\ tr' = tr1) as [-> ->]
      by (destruct (is_failed _); cbn in Ht; apply Done_inj in Ht as [= <- <-]; done).
    exists a. split; [done|]. rewrite (proj2 (Z.ltb_ge _ _)), andb_false_r by lia.
    by rewrite zlen_cons, zlen_nil, Z.add_simpl_r.
  - destruct (is_failed (outcome a)); cbn [andb].
    + rewrite (proj2 (Z.ltb_lt _ _)) by lia.
      destruct (tries bytes deadline (S n) tr1) as [[l1 tr2]|] eqn:Et; [|done].
      apply Done_inj in Ht as [= <- <-].
      assert (usize (attempt + 1) = attempt + 1) as -> by (unfold usize; apply Z.mod_small; lia).
      set (c1 := with_metrics _ _).
      destruct (IH fuel (attempt + 1) c1 tr1 l1 tr2) as (b & Hb & ->);
        [lia|lia|change (maximum c1) with (maximum c); lia|done|done|].
      pose proof (tries_nonempty _ _ _ _ _ _ Et) as Hne.
      exists b. split; [by destruct l1|]. cbn zeta. rewrite zlen_cons.
      replace (attempt + 1 + zlen l1 - 1) with (attempt + (1 + zlen l1) - 1) by lia.
      by destruct l1.
    + apply Done_inj in Ht as [= <- <-]. exists a. split; [done|].
      by rewrite zlen_cons, zlen_nil, Z.add_simpl_r.
Qed.

(** The wrap-around of the counter skips zero. *)
Definition following_id (id : Z) : Z := if id =? 2 ^ 32 - 1 then 1 else id + 1.

(** The client once an operation has been counted and has its request ID. *)
Definition started c : Client.t :=
  Client.mk (Client.options_ c) (ClientMetrics.count_operation (Client.metrics_ c))
    (following_id (Client.next_request_id_ c)).

Lemma start_operation {A} (k : Z -> Run (Client.World T) A) c tr :
  Client.wf c ->
  (_ ← Client.count ClientMetrics.count_operation; id ← Client.allocate_request_id; k id) (c, tr) =
  k (Client.next_request_id_ c) (started c, tr).
Proof.
  intros (_ & Hid & _). rewrite run_count, run_bind_eq. unfold Client.allocate_request_id, started.
  cbn [mbind exec_bind with_metrics Client.next_request_id_ Client.options_ Client.metrics_].
  replace (if u32 (Client.next_request_id_ c + 1) =? 0 then 1 else _)
    with (following_id (Client.next_request_id_ c)); [done|].
  unfold following_id, u32. destruct (Z.eqb_spec (Client.next_request_id_ c) (2 ^ 32 - 1)) as [->|].
  - done.
  - rewrite Z.mod_small by lia. by rewrite (proj2 (Z.eqb_neq _ _)) by lia.
Qed.

Definition read_request (id address length : Z) : Frame.t :=
  Frame.mk 1 Opcode.read_request 0 id address Status.ok (be_bytes 2 length).

Definition write_request (id address : Z) (data : list byte) : Frame.t :=
  Frame.mk 1 Opcode.write_request 0 id address Status.ok data.

Lemma read_request_protocol id address length : protocol_frame (read_request id address length).
Proof. by constructor. Qed.

Lemma read_payload length :
  0 <= length < 2 ^ 16 ->
  [to_byte (Z.land (Z.shiftr (u16 length) 8) 0xFF); to_byte (Z.land (u16 length) 0xFF)] =
  be_bytes 2 length.
Proof.
  intros Hl. unfold u16. rewrite Z.mod_small, to_byte_shift, to_byte_mask by lia.
  cbn [be_bytes]. by rewrite Z.div_1_r.
Qed.

Definition valid_deadline_and_size (size deadline : Z) : bool :=
  (0 <? size) && (size <=? 256) && (0 <? deadline).

Lemma refused_arguments size deadline :
  0 <= size ->
  (size =? 0) || (maximum_payload_size <? size) || (deadline <=? 0) =
  negb (valid_deadline_and_size size deadline).
Proof.
  intros. unfold valid_deadline_and_size, maximum_payload_size. compare_cases; done || lia.
Qed.

(** [read] is the attempts on the encoded request, judged. *)
Lemma read_spec address length deadline c tr l tr' :
  Client.wf c -> 0 <= length ->
  valid_deadline_and_size length deadline = true ->
  let request := read_request (Client.next_request_id_ c) address length in
  tries (wire request) deadline (Z.to_nat (maximum c)) tr = Done (l, tr') ->
  exists a, last l = Some a /\
    Client.read address length deadline (c, tr) =
    let r := conclude request Opcode.data_response length "" (zlen l) (outcome a) in
    Done (r, (client_after (started c) l r, tr')).
Proof.
  intros Hc Hl Hv request Ht. pose proof Hc as [Hm _]. unfold Client.read.
  rewrite start_operation, refused_arguments, Hv by done. cbn [negb].
  unfold valid_deadline_and_size in Hv. bool_props.
  rewrite read_payload by lia. unfold Client.execute_read.
  change (Frame.mk protocol_version _ _ _ _ _ _) with request.
  rewrite encode_wire by apply read_request_protocol. cbn [EncodeResult.bytes].
  unfold EncodeResult.to_bool. cbn [EncodeResult.error]. decide_constants.
  rewrite run_gets. change (ClientOptions.maximum_read_attempts _) with (maximum c).
  fold (maximum c) in Hm. destruct (Z.to_nat (maximum c)) as [|n] eqn:En; [lia|].
  destruct (read_attempts_spec request (wire request) length deadline n (S (S n)) 1 (started c) tr l tr')
    as (a & Ha & ->); [lia|lia|change (maximum (started c)) with (maximum c); lia|
                       apply Hm|done|].
  exists a. split; [done|]. by replace (1 + zlen l - 1) with (zlen l) by lia.
Qed.

(** [write] makes one attempt. *)
Lemma write_spec address data deadline c tr a tr' :
  Client.wf c ->
  valid_deadline_and_size (zlen data) deadline = true ->
  let request := write_request (Client.next_request_id_ c) address data in
  try_exchange (wire request) deadline tr = Done (a, tr') ->
  Client.write address data deadline (c, tr) =
  let r := conclude request Opcode.write_acknowledgement 0 "write not retried: " 1 (outcome a) in
  Done (r, (client_after (started c) [a] r, tr')).
Proof.
  intros Hc Hv request Ht. unfold Client.write.
  rewrite start_operation by done.
  replace (bool_decide (data = [])) with (zlen data =? 0) by by destruct data.
  rewrite refused_arguments, Hv by apply zlen_nonneg. cbn [negb].
  unfold valid_deadline_and_size in Hv. bool_props. unfold Client.execute_write.
  change (Frame.mk protocol_version _ _ _ _ _ _) with request.
  rewrite encode_wire by (constructor; lia). cbn [EncodeResult.bytes].
  unfold EncodeResult.to_bool. cbn [EncodeResult.error]. decide_constants.
  rewrite run_bind_eq, ensure_connected_spec. unfold try_exchange in Ht.
  destruct (if connected tr then _ else _) as [[[] tr1]|]; cbn [mbind exec_bind negb] in Ht |- *;
    [|by apply Done_inj in Ht as [= <- <-]|done].
  rewrite run_count, run_bind_eq. unfold Client.transport_exchange.
  destruct (exchange tr1 (wire request) deadline) as [[reply tr2]|];
    cbn [mbind exec_bind] in Ht |- *; [|done].
  unfold TransportReply.to_bool in *. case_bool_decide; apply Done_inj in Ht as [= <- <-].
  - cbn [negb]. rewrite validate_response_spec. done.
  - cbn [negb]. unfold Client.count_timeout_of. destruct (TransportReply.error reply); done.
Qed.

(** Refused arguments: the transport is not touched. *)
Lemma read_refused address length deadline c tr :
  Client.wf c -> 0 <= length -> valid_deadline_and_size length deadline = false ->
  Client.read address length deadline (c, tr) =
  Done (Client.invalid_argument (Client.next_request_id_ c)
          "read length and deadline must be positive and bounded", (started c, tr)).
Proof.
  intros Hc Hl Hv. unfold Client.read. by rewrite start_operation, refused_arguments, Hv.
Qed.

Lemma write_refused address data deadline c tr :
  Client.wf c -> valid_deadline_and_size (zlen data) deadline = false ->
  Client.write address data deadline (c, tr) =
  Done (Client.invalid_argument (Client.next_request_id_ c)
          "write payload and deadline must be positive and bounded", (started c, tr)).
Proof.
  intros Hc Hv. unfold Client.write. rewrite start_operation by done.
  replace (bool_decide (data = [])) with (zlen data =? 0) by by destruct data.
  by rewrite refused_arguments, Hv by apply zlen_nonneg.
Qed.
End Operations.

(** ** What the transport sees

    The calls an operation makes, in order, with their results. *)
Inductive Event : Set :=
| connect_event (ok : bool)
| close_event
| exchange_event (request : list byte) (deadline : Z) (result : Outcome).

Definition reply_outcome (r : TransportReply.t) : Outcome :=
  if TransportReply.to_bool r then replied (TransportReply.bytes r)
  else failed (TransportReply.error r).

Inductive runs {T} `{ITransport T} : T -> list Event -> T -> Prop :=
| runs_done tr : runs tr [] tr
| runs_connect tr ok tr1 l tr2 :
    connect tr = Done (ok, tr1) -> runs tr1 l tr2 -> runs tr (connect_event ok :: l) tr2
| runs_close tr l tr2 :
    runs (close tr) l tr2 -> runs tr (close_event :: l) tr2
| runs_exchange tr request deadline r tr1 l tr2 :
    exchange tr request deadline = Done (r, tr1) -> runs tr1 l tr2 ->
    runs tr (exchange_event request deadline (reply_outcome r) :: l) tr2.

(** The calls of one attempt: [connect] when needed, the exchange, and [close] after
    a failure. *)
Definition attempt_events (bytes : list byte) (deadline : Z) (a : Attempt) : list Event :=
  match outcome a with
  | cannot_connect => if reconnected a then [connect_event false] else []
  | o =>
      (if reconnected a then [connect_event true] else []) ++
      exchange_event bytes deadline o :: (if is_failed o then [close_event] else [])
  end.

Definition events_of (bytes : list byte) (deadline : Z) (l : list Attempt) : list Event :=
  concat (attempt_events bytes deadline <$> l).

(** Attempts in the order the operations make them: all but the last one failed, and
    the last one failed only when there were [n]. *)
Definition attempts_of (n : nat) (l : list Attempt) (a : Attempt) : Prop :=
  Forall (fun b => is_failed (outcome b) = true) l /\ (length l < n)%nat /\
  (is_failed (outcome a) = true -> S (length l) = n).

Section Transcript.
Context {T : Type} `{TransportLaws T valid} (bytes : list byte) (deadline : Z).

Lemma runs_app (tr1 tr2 tr3 : T) l k : runs tr1 l tr2 -> runs tr2 k tr3 -> runs tr1 (l ++ k) tr3.
Proof. induction 1; intros; [done|by econstructor; eauto..]. Qed.

Lemma try_exchange_runs (tr : T) a tr' :
  try_exchange bytes deadline tr = Done (a, tr') ->
  runs tr (attempt_events bytes deadline a) tr'.
Proof.
  unfold try_exchange, attempt_events. destruct (connected tr).
  - cbn. destruct (exchange tr bytes deadline) as [[r tr2]|] eqn:E; cbn; [|done].
    pose proof (runs_exchange tr bytes deadline r tr2) as Hr. unfold reply_outcome in Hr.
    destruct (TransportReply.to_bool r); intros [= <- <-]%Done_inj; cbn;
      eapply Hr; eauto using runs_close, runs_done.
  - destruct (connect tr) as [[[] tr1]|] eqn:Ec; cbn; [| |done].
    + destruct (exchange tr1 bytes deadline) as [[r tr2]|] eqn:E; cbn; [|done].
      pose proof (runs_exchange tr1 bytes deadline r tr2) as Hr. unfold reply_outcome in Hr.
      destruct (TransportReply.to_bool r); intros [= <- <-]%Done_inj; cbn;
        eapply runs_connect; try done; eapply Hr; eauto using runs_close, runs_done.
    + intros [= <- <-]%Done_inj. cbn. eauto using runs_connect, runs_done.
Qed.

Lemma tries_runs n (tr : T) l tr' :
  tries bytes deadline n tr = Done (l, tr') -> runs tr (events_of bytes deadline l) tr'.
Proof.
  revert tr l; induction n as [|n IH]; intros tr l; [intros [= <- <-]%Done_inj; constructor|].
  rewrite tries_S. destruct (try_exchange _ _ tr) as [[a tr1]|] eqn:Ea; [|done].
  apply try_exchange_runs in Ea. cbn [mbind exec_bind]. destruct (is_failed _).
  - destruct (tries _ _ n tr1) as [[l1 tr2]|] eqn:Et; [|done].
    intros [= <- <-]%Done_inj. apply IH in Et. by apply (runs_app _ tr1).
  - intros [= <- <-]%Done_inj. unfold events_of. cbn. by rewrite app_nil_r.
Qed.

Lemma try_once (tr : T) a tr' :
  try_exchange bytes deadline tr = Done (a, tr') -> tries bytes deadline 1 tr = Done ([a], tr').
Proof. rewrite tries_S. intros ->. cbn. by destruct (is_failed _). Qed.

Lemma try_exchange_returns (tr : T) :
  valid tr -> exists a tr', try_exchange bytes deadline tr = Done (a, tr') /\ valid tr'.
Proof.
  intros Hv. unfold try_exchange.
  assert (exists ok tr1, (if connected tr then Done (true, tr) else connect tr) = Done (ok, tr1) /\
                         valid tr1) as (ok & tr1 & -> & Hv1).
  { destruct (connected tr); [by exists true, tr|by apply connect_returns]. }
  cbn [mbind exec_bind]. destruct ok; cbn [negb]; [|by eexists _, _].
  destruct (exchange_returns tr1 bytes deadline Hv1) as (r & tr2 & -> & Hv2).
  cbn [mbind exec_bind]. destruct (TransportReply.to_bool r); eexists _, _; (split; [done|]); [done|].
  by apply close_valid.
Qed.

Lemma tries_returns n (tr : T) :
  valid tr -> (1 <= n)%nat ->
  exists l a tr', tries bytes deadline n tr = Done (l ++ [a], tr') /\ attempts_of n l a /\ valid tr'.
Proof.
  revert tr; induction n as [|n IH]; intros tr Hv Hn; [lia|]. rewrite tries_S.
  destruct (try_exchange_returns tr Hv) as (a & tr1 & -> & Hv1). cbn [mbind exec_bind].
  destruct (is_failed (outcome a)) eqn:Ef.
  - destruct n as [|n].
    + exists [], a, tr1. split; [done|]. split; [|done]. split; [constructor|]. split; cbn; lia.
    + destruct (IH tr1 Hv1) as (l & b & tr2 & -> & (Hl & Hlen & Hb) & Hv2); [lia|].
      exists (a :: l), b, tr2. split; [done|]. split; [|done].
      split; [by constructor|]. cbn [length]. split; [lia|]. intros Hf. by rewrite Hb.
  - exists [], a, tr1. split; [done|]. split; [|done].
    split; [constructor|]. split; [cbn; lia|]. intros; congruence.
Qed.

Lemma last_snoc_eq {A} (l : list A) a b : last (l ++ [a]) = Some b -> a = b.
Proof. rewrite last_snoc. by intros [= ->]. Qed.
End Transcript.

(** ** Metrics *)

Definition is_connect (e : Event) : bool := match e with connect_event _ => true | _ => false end.
Definition is_exchange (e : Event) : bool :=
  match e with exchange_event _ _ _ => true | _ => false end.
Definition is_timeout (e : Event) : bool :=
  match e with exchange_event _ _ (failed TransportError.timeout) => true | _ => false end.

(** The counters after the calls [events], [retries] retries and the result [e]. *)
Definition counted (m : ClientMetrics.t) (events : list Event) (retries : Z) (e : ClientError.t)
    : ClientMetrics.t :=
  ClientMetrics.mk (ClientMetrics.operations m)
    (u64 (ClientMetrics.transport_attempts m + tally is_exchange events))
    (u64 (ClientMetrics.reconnects m + tally is_connect events))
    (u64 (ClientMetrics.retries m + retries))
    (u64 (ClientMetrics.timeouts m + tally is_timeout events))
    (u64 (ClientMetrics.protocol_errors m + Z.b2z (is_protocol_error e))).

Lemma u64_add x i j : u64 (u64 (x + i) + j) = u64 (x + (i + j)).
Proof. unfold u64. by rewrite Zplus_mod_idemp_l, Z.add_assoc. Qed.

Lemma u64_same x : 0 <= x < 2 ^ 64 -> u64 (x + 0) = x.
Proof. intros. unfold u64. by rewrite Z.add_0_r, Z.mod_small. Qed.

Lemma u64_wf x : 0 <= u64 x < 2 ^ 64.
Proof. by apply Z.mod_pos_bound. Qed.

Lemma counted_wf m events retries e : ClientMetrics.wf m -> ClientMetrics.wf (counted m events retries e).
Proof. intros (Ho & _). by repeat split; cbn; try apply u64_wf; try apply Ho. Qed.

Lemma counted_app m l retries e k retries' e' :
  is_protocol_error e = false ->
  counted (counted m l retries e) k retries' e' = counted m (l ++ k) (retries + retries') e'.
Proof.
  intros He. unfold counted.
  cbn [ClientMetrics.operations ClientMetrics.transport_attempts ClientMetrics.reconnects
       ClientMetrics.retries ClientMetrics.timeouts ClientMetrics.protocol_errors].
  rewrite He, !tally_app, !u64_add. by rewrite Z.add_0_l.
Qed.

Lemma count_attempt_counted bytes deadline m a :
  ClientMetrics.wf m ->
  count_attempt m a = counted m (attempt_events bytes deadline a) 0 ClientError.none.
Proof.
  intros (Ho & Ht & Hr & Hre & Hti & Hp). destruct m, a as [[] [|[]|]];
    cbn in *; unfold counted, tally; cbn; rewrite ?u64_same by done; done.
Qed.

Lemma count_retry_counted m :
  ClientMetrics.wf m -> ClientMetrics.count_retry m = counted m [] 1 ClientError.none.
Proof.
  intros (Ho & Ht & Hr & Hre & Hti & Hp). destruct m; cbn in *; unfold counted, tally; cbn.
  by rewrite ?u64_same by done.
Qed.

Lemma count_attempts_counted bytes deadline m l :
  ClientMetrics.wf m -> l <> [] ->
  count_attempts m l = counted m (events_of bytes deadline l) (zlen l - 1) ClientError.none.
Proof.
  revert m; induction l as [|a l IH]; intros m Hm Hl; [done|].
  unfold events_of. cbn [fmap list_fmap concat]. fold (events_of bytes deadline l).
  rewrite zlen_cons. cbn [count_attempts].
  rewrite (count_attempt_counted bytes deadline) by done.
  destruct l as [|b l].
  - unfold events_of. cbn [fmap list_fmap concat]. by rewrite app_nil_r.
  - rewrite count_retry_counted by by apply counted_wf. rewrite counted_app, app_nil_r by done.
    rewrite IH by (done || by apply counted_wf). rewrite counted_app by done. f_equal. lia.
Qed.

Lemma count_result_counted bytes deadline m l r :
  ClientMetrics.wf m -> l <> [] ->
  count_result (count_attempts m l) r =
  counted m (events_of bytes deadline l) (zlen l - 1) (OperationResult.error r).
Proof.
  intros Hm Hl. rewrite (count_attempts_counted bytes deadline) by done.
  unfold count_result. destruct (is_protocol_error (OperationResult.error r)) eqn:E;
    unfold counted, ClientMetrics.count_protocol_error; cbn; rewrite E; [|done].
  cbn [Z.b2z]. rewrite u64_same by by apply Hm. done.
Qed.

Lemma client_after_wf c l r : Client.wf c -> l <> [] -> Client.wf (client_after c l r).
Proof.
  intros (Ho & Hid & Hm) Hl. split; [done|]. split; [done|]. cbn.
  rewrite (count_result_counted [] 0) by done. by apply counted_wf.
Qed.

Lemma started_wf c : Client.wf c -> Client.wf (started c).
Proof.
  intros (Ho & Hid & _ & Hm). split; [done|]. split; [|by split; [apply u64_wf|]].
  cbn. unfold following_id. destruct (Z.eqb_spec (Client.next_request_id_ c) (2 ^ 32 - 1)); lia.
Qed.

Lemma construct_wf options : ClientOptions.wf options -> Client.wf (Client.construct options).
Proof.
  unfold ClientOptions.wf. intros Ho. split; [|by repeat split].
  cbn. lia.
Qed.

(** The counters after an operation that made the calls [events] and ended with [r]. *)
Definition metrics_of_run (m : ClientMetrics.t) (events : list Event) (r : OperationResult.t)
    : ClientMetrics.t := {|
  ClientMetrics.operations := u64 (ClientMetrics.operations m + 1);
  ClientMetrics.transport_attempts :=
    u64 (ClientMetrics.transport_attempts m + tally is_exchange events);
  ClientMetrics.reconnects := u64 (ClientMetrics.reconnects m + tally is_connect events);
  ClientMetrics.retries :=
    u64 (ClientMetrics.retries m + Z.max 0 (OperationResult.attempts r - 1));
  ClientMetrics.timeouts := u64 (ClientMetrics.timeouts m + tally is_timeout events);
  ClientMetrics.protocol_errors :=
    u64 (ClientMetrics.protocol_errors m +
         Z.b2z (is_protocol_error (OperationResult.error r))) |}.

Lemma metrics_of_refused c id detail :
  Client.wf c ->
  Client.metrics (started c) =
  metrics_of_run (Client.metrics c) [] (Client.invalid_argument id detail).
Proof.
  intros (_ & _ & Hm). unfold Client.metrics, started, metrics_of_run, tally. cbn.
  destruct (Client.metrics_ c), Hm as (_ & ? & ? & ? & ? & ?). cbn in *.
  unfold ClientMetrics.count_operation, is_protocol_error. decide_constants. cbn.
  by rewrite !u64_same.
Qed.

Lemma metrics_of_complete bytes deadline c l r :
  Client.wf c -> l <> [] -> OperationResult.attempts r = zlen l ->
  Client.metrics (client_after (started c) l r) =
  metrics_of_run (Client.metrics c) (events_of bytes deadline l) r.
Proof.
  intros Hc Hl Hr. apply started_wf in Hc as (_ & _ & Hm).
  unfold Client.metrics. cbn [client_after with_metrics Client.metrics_].
  rewrite (count_result_counted bytes deadline) by done. unfold counted, metrics_of_run.
  rewrite Hr, Z.max_r; [done|]. destruct l; [done|]. rewrite zlen_cons.
  pose proof (zlen_nonneg l). lia.
Qed.

(** *** What the results say *)

Section Judge.
Context (request : Frame.t) (expected_opcode : Opcode.t) (expected_length attempts : Z).
Let result := judge request expected_opcode expected_length attempts.

Definition correlated (g : Frame.t) : Prop :=
  Frame.request_id g = Frame.request_id request /\ Frame.address g = Frame.address request.

Definition expected (g : Frame.t) : Prop :=
  Frame.opcode g = expected_opcode /\ zlen (Frame.payload g) = expected_length.

(** The result for a response that does not decode, and for one that does. *)
Lemma judge_malformed response e n :
  decode response = Done (DecodeResult.mk None e n) ->
  result response = OperationResult.mk ClientError.malformed_response Status.ok
    (Frame.request_id request) attempts [] (codec_error_name e).
Proof.
  rewrite decode_validation. intros E%Done_inj. unfold result, judge. by rewrite E.
Qed.

Lemma judge_wire g :
  protocol_frame g -> Frame.wf g ->
  let error :=
    if negb (bool_decide (correlated g)) then ClientError.correlation_mismatch
    else if bool_decide (Frame.opcode g = Opcode.error_response) then ClientError.remote_error
    else if bool_decide (expected g) then ClientError.none
    else ClientError.unexpected_response in
  OperationResult.error (result (wire g)) = error /\
  OperationResult.remote_status (result (wire g)) = Frame.status g /\
  OperationResult.data (result (wire g)) =
    (if bool_decide (error ∈ [ClientError.none; ClientError.remote_error])
     then Frame.payload g else []).
Proof.
  intros Hp Hw. pose proof (decode_wire g Hp Hw) as E. rewrite decode_validation in E.
  apply Done_inj in E. unfold result, judge, correlated, expected. rewrite E.
  cbn [DecodeResult.frame].
  case_bool_decide; cbn [negb]; [|done]. case_bool_decide; [done|]. by case_bool_decide.
Qed.

Lemma judge_cases response :
  (exists e n, decode response = Done (DecodeResult.mk None e n)) \/
  (exists g, response = wire g /\ protocol_frame g /\ Frame.wf g).
Proof.
  destruct (decode_cases response) as [(e & n & _ & Hd)|(g & Hr & Hp & Hw & _)];
    [left; by exists e, n|right; by exists g].
Qed.

Lemma judge_id response :
  OperationResult.request_id (result response) = Frame.request_id request /\
  OperationResult.attempts (result response) = attempts.
Proof. unfold result, judge. by repeat case_match. Qed.

(** Success: the response is the encoding of a correlated frame of the expected
    kind, and the data is its payload. *)
Lemma judge_success response :
  OperationResult.error (result response) = ClientError.none ->
  exists g, response = wire g /\ protocol_frame g /\ Frame.wf g /\ correlated g /\ expected g /\
    OperationResult.data (result response) = Frame.payload g.
Proof.
  intros He. destruct (judge_cases response) as [(e & n & Hd)|(g & -> & Hp & Hw)].
  - by rewrite (judge_malformed _ _ _ Hd) in He.
  - exists g. destruct (judge_wire g Hp Hw) as (Hge & _ & Hgd). rewrite He in Hge.
    rewrite <-Hge in Hgd. revert Hge Hgd. cbn zeta.
    case_bool_decide; cbn [negb]; [|done]. case_bool_decide; [done|].
    case_bool_decide; [|done]. by intros _ ->.
Qed.
End Judge.

(** *** Complete runs of the operations *)

Section Complete.
Context {T : Type} `{TransportLaws T valid}.
Implicit Types (c : Client.t) (tr : T).

Lemma read_complete address length deadline c tr :
  Client.wf c -> valid tr -> 0 <= length ->
  valid_deadline_and_size length deadline = true ->
  let request := read_request (Client.next_request_id_ c) address length in
  exists l a tr',
    tries (wire request) deadline (Z.to_nat (maximum c)) tr = Done (l ++ [a], tr') /\
    attempts_of (Z.to_nat (maximum c)) l a /\ valid tr' /\
    Client.read address length deadline (c, tr) =
    let r := conclude request Opcode.data_response length "" (zlen l + 1) (outcome a) in
    Done (r, (client_after (started c) (l ++ [a]) r, tr')).
Proof.
  intros Hc Hv Hl Hargs request.
  destruct (tries_returns (wire request) deadline (Z.to_nat (maximum c)) tr Hv)
    as (l & a & tr' & Ht & Ha & Hv'); [destruct Hc as [Ho _]; unfold maximum; lia|].
  exists l, a, tr'. split; [done|]. split; [done|]. split; [done|].
  destruct (read_spec address length deadline c tr (l ++ [a]) tr') as (b & Hb & ->); try done.
  apply last_snoc_eq in Hb as ->. by rewrite zlen_app, zlen_cons, zlen_nil.
Qed.

Lemma write_complete address data deadline c tr :
  Client.wf c -> valid tr -> valid_deadline_and_size (zlen data) deadline = true ->
  let request := write_request (Client.next_request_id_ c) address data in
  exists a tr',
    try_exchange (wire request) deadline tr = Done (a, tr') /\ valid tr' /\
    Client.write address data deadline (c, tr) =
    let r := conclude request Opcode.write_acknowledgement 0 "write not retried: " 1 (outcome a) in
    Done (r, (client_after (started c) [a] r, tr')).
Proof.
  intros Hc Hv Hargs request.
  destruct (try_exchange_returns (wire request) deadline tr Hv) as (a & tr' & Ht & Hv').
  exists a, tr'. split; [done|]. split; [done|]. by apply write_spec.
Qed.
End Complete.

Lemma conclude_attempts request opcode len prefix n o :
  OperationResult.attempts (conclude request opcode len prefix n o) = n /\
  OperationResult.request_id (conclude request opcode len prefix n o) = Frame.request_id request.
Proof. destruct o; [done|done|]. cbn. destruct (judge_id request opcode len n response); tauto. Qed.

Lemma conclude_success request opcode len prefix n o :
  OperationResult.error (conclude request opcode len prefix n o) = ClientError.none ->
  exists g, o = replied (wire g) /\ protocol_frame g /\ Frame.wf g /\ correlated request g /\
    expected opcode len g /\
    OperationResult.data (conclude request opcode len prefix n o) = Frame.payload g.
Proof.
  destruct o as [|e|response]; cbn; [done|by destruct e|]. intros He.
  destruct (judge_success _ _ _ _ _ He) as (g & -> & Hg). by exists g.
Qed.
