(* ===== verification/ClientProperties.v ===== *)
(** * Properties of the client of [ImlpClient], over any transport.

    Sessions, sequences of operations on one client, are defined here; the
    properties of single operations apply to every state of a session. *)

From S2P Require Import Prelude Types BigEndian Crc Codec Memory Server Transport ImlpClient.

(** ** Sessions *)

Inductive Operation : Set :=
| read_operation (address length deadline : Z)
| write_operation (address : Z) (data : list byte) (deadline : Z).

(** The length of a read is a [std::size_t]. *)
Definition operation_wf (o : Operation) : Prop :=
  match o with read_operation _ length _ => 0 <= length | write_operation _ _ _ => True end.

Section Session.
Context {T : Type} `{ITransport T}.

Definition perform (o : Operation) : Run (Client.World T) OperationResult.t :=
  match o with
  | read_operation address length deadline => Client.read address length deadline
  | write_operation address data deadline => Client.write address data deadline
  end.

Fixpoint session (os : list Operation) : Run (Client.World T) (list OperationResult.t) :=
  match os with
  | [] => mret []
  | o :: os => r ← perform o; rs ← session os; mret (r :: rs)
  end.
End Session.

Lemma perform_complete {T} `{TransportLaws T valid} o c (tr : T) :
  Client.wf c -> valid tr -> operation_wf o ->
  exists r c' tr', perform o (c, tr) = Done (r, (c', tr')) /\ Client.wf c' /\ valid tr' /\
    OperationResult.request_id r = Client.next_request_id_ c /\
    Client.next_request_id_ c' = following_id (Client.next_request_id_ c) /\
    Client.options_ c' = Client.options_ c.
Proof.
  intros Hc Hv Ho. destruct o as [address length deadline|address data deadline]; cbn [perform].
  - destruct (valid_deadline_and_size length deadline) eqn:Hargs.
    + destruct (read_complete address length deadline c tr Hc Hv Ho Hargs)
        as (l & a & tr' & _ & _ & Hv' & ->).
      eexists _, _, _. split; [reflexivity|].
      split; [apply client_after_wf; [by apply started_wf|by destruct l]|].
      split; [done|]. split; [apply conclude_attempts|done].
    + rewrite read_refused by done. eexists _, _, _. split; [reflexivity|].
      split; [by apply started_wf|done].
  - destruct (valid_deadline_and_size (zlen data) deadline) eqn:Hargs.
    + destruct (write_complete address data deadline c tr Hc Hv Hargs) as (a & tr' & _ & Hv' & ->).
      eexists _, _, _. split; [reflexivity|].
      split; [apply client_after_wf; [by apply started_wf|done]|].
      split; [done|]. split; [apply conclude_attempts|done].
    + rewrite write_refused by done. eexists _, _, _. split; [reflexivity|].
      split; [by apply started_wf|done].
Qed.

(** The [k]-th ID from [first]: 1, ..., 2^32-1, in a circle. *)
Definition kth_id (first k : Z) : Z := 1 + (first - 1 + k) mod (2 ^ 32 - 1).

Lemma kth_id_0 first : 1 <= first < 2 ^ 32 -> kth_id first 0 = first.
Proof. intros. unfold kth_id. rewrite Z.add_0_r, Z.mod_small; lia. Qed.

Lemma kth_id_following first k :
  1 <= first < 2 ^ 32 -> kth_id (following_id first) k = kth_id first (k + 1).
Proof.
  intros Hf. unfold kth_id, following_id. destruct (Z.eqb_spec first (2 ^ 32 - 1)) as [->|].
  - replace (2 ^ 32 - 1 - 1 + (k + 1)) with (k + 1 * (2 ^ 32 - 1)) by lia.
    rewrite Z.mod_add by lia. do 2 f_equal.
  - do 2 f_equal. lia.
Qed.

Lemma kth_id_inj first j k :
  1 <= first < 2 ^ 32 -> 0 <= j < 2 ^ 32 - 1 -> 0 <= k < 2 ^ 32 - 1 ->
  kth_id first j = kth_id first k -> j = k.
Proof. unfold kth_id. intros. divmod. Qed.

Lemma session_complete {T} `{TransportLaws T valid} os c (tr : T) :
  Client.wf c -> valid tr -> Forall operation_wf os ->
  exists rs c' tr', session os (c, tr) = Done (rs, (c', tr')) /\ Client.wf c' /\ valid tr' /\
    length rs = length os /\
    forall (k : nat) r, rs !! k = Some r ->
      OperationResult.request_id r = kth_id (Client.next_request_id_ c) (Z.of_nat k).
Proof.
  intros Hc Hv Hos. revert c tr Hc Hv; induction Hos as [|o os Ho _ IH]; intros c tr Hc Hv.
  { by exists [], c, tr. }
  destruct (perform_complete o c tr Hc Hv Ho) as (r & c1 & tr1 & Hr & Hc1 & Hv1 & Hid & Hnext & _).
  destruct (IH c1 tr1 Hc1 Hv1) as (rs & c2 & tr2 & Hrs & Hc2 & Hv2 & Hlen & Hids).
  exists (r :: rs), c2, tr2. cbn [session]. rewrite run_bind_eq, Hr. cbn [mbind exec_bind].
  rewrite run_bind_eq, Hrs. split; [done|]. split; [done|]. split; [done|].
  split; [cbn; congruence|].
  destruct Hc as (_ & Hrange & _). intros [|k] r' Hk; cbn in Hk.
  - injection Hk as <-. by rewrite kth_id_0.
  - rewrite (Hids k r' Hk), Hnext, kth_id_following by done. f_equal. lia.
Qed.

(** ** Properties *)

Section Properties.
Context {T : Type} `{TransportLaws T valid}.
Implicit Types (c : Client.t) (tr : T).

(** C15. A read over any transport that answers its calls ends with a result, and
    its behaviour is bounded retrying: it makes between one and
    [maximum_read_attempts] attempts, each with the same encoded request (hence the
    same request ID) and the same deadline, connecting only when not connected;
    every attempt but the last failed in the transport and was followed by a close;
    it gives up on a transport failure only when the attempts are used up; and its
    result is that of the last attempt.  Refused arguments leave the transport
    untouched. *)
Theorem client_read_retries_are_bounded address length deadline c tr :
  Client.wf c -> valid tr -> 0 <= length ->
  exists r c' tr',
    Client.read address length deadline (c, tr) = Done (r, (c', tr')) /\
    Client.wf c' /\ valid tr' /\
    OperationResult.request_id r = Client.next_request_id_ c /\
    if (0 <? length) && (length <=? 256) && (0 <? deadline) then
      let request := read_request (Client.next_request_id_ c) address length in
      exists l a,
        runs tr (events_of (wire request) deadline (l ++ [a])) tr' /\
        Forall (fun b => is_failed (outcome b) = true) l /\
        OperationResult.attempts r = zlen l + 1 /\
        zlen l + 1 <= maximum c /\
        (is_failed (outcome a) = true -> zlen l + 1 = maximum c) /\
        r = conclude request Opcode.data_response length "" (zlen l + 1) (outcome a)
    else OperationResult.error r = ClientError.invalid_argument /\ tr' = tr.
Proof.
  intros Hc Hv Hl. change (_ && _ && _) with (valid_deadline_and_size length deadline).
  destruct (valid_deadline_and_size length deadline) eqn:Hargs.
  - destruct (read_complete address length deadline c tr Hc Hv Hl Hargs)
      as (l & a & tr' & Ht & (Hf & Hlen & Hlast) & Hv' & ->).
    eexists _, _, _. split; [reflexivity|].
    split; [apply client_after_wf; [by apply started_wf|by destruct l]|].
    destruct Hc as [Ho _]. fold (maximum c) in Ho.
    match goal with |- context [conclude ?q ?o ?n ?p ?k ?x] =>
      destruct (conclude_attempts q o n p k x) as [Hatt Hid] end.
    split; [done|]. split; [done|]. exists l, a. split; [by apply tries_runs in Ht|].
    unfold zlen. split; [done|]. split; [done|]. split; [lia|]. split; [|done].
    intros Ha. specialize (Hlast Ha). lia.
  - rewrite read_refused by done. eexists _, _, _. split; [reflexivity|].
    split; [by apply started_wf|]. done.
Qed.

(** A write over any transport that answers its calls ends with a result after
    a single attempt: at most one exchange, whatever happens, and the result is that
    of this attempt.  Refused arguments leave the transport untouched. *)
Theorem client_write_is_attempted_once address data deadline c tr :
  Client.wf c -> valid tr ->
  exists r c' tr',
    Client.write address data deadline (c, tr) = Done (r, (c', tr')) /\
    Client.wf c' /\ valid tr' /\
    OperationResult.request_id r = Client.next_request_id_ c /\
    if (0 <? zlen data) && (zlen data <=? 256) && (0 <? deadline) then
      let request := write_request (Client.next_request_id_ c) address data in
      exists a events,
        runs tr events tr' /\ events = attempt_events (wire request) deadline a /\
        tally is_exchange events <= 1 /\ OperationResult.attempts r = 1 /\
        r = conclude request Opcode.write_acknowledgement 0 "write not retried: " 1 (outcome a)
    else OperationResult.error r = ClientError.invalid_argument /\ tr' = tr.
Proof.
  intros Hc Hv. change (_ && _ && _) with (valid_deadline_and_size (zlen data) deadline).
  destruct (valid_deadline_and_size (zlen data) deadline) eqn:Hargs.
  - destruct (write_complete address data deadline c tr Hc Hv Hargs)
      as (a & tr' & Ht & Hv' & ->).
    eexists _, _, _. split; [reflexivity|].
    split; [apply client_after_wf; [by apply started_wf|done]|].
    match goal with |- context [conclude ?q ?o ?n ?p ?k ?x] =>
      destruct (conclude_attempts q o n p k x) as [Hatt Hid] end.
    split; [done|]. split; [done|]. eexists a, _. split; [by apply try_exchange_runs in Ht|].
    split; [done|]. split; [by destruct a as [[] [|[]|]]|]. done.
  - rewrite write_refused by done. eexists _, _, _. split; [reflexivity|].
    split; [by apply started_wf|]. done.
Qed.

(** C25. The metrics count what happened, for reads and writes alike: one operation;
    a transport attempt per exchange, a reconnect per [connect] call and a timeout
    per exchange that timed out, among the calls [events] the transport saw; a retry
    per attempt after the first; a protocol error when the result is one.  All
    counters wrap at 2^64. *)
Theorem client_metrics_count_the_calls c tr :
  Client.wf c -> valid tr ->
  (forall address length deadline, 0 <= length ->
     exists r c' tr' events,
       Client.read address length deadline (c, tr) = Done (r, (c', tr')) /\
       runs tr events tr' /\
       Client.metrics c' = metrics_of_run (Client.metrics c) events r) /\
  (forall address data deadline,
     exists r c' tr' events,
       Client.write address data deadline (c, tr) = Done (r, (c', tr')) /\
       runs tr events tr' /\
       Client.metrics c' = metrics_of_run (Client.metrics c) events r).
Proof.
  intros Hc Hv. split.
  - intros address length deadline Hl.
    destruct (valid_deadline_and_size length deadline) eqn:Hargs.
    + destruct (read_complete address length deadline c tr Hc Hv Hl Hargs)
        as (l & a & tr' & Ht & _ & _ & ->).
      eexists _, _, _, _. split; [reflexivity|]. split; [by apply tries_runs in Ht|].
      apply metrics_of_complete; [done|by destruct l|].
      rewrite zlen_app, zlen_cons, zlen_nil. apply conclude_attempts.
    + rewrite read_refused by done. eexists _, _, _, []. split; [reflexivity|].
      split; [constructor|by apply metrics_of_refused].
  - intros address data deadline.
    destruct (valid_deadline_and_size (zlen data) deadline) eqn:Hargs.
    + destruct (write_complete address data deadline c tr Hc Hv Hargs) as (a & tr' & Ht & _ & ->).
      apply try_once, tries_runs in Ht.
      eexists _, _, _, _. split; [reflexivity|]. split; [exact Ht|].
      by apply metrics_of_complete; [| |apply conclude_attempts].
    + rewrite write_refused by done. eexists _, _, _, []. split; [reflexivity|].
      split; [constructor|by apply metrics_of_refused].
Qed.

(** C17. Success means a correlated answer.  A read that reports no error has, as
    its last call, sent its request and received the encoding of a data response
    with the request ID and address of the request and exactly the requested
    number of bytes, which are the data of the result; a write that reports none
    has received the acknowledgement of its request. *)
Theorem client_success_is_correlated c tr r c' tr' :
  Client.wf c -> valid tr ->
  let id := Client.next_request_id_ c in
  (forall address length deadline, 0 <= length ->
     Client.read address length deadline (c, tr) = Done (r, (c', tr')) ->
     OperationResult.error r = ClientError.none ->
     exists events g,
       runs tr (events ++ [exchange_event (wire (read_request id address length)) deadline
                             (replied (wire g))]) tr' /\
       protocol_frame g /\ Frame.request_id g = id /\ Frame.address g = address /\
       Frame.opcode g = Opcode.data_response /\ Frame.payload g = OperationResult.data r /\
       zlen (OperationResult.data r) = length) /\
  (forall address data deadline,
     Client.write address data deadline (c, tr) = Done (r, (c', tr')) ->
     OperationResult.error r = ClientError.none ->
     exists events g,
       runs tr (events ++ [exchange_event (wire (write_request id address data)) deadline
                             (replied (wire g))]) tr' /\
       protocol_frame g /\ Frame.request_id g = id /\ Frame.address g = address /\
       Frame.opcode g = Opcode.write_acknowledgement /\ OperationResult.data r = []).
Proof.
  intros Hc Hv id. split.
  - intros address length deadline Hl Hr He.
    destruct (valid_deadline_and_size length deadline) eqn:Hargs;
      [|rewrite read_refused in Hr by done; by apply Done_inj in Hr as [= <- _ _]].
    destruct (read_complete address length deadline c tr Hc Hv Hl Hargs)
      as (l & a & tr1 & Ht & _ & _ & E). rewrite E in Hr. apply Done_inj in Hr as [= <- _ <-].
    destruct (conclude_success _ _ _ _ _ _ He) as (g & Ha & Hp & _ & [Hid Had] & [Ho Hlen] & Hd).
    apply tries_runs in Ht. unfold events_of in Ht.
    rewrite fmap_app, concat_app in Ht. cbn [fmap list_fmap concat] in Ht.
    rewrite app_nil_r in Ht. unfold attempt_events at 2 in Ht. rewrite Ha, app_assoc in Ht.
    eexists _, g. split; [exact Ht|]. by rewrite Hd.
  - intros address data deadline Hr He.
    destruct (valid_deadline_and_size (zlen data) deadline) eqn:Hargs;
      [|rewrite write_refused in Hr by done; by apply Done_inj in Hr as [= <- _ _]].
    destruct (write_complete address data deadline c tr Hc Hv Hargs) as (a & tr1 & Ht & _ & E).
    rewrite E in Hr. apply Done_inj in Hr as [= <- _ <-].
    destruct (conclude_success _ _ _ _ _ _ He) as (g & Ha & Hp & _ & [Hid Had] & [Ho Hlen] & Hd).
    apply try_exchange_runs in Ht. unfold attempt_events in Ht. rewrite Ha in Ht.
    eexists _, g. split; [exact Ht|]. rewrite Hd. apply zlen_zero in Hlen. done.
Qed.
End Properties.

(** C24. Request IDs correlate: any sequence of operations on a client runs to its
    end, over any transport that answers its calls; the [k]-th result carries the
    [k]-th ID of the circle 1, ..., 2^32-1 from the client's next ID, so no ID is
    zero and none repeats within 2^32-1 operations. *)
Theorem client_session_ids_are_unique {T} `{TransportLaws T valid} os c (tr : T) :
  Client.wf c -> valid tr -> Forall operation_wf os ->
  exists rs c' tr',
    session os (c, tr) = Done (rs, (c', tr')) /\ Client.wf c' /\ length rs = length os /\
    (forall (k : nat) r, rs !! k = Some r ->
       OperationResult.request_id r =
         1 + (Client.next_request_id_ c - 1 + Z.of_nat k) mod (2 ^ 32 - 1) /\
       OperationResult.request_id r <> 0) /\
    (forall (j k : nat) r1 r2, rs !! j = Some r1 -> rs !! k = Some r2 -> j <> k ->
       zlen os <= 2 ^ 32 - 1 ->
       OperationResult.request_id r1 <> OperationResult.request_id r2).
Proof.
  intros Hc Hv Hos.
  destruct (session_complete os c tr Hc Hv Hos) as (rs & c' & tr' & Hs & Hc' & _ & Hlen & Hids).
  exists rs, c', tr'. split; [done|]. split; [done|]. split; [done|]. split.
  - intros k r Hk. rewrite (Hids k r Hk). split; [done|]. unfold kth_id.
    pose proof (Z.mod_pos_bound (Client.next_request_id_ c - 1 + Z.of_nat k) (2 ^ 32 - 1)
                  ltac:(lia)). lia.
  - intros j k r1 r2 Hj Hk Hne Hmax. rewrite (Hids j r1 Hj), (Hids k r2 Hk).
    apply lookup_lt_Some in Hj, Hk. unfold zlen in Hmax. destruct Hc as (_ & Hrange & _).
    intros E. apply kth_id_inj in E; lia.
Qed.

(** What the client makes of a response, by cases, without a call to the
    transport.  A response that does not decode is malformed, with the decoder's
    error as the detail.  One that decodes to a frame is, in this order: a
    correlation mismatch unless request ID and address are those of the request;
    the server's error, with its status (never [ok]) and message; the success of the
    operation if opcode and length are the expected ones; else unexpected.  The
    protocol error counter counts exactly the first, second and last. *)
Theorem client_judges_responses {T} `{ITransport T} request response opcode len attempts
    c (tr : T) :
  exists r c',
    Client.validate_response request response opcode len attempts (c, tr) = Done (r, (c', tr)) /\
    OperationResult.request_id r = Frame.request_id request /\
    OperationResult.attempts r = attempts /\
    Client.options_ c' = Client.options_ c /\
    ClientMetrics.protocol_errors (Client.metrics c') =
      (if bool_decide (OperationResult.error r ∈
                         [ClientError.malformed_response; ClientError.correlation_mismatch;
                          ClientError.unexpected_response])
       then u64 (ClientMetrics.protocol_errors (Client.metrics c) + 1)
       else ClientMetrics.protocol_errors (Client.metrics c)) /\
    ((exists e n, decode response = Done (DecodeResult.mk None e n) /\
        OperationResult.error r = ClientError.malformed_response /\
        OperationResult.detail r = codec_error_name e) \/
     (exists g n, decode response = Done (DecodeResult.mk (Some g) CodecError.none n) /\
        OperationResult.remote_status r = Frame.status g /\
        if negb (bool_decide (Frame.request_id g = Frame.request_id request /\
                              Frame.address g = Frame.address request)) then
          OperationResult.error r = ClientError.correlation_mismatch /\ OperationResult.data r = []
        else if bool_decide (Frame.opcode g = Opcode.error_response) then
          OperationResult.error r = ClientError.remote_error /\
          OperationResult.data r = Frame.payload g /\ Frame.status g <> Status.ok
        else if bool_decide (Frame.opcode g = opcode /\ zlen (Frame.payload g) = len) then
          OperationResult.error r = ClientError.none /\
          OperationResult.data r = Frame.payload g /\ Frame.status g = Status.ok
        else
          OperationResult.error r = ClientError.unexpected_response /\
          OperationResult.data r = [])).
Proof.
  set (r := judge request opcode len attempts response).
  exists r, (with_metrics c (count_result (Client.metrics_ c) r)).
  rewrite validate_response_spec. split; [done|].
  destruct (judge_id request opcode len attempts response) as [Hid Hatt].
  split; [done|]. split; [done|]. split; [done|]. split.
  { unfold Client.metrics, count_result, is_protocol_error. cbn [with_metrics Client.metrics_].
    by case_bool_decide. }
  destruct (judge_cases response) as [(e & n & Hd)|(g & Er & Hp & Hw)].
  - left. exists e, n. split; [done|]. unfold r. by rewrite (judge_malformed _ _ _ _ _ _ _ Hd).
  - right. subst response. exists g, (zlen (wire g)). split; [by apply decode_wire|].
    destruct (judge_wire request opcode len attempts g Hp Hw) as (He & Hst & Hd). fold r in He, Hst, Hd.
    split; [done|]. revert He Hd. unfold correlated, expected. cbn zeta.
    case_bool_decide; cbn [negb]; [|by intros -> ->].
    pose proof (protocol_frame_status g Hp) as Hok.
    case_bool_decide as Ho; [by intros -> ->; split; [|split; [|rewrite Hok]]|].
    case_bool_decide as Hx; [|by intros -> ->].
    intros -> ->. split; [done|]. split; [done|].
    destruct (decide (Frame.status g = Status.ok)) as [|Hn]; [done|]. by apply Hok in Hn.
Qed.

(** *** The properties at concrete inputs *)

Definition sample_client : Client.t := Client.construct ClientOptions.default.

Lemma sample_client_wf : Client.wf sample_client.
Proof. by apply construct_wf. Qed.

Lemma initial_loopback_valid : loopback_valid initial_loopback.
Proof. apply server_reachable_wf, initial_server_reachable. Qed.

Lemma client_read_retries_are_bounded_witness :
  exists r c' tr',
    Client.read 0 4 50 (sample_client, initial_loopback) = Done (r, (c', tr')) /\ Client.wf c'.
Proof.
  destruct (client_read_retries_are_bounded (valid := loopback_valid) 0 4 50
              sample_client initial_loopback sample_client_wf initial_loopback_valid)
    as (r & c' & tr' & E & Hc & _); [by vm_compute|].
  exists r, c', tr'. split; [exact E|exact Hc].
Defined.

Lemma client_write_is_attempted_once_witness :
  exists r c' tr',
    Client.write 0x100 [to_byte 1] 50 (sample_client, initial_loopback) = Done (r, (c', tr')) /\
    Client.wf c'.
Proof.
  destruct (client_write_is_attempted_once (valid := loopback_valid) 0x100 [to_byte 1] 50
              sample_client initial_loopback sample_client_wf initial_loopback_valid)
    as (r & c' & tr' & E & Hc & _).
  exists r, c', tr'. split; [exact E|exact Hc].
Defined.

Lemma client_metrics_count_the_calls_witness :
  exists r c' tr' events,
    Client.read 0 4 50 (sample_client, initial_loopback) = Done (r, (c', tr')) /\
    runs initial_loopback events tr' /\
    Client.metrics c' = metrics_of_run ClientMetrics.initial events r.
Proof.
  refine (proj1 (client_metrics_count_the_calls (valid := loopback_valid) sample_client
                   initial_loopback sample_client_wf initial_loopback_valid) 0 4 50 _).
  by vm_compute.
Defined.

(** A write over a transport without faults, and its outcome. *)
Definition sample_write : Exec (OperationResult.t * Client.World LoopbackTransport.t) :=
  Client.write 0x100 [to_byte 1] 50 (sample_client, initial_loopback).

Definition sample_outcome : OperationResult.t * Client.World LoopbackTransport.t :=
  match sample_write with
  | Done x => x
  | Halt _ => (Client.invalid_argument 0 "", (sample_client, initial_loopback))
  end.

Lemma client_success_is_correlated_witness :
  OperationResult.error sample_outcome.1 = ClientError.none /\
  OperationResult.data sample_outcome.1 = [].
Proof.
  split; [vm_compute; reflexivity|].
  destruct (proj2 (client_success_is_correlated (valid := loopback_valid) sample_client
                     initial_loopback sample_outcome.1 sample_outcome.2.1 sample_outcome.2.2
                     sample_client_wf initial_loopback_valid)
              0x100 [to_byte 1] 50) as (events & g & _ & _ & _ & _ & _ & Hd).
  - vm_compute. reflexivity.
  - vm_compute. reflexivity.
  - exact Hd.
Defined.

Lemma client_session_ids_are_unique_witness :
  exists rs c' tr',
    session [read_operation 0 4 50; write_operation 0x100 [to_byte 1] 50]
      (sample_client, initial_loopback) = Done (rs, (c', tr')) /\ length rs = 2%nat.
Proof.
  destruct (client_session_ids_are_unique (valid := loopback_valid)
              [read_operation 0 4 50; write_operation 0x100 [to_byte 1] 50]
              sample_client initial_loopback sample_client_wf initial_loopback_valid)
    as (rs & c' & tr' & E & _ & Hl & _).
  - repeat constructor. vm_compute. discriminate.
  - exists rs, c', tr'. split; [exact E|exact Hl].
Defined.
