(* ===== verification/System.v ===== *)
(** * The system: a client over the loopback transport and its server.

    The theorems compose those of the components: what a read returns and a write
    does, whatever faults are queued, and the refinement of an atomic memory. *)

From S2P Require Import Prelude Types BigEndian Crc Codec Memory Server Transport.
From S2P Require Import ImlpClient ClientProperties.

(** ** One exchange of a protocol frame *)

Definition memory_of (tr : LoopbackTransport.t) : MemoryMap.t :=
  MemoryServer.memory_ (LoopbackTransport.server_ tr).
Definition policy_of (tr : LoopbackTransport.t) : ServerPolicy.t :=
  MemoryServer.policy_ (LoopbackTransport.server_ tr).

(** The server's decision on a frame that arrives at the transport's server. *)
Definition decision (tr : LoopbackTransport.t) (f : Frame.t) : Verdict :=
  serve (policy_of tr) (memory_of tr) f.

Definition served (tr : LoopbackTransport.t) (f : Frame.t) : MemoryServer.t :=
  MemoryServer.mk (policy_of tr) (decided_memory (decision tr f)).

Definition transient (fault : TransportFault.t) : option TransportError.t :=
  match fault with
  | TransportFault.timeout => Some TransportError.timeout
  | TransportFault.disconnect => Some TransportError.disconnected
  | _ => None
  end.

(** The failure the first queued fault causes, if it does. *)
Definition next_failure (faults : list TransportFault.t) : option TransportError.t :=
  match faults with fault :: _ => transient fault | [] => None end.

Section Exchange.
Context (f : Frame.t) (deadline : Z) (tr : LoopbackTransport.t).
Hypothesis f_wf : Frame.wf f.
Hypothesis f_protocol : protocol_frame f.
Hypothesis tr_valid : loopback_valid tr.

Lemma handle_spec_wire s :
  handle_spec s (wire f) =
  let d := serve (MemoryServer.policy_ s) (MemoryServer.memory_ s) f in
  (answer f d, MemoryServer.mk (MemoryServer.policy_ s) (decided_memory d)).
Proof.
  unfold handle_spec. pose proof (decode_wire f f_protocol f_wf) as Hd.
  rewrite decode_validation in Hd. apply Done_inj in Hd. by rewrite Hd.
Qed.

Lemma decision_proper : proper_answer f (decision tr f).
Proof. apply serve_proper; [apply tr_valid|done|done]. Qed.

(** The state of the transport after an attempt: the server's, the connection's and
    the queue of faults. *)
Definition after (server : MemoryServer.t) (faults : list TransportFault.t)
    (tr' : LoopbackTransport.t) : Prop :=
  LoopbackTransport.server_ tr' = server /\ LoopbackTransport.faults_ tr' = faults.

(** An attempt: the outcome is decided by the deadline and by the first fault. *)
Lemma loopback_attempt :
  exists a tr', try_exchange (wire f) deadline tr = Done (a, tr') /\
  if deadline <=? 0 then
    outcome a = failed TransportError.timeout /\
    after (LoopbackTransport.server_ tr) (LoopbackTransport.faults_ tr) tr'
  else
    let faults := LoopbackTransport.faults_ tr in
    match next_failure faults with
    | Some e =>
        outcome a = failed e /\ after (LoopbackTransport.server_ tr) (tail faults) tr'
    | None =>
        outcome a = replied (damage (head faults) (wire (response_frame f (decision tr f)))) /\
        after (served tr f) (tail faults) tr'
    end.
Proof.
  unfold try_exchange.
  set (tr1 := LoopbackTransport.mk (LoopbackTransport.server_ tr) true
                (LoopbackTransport.faults_ tr) (LoopbackTransport.trace_ tr)
                (LoopbackTransport.next_sequence_ tr)).
  assert ((if connected tr then Done (true, tr) else connect tr) = Done (true, tr1)) as ->
    by (subst tr1; destruct tr as [? [] ? ? ?]; done).
  cbn [mbind exec_bind negb]. cbn [exchange LoopbackTransport_ITransport].
  rewrite exchange_refines by done. unfold exchange_spec.
  cbn [LoopbackTransport.connected_ LoopbackTransport.faults_ LoopbackTransport.server_ tr1 negb].
  rewrite handle_spec_wire.
  destruct (deadline <=? 0); [by eexists _, _|].
  destruct (LoopbackTransport.faults_ tr) as [|[| | | |] faults]; by eexists _, _.
Qed.
End Exchange.

(** A damaged response is never mistaken for the response to the request. *)
Lemma judge_damaged request opcode len n fault g :
  protocol_frame g -> Frame.wf g -> correlated request g ->
  damage fault (wire g) = wire g \/
  OperationResult.error (judge request opcode len n (damage fault (wire g))) ∈
    [ClientError.malformed_response; ClientError.correlation_mismatch].
Proof.
  intros Hp Hw [Hid Had]. destruct fault as [[| | | |]|]; try (by left).
  - right. rewrite (judge_malformed _ _ _ _ _ _ _ (truncated_response_rejected g Hp Hw)).
    cbn; set_solver.
  - right. rewrite (judge_malformed _ _ _ _ _ _ _ (corrupted_response_rejected g Hp Hw)).
    cbn; set_solver.
  - right. rewrite (proj1 (wrong_id_response g Hp Hw)).
    destruct (judge_wire request opcode len n (next_id g)) as (-> & _);
      [by apply protocol_frame_with_id|by apply next_id_wf|].
    rewrite bool_decide_eq_false_2; [cbn; set_solver|].
    intros [Hid' _]. rewrite <-Hid in Hid'. by apply next_id_differs in Hid'.
Qed.

(** An undamaged answer is taken for what the server decided. *)
Lemma judge_answer request opcode len n d :
  proper_answer request d ->
  (decided_status d = Status.ok ->
   response_opcode (Frame.opcode request) Status.ok = opcode /\ zlen (decided_payload d) = len) ->
  let r := judge request opcode len n (wire (response_frame request d)) in
  OperationResult.error r =
    (if bool_decide (decided_status d = Status.ok) then ClientError.none
     else ClientError.remote_error) /\
  OperationResult.remote_status r = decided_status d /\
  OperationResult.data r = decided_payload d.
Proof.
  intros (Hp & Hw & _) Hexp r.
  destruct (judge_wire request opcode len n _ Hp Hw) as (He & Hs & Hd). fold r in He, Hs, Hd.
  pose proof (protocol_frame_status _ Hp) as Hok. cbn [response_frame Frame.status] in Hs, Hok.
  rewrite (bool_decide_eq_true_2 (correlated _ _)) in He, Hd by done. cbn [negb] in He, Hd.
  destruct (decide (decided_status d = Status.ok)) as [E|E].
  - destruct (Hexp E) as [Ho Hl].
    rewrite (bool_decide_eq_true_2 (expected _ _ _)) in He, Hd
      by (split; cbn [response_frame Frame.opcode Frame.payload]; [by rewrite E|done]).
    rewrite (bool_decide_eq_false_2 (Frame.opcode _ = _)) in He, Hd
      by (intros Ho'; apply Hok in Ho'; done).
    rewrite He, Hd. by rewrite (bool_decide_eq_true_2 _ E).
  - rewrite (bool_decide_eq_true_2 (Frame.opcode _ = _)) in He, Hd by by apply Hok.
    rewrite He, Hd. by rewrite (bool_decide_eq_false_2 _ E).
Qed.

(** ** Reads *)

Lemma read_request_wf c address length :
  Client.wf c -> 0 <= address < 2 ^ 32 ->
  Frame.wf (read_request (Client.next_request_id_ c) address length).
Proof.
  intros (_ & Hid & _) Ha. unfold Frame.wf, Opcode.wf, Status.wf, read_request.
  cbn [Frame.version Frame.opcode Frame.flags Frame.request_id Frame.address Frame.status].
  repeat split; cbn; lia.
Qed.

Lemma write_request_wf c address data :
  Client.wf c -> 0 <= address < 2 ^ 32 ->
  Frame.wf (write_request (Client.next_request_id_ c) address data).
Proof.
  intros (_ & Hid & _) Ha. unfold Frame.wf, Opcode.wf, Status.wf, write_request.
  cbn [Frame.version Frame.opcode Frame.flags Frame.request_id Frame.address Frame.status].
  repeat split; cbn; lia.
Qed.

(** What the server decides about a read. *)
Definition read_verdict (m : MemoryMap.t) (address length : Z) : Verdict :=
  if bool_decide (read_status address length = Status.ok) then
    {| decided_status := Status.ok; decided_detail := "read_ok";
       decided_payload := bytes_at m address length; decided_memory := m |}
  else reject m (read_status address length) "read_rejected".

Lemma decision_read tr id address length :
  0 <= length < 2 ^ 16 ->
  decision tr (read_request id address length) = read_verdict (memory_of tr) address length.
Proof.
  intros Hl. unfold decision, serve, read_request. cbn [Frame.opcode Frame.payload Frame.address].
  by rewrite be_value_bytes_small by (cbn; lia).
Qed.

Lemma read_verdict_memory m address length : decided_memory (read_verdict m address length) = m.
Proof. unfold read_verdict. by case_bool_decide. Qed.

Lemma read_verdict_status m address length :
  decided_status (read_verdict m address length) = read_status address length.
Proof. unfold read_verdict. case_bool_decide as E; [by rewrite E|done]. Qed.

Lemma served_read tr id address length :
  0 <= length < 2 ^ 16 ->
  served tr (read_request id address length) = LoopbackTransport.server_ tr.
Proof.
  intros Hl. unfold served. rewrite decision_read, read_verdict_memory by done. apply server_eta.
Qed.

Section Read.
Context (id address length deadline : Z).
Hypothesis length_range : 0 <= length <= 256.
Let request := read_request id address length.
Hypothesis request_wf : Frame.wf request.

(** The attempts of a read leave the server alone, and a reply is the answer of the
    server as some fault left it. *)
Lemma read_tries n tr l a tr' :
  loopback_valid tr -> tries (wire request) deadline n tr = Done (l ++ [a], tr') ->
  LoopbackTransport.server_ tr' = LoopbackTransport.server_ tr /\
  outcome a <> cannot_connect /\
  forall bytes, outcome a = replied bytes ->
    exists fault,
      bytes = damage fault (wire (response_frame request (read_verdict (memory_of tr) address length))).
Proof.
  revert tr l; induction n as [|n IH]; intros tr l Hv Ht.
  { apply Done_inj in Ht as [= Hl _]. by destruct l. }
  rewrite tries_S in Ht.
  destruct (loopback_attempt request deadline tr request_wf (read_request_protocol _ _ _) Hv)
    as (b & tr1 & Hb & Hcase). rewrite Hb in Ht. cbn [mbind exec_bind] in Ht.
  assert (LoopbackTransport.server_ tr1 = LoopbackTransport.server_ tr /\
    ((exists e, outcome b = failed e) \/
     exists fault, outcome b = replied (damage fault (wire (response_frame request
       (read_verdict (memory_of tr) address length)))))) as [Hs1 Hout].
  { unfold request in Hcase. rewrite served_read, decision_read in Hcase by lia.
    destruct (deadline <=? 0); [destruct Hcase as (-> & -> & _); eauto|].
    destruct (next_failure _); destruct Hcase as (-> & -> & _); eauto. }
  assert (Hend : b = a -> tr1 = tr' ->
    LoopbackTransport.server_ tr' = LoopbackTransport.server_ tr /\
    outcome a <> cannot_connect /\
    forall bytes, outcome a = replied bytes -> exists fault, bytes = damage fault
      (wire (response_frame request (read_verdict (memory_of tr) address length)))).
  { intros <- <-. split; [done|].
    destruct Hout as [[e ->]|[fault ->]]; (split; [done|]); [done|].
    intros bytes [= <-]. by exists fault. }
  destruct (is_failed (outcome b)).
  - destruct (tries (wire request) deadline n tr1) as [[l1 tr2]|] eqn:Et; [|done].
    cbn [mbind exec_bind] in Ht. apply Done_inj in Ht as [= Hl ->].
    destruct l as [|b' l]; cbn [app] in Hl; [injection Hl as -> ->|injection Hl as _ ->].
    + destruct n; [|by apply tries_nonempty in Et]. apply Done_inj in Et as [= ->]. by apply Hend.
    + assert (Hv1 : loopback_valid tr1) by (unfold loopback_valid in *; by rewrite Hs1).
      destruct (IH tr1 l Hv1 Et) as (Hs2 & Hno & Hrep).
      unfold memory_of in *. rewrite Hs1 in *. done.
  - apply Done_inj in Ht as [= Hl ->]. destruct l as [|? [|]]; try done. injection Hl as ->.
    by apply Hend.
Qed.
End Read.

Lemma loopback_reachable_valid tr : loopback_reachable tr -> loopback_valid tr.
Proof. apply loopback_reachable_wf. Qed.

Lemma proper_answer_correlated request d :
  correlated request (response_frame request d).
Proof. done. Qed.

Lemma bytes_at_length m a n :
  MemoryMap.wf m -> 0 <= a -> read_status a n = Status.ok -> zlen (bytes_at m a n) = n.
Proof. intros Hm Ha Hr. apply read_status_ok in Hr. apply zlen_bytes_at; done || lia. Qed.

Lemma read_verdict_proper tr id address length :
  loopback_valid tr -> 0 <= length <= 256 -> 0 <= address ->
  Frame.wf (read_request id address length) ->
  proper_answer (read_request id address length) (read_verdict (memory_of tr) address length) /\
  (decided_status (read_verdict (memory_of tr) address length) = Status.ok ->
   zlen (decided_payload (read_verdict (memory_of tr) address length)) = length).
Proof.
  intros Hv Hl Ha Hw. split.
  - rewrite <-(decision_read tr id) by lia.
    apply decision_proper; [done|apply read_request_protocol|done].
  - unfold read_verdict. case_bool_decide as E; [|done]. intros _.
    apply bytes_at_length; [apply Hv|done|done].
Qed.

(** What the result of a read can be, given the outcome of its last attempt. *)
Lemma read_conclusion tr id address length n o :
  loopback_valid tr -> 0 <= length <= 256 -> 0 <= address ->
  Frame.wf (read_request id address length) -> o <> cannot_connect ->
  (forall bytes, o = replied bytes -> exists fault,
     bytes = damage fault (wire (response_frame (read_request id address length)
                                   (read_verdict (memory_of tr) address length)))) ->
  let r := conclude (read_request id address length) Opcode.data_response length "" n o in
  OperationResult.error r ∈
    [ClientError.timeout; ClientError.disconnected; ClientError.malformed_response;
     ClientError.correlation_mismatch] \/
  OperationResult.error r =
    (if bool_decide (read_status address length = Status.ok) then ClientError.none
     else ClientError.remote_error) /\
  OperationResult.remote_status r = read_status address length /\
  OperationResult.data r = decided_payload (read_verdict (memory_of tr) address length).
Proof.
  intros Hv Hl Ha Hw Hno Hrep r.
  destruct (read_verdict_proper tr id address length Hv Hl Ha Hw) as [Hp Hlen].
  destruct o as [|e|bytes]; [done| |].
  - left. subst r. cbn [conclude Client.failure OperationResult.error]. unfold Client.error_of.
    destruct (bool_decide _); clear; set_solver.
  - destruct (Hrep bytes eq_refl) as [fault ->]. pose proof Hp as (Hpf & Hwf & _).
    destruct (judge_damaged (read_request id address length) Opcode.data_response length n fault
                _ Hpf Hwf (proper_answer_correlated _ _)) as [E|E].
    + right. subst r. cbn [conclude]. rewrite E.
      destruct (judge_answer (read_request id address length) Opcode.data_response length n
                  (read_verdict (memory_of tr) address length)) as (-> & -> & ->); [done|by auto|].
      by rewrite read_verdict_status.
    + left. subst r. cbn [conclude]. revert E. rewrite !elem_of_cons. tauto.
Qed.

(** ** Writes *)

(** What the server decides about a write. *)
Definition write_allowed (p : ServerPolicy.t) (address size : Z) : bool :=
  ServerPolicy.writes_enabled p && in_allowlist p address size &&
  bool_decide (write_status address size = Status.ok).

Definition write_verdict_status (p : ServerPolicy.t) (address size : Z) : Status.t :=
  if negb (ServerPolicy.writes_enabled p) then Status.write_disabled
  else if negb (in_allowlist p address size) then Status.access_denied
  else write_status address size.

Definition memory_after_write (p : ServerPolicy.t) (m : MemoryMap.t) (address : Z)
    (data : list byte) : MemoryMap.t :=
  if write_allowed p address (zlen data) then store m address data else m.

Lemma decision_write tr id address data :
  let d := decision tr (write_request id address data) in
  decided_status d = write_verdict_status (policy_of tr) address (zlen data) /\
  decided_memory d = memory_after_write (policy_of tr) (memory_of tr) address data /\
  (decided_status d = Status.ok <-> write_allowed (policy_of tr) address (zlen data) = true) /\
  (decided_status d = Status.ok -> decided_payload d = []).
Proof.
  unfold decision, serve, write_request, write_verdict_status, memory_after_write, write_allowed.
  cbn [Frame.opcode Frame.payload Frame.address].
  destruct (ServerPolicy.writes_enabled _); cbn [negb andb]; [|done].
  destruct (in_allowlist _ _ _); cbn [negb andb]; [|done].
  case_bool_decide as E; cbn [decided_status decided_memory decided_payload reject]; done.
Qed.

(** What the result of a write can be, given the outcome of its attempt. *)
Lemma write_conclusion tr id address data n fault prefix :
  loopback_valid tr -> 1 <= zlen data <= 256 -> 
  Frame.wf (write_request id address data) ->
  let request := write_request id address data in
  let d := decision tr request in
  let r := conclude request Opcode.write_acknowledgement 0 prefix n
             (replied (damage fault (wire (response_frame request d)))) in
  OperationResult.error r ∈
    [ClientError.malformed_response; ClientError.correlation_mismatch] \/
  damage fault (wire (response_frame request d)) = wire (response_frame request d) /\
  OperationResult.error r =
    (if write_allowed (policy_of tr) address (zlen data) then ClientError.none
     else ClientError.remote_error) /\
  OperationResult.remote_status r = write_verdict_status (policy_of tr) address (zlen data) /\
  OperationResult.data r = decided_payload d.
Proof.
  intros Hv Hl Hw request d r.
  assert (Hpr : protocol_frame request) by by constructor.
  pose proof (decision_proper request tr Hw Hpr Hv) as Hp. fold d in Hp.
  destruct (decision_write tr id address data) as (Hst & _ & Hok & Hpay). fold request d in Hst, Hok, Hpay.
  pose proof Hp as (Hpf & Hwf & _).
  destruct (judge_damaged request Opcode.write_acknowledgement 0 n fault
              _ Hpf Hwf (proper_answer_correlated _ _)) as [E|E]; [right|by left].
  split; [done|]. subst r. cbn [conclude]. rewrite E.
  destruct (judge_answer request Opcode.write_acknowledgement 0 n d) as (-> & -> & ->);
    [done|by intros Ho; rewrite (Hpay Ho)|].
  rewrite Hst. split; [|done]. rewrite <-Hst.
  destruct (write_allowed _ _ _); [by rewrite bool_decide_eq_true_2 by by apply Hok|].
  rewrite bool_decide_eq_false_2; [done|]. intros Ho. by apply Hok in Ho.
Qed.

(** ** Fault-free and transiently faulty transports *)

(** A run of transient faults delays a request by one attempt per fault. *)
Lemma tries_transient f deadline faults rest n tr :
  Frame.wf f -> protocol_frame f -> loopback_valid tr -> 0 < deadline ->
  LoopbackTransport.faults_ tr = faults ++ rest -> next_failure rest = None ->
  Forall (fun fault => is_Some (transient fault)) faults -> (length faults < n)%nat ->
  exists l a tr', tries (wire f) deadline n tr = Done (l ++ [a], tr') /\
    length l = length faults /\
    outcome a = replied (damage (head rest) (wire (response_frame f (decision tr f)))) /\
    after (served tr f) (tail rest) tr'.
Proof.
  intros Hw Hp. revert n tr; induction faults as [|fault faults IH]; intros n tr Hv Hd Hf Hrest Hall Hn;
    (destruct n as [|n]; [lia|]); rewrite tries_S;
    destruct (loopback_attempt f deadline tr Hw Hp Hv) as (b & tr1 & -> & Hcase);
    cbn [mbind exec_bind]; rewrite (proj2 (Z.leb_gt _ _)), Hf in Hcase by done;
    cbn [app next_failure head tail] in Hcase.
  - rewrite Hrest in Hcase. destruct Hcase as [Hb Ha]. rewrite Hb.
    exists [], b, tr1. done.
  - apply Forall_cons in Hall as [[e He] Hall]. rewrite He in Hcase.
    destruct Hcase as [Hb [Hs Hf1]]. rewrite Hb. cbn [is_failed].
    destruct (IH n tr1) as (l & a & tr2 & -> & Hlen & Hout & Haft); try done.
    + unfold loopback_valid in *. by rewrite Hs.
    + cbn in Hn. lia.
    + exists (b :: l), a, tr2. split; [done|]. split; [cbn; congruence|].
      unfold served, decision, policy_of, memory_of in *. by rewrite Hs in *.
Qed.

(** As many transient faults as attempts exhaust a read. *)
Lemma tries_exhausted f deadline faults n tr :
  Frame.wf f -> protocol_frame f -> loopback_valid tr -> 0 < deadline ->
  LoopbackTransport.faults_ tr = faults ->
  Forall (fun fault => is_Some (transient fault)) faults -> (n <= length faults)%nat ->
  exists l tr', tries (wire f) deadline n tr = Done (l, tr') /\ length l = n /\
    Forall (fun a => is_failed (outcome a) = true) l.
Proof.
  intros Hw Hp. revert faults tr; induction n as [|n IH]; intros faults tr Hv Hd Hf Hall Hn.
  { by exists [], tr. }
  destruct faults as [|fault faults]; [cbn in Hn; lia|]. rewrite tries_S.
  destruct (loopback_attempt f deadline tr Hw Hp Hv) as (b & tr1 & -> & Hcase).
  cbn [mbind exec_bind]. rewrite (proj2 (Z.leb_gt _ _)), Hf in Hcase by done.
  apply Forall_cons in Hall as [[e He] Hall].
  cbn [next_failure tail] in Hcase. rewrite He in Hcase.
  destruct Hcase as [Hb [Hs Hf1]]. rewrite Hb. cbn [is_failed].
  destruct (IH faults tr1) as (l & tr2 & -> & Hlen & Hfail); try done.
  - unfold loopback_valid in *. by rewrite Hs.
  - cbn in Hn. lia.
  - exists (b :: l), tr2. split; [done|]. split; [cbn; congruence|].
    constructor; [by rewrite Hb|done].
Qed.

(** ** An atomic memory

    The abstract system: one memory, a policy, and operations that complete at
    once.  A result is what a caller observes of an operation. *)
Record Observation : Set := {
  observed_error : ClientError.t;
  observed_status : Status.t;
  observed_data : list byte;
}.

Definition observe (r : OperationResult.t) : Observation := {|
  observed_error := OperationResult.error r;
  observed_status := OperationResult.remote_status r;
  observed_data := OperationResult.data r |}.

Definition refusal (status : Status.t) (detail : string) : Observation :=
  Build_Observation ClientError.remote_error status (text_bytes detail).

Definition atomic_perform (p : ServerPolicy.t) (m : MemoryMap.t) (o : Operation)
    : Observation * MemoryMap.t :=
  match o with
  | read_operation address length deadline =>
      if negb (valid_deadline_and_size length deadline) then
        (Build_Observation ClientError.invalid_argument Status.ok [], m)
      else if bool_decide (read_status address length = Status.ok) then
        (Build_Observation ClientError.none Status.ok (bytes_at m address length), m)
      else (refusal (read_status address length) "read_rejected", m)
  | write_operation address data deadline =>
      let size := zlen data in
      if negb (valid_deadline_and_size size deadline) then
        (Build_Observation ClientError.invalid_argument Status.ok [], m)
      else if negb (ServerPolicy.writes_enabled p) then
        (refusal Status.write_disabled "write_disabled", m)
      else if negb (in_allowlist p address size) then
        (refusal Status.access_denied "outside_write_allowlist", m)
      else if bool_decide (write_status address size = Status.ok) then
        (Build_Observation ClientError.none Status.ok [], store m address data)
      else (refusal (write_status address size) "memory_write_rejected", m)
  end.

Fixpoint atomic_session (p : ServerPolicy.t) (m : MemoryMap.t) (os : list Operation)
    : list Observation * MemoryMap.t :=
  match os with
  | [] => ([], m)
  | o :: os =>
      let '(x, m) := atomic_perform p m o in
      let '(xs, m) := atomic_session p m os in
      (x :: xs, m)
  end.

(** The arguments of an operation fit their types. *)
Definition arguments_wf (o : Operation) : Prop :=
  match o with
  | read_operation address length _ => 0 <= address < 2 ^ 32 /\ 0 <= length < 2 ^ 64
  | write_operation address _ _ => 0 <= address < 2 ^ 32
  end.

Lemma observe_answer request opcode len prefix n d :
  proper_answer request d ->
  (decided_status d = Status.ok ->
   response_opcode (Frame.opcode request) Status.ok = opcode /\ zlen (decided_payload d) = len) ->
  observe (conclude request opcode len prefix n (replied (wire (response_frame request d)))) =
  Build_Observation
    (if bool_decide (decided_status d = Status.ok) then ClientError.none
     else ClientError.remote_error) (decided_status d) (decided_payload d).
Proof.
  intros Hp Hexp. unfold observe. cbn [conclude].
  by destruct (judge_answer request opcode len n d Hp Hexp) as (-> & -> & ->).
Qed.

(** ** The same memory behind a faulty line

    What the queued faults make of an operation that may be attempted [n] times: the
    attempts used, the faults left, and whether the request was lost, or answered
    through some fault. *)
Inductive Delivery : Set :=
| lost (error : TransportError.t)
| delivered (fault : option TransportFault.t).

Fixpoint undergo (n : nat) (faults : list TransportFault.t) {struct faults}
    : Z * list TransportFault.t * Delivery :=
  match faults with
  | [] => (1, [], delivered None)
  | fault :: rest =>
      match transient fault, n with
      | None, _ => (1, rest, delivered (Some fault))
      | Some _, S (S _ as n) => let '(k, rest, d) := undergo n rest in (k + 1, rest, d)
      | Some e, _ => (1, rest, lost e)
      end
  end.

(** What a caller observes of an answer that comes back through a fault. *)
Definition distort (fault : option TransportFault.t) (x : Observation) : Observation :=
  match fault with
  | Some TransportFault.truncate_response | Some TransportFault.corrupt_response =>
      Build_Observation ClientError.malformed_response Status.ok []
  | Some TransportFault.wrong_request_id =>
      Build_Observation ClientError.correlation_mismatch (observed_status x) []
  | _ => x
  end.

Definition size_of (o : Operation) : Z :=
  match o with read_operation _ length _ => length | write_operation _ data _ => zlen data end.
Definition deadline_of (o : Operation) : Z :=
  match o with read_operation _ _ deadline | write_operation _ _ deadline => deadline end.
Definition accepted (o : Operation) : bool := valid_deadline_and_size (size_of o) (deadline_of o).

(** A read may be attempted as often as the client is configured for, a write once. *)
Definition attempts_allowed (max : Z) (o : Operation) : nat :=
  match o with read_operation _ _ _ => Z.to_nat max | write_operation _ _ _ => 1 end.

(** An operation on an atomic memory reached through a line with queued faults: what
    is observed, the attempts, and the memory and the faults after it. *)
Definition faulty_perform (p : ServerPolicy.t) (max : Z)
    (s : MemoryMap.t * list TransportFault.t) (o : Operation)
    : (Observation * Z) * (MemoryMap.t * list TransportFault.t) :=
  let '(m, faults) := s in
  let '(x, m') := atomic_perform p m o in
  if negb (accepted o) then ((x, 0), s)
  else
    match undergo (attempts_allowed max o) faults with
    | (k, rest, lost e) =>
        ((Build_Observation (Client.error_of e) Status.ok [], k), (m, rest))
    | (k, rest, delivered fault) => ((distort fault x, k), (m', rest))
    end.

(** *** The client and the server of one operation *)

Definition request_of (id : Z) (o : Operation) : Frame.t :=
  match o with
  | read_operation address length _ => read_request id address length
  | write_operation address data _ => write_request id address data
  end.

Definition answer_of (o : Operation) : Opcode.t * Z * string :=
  match o with
  | read_operation _ length _ => (Opcode.data_response, length, "")
  | write_operation _ _ _ => (Opcode.write_acknowledgement, 0, "write not retried: ")
  end.

Definition concluded (id : Z) (o : Operation) (n : Z) (x : Outcome) : OperationResult.t :=
  let '(opcode, len, prefix) := answer_of o in conclude (request_of id o) opcode len prefix n x.

Lemma concluded_attempts id o n x : OperationResult.attempts (concluded id o n x) = n.
Proof. by destruct o; apply conclude_attempts. Qed.

Lemma accepted_range o : accepted o = true -> 1 <= size_of o <= 256 /\ 0 < deadline_of o.
Proof. unfold accepted, valid_deadline_and_size. intros H. bool_props. lia. Qed.

Lemma request_of_protocol id o : accepted o = true -> protocol_frame (request_of id o).
Proof.
  intros Ho%accepted_range. destruct o; cbn in *; [apply read_request_protocol|].
  constructor; lia.
Qed.

Lemma request_of_wf c o :
  Client.wf c -> arguments_wf o -> Frame.wf (request_of (Client.next_request_id_ c) o).
Proof.
  intros Hc Ho. destruct o; [apply read_request_wf; [done|apply Ho]|by apply write_request_wf].
Qed.

Lemma perform_spec {T} `{ITransport T} o c (tr : T) l a tr' :
  Client.wf c -> arguments_wf o -> accepted o = true ->
  tries (wire (request_of (Client.next_request_id_ c) o)) (deadline_of o)
    (attempts_allowed (maximum c) o) tr = Done (l ++ [a], tr') ->
  perform o (c, tr) =
  let r := concluded (Client.next_request_id_ c) o (zlen l + 1) (outcome a) in
  Done (r, (client_after (started c) (l ++ [a]) r, tr')).
Proof.
  intros Hc Ha Ho Ht. destruct o as [address length deadline|address data deadline];
    cbn [request_of deadline_of attempts_allowed perform] in *; unfold concluded; cbn [answer_of].
  - destruct Ha as [_ [Hl _]].
    destruct (read_spec address length deadline c tr (l ++ [a]) tr') as (b & Hb & ->); try done.
    apply last_snoc_eq in Hb as ->. by rewrite zlen_app, zlen_cons, zlen_nil.
  - rewrite tries_S in Ht.
    destruct (try_exchange _ _ tr) as [[b tr1]|] eqn:Eb; cbn [mbind exec_bind] in Ht; [|done].
    assert (l ++ [a] = [b] /\ tr' = tr1) as [Hl ->]
      by (destruct (is_failed _); cbn in Ht; apply Done_inj in Ht as [= <- <-]; done).
    destruct l as [|? [|]]; try done. injection Hl as ->.
    by rewrite (write_spec address data deadline c tr b tr1).
Qed.

Lemma perform_refused {T} `{ITransport T} o c (tr : T) :
  Client.wf c -> arguments_wf o -> accepted o = false ->
  exists r, perform o (c, tr) = Done (r, (started c, tr)) /\
    observe r = Build_Observation ClientError.invalid_argument Status.ok [] /\
    OperationResult.attempts r = 0.
Proof.
  intros Hc Ha Ho. destruct o as [address length deadline|address data deadline]; cbn [perform].
  - destruct Ha as [_ [Hl _]]. rewrite read_refused by done. by eexists.
  - rewrite write_refused by done. by eexists.
Qed.

(** The attempts of an operation, on a queue of faults. *)
Lemma tries_undergo f deadline n tr :
  Frame.wf f -> protocol_frame f -> loopback_valid tr -> 0 < deadline -> (1 <= n)%nat ->
  exists l a tr', tries (wire f) deadline n tr = Done (l ++ [a], tr') /\
  let '(k, rest, d) := undergo n (LoopbackTransport.faults_ tr) in
  k = zlen l + 1 /\
  match d with
  | lost e => outcome a = failed e /\ after (LoopbackTransport.server_ tr) rest tr'
  | delivered fault =>
      outcome a = replied (damage fault (wire (response_frame f (decision tr f)))) /\
      after (served tr f) rest tr'
  end.
Proof.
  intros Hw Hp Hv Hd Hn. remember (LoopbackTransport.faults_ tr) as faults eqn:Hf.
  revert n tr Hv Hn Hf; induction faults as [|fault faults IH]; intros [|n] tr Hv Hn Hf; try lia;
    rewrite tries_S; destruct (loopback_attempt f deadline tr Hw Hp Hv) as (b & tr1 & -> & Hcase);
    cbn [mbind exec_bind]; rewrite (proj2 (Z.leb_gt _ _)), <-Hf in Hcase by done;
    cbn [next_failure head tail undergo] in Hcase |- *.
  - destruct Hcase as [Hb Haft]. rewrite Hb. by exists [], b, tr1.
  - destruct (transient fault) as [e|].
    2: { destruct Hcase as [Hb Haft]. rewrite Hb. by exists [], b, tr1. }
    destruct Hcase as [Hb [Hs Hf1]]. rewrite Hb. cbn [is_failed].
    destruct n as [|n]; [by exists [], b, tr1|].
    destruct (IH (S n) tr1) as (l & a & tr2 & -> & Hrest);
      [unfold loopback_valid in *; by rewrite Hs|lia|done|].
    exists (b :: l), a, tr2. split; [done|].
    unfold served, decision, policy_of, memory_of in *. rewrite Hs in *.
    destruct (undergo (S n) faults) as [[k rest] d]. rewrite zlen_cons.
    destruct Hrest as [-> Hrest]. split; [lia|done].
Qed.

(** A fault on the way back distorts what is observed of the answer. *)
Lemma observe_damaged request opcode len prefix n fault g :
  protocol_frame g -> Frame.wf g -> correlated request g ->
  observe (conclude request opcode len prefix n (replied (damage fault (wire g)))) =
  distort fault (observe (conclude request opcode len prefix n (replied (wire g)))).
Proof.
  intros Hp Hw [Hid Had]. destruct fault as [[| | | |]|]; try done; unfold observe; cbn [conclude].
  - by rewrite (judge_malformed _ _ _ _ _ _ _ (truncated_response_rejected g Hp Hw)).
  - by rewrite (judge_malformed _ _ _ _ _ _ _ (corrupted_response_rejected g Hp Hw)).
  - destruct (judge_wire request opcode len n g Hp Hw) as (_ & Hst & _).
    rewrite (proj1 (wrong_id_response g Hp Hw)).
    destruct (judge_wire request opcode len n (next_id g)) as (He & Hs & Hd);
      [by apply protocol_frame_with_id|by apply next_id_wf|].
    assert (bool_decide (correlated request (next_id g)) = false) as Hc.
    { apply bool_decide_eq_false_2. intros [Hid' _]. rewrite <-Hid in Hid'.
      by apply next_id_differs in Hid'. }
    rewrite Hc in He, Hd. cbn [negb] in He, Hd. rewrite He, Hs, Hd.
    cbn [distort observed_status]. by rewrite Hst.
Qed.

(** An undamaged answer is observed as the answer of the atomic memory. *)
Lemma observe_verdict_read tr id address length deadline n :
  loopback_valid tr -> 0 <= address -> accepted (read_operation address length deadline) = true ->
  Frame.wf (read_request id address length) ->
  observe (conclude (read_request id address length) Opcode.data_response length "" n
    (replied (wire (response_frame (read_request id address length)
                      (read_verdict (memory_of tr) address length))))) =
  (atomic_perform (policy_of tr) (memory_of tr) (read_operation address length deadline)).1.
Proof.
  intros Hv Ha Hargs Hw. pose proof (accepted_range _ Hargs) as [Hl _]. cbn [size_of] in Hl.
  destruct (read_verdict_proper tr id address length Hv ltac:(lia) Ha Hw) as [Hp Hlen].
  rewrite observe_answer by (done || by auto). rewrite read_verdict_status.
  unfold accepted in Hargs. cbn [size_of deadline_of] in Hargs.
  cbn [atomic_perform]. rewrite Hargs. cbn [negb].
  unfold read_verdict, refusal, reject. case_bool_decide as E; [by rewrite E|done].
Qed.

Lemma observe_verdict_write tr id address data deadline n :
  loopback_valid tr -> accepted (write_operation address data deadline) = true ->
  Frame.wf (write_request id address data) ->
  let f := write_request id address data in
  (observe (conclude f Opcode.write_acknowledgement 0 "write not retried: " n
      (replied (wire (response_frame f (decision tr f))))),
   decided_memory (decision tr f)) =
  atomic_perform (policy_of tr) (memory_of tr) (write_operation address data deadline).
Proof.
  intros Hv Hargs Hw f.
  pose proof (decision_proper f tr Hw (request_of_protocol id _ Hargs) Hv) as Hproper.
  destruct (decision_write tr id address data) as (_ & _ & _ & Hpay). fold f in Hpay.
  rewrite observe_answer by (done || by intros E; rewrite (Hpay E)).
  clear Hproper Hpay. unfold decision, serve, f, write_request.
  unfold accepted in Hargs. cbn [size_of deadline_of] in Hargs.
  cbn [atomic_perform Frame.opcode Frame.address Frame.payload]. rewrite Hargs. cbn [negb].
  destruct (ServerPolicy.writes_enabled _); cbn [negb]; [|done].
  destruct (in_allowlist _ _ _); cbn [negb]; [|done].
  destruct (decide (write_status address (zlen data) = Status.ok)) as [E|E].
  - rewrite !(bool_decide_eq_true_2 _ E). done.
  - by rewrite !(bool_decide_eq_false_2 _ E).
Qed.

Lemma answered o c tr n :
  Client.wf c -> loopback_valid tr -> arguments_wf o -> accepted o = true ->
  let id := Client.next_request_id_ c in
  let f := request_of id o in
  (observe (concluded id o n (replied (wire (response_frame f (decision tr f))))),
   decided_memory (decision tr f)) = atomic_perform (policy_of tr) (memory_of tr) o.
Proof.
  intros Hc Hv Ha Ho id f. pose proof (request_of_wf c o Hc Ha) as Hw.
  destruct o as [address length deadline|address data deadline]; unfold f, id, concluded in *;
    cbn [answer_of request_of] in *; [|by apply observe_verdict_write].
  pose proof (accepted_range _ Ho) as [Hl _]. cbn [size_of] in Hl.
  rewrite decision_read, read_verdict_memory by lia.
  rewrite (observe_verdict_read _ _ _ _ deadline) by (done || apply Ha).
  cbn [atomic_perform]. destruct (negb _); [done|]. by case_bool_decide.
Qed.

Lemma served_valid f tr tr' rest :
  Frame.wf f -> protocol_frame f -> loopback_valid tr -> after (served tr f) rest tr' ->
  loopback_valid tr'.
Proof.
  intros Hw Hp Hv [Hs _]. unfold loopback_valid. rewrite Hs.
  pose proof (handle_spec_wf (LoopbackTransport.server_ tr) (wire f) Hv) as Hwf.
  by rewrite handle_spec_wire in Hwf.
Qed.

Lemma atomic_refused p m o :
  accepted o = false ->
  atomic_perform p m o = (Build_Observation ClientError.invalid_argument Status.ok [], m).
Proof. by destruct o; unfold accepted; cbn [size_of deadline_of atomic_perform]; intros ->. Qed.

(** One operation of the client is one operation of the faulty memory. *)
Lemma perform_faulty o c tr :
  Client.wf c -> loopback_valid tr -> arguments_wf o ->
  exists r c' tr', perform o (c, tr) = Done (r, (c', tr')) /\
    Client.wf c' /\ loopback_valid tr' /\ maximum c' = maximum c /\ policy_of tr' = policy_of tr /\
    ((observe r, OperationResult.attempts r), (memory_of tr', LoopbackTransport.faults_ tr')) =
    faulty_perform (policy_of tr) (maximum c)
      (memory_of tr, LoopbackTransport.faults_ tr) o.
Proof.
  intros Hc Hv Ha. unfold faulty_perform. destruct (accepted o) eqn:Ho; cbn [negb].
  2: { destruct (perform_refused o c tr Hc Ha Ho) as (r & Hr & Hobs & Hat).
       exists r, (started c), tr. split; [done|]. split; [by apply started_wf|].
       split; [done|]. split; [done|]. split; [done|].
       by rewrite Hobs, Hat, atomic_refused. }
  set (f := request_of (Client.next_request_id_ c) o).
  pose proof (request_of_wf c o Hc Ha) as Hw. fold f in Hw.
  pose proof (request_of_protocol (Client.next_request_id_ c) o Ho) as Hp. fold f in Hp.
  assert (1 <= attempts_allowed (maximum c) o)%nat as Hn
    by (destruct Hc as [Hm _]; unfold maximum; destruct o; cbn; lia).
  destruct (tries_undergo f (deadline_of o) (attempts_allowed (maximum c) o) tr Hw Hp Hv
              (proj2 (accepted_range o Ho)) Hn) as (l & a & tr' & Ht & Hcase).
  rewrite (perform_spec o c tr l a tr' Hc Ha Ho Ht).
  pose proof (answered o c tr (zlen l + 1) Hc Hv Ha Ho) as Hans. cbn zeta in Hans. fold f in Hans.
  rewrite <-Hans. destruct (undergo _ _) as [[k rest] d]. destruct Hcase as [-> Hcase].
  eexists _, _, _. split; [reflexivity|].
  split; [apply client_after_wf; [by apply started_wf|by destruct l]|].
  assert (loopback_valid tr') as Hv'.
  { destruct d; destruct Hcase as [_ Haft]; [|by eapply served_valid].
    unfold loopback_valid in *. by rewrite (proj1 Haft). }
  split; [done|]. split; [done|].
  rewrite concluded_attempts. destruct d as [e|fault]; destruct Hcase as [-> [Hs Hf]];
    unfold memory_of, policy_of; rewrite Hs, Hf; (split; [done|]).
  - by destruct o.
  - unfold served. cbn [MemoryServer.memory_]. do 3 f_equal. clear Hans.
    unfold concluded. destruct (answer_of o) as [[opcode len] prefix].
    destruct (decision_proper f tr Hw Hp Hv) as (Hpf & Hwf & _).
    by apply observe_damaged.
Qed.

(** Operations interleaved with faults pushed by the owner of the transport. *)
Inductive Step : Set :=
| operate (o : Operation)
| inject (fault : TransportFault.t).

Definition step_wf (s : Step) : Prop :=
  match s with operate o => arguments_wf o | inject _ => True end.

Fixpoint scripted (script : list Step)
    : Run (Client.World LoopbackTransport.t) (list OperationResult.t) :=
  match script with
  | [] => mret []
  | operate o :: script => r ← perform o; rs ← scripted script; mret (r :: rs)
  | inject fault :: script =>
      _ ← modify (fun '(c, tr) => (c, LoopbackTransport.push_fault tr fault));
      scripted script
  end.

Fixpoint faulty_script (p : ServerPolicy.t) (max : Z)
    (s : MemoryMap.t * list TransportFault.t) (script : list Step)
    : list (Observation * Z) * (MemoryMap.t * list TransportFault.t) :=
  match script with
  | [] => ([], s)
  | operate o :: script =>
      let '(x, s) := faulty_perform p max s o in
      let '(xs, s) := faulty_script p max s script in
      (x :: xs, s)
  | inject fault :: script => faulty_script p max (s.1, s.2 ++ [fault]) script
  end.

(** A transport without queued faults. *)
Definition quiet (tr : LoopbackTransport.t) : Prop :=
  loopback_valid tr /\ LoopbackTransport.faults_ tr = [].

Lemma quiet_perform o c tr :
  Client.wf c -> quiet tr -> arguments_wf o ->
  exists r c' tr', perform o (c, tr) = Done (r, (c', tr')) /\
    Client.wf c' /\ quiet tr' /\ policy_of tr' = policy_of tr /\ OperationResult.attempts r <= 1 /\
    (observe r, memory_of tr') = atomic_perform (policy_of tr) (memory_of tr) o.
Proof.
  intros Hc [Hv Hf] Ha. destruct (perform_faulty o c tr Hc Hv Ha)
    as (r & c' & tr' & Hr & Hc' & Hv' & _ & Hp & Hobs).
  exists r, c', tr'. do 2 (split; [done|]). unfold faulty_perform in Hobs. rewrite Hf in Hobs.
  unfold quiet. destruct (accepted o) eqn:Ho; cbn [negb] in Hobs.
  - destruct (atomic_perform _ _ o) as [x m]. cbn [undergo distort] in Hobs.
    injection Hobs as E1 E2 E3 E4. by rewrite E1, E2, E3, E4.
  - rewrite atomic_refused in Hobs |- * by done. injection Hobs as E1 E2 E3 E4 E5 E6.
    unfold observe. by rewrite E1, E2, E3, E4, E5, E6.
Qed.

Lemma quiet_session os c tr :
  Client.wf c -> quiet tr -> Forall arguments_wf os ->
  exists rs c' tr', session os (c, tr) = Done (rs, (c', tr')) /\ quiet tr' /\
    (observe <$> rs, memory_of tr') = atomic_session (policy_of tr) (memory_of tr) os /\
    Forall (fun r => OperationResult.attempts r <= 1) rs.
Proof.
  intros Hc Hq Hos. revert c tr Hc Hq; induction Hos as [|o os Ho _ IH]; intros c tr Hc Hq.
  { by exists [], c, tr. }
  destruct (quiet_perform o c tr Hc Hq Ho) as (r & c1 & tr1 & Hr & Hc1 & Hq1 & Hp1 & Hat & Hobs).
  destruct (IH c1 tr1 Hc1 Hq1) as (rs & c2 & tr2 & Hrs & Hq2 & Hobs2 & Hat2).
  exists (r :: rs), c2, tr2. cbn [session]. rewrite run_bind_eq, Hr. cbn [mbind exec_bind].
  rewrite run_bind_eq, Hrs. split; [done|]. split; [done|]. split; [|by constructor].
  cbn [atomic_session]. rewrite <-Hobs, <-Hp1, <-Hobs2. done.
Qed.

(** ** Properties *)

(** C2. Reads are faithful and harmless.  Whatever faults are queued, a read
    through the loopback transport ends with a result and leaves the server as it
    was; if it reports success the data are the bytes of the server's memory at the
    requested addresses, all of them readable; if it reports a remote error the
    status is the one the memory map gives the interval.  No fault makes it return
    wrong data: the only other results are invalid arguments, the two transport
    failures and the two that say that the response is not the answer. *)
Theorem system_reads_are_faithful address length deadline c tr :
  Client.wf c -> loopback_reachable tr -> 0 <= address < 2 ^ 32 -> 0 <= length < 2 ^ 64 ->
  exists r c' tr', Client.read address length deadline (c, tr) = Done (r, (c', tr')) /\
    LoopbackTransport.server_ tr' = LoopbackTransport.server_ tr /\
    match OperationResult.error r with
    | ClientError.none =>
        address + length <= 0x800 /\ zlen (OperationResult.data r) = length /\
        forall k, 0 <= k < length ->
          OperationResult.data r !! Z.to_nat k = byte_at (memory_of tr) (address + k)
    | ClientError.remote_error =>
        OperationResult.remote_status r = read_status address length /\
        read_status address length <> Status.ok
    | ClientError.invalid_argument => valid_deadline_and_size length deadline = false
    | ClientError.timeout | ClientError.disconnected
    | ClientError.malformed_response | ClientError.correlation_mismatch => True
    | _ => False
    end.
Proof.
  intros Hc Htr Ha [Hl _]. apply loopback_reachable_valid in Htr as Hv.
  destruct (valid_deadline_and_size length deadline) eqn:Hargs.
  2: { rewrite read_refused by done. by eexists _, _, _. }
  destruct (read_complete address length deadline c tr Hc Hv Hl Hargs)
    as (l & a & tr' & Ht & _ & _ & ->).
  pose proof Hargs as Hb. unfold valid_deadline_and_size in Hb. bool_props.
  set (request := read_request (Client.next_request_id_ c) address length).
  assert (Hw : Frame.wf request) by by apply read_request_wf.
  destruct (read_tries _ address length deadline ltac:(lia) Hw _ _ _ _ _ Hv Ht) as (Hs & Hno & Hrep).
  eexists _, _, _. split; [reflexivity|]. split; [done|].
  destruct (read_conclusion tr (Client.next_request_id_ c) address length (zlen l + 1) (outcome a)
              Hv ltac:(lia) ltac:(lia) Hw Hno Hrep) as [Hin|(He & Hst & Hd)];
    [fold request in Hin|fold request in He, Hst, Hd].
  { revert Hin. rewrite !elem_of_cons, elem_of_nil. by intros [-> |[-> |[-> |[-> |[]]]]]. }
  rewrite He, Hst, Hd. case_bool_decide as E; [|done].
  unfold read_verdict. rewrite bool_decide_eq_true_2 by done. cbn [decided_payload].
  split; [apply read_status_ok in E; lia|].
  split; [apply bytes_at_length; [apply Hv|lia|done]|].
  intros k Hk. apply bytes_at_lookup; lia.
Qed.

(** C3. Writes happen at most once.  Whatever faults are queued, a write through
    the loopback transport ends with a result, and the server's memory is then
    unchanged or holds the data at the address, the latter only for a write the
    policy and the memory map allow.  Success means that it was stored; a transport
    failure, refused arguments or a remote error that it was not; only a response
    that the client could not match with the request leaves the question open. *)
Theorem system_writes_happen_at_most_once address data deadline c tr :
  Client.wf c -> loopback_reachable tr -> 0 <= address < 2 ^ 32 ->
  exists r c' tr', Client.write address data deadline (c, tr) = Done (r, (c', tr')) /\
    policy_of tr' = policy_of tr /\
    let stored :=
      write_allowed (policy_of tr) address (zlen data) = true /\
      memory_of tr' = store (memory_of tr) address data in
    let untouched := memory_of tr' = memory_of tr in
    match OperationResult.error r with
    | ClientError.none => stored
    | ClientError.malformed_response | ClientError.correlation_mismatch => stored \/ untouched
    | ClientError.remote_error =>
        untouched /\
        OperationResult.remote_status r = write_verdict_status (policy_of tr) address (zlen data) /\
        write_allowed (policy_of tr) address (zlen data) = false
    | ClientError.invalid_argument | ClientError.timeout | ClientError.disconnected => untouched
    | _ => False
    end.
Proof.
  intros Hc Htr Ha. apply loopback_reachable_valid in Htr as Hv.
  destruct (valid_deadline_and_size (zlen data) deadline) eqn:Hargs.
  2: { rewrite write_refused by done. by eexists _, _, _. }
  pose proof Hargs as Hb. unfold valid_deadline_and_size in Hb. bool_props.
  set (request := write_request (Client.next_request_id_ c) address data).
  assert (Hw : Frame.wf request) by by apply write_request_wf.
  assert (Hpr : protocol_frame request) by (constructor; lia).
  destruct (loopback_attempt request deadline tr Hw Hpr Hv) as (a & tr' & Ht & Hcase).
  rewrite (write_spec address data deadline c tr a tr' Hc Hargs Ht).
  rewrite (proj2 (Z.leb_gt _ _)) in Hcase by done.
  eexists _, _, _. split; [reflexivity|]. fold request. cbn zeta in Hcase |- *.
  destruct (next_failure (LoopbackTransport.faults_ tr)) as [e|] eqn:Ef;
    destruct Hcase as (Ho & Hs & _); rewrite Ho.
  { unfold policy_of, memory_of. rewrite Hs. split; [done|].
    cbn [conclude Client.failure OperationResult.error]. unfold Client.error_of.
    by destruct (bool_decide _). }
  assert (policy_of tr' = policy_of tr) as -> by (unfold policy_of at 1; by rewrite Hs).
  assert (memory_of tr' = decided_memory (decision tr request)) as ->
    by (unfold memory_of at 1; by rewrite Hs).
  destruct (decision_write tr (Client.next_request_id_ c) address data) as (_ & Hm & _).
  fold request in Hm. rewrite Hm. unfold memory_after_write. split; [done|].
  destruct (write_conclusion tr (Client.next_request_id_ c) address data 1
              (head (LoopbackTransport.faults_ tr)) "write not retried: " Hv ltac:(lia) Hw)
    as [Hin|(_ & He & Hst & _)]; [fold request in Hin|fold request in He, Hst].
  - revert Hin. rewrite !elem_of_cons, elem_of_nil.
    intros [-> |[-> |[]]]; destruct (write_allowed _ _ _); auto.
  - rewrite He, Hst. by destruct (write_allowed _ _ _).
Qed.

(** C18. Retries absorb transient faults.  If the queued faults are timeouts and
    disconnections only, fewer than the attempts a client makes, then a read of a
    readable interval with a positive deadline succeeds on the attempt after the
    last fault, with the bytes of the memory; if there are at least as many faults
    as attempts it uses them all and reports the transport failure. *)
Theorem system_read_survives_transient_faults address length deadline c tr :
  Client.wf c -> loopback_reachable tr -> 0 <= address < 2 ^ 32 ->
  0 < length <= 256 -> address + length <= 0x800 -> 0 < deadline ->
  let faults := LoopbackTransport.faults_ tr in
  Forall (fun fault => fault = TransportFault.timeout \/ fault = TransportFault.disconnect) faults ->
  exists r c' tr', Client.read address length deadline (c, tr) = Done (r, (c', tr')) /\
    if zlen faults <? maximum c then
      OperationResult.error r = ClientError.none /\
      OperationResult.data r = bytes_at (memory_of tr) address length /\
      OperationResult.attempts r = zlen faults + 1 /\ LoopbackTransport.faults_ tr' = []
    else
      OperationResult.attempts r = maximum c /\
      (OperationResult.error r = ClientError.timeout \/
       OperationResult.error r = ClientError.disconnected).
Proof.
  intros Hc Htr Ha Hl He Hd faults Hall. apply loopback_reachable_valid in Htr as Hv.
  assert (Hargs : valid_deadline_and_size length deadline = true).
  { unfold valid_deadline_and_size. rewrite !andb_true_iff, !Z.ltb_lt, Z.leb_le. lia. }
  assert (Htrans : Forall (fun fault => is_Some (transient fault)) faults).
  { eapply Forall_impl; [exact Hall|]. intros fault [-> | ->]; by eexists. }
  set (request := read_request (Client.next_request_id_ c) address length).
  assert (Hw : Frame.wf request) by by apply read_request_wf.
  assert (Hok : read_status address length = Status.ok) by (apply read_status_ok; lia).
  pose proof Hc as [Hmax _]. fold (maximum c) in Hmax.
  destruct (Z.ltb_spec (zlen faults) (maximum c)) as [Hlt|Hge]; unfold zlen in *.
  - destruct (tries_transient request deadline faults [] (Z.to_nat (maximum c)) tr)
      as (l & a & tr' & Ht & Hlen & Ho & _ & Hf); try done;
      [apply read_request_protocol|by rewrite app_nil_r|lia|].
    destruct (read_spec address length deadline c tr (l ++ [a]) tr' Hc ltac:(lia) Hargs Ht)
      as (b & Hb & ->). apply last_snoc_eq in Hb as <-.
    eexists _, _, _. split; [reflexivity|]. cbn [head tail damage] in Ho, Hf.
    unfold request in Ho. rewrite decision_read in Ho by lia. rewrite Ho.
    pose proof (observe_verdict_read tr (Client.next_request_id_ c) address length deadline
                  (zlen (l ++ [a])) Hv ltac:(lia) Hargs Hw) as Hobs.
    cbn [atomic_perform] in Hobs. rewrite Hargs, (bool_decide_eq_true_2 _ Hok) in Hobs.
    split; [exact (f_equal observed_error Hobs)|]. split; [exact (f_equal observed_data Hobs)|].
    split; [|exact Hf].
    rewrite (proj1 (conclude_attempts _ _ _ _ _ _)), zlen_app, zlen_cons, zlen_nil.
    unfold zlen. by rewrite Hlen.
  - destruct (tries_exhausted request deadline faults (Z.to_nat (maximum c)) tr)
      as (l & tr' & Ht & Hlen & Hf); try done; [apply read_request_protocol|lia|].
    destruct (read_spec address length deadline c tr l tr' Hc ltac:(lia) Hargs Ht)
      as (b & Hb & ->). eexists _, _, _. split; [reflexivity|].
    rewrite (proj1 (conclude_attempts _ _ _ _ _ _)). split; [unfold zlen; lia|].
    apply last_Some in Hb as [l' ->]. apply Forall_app in Hf as [_ Hf].
    apply Forall_cons in Hf as [Hf _]. destruct (outcome b); try done. cbn.
    unfold Client.error_of. destruct (bool_decide _); auto.
Qed.

(** Without faults the system refines an atomic memory.  Any sequence of reads
    and writes through client, transport, codec and server gives, operation by
    operation, the results of the same sequence on one memory under the server's
    policy, each in a single attempt, and the server's memory is then that memory. *)
Theorem system_refines_atomic_memory os c tr :
  Client.wf c -> loopback_reachable tr -> LoopbackTransport.faults_ tr = [] ->
  Forall arguments_wf os ->
  exists rs c' tr', session os (c, tr) = Done (rs, (c', tr')) /\
    (observe <$> rs, memory_of tr') = atomic_session (policy_of tr) (memory_of tr) os /\
    Forall (fun r => OperationResult.attempts r <= 1) rs.
Proof.
  intros Hc Htr%loopback_reachable_valid Hf Hos.
  destruct (quiet_session os c tr Hc (conj Htr Hf) Hos) as (rs & c' & tr' & E & _ & Hx).
  by exists rs, c', tr'.
Qed.

(** C1. Under any faults the system refines the same memory behind a faulty line.  In
    any sequence of reads, writes and injected faults, started with any faults queued,
    every operation ends; its error, status, data and number of attempts are those of
    the atomic memory after the faults its attempts meet, each attempt consuming one
    fault: timeouts and disconnections are retried as far as the operation may be
    attempted and then reported, a damaged answer is reported as such, with the
    operation done at the server, and any other answer is that of the memory.  The
    server's memory and the faults left are those of the line. *)
Theorem system_refines_faulty_memory script c tr :
  Client.wf c -> loopback_reachable tr -> Forall step_wf script ->
  exists rs c' tr', scripted script (c, tr) = Done (rs, (c', tr')) /\
    ((fun r => (observe r, OperationResult.attempts r)) <$> rs,
     (memory_of tr', LoopbackTransport.faults_ tr')) =
    faulty_script (policy_of tr) (maximum c) (memory_of tr, LoopbackTransport.faults_ tr) script.
Proof.
  intros Hc Htr%loopback_reachable_valid Hs.
  revert c tr Hc Htr; induction Hs as [|[o|fault] script Ho _ IH]; intros c tr Hc Hv.
  - by exists [], c, tr.
  - destruct (perform_faulty o c tr Hc Hv Ho) as (r & c1 & tr1 & Hr & Hc1 & Hv1 & Hm1 & Hp1 & Hx).
    destruct (IH c1 tr1 Hc1 Hv1) as (rs & c2 & tr2 & Hrs & Hxs).
    exists (r :: rs), c2, tr2. cbn [scripted]. rewrite run_bind_eq, Hr. cbn [mbind exec_bind].
    rewrite run_bind_eq, Hrs. split; [done|]. cbn [faulty_script].
    by rewrite <-Hx, <-Hp1, <-Hm1, <-Hxs.
  - destruct (IH c (LoopbackTransport.push_fault tr fault) Hc Hv) as (rs & c2 & tr2 & Hrs & Hxs).
    by exists rs, c2, tr2.
Qed.

(** What is written can be read back.  On a server that allows the write, with
    no faults queued, a write followed by a read of as many bytes at the same address
    both succeed, and the read returns the data written; a read of any disjoint
    readable interval instead returns what was there before. *)
Theorem system_write_then_read address data address' length c tr :
  Client.wf c -> loopback_reachable tr -> LoopbackTransport.faults_ tr = [] ->
  0 <= address < 2 ^ 32 -> zlen data <= 256 ->
  write_allowed (policy_of tr) address (zlen data) = true ->
  0 <= address' -> 0 < length <= 256 -> address' + length <= 0x800 ->
  (address' = address /\ length = zlen data \/
   address' + length <= address \/ address + zlen data <= address') ->
  exists r1 r2 w,
    session [write_operation address data 50; read_operation address' length 50] (c, tr) =
      Done ([r1; r2], w) /\
    OperationResult.error r1 = ClientError.none /\
    OperationResult.error r2 = ClientError.none /\
    OperationResult.data r2 =
      (if bool_decide (address' = address) then data else bytes_at (memory_of tr) address' length).
Proof.
  intros Hc Htr Hf Ha Hmax Hallow Ha' Hl He Hrange.
  assert (Hq : quiet tr) by (split; [by apply loopback_reachable_valid|done]).
  pose proof Hallow as Hok. unfold write_allowed in Hok. bool_props.
  match goal with H : bool_decide _ = true |- _ => apply bool_decide_eq_true in H as Hst end.
  pose proof (proj1 (write_status_ok _ _) Hst) as Hb.
  assert (Hargs : valid_deadline_and_size (zlen data) 50 = true).
  { unfold valid_deadline_and_size. rewrite !andb_true_iff, !Z.ltb_lt, Z.leb_le. lia. }
  assert (Hargs' : valid_deadline_and_size length 50 = true).
  { unfold valid_deadline_and_size. rewrite !andb_true_iff, !Z.ltb_lt, Z.leb_le. lia. }
  destruct (quiet_perform (write_operation address data 50) c tr Hc Hq Ha)
    as (r1 & c1 & tr1 & Hr1 & Hc1 & Hq1 & Hp1 & _ & Hobs1).
  destruct (quiet_perform (read_operation address' length 50) c1 tr1 Hc1 Hq1)
    as (r2 & c2 & tr2 & Hr2 & _ & _ & _ & _ & Hobs2); [cbn; lia|].
  exists r1, r2, (c2, tr2). cbn [session]. rewrite run_bind_eq, Hr1. cbn [mbind exec_bind].
  rewrite run_bind_eq, run_bind_eq, Hr2. split; [done|].
  cbn [atomic_perform] in Hobs1, Hobs2. rewrite Hargs in Hobs1. rewrite Hargs' in Hobs2.
  cbn [negb] in Hobs1, Hobs2.
  repeat match goal with H : ?b = true, H' : context [negb ?b] |- _ => rewrite H in H' end.
  rewrite (bool_decide_eq_true_2 _ Hst) in Hobs1. cbn [negb] in Hobs1.
  rewrite bool_decide_eq_true_2 in Hobs2 by (apply read_status_ok; lia).
  pose proof (f_equal fst Hobs1) as Ho1. pose proof (f_equal snd Hobs1) as Hm.
  pose proof (f_equal fst Hobs2) as Ho2. cbn [fst snd] in Ho1, Hm, Ho2.
  split; [exact (f_equal observed_error Ho1)|]. split; [exact (f_equal observed_error Ho2)|].
  pose proof (f_equal observed_data Ho2) as Hd. cbn [observe observed_data] in Hd. rewrite Hd, Hm.
  destruct Hq as [[_ Hwf] _]. change (MemoryMap.wf (memory_of tr)) in Hwf.
  destruct (decide (address' = address)) as [Heq|Heq].
  - rewrite (bool_decide_eq_true_2 _ Heq), Heq. assert (length = zlen data) as -> by lia.
    apply bytes_at_store; done || lia.
  - rewrite (bool_decide_eq_false_2 _ Heq).
    assert (Hdis : address' + length <= address \/ address + zlen data <= address') by lia.
    apply bytes_at_store_disjoint; done || lia.
Qed.

(** *** The properties at concrete inputs *)

Lemma system_reads_are_faithful_witness :
  exists r c' tr', Client.read 0 4 50 (sample_client, connected_loopback) = Done (r, (c', tr')) /\
    LoopbackTransport.server_ tr' = initial_server.
Proof.
  destruct (system_reads_are_faithful 0 4 50 sample_client connected_loopback
              sample_client_wf connected_loopback_reachable)
    as (r & c' & tr' & E & Hs & _); [by split|by split|].
  exists r, c', tr'. split; [exact E|exact Hs].
Defined.

Lemma system_writes_happen_at_most_once_witness :
  exists r c' tr',
    Client.write 0x100 [to_byte 1] 50 (sample_client, connected_loopback) = Done (r, (c', tr')) /\
    policy_of tr' = policy_of connected_loopback.
Proof.
  destruct (system_writes_happen_at_most_once 0x100 [to_byte 1] 50 sample_client
              connected_loopback sample_client_wf connected_loopback_reachable)
    as (r & c' & tr' & E & Hp & _); [by split|].
  exists r, c', tr'. split; [exact E|exact Hp].
Defined.

Lemma system_read_survives_transient_faults_witness :
  exists r c' tr', Client.read 0 4 50 (sample_client, connected_loopback) = Done (r, (c', tr')) /\
    OperationResult.error r = ClientError.none /\ OperationResult.attempts r = 2.
Proof.
  destruct (system_read_survives_transient_faults 0 4 50 sample_client connected_loopback
              sample_client_wf connected_loopback_reachable)
    as (r & c' & tr' & E & Hr); [by split|by split|done|done| |].
  - constructor; [left; reflexivity|constructor].
  - exists r, c', tr'. destruct Hr as (He & _ & Ha & _). split; [exact E|]. split; [exact He|exact Ha].
Defined.

Lemma system_refines_atomic_memory_witness :
  exists rs c' tr',
    session [write_operation 0x100 [to_byte 7] 50; read_operation 0x100 1 50]
      (sample_client, initial_loopback) = Done (rs, (c', tr')) /\
    Forall (fun r => OperationResult.attempts r <= 1) rs.
Proof.
  destruct (system_refines_atomic_memory
              [write_operation 0x100 [to_byte 7] 50; read_operation 0x100 1 50]
              sample_client initial_loopback sample_client_wf initial_loopback_reachable eq_refl)
    as (rs & c' & tr' & E & _ & Hat).
  - constructor; [by split|]. constructor; [by split|constructor].
  - exists rs, c', tr'. split; [exact E|exact Hat].
Defined.

Lemma system_write_then_read_witness :
  exists r1 r2 w,
    session [write_operation 0x100 [to_byte 7] 50; read_operation 0x100 1 50]
      (sample_client, initial_loopback) = Done ([r1; r2], w) /\
    OperationResult.data r2 = [to_byte 7].
Proof.
  destruct (system_write_then_read 0x100 [to_byte 7] 0x100 1 sample_client initial_loopback
              sample_client_wf initial_loopback_reachable eq_refl)
    as (r1 & r2 & w & E & _ & _ & Hd); [by split|by vm_compute|reflexivity|done|by split|done| |].
  - left. split; reflexivity.
  - exists r1, r2, w. split; [exact E|exact Hd].
Defined.

Lemma system_refines_faulty_memory_witness :
  exists rs c' tr',
    scripted [inject TransportFault.corrupt_response; operate (read_operation 0 1 50)]
      (sample_client, initial_loopback) = Done (rs, (c', tr')) /\
    observed_error ∘ observe <$> rs = [ClientError.malformed_response].
Proof.
  destruct (system_refines_faulty_memory
              [inject TransportFault.corrupt_response; operate (read_operation 0 1 50)]
              sample_client initial_loopback sample_client_wf initial_loopback_reachable)
    as (rs & c' & tr' & E & Hx).
  - constructor; [done|]. constructor; [split; by split|constructor].
  - exists rs, c', tr'. split; [exact E|].
    apply (f_equal fst) in Hx. cbn [fst] in Hx. apply (f_equal (fmap (observed_error ∘ fst))) in Hx.
    rewrite <-list_fmap_compose in Hx. exact Hx.
Defined.
