(* ===== verification/Connection.v ===== *)
(** * The connection protocol: in which states of a transport a client calls it.

    The state diagram of [docs/architecture.md] as a step relation, and the proof that
    every session of a client is a path of it, over any transport.  The requirement on
    callers that [ITransport] leaves implicit, not to exchange on a connection that is
    not there, holds of all calls. *)

From S2P Require Import Prelude Types BigEndian Crc Codec Memory Server Transport.
From S2P Require Import ImlpClient ClientProperties System.

(** ** The states of a conversation

    Between attempts nothing is known of the connection; once the transport has said
    that it is connected, or has connected, one exchange may be made; a failed exchange
    leaves a connection that must be closed. *)
Inductive Phase : Set := idle | ready | broken.

Section Protocol.
Context {T : Type} `{ITransport T}.

Inductive step : Phase -> T -> list Event -> Phase -> T -> Prop :=
| step_found_connected tr :
    connected tr = true -> step idle tr [] ready tr
| step_connect tr ok tr' :
    connected tr = false -> connect tr = Done (ok, tr') ->
    step idle tr [connect_event ok] (if ok : bool then ready else idle) tr'
| step_exchange tr request deadline r tr' :
    exchange tr request deadline = Done (r, tr') ->
    step ready tr [exchange_event request deadline (reply_outcome r)]
      (if TransportReply.to_bool r then idle else broken) tr'
| step_close tr :
    step broken tr [close_event] idle (close tr).

Inductive path : Phase -> T -> list Event -> Phase -> T -> Prop :=
| path_here p tr : path p tr [] p tr
| path_step p1 tr1 l p2 tr2 k p3 tr3 :
    step p1 tr1 l p2 tr2 -> path p2 tr2 k p3 tr3 -> path p1 tr1 (l ++ k) p3 tr3.

Lemma path_app p1 tr1 l p2 tr2 k p3 tr3 :
  path p1 tr1 l p2 tr2 -> path p2 tr2 k p3 tr3 -> path p1 tr1 (l ++ k) p3 tr3.
Proof.
  induction 1; intros Hk; [done|]. rewrite <-app_assoc. eapply path_step; eauto.
Qed.

Lemma path_one p1 tr1 l p2 tr2 : step p1 tr1 l p2 tr2 -> path p1 tr1 l p2 tr2.
Proof. intros Hs. rewrite <-(app_nil_r l). eapply path_step; [exact Hs|constructor]. Qed.

(** A path consists of calls of the transport. *)
Lemma path_runs p tr l p' tr' : path p tr l p' tr' -> runs tr l tr'.
Proof.
  induction 1 as [|p1 tr1 l p2 tr2 k p3 tr3 Hs _ IH]; [constructor|].
  destruct Hs; cbn [app]; [done|by eapply runs_connect|by eapply runs_exchange|by apply runs_close].
Qed.

(** *** An attempt is a path *)

Lemma exchange_path bytes deadline tr r tr' :
  exchange tr bytes deadline = Done (r, tr') ->
  path ready tr
    (exchange_event bytes deadline (reply_outcome r) ::
     if TransportReply.to_bool r then [] else [close_event])
    idle (if TransportReply.to_bool r then tr' else close tr').
Proof.
  intros E. apply step_exchange in E. destruct (TransportReply.to_bool r).
  - by apply path_one.
  - eapply (path_step _ _ [_]); [exact E|]. apply path_one, step_close.
Qed.

Lemma try_exchange_path bytes deadline tr a tr' :
  try_exchange bytes deadline tr = Done (a, tr') ->
  path idle tr (attempt_events bytes deadline a) idle tr'.
Proof.
  unfold try_exchange, attempt_events. destruct (connected tr) eqn:Hc.
  - cbn. destruct (exchange tr bytes deadline) as [[r tr2]|] eqn:E; cbn; [|done].
    pose proof (exchange_path _ _ _ _ _ E) as Hp. unfold reply_outcome in Hp.
    destruct (TransportReply.to_bool r); intros [= <- <-]%Done_inj;
      by apply (path_step _ _ [] ready tr); [apply step_found_connected|].
  - destruct (connect tr) as [[ok tr1]|] eqn:Ec; cbn; [|done].
    pose proof (step_connect _ _ _ Hc Ec) as Hs. destruct ok; cbn.
    + destruct (exchange tr1 bytes deadline) as [[r tr2]|] eqn:E; cbn; [|done].
      pose proof (exchange_path _ _ _ _ _ E) as Hp. unfold reply_outcome in Hp.
      destruct (TransportReply.to_bool r); intros [= <- <-]%Done_inj;
        by apply (path_step _ _ [_] ready tr1).
    + intros [= <- <-]%Done_inj. by apply path_one.
Qed.

Lemma tries_path bytes deadline n tr l tr' :
  tries bytes deadline n tr = Done (l, tr') -> path idle tr (events_of bytes deadline l) idle tr'.
Proof.
  revert tr l; induction n as [|n IH]; intros tr l; [intros [= <- <-]%Done_inj; constructor|].
  rewrite tries_S. destruct (try_exchange _ _ tr) as [[a tr1]|] eqn:Ea; [|done].
  apply try_exchange_path in Ea. cbn [mbind exec_bind]. destruct (is_failed _).
  - destruct (tries _ _ n tr1) as [[l1 tr2]|] eqn:Et; [|done].
    intros [= <- <-]%Done_inj. apply IH in Et. by eapply path_app.
  - intros [= <- <-]%Done_inj. unfold events_of. cbn. by rewrite app_nil_r.
Qed.
End Protocol.

(** ** Sessions *)

(** What an operation with request ID [id] says to the transport: nothing when its
    arguments are refused, else its own encoded request, with its deadline, at most once
    per attempt, which are at most [max]. *)
Definition conversation (max id : Z) (o : Operation) (r : OperationResult.t) (events : list Event)
    : Prop :=
  if accepted o then
    Forall (fun e => match e with
                     | exchange_event request deadline _ =>
                         request = wire (request_of id o) /\ deadline = deadline_of o
                     | _ => True
                     end) events /\
    tally is_exchange events <= OperationResult.attempts r /\
    1 <= OperationResult.attempts r <= Z.of_nat (attempts_allowed max o)
  else events = [] /\ OperationResult.attempts r = 0.

Fixpoint conversations (max id : Z) (os : list Operation) (rs : list OperationResult.t)
    (dialogue : list (list Event)) : Prop :=
  match os, rs, dialogue with
  | [], [], [] => True
  | o :: os, r :: rs, events :: dialogue =>
      conversation max id o r events /\ conversations max (following_id id) os rs dialogue
  | _, _, _ => False
  end.

Lemma attempt_exchanges bytes deadline a : tally is_exchange (attempt_events bytes deadline a) <= 1.
Proof. by destruct a as [[] [| |]]. Qed.

Lemma attempts_exchanges bytes deadline l :
  tally is_exchange (events_of bytes deadline l) <= zlen l.
Proof.
  induction l as [|a l IH]; [done|].
  change (events_of bytes deadline (a :: l))
    with (attempt_events bytes deadline a ++ events_of bytes deadline l).
  rewrite tally_app, zlen_cons. pose proof (attempt_exchanges bytes deadline a). lia.
Qed.

Lemma attempts_events bytes deadline l :
  Forall (fun e => match e with
                   | exchange_event request d _ => request = bytes /\ d = deadline
                   | _ => True
                   end) (events_of bytes deadline l).
Proof.
  unfold events_of. apply Forall_concat, Forall_fmap, Forall_true. intros [[] [| |]]; by repeat constructor.
Qed.

Section Session.
Context {T : Type} `{TransportLaws T valid}.

Lemma perform_path o c (tr : T) :
  Client.wf c -> valid tr -> arguments_wf o ->
  exists r c' tr' events, perform o (c, tr) = Done (r, (c', tr')) /\ valid tr' /\ Client.wf c' /\
    maximum c' = maximum c /\
    Client.next_request_id_ c' = following_id (Client.next_request_id_ c) /\
    path idle tr events idle tr' /\
    conversation (maximum c) (Client.next_request_id_ c) o r events.
Proof.
  intros Hc Hv Ha. unfold conversation. destruct (accepted o) eqn:Ho.
  - assert (1 <= attempts_allowed (maximum c) o)%nat as Hn
      by (destruct Hc as [Hm _]; unfold maximum; destruct o; cbn; lia).
    destruct (tries_returns (wire (request_of (Client.next_request_id_ c) o)) (deadline_of o)
                (attempts_allowed (maximum c) o) tr Hv Hn) as (l & a & tr' & Ht & (_ & Hl & _) & Hv').
    rewrite (perform_spec o c tr l a tr' Hc Ha Ho Ht).
    eexists _, _, tr', _. split; [reflexivity|]. split; [done|].
    split; [apply client_after_wf; [by apply started_wf|by destruct l]|].
    split; [done|]. split; [done|]. split; [by eapply tries_path|].
    rewrite concluded_attempts. split; [apply attempts_events|]. split.
    + pose proof (attempts_exchanges (wire (request_of (Client.next_request_id_ c) o))
                    (deadline_of o) (l ++ [a])) as Hx.
      by rewrite zlen_app, zlen_cons, zlen_nil in Hx.
    + unfold zlen. lia.
  - destruct (perform_refused o c tr Hc Ha Ho) as (r & Hr & _ & Hat).
    exists r, (started c), tr, []. split; [done|]. split; [done|].
    split; [by apply started_wf|]. split; [done|]. split; [done|]. split; [constructor|done].
Qed.
End Session.

Lemma session_path {T} `{TransportLaws T valid} os c (tr : T) :
  Client.wf c -> valid tr -> Forall arguments_wf os ->
  exists rs c' tr' dialogue,
    session os (c, tr) = Done (rs, (c', tr')) /\
    path idle tr (concat dialogue) idle tr' /\
    conversations (maximum c) (Client.next_request_id_ c) os rs dialogue.
Proof.
  intros Hc Hv Hos. revert c tr Hc Hv; induction Hos as [|o os Ho _ IH]; intros c tr Hc Hv.
  { exists [], c, tr, []. split; [done|]. split; [constructor|done]. }
  destruct (perform_path o c tr Hc Hv Ho)
    as (r & c1 & tr1 & events & Hr & Hv1 & Hc1 & Hm & Hid & Hp & Hconv).
  destruct (IH c1 tr1 Hc1 Hv1) as (rs & c2 & tr2 & dialogue & Hrs & Hps & Hconvs).
  exists (r :: rs), c2, tr2, (events :: dialogue). cbn [session].
  rewrite run_bind_eq, Hr. cbn [mbind exec_bind]. rewrite run_bind_eq, Hrs. split; [done|].
  split; [by eapply path_app|]. cbn [conversations]. split; [done|by rewrite <-Hid, <-Hm].
Qed.

(** On the loopback transport a conversation never meets a missing connection. *)
Lemma loopback_step_connected p tr l p' tr' :
  step p tr l p' tr' -> loopback_valid tr ->
  (p = ready -> LoopbackTransport.connected_ tr = true) ->
  loopback_valid tr' /\ (p' = ready -> LoopbackTransport.connected_ tr' = true) /\
  Forall (fun e => forall request deadline,
            e <> exchange_event request deadline (failed TransportError.not_connected)) l.
Proof.
  intros Hs Hv Hr. destruct Hs as [tr Hc|tr ok tr' Hc Hk|tr request deadline r tr' He|tr].
  - by split.
  - apply Done_inj in Hk as [= <- <-]. split; [done|]. split; [done|]. by constructor.
  - destruct (exchange_returns tr request deadline Hv) as (r' & tr1 & He' & Hv').
    rewrite He in He'. apply Done_inj in He' as [= <- <-].
    cbn [exchange LoopbackTransport_ITransport] in He. rewrite exchange_refines in He by done.
    apply Done_inj in He. split; [done|]. split; [by destruct (TransportReply.to_bool r)|].
    constructor; [|constructor]. intros q d [= _ _ E]. revert E.
    unfold reply_outcome. destruct (TransportReply.to_bool r); [done|]. intros [= E].
    apply (f_equal (TransportReply.error ∘ fst)) in He. cbn in He. rewrite E in He. revert He.
    unfold exchange_spec. rewrite (Hr eq_refl). destruct (handle_spec _ request) as [h server].
    by repeat case_match.
  - split; [done|]. split; [done|]. by constructor.
Qed.

Lemma loopback_path_connected p tr l p' tr' :
  path p tr l p' tr' -> loopback_valid tr ->
  (p = ready -> LoopbackTransport.connected_ tr = true) ->
  Forall (fun e => forall request deadline,
            e <> exchange_event request deadline (failed TransportError.not_connected)) l.
Proof.
  induction 1 as [|p1 tr1 l p2 tr2 k p3 tr3 Hs _ IH]; intros Hv Hr; [constructor|].
  destruct (loopback_step_connected _ _ _ _ _ Hs Hv Hr) as (Hv2 & Hr2 & Hl).
  apply Forall_app. split; [done|by apply IH].
Qed.

(** ** Properties *)

(** C16. Clients keep to the connection protocol.  Over any transport that answers its
    calls, a session of any operations is a path of the state diagram, from idle to
    idle: [connect] is called only on a transport that says it is not connected, an
    exchange is made only when the transport has said that it is connected or has just
    connected, a failed exchange is followed by [close] before anything else, and
    [close] is called at no other time.  The operations speak one after the other, each
    with its own request, the same at every attempt, and as often as it may. *)
Theorem client_follows_connection_protocol {T} `{TransportLaws T valid} os c (tr : T) :
  Client.wf c -> valid tr -> Forall arguments_wf os ->
  exists rs c' tr' dialogue,
    session os (c, tr) = Done (rs, (c', tr')) /\
    path idle tr (concat dialogue) idle tr' /\
    conversations (maximum c) (Client.next_request_id_ c) os rs dialogue.
Proof. apply session_path. Qed.

(** Over the loopback transport no exchange of a session fails for want of a
    connection. *)
Theorem loopback_is_always_connected os c tr :
  Client.wf c -> loopback_reachable tr -> Forall arguments_wf os ->
  exists rs c' tr' events, session os (c, tr) = Done (rs, (c', tr')) /\ runs tr events tr' /\
    forall request deadline,
      exchange_event request deadline (failed TransportError.not_connected) ∉ events.
Proof.
  intros Hc Htr%loopback_reachable_valid Hos.
  destruct (session_path os c tr Hc Htr Hos) as (rs & c' & tr' & dialogue & Hs & Hp & _).
  exists rs, c', tr', (concat dialogue). split; [done|]. split; [by eapply path_runs|].
  intros request deadline Hin.
  apply loopback_path_connected in Hp; [|done|done]. rewrite Forall_forall in Hp.
  by apply (Hp _ Hin request deadline).
Qed.

(** *** The properties at concrete inputs *)

Definition sample_session : list Operation :=
  [read_operation 0 4 50; write_operation 0x100 [to_byte 7] 50; read_operation 0 0 50].

Lemma sample_session_wf : Forall arguments_wf sample_session.
Proof. repeat constructor; cbn; lia. Qed.

Lemma client_follows_connection_protocol_witness :
  exists rs c' tr' dialogue,
    session sample_session (sample_client, connected_loopback) = Done (rs, (c', tr')) /\
    path idle connected_loopback (concat dialogue) idle tr'.
Proof.
  destruct (client_follows_connection_protocol sample_session sample_client connected_loopback
              sample_client_wf (loopback_reachable_valid _ connected_loopback_reachable)
              sample_session_wf)
    as (rs & c' & tr' & dialogue & Hs & Hp & _).
  exists rs, c', tr', dialogue. split; [exact Hs|exact Hp].
Defined.

Lemma loopback_is_always_connected_witness :
  exists rs c' tr' events,
    session sample_session (sample_client, initial_loopback) = Done (rs, (c', tr')) /\
    runs initial_loopback events tr'.
Proof.
  destruct (loopback_is_always_connected sample_session sample_client initial_loopback
              sample_client_wf initial_loopback_reachable sample_session_wf)
    as (rs & c' & tr' & events & Hs & Hr & _).
  exists rs, c', tr', events. split; [exact Hs|exact Hr].
Defined.
