(* ===== verification/TraceLog.v ===== *)
(** * The trace of the loopback transport as an audit log.

    Two readings of the trace: run again on the server, its requests give the server's
    state; and the trace of a session can be told in advance from the operations, the
    memory and the faults. *)

From S2P Require Import Prelude Types BigEndian Crc Codec Memory Server Transport.
From S2P Require Import ImlpClient ClientProperties System.

(** ** Replaying a trace *)

(** The outcomes of exchanges whose request did not reach the server. *)
Definition not_delivered : list string := ["deadline_expired"; "timeout"; "disconnected"].

(** Runs the requests that reached the server; a record of a request is followed by
    that of its outcome. *)
Fixpoint replay (server : MemoryServer.t) (trace : list TraceRecord.t) : Exec MemoryServer.t :=
  match trace with
  | sent :: came :: trace =>
      if bool_decide (TraceRecord.outcome came ∈ not_delivered) then replay server trace
      else
        '(_, server) ← MemoryServer.handle server (TraceRecord.bytes sent);
        replay server trace
  | _ => Done server
  end.

(** [used first s]: the transport is in state [s] after some calls of its members, with
    its server used by nobody else, and the server was [first] when the trace was last
    empty, at the construction or at the last [clear_trace]. *)
Inductive used : MemoryServer.t -> LoopbackTransport.t -> Prop :=
| used_construct server :
    server_reachable server -> used server (LoopbackTransport.construct server)
| used_connect first s b s' :
    used first s -> LoopbackTransport.connect s = Done (b, s') -> used first s'
| used_close first s : used first s -> used first (LoopbackTransport.close s)
| used_exchange first s request deadline r s' :
    used first s -> LoopbackTransport.exchange s request deadline = Done (r, s') -> used first s'
| used_push_fault first s fault :
    used first s -> used first (LoopbackTransport.push_fault s fault)
| used_clear_trace first s :
    used first s -> used (LoopbackTransport.server_ s) (LoopbackTransport.clear_trace s).

(** Every second record is that of an outcome. *)
Inductive paired : list TraceRecord.t -> Prop :=
| paired_nil : paired []
| paired_cons sent came trace : paired trace -> paired (sent :: came :: trace).

Lemma paired_app t k : paired t -> paired k -> paired (t ++ k).
Proof. induction 1; intros Hk; [done|]. apply paired_cons; auto. Qed.

Lemma replay_app server t k :
  paired t -> replay server (t ++ k) = (server ← replay server t; replay server k).
Proof.
  intros Ht. revert server; induction Ht as [|sent came t _ IH]; intros server; [done|].
  cbn [app replay]. case_bool_decide; [apply IH|].
  destruct (MemoryServer.handle server (TraceRecord.bytes sent)) as [[h server1]|]; [|done].
  cbn [mbind exec_bind]. apply IH.
Qed.

Lemma serve_detail_delivered p m f : decided_detail (serve p m f) ∉ not_delivered.
Proof.
  apply (proj1 (bool_decide_eq_false _)). unfold serve, reject. by repeat case_match.
Qed.

Lemma handle_outcome_delivered s bytes : handle_outcome (handle_spec s bytes).1 ∉ not_delivered.
Proof.
  unfold handle_spec, handle_outcome.
  destruct (DecodeResult.frame (decode_by_validation bytes)) as [f|]; cbn;
    [apply serve_detail_delivered|by apply (proj1 (bool_decide_eq_false _))].
Qed.

(** An exchange adds a pair of records, which says whether the server was reached. *)
Lemma exchange_spec_trace s request deadline :
  (exchange_spec s request deadline).2 = s \/
  exists outcome bytes,
    LoopbackTransport.trace_ (exchange_spec s request deadline).2 =
      LoopbackTransport.trace_ s ++
      exchange_records (LoopbackTransport.next_sequence_ s) request outcome bytes /\
    LoopbackTransport.server_ (exchange_spec s request deadline).2 =
      (if bool_decide (outcome ∈ not_delivered) then LoopbackTransport.server_ s
       else (handle_spec (LoopbackTransport.server_ s) request).2).
Proof.
  unfold exchange_spec. destruct (LoopbackTransport.connected_ s); cbn [negb]; [right|by left].
  pose proof (handle_outcome_delivered (LoopbackTransport.server_ s) request) as Hd.
  destruct (deadline <=? 0); [by eexists _, _|].
  destruct (head (LoopbackTransport.faults_ s)) as [[| | | |]|]; [by eexists _, _| |..];
    [by eexists _, _|..]; destruct (handle_spec _ request) as [h server]; cbn [fst snd] in *;
    eexists _, _; (split; [reflexivity|]); by rewrite bool_decide_eq_false_2.
Qed.

Lemma used_inv first tr :
  used first tr ->
  loopback_valid tr /\ paired (LoopbackTransport.trace_ tr) /\
  replay first (LoopbackTransport.trace_ tr) = Done (LoopbackTransport.server_ tr).
Proof.
  induction 1 as [server Hs|first s b s' _ IH Hc|first s _ IH|first s request deadline r s' _ IH He
                 |first s fault _ IH|first s _ IH].
  - split; [exact (server_reachable_wf _ Hs)|]. split; [constructor|done].
  - by apply Done_inj in Hc as [= _ <-].
  - done.
  - destruct IH as (Hvs & Hp & Hr).
    destruct (exchange_returns s request deadline Hvs) as (r' & s1 & He' & Hv').
    cbn [exchange LoopbackTransport_ITransport] in He'. rewrite He in He'.
    apply Done_inj in He' as [= <- <-].
    rewrite exchange_refines in He by done. apply Done_inj in He.
    assert (Es : s' = (exchange_spec s request deadline).2) by by rewrite He.
    destruct (exchange_spec_trace s request deadline) as [E|(outcome & bytes & Etr & Esv)];
      rewrite <-Es in *; [by rewrite E|].
    split; [done|]. rewrite Etr.
    split; [apply paired_app; [done|apply paired_cons, paired_nil]|].
    rewrite replay_app, Hr by done. cbn [mbind exec_bind replay exchange_records].
    cbn [TraceRecord.outcome TraceRecord.bytes]. rewrite Esv.
    case_bool_decide; [done|]. rewrite handle_refines by done.
    by destruct (handle_spec _ request).
  - done.
  - destruct IH as (Hv & _). split; [exact Hv|]. split; [constructor|done].
Qed.

(** ** Telling the trace of a session in advance *)

(** What comes of one exchange, when the server would give [answer]: the outcome and
    the bytes that come back. *)
Definition attempt_outcome (faults : list TransportFault.t) (answer : string * list byte)
    : string * list byte :=
  match next_failure faults with
  | Some e => (transport_error_name e, [])
  | None => (answer.1, damage (head faults) answer.2)
  end.

(** What comes of a request that may be attempted [n] times. *)
Fixpoint attempt_outcomes (n : nat) (faults : list TransportFault.t) (answer : string * list byte)
    : list (string * list byte) :=
  match n with
  | O => []
  | S n =>
      attempt_outcome faults answer ::
      if next_failure faults is Some _ then attempt_outcomes n (tail faults) answer else []
  end.

(** Their records, numbered from [n]. *)
Definition after_records (n : Z) : Z := u64 (u64 (n + 1) + 1).

Fixpoint attempt_records (n : Z) (request : list byte) (outcomes : list (string * list byte))
    : list TraceRecord.t :=
  match outcomes with
  | [] => []
  | x :: outcomes =>
      exchange_records n request x.1 x.2 ++
      attempt_records (after_records n) request outcomes
  end.

Definition server_answer (p : ServerPolicy.t) (m : MemoryMap.t) (f : Frame.t)
    : string * list byte :=
  let d := serve p m f in (decided_detail d, wire (response_frame f d)).

(** The records of an operation with request ID [id]. *)
Definition operation_outcomes (p : ServerPolicy.t) (max id : Z) (m : MemoryMap.t)
    (faults : list TransportFault.t) (o : Operation) : list (string * list byte) :=
  if accepted o
  then attempt_outcomes (attempts_allowed max o) faults (server_answer p m (request_of id o))
  else [].

Definition operation_records (p : ServerPolicy.t) (max id n : Z)
    (s : MemoryMap.t * list TransportFault.t) (o : Operation) : list TraceRecord.t :=
  attempt_records n (wire (request_of id o)) (operation_outcomes p max id s.1 s.2 o).

(** Those of a script; the memory and the faults go on as in [faulty_script]. *)
Fixpoint script_records (p : ServerPolicy.t) (max id n : Z)
    (s : MemoryMap.t * list TransportFault.t) (script : list Step) : list TraceRecord.t :=
  match script with
  | [] => []
  | operate o :: script =>
      let records := operation_records p max id n s o in
      records ++
      script_records p max (following_id id) (u64 (n + zlen records)) (faulty_perform p max s o).2
        script
  | inject fault :: script => script_records p max id n (s.1, s.2 ++ [fault]) script
  end.

(** *** The records of one operation *)

Definition trace_grows (tr tr' : LoopbackTransport.t) (records : list TraceRecord.t) : Prop :=
  LoopbackTransport.trace_ tr' = LoopbackTransport.trace_ tr ++ records /\
  LoopbackTransport.next_sequence_ tr' =
    u64 (LoopbackTransport.next_sequence_ tr + zlen records).

Definition sequence_wf (tr : LoopbackTransport.t) : Prop :=
  0 <= LoopbackTransport.next_sequence_ tr < 2 ^ 64.

Lemma after_records_eq n : after_records n = u64 (n + 2).
Proof. unfold after_records. rewrite u64_succ. f_equal. lia. Qed.

Lemma grows_sequence_wf tr tr' records : trace_grows tr tr' records -> sequence_wf tr'.
Proof. intros [_ E]. unfold sequence_wf. rewrite E. apply u64_wf. Qed.

Lemma grows_nothing tr : sequence_wf tr -> trace_grows tr tr [].
Proof. intros Hn. unfold trace_grows. rewrite app_nil_r, zlen_nil. by rewrite u64_same. Qed.

Lemma grows_app tr1 tr2 tr3 l k :
  trace_grows tr1 tr2 l -> trace_grows tr2 tr3 k -> trace_grows tr1 tr3 (l ++ k).
Proof.
  intros [T1 N1] [T2 N2]. split; [by rewrite T2, T1, app_assoc|].
  by rewrite N2, N1, u64_add, zlen_app.
Qed.

Definition same_log (s s' : LoopbackTransport.t) : Prop :=
  LoopbackTransport.trace_ s = LoopbackTransport.trace_ s' /\
  LoopbackTransport.next_sequence_ s = LoopbackTransport.next_sequence_ s'.

Lemma same_log_grows tr s s' records :
  same_log s s' -> trace_grows tr s' records -> trace_grows tr s records.
Proof. unfold trace_grows. intros [-> ->]. exact id. Qed.

Lemma after_exchange_grows s server c faults request outcome bytes :
  trace_grows s (after_exchange s server c faults request outcome bytes)
    (exchange_records (LoopbackTransport.next_sequence_ s) request outcome bytes).
Proof. split; [reflexivity|exact (after_records_eq _)]. Qed.

Section Operation.
Context (f : Frame.t) (deadline : Z).
Hypothesis f_wf : Frame.wf f.
Hypothesis f_protocol : protocol_frame f.
Hypothesis deadline_positive : 0 < deadline.

(** One attempt: a pair of records, whatever becomes of the connection. *)
Lemma attempt_traced tr a tr' :
  loopback_valid tr -> try_exchange (wire f) deadline tr = Done (a, tr') ->
  let x := attempt_outcome (LoopbackTransport.faults_ tr)
             (server_answer (policy_of tr) (memory_of tr) f) in
  trace_grows tr tr' (exchange_records (LoopbackTransport.next_sequence_ tr) (wire f) x.1 x.2).
Proof.
  intros Hv Ht. unfold try_exchange in Ht.
  set (tr1 := LoopbackTransport.mk (LoopbackTransport.server_ tr) true
                (LoopbackTransport.faults_ tr) (LoopbackTransport.trace_ tr)
                (LoopbackTransport.next_sequence_ tr)) in *.
  assert ((if connected tr then Done (true, tr) else connect tr) = Done (true, tr1)) as E
    by (subst tr1; destruct tr as [? [] ? ? ?]; done).
  rewrite E in Ht. clear E. cbn [mbind exec_bind negb] in Ht.
  cbn [exchange LoopbackTransport_ITransport] in Ht. rewrite exchange_refines in Ht by done.
  cbn [mbind exec_bind] in Ht.
  assert (same_log tr' (exchange_spec tr1 (wire f) deadline).2) as Hlog.
  { destruct (exchange_spec tr1 (wire f) deadline) as [r s]. cbn [mbind exec_bind] in Ht.
    destruct (TransportReply.to_bool r); apply Done_inj in Ht as [= _ <-];
      exact (conj eq_refl eq_refl). }
  clear Ht. revert Hlog. unfold exchange_spec.
  cbn [LoopbackTransport.connected_ LoopbackTransport.faults_ LoopbackTransport.server_ tr1 negb].
  rewrite handle_spec_wire, (proj2 (Z.leb_gt _ _)) by done. unfold attempt_outcome.
  destruct (LoopbackTransport.faults_ tr) as [|[| | | |] faults]; intros Hlog;
    exact (same_log_grows _ _ _ _ Hlog (after_exchange_grows _ _ _ _ _ _ _)).
Qed.

(** The attempts of a request: a pair of records each, until one is answered. *)
Lemma tries_traced n tr l tr' :
  loopback_valid tr -> sequence_wf tr -> tries (wire f) deadline n tr = Done (l, tr') ->
  trace_grows tr tr'
    (attempt_records (LoopbackTransport.next_sequence_ tr) (wire f)
       (attempt_outcomes n (LoopbackTransport.faults_ tr)
          (server_answer (policy_of tr) (memory_of tr) f))).
Proof.
  revert tr l; induction n as [|n IH]; intros tr l Hv Hn Ht.
  { apply Done_inj in Ht as [= _ <-]. exact (grows_nothing _ Hn). }
  rewrite tries_S in Ht. cbn [attempt_outcomes attempt_records].
  destruct (loopback_attempt f deadline tr f_wf f_protocol Hv) as (b & tr1 & Hb & Hcase).
  rewrite (proj2 (Z.leb_gt _ _)) in Hcase by exact deadline_positive.
  pose proof (attempt_traced tr b tr1 Hv Hb) as Hg. cbn zeta in Hg, Hcase.
  rewrite Hb in Ht. cbn [mbind exec_bind] in Ht.
  apply (grows_app _ tr1); [exact Hg|].
  assert (LoopbackTransport.next_sequence_ tr1 = after_records (LoopbackTransport.next_sequence_ tr))
    as En by (rewrite after_records_eq; exact (proj2 Hg)).
  rewrite <-En. pose proof (grows_sequence_wf _ _ _ Hg) as Hn1.
  destruct (next_failure (LoopbackTransport.faults_ tr)) as [e|].
  - destruct Hcase as (Ho & Hs & Hf). rewrite Ho in Ht. cbn [is_failed] in Ht.
    destruct (tries (wire f) deadline n tr1) as [[l1 tr2]|] eqn:Et;
      cbn [mbind exec_bind] in Ht; [|discriminate Ht].
    apply Done_inj in Ht as [= _ <-].
    assert (loopback_valid tr1) as Hv1 by (unfold loopback_valid in *; by rewrite Hs).
    pose proof (IH tr1 l1 Hv1 Hn1 Et) as Hrest. revert Hrest.
    unfold policy_of, memory_of. rewrite Hs, Hf. exact id.
  - destruct Hcase as (Ho & _). rewrite Ho in Ht. cbn [is_failed] in Ht.
    apply Done_inj in Ht as [= _ <-]. exact (grows_nothing _ Hn1).
Qed.
End Operation.

(** *** The records of a script *)

Lemma perform_traced o c tr r c' tr' :
  Client.wf c -> loopback_valid tr -> sequence_wf tr -> arguments_wf o ->
  perform o (c, tr) = Done (r, (c', tr')) ->
  Client.next_request_id_ c' = following_id (Client.next_request_id_ c) /\
  trace_grows tr tr'
    (operation_records (policy_of tr) (maximum c) (Client.next_request_id_ c)
       (LoopbackTransport.next_sequence_ tr) (memory_of tr, LoopbackTransport.faults_ tr) o).
Proof.
  intros Hc Hv Hn Ha Hr. unfold operation_records, operation_outcomes. cbn [fst snd].
  destruct (accepted o) eqn:Ho.
  - pose proof (request_of_wf c o Hc Ha) as Hw.
    pose proof (request_of_protocol (Client.next_request_id_ c) o Ho) as Hp.
    pose proof (proj2 (accepted_range o Ho)) as Hd.
    assert (1 <= attempts_allowed (maximum c) o)%nat as Hm
      by (destruct Hc as [Hm _]; unfold maximum; destruct o; cbn; lia).
    destruct (tries_undergo _ _ _ tr Hw Hp Hv Hd Hm) as (l & a & tr1 & Ht & _).
    rewrite (perform_spec o c tr l a tr1 Hc Ha Ho Ht) in Hr. cbn zeta in Hr.
    apply Done_inj in Hr as [= _ <- <-]. split; [reflexivity|].
    exact (tries_traced _ _ Hw Hp Hd _ tr _ tr1 Hv Hn Ht).
  - destruct (perform_refused o c tr Hc Ha Ho) as (r1 & Hr1 & _). rewrite Hr1 in Hr.
    apply Done_inj in Hr as [= _ <- <-]. split; [reflexivity|]. exact (grows_nothing _ Hn).
Qed.

Lemma script_traced script c tr :
  Client.wf c -> loopback_valid tr -> sequence_wf tr -> Forall step_wf script ->
  exists rs c' tr', scripted script (c, tr) = Done (rs, (c', tr')) /\
    trace_grows tr tr'
      (script_records (policy_of tr) (maximum c) (Client.next_request_id_ c)
         (LoopbackTransport.next_sequence_ tr) (memory_of tr, LoopbackTransport.faults_ tr) script).
Proof.
  intros Hc Hv Hn Hs. revert c tr Hc Hv Hn.
  induction Hs as [|[o|fault] script Ho _ IH]; intros c tr Hc Hv Hn.
  - exists [], c, tr. split; [reflexivity|exact (grows_nothing _ Hn)].
  - destruct (perform_faulty o c tr Hc Hv Ho) as (r & c1 & tr1 & Hr & Hc1 & Hv1 & Hm1 & Hp1 & Hx).
    destruct (perform_traced o c tr r c1 tr1 Hc Hv Hn Ho Hr) as [Hid Hg].
    destruct (IH c1 tr1 Hc1 Hv1 (grows_sequence_wf _ _ _ Hg)) as (rs & c2 & tr2 & Hrs & Hg2).
    exists (r :: rs), c2, tr2. cbn [scripted]. rewrite run_bind_eq, Hr. cbn [mbind exec_bind].
    rewrite run_bind_eq, Hrs. split; [reflexivity|]. cbn [script_records].
    rewrite <-Hx. cbn [snd]. rewrite Hp1, Hm1, Hid, (proj2 Hg) in Hg2.
    exact (grows_app _ _ _ _ _ Hg Hg2).
  - exact (IH c (LoopbackTransport.push_fault tr fault) Hc Hv Hn).
Qed.

(** ** Properties *)

(** C27. The trace is an audit log of the server.  However a loopback transport that is
    its server's only user is used from its construction on, through all its members,
    [clear_trace] included, the server's state is a function of the trace and of the
    state in which the trace was last empty: it is what the server comes to when it
    handles again, from that state and one after the other, the requests of the trace
    whose outcome is not one of the three of a request that was not delivered.  No
    request reaches the server unrecorded, none is recorded as delivered that was not,
    and each is recorded as it arrived. *)
Theorem trace_replays_the_server first tr :
  used first tr ->
  replay first (LoopbackTransport.trace tr) = Done (LoopbackTransport.server_ tr).
Proof. intros Hu. exact (proj2 (proj2 (used_inv _ _ Hu))). Qed.

(** C28. The trace of a session is explained by what was asked for.  Over any sequence
    of reads, writes and injected faults, the transport's trace grows by exactly the
    records that the specification derives from the operations, the server's policy and
    memory, the queued faults, the client's request ID and attempt limit and the next
    sequence number: per attempt, the request as encoded and then the failure, with no
    bytes, or the server's decision with the bytes of its answer as the fault left
    them; one attempt per transient fault while attempts remain, none for refused
    arguments. *)
Theorem session_trace_is_explained script c tr :
  Client.wf c -> loopback_reachable tr -> Forall step_wf script ->
  exists rs c' tr', scripted script (c, tr) = Done (rs, (c', tr')) /\
    LoopbackTransport.trace tr' =
    LoopbackTransport.trace tr ++
    script_records (policy_of tr) (maximum c) (Client.next_request_id_ c)
      (LoopbackTransport.next_sequence_ tr) (memory_of tr, LoopbackTransport.faults_ tr) script.
Proof.
  intros Hc Htr Hs.
  destruct (script_traced script c tr Hc (loopback_reachable_valid _ Htr)
              (proj2 (proj2 (loopback_reachable_inv _ Htr))) Hs) as (rs & c' & tr' & E & Hg).
  exists rs, c', tr'. split; [exact E|exact (proj1 Hg)].
Qed.

(** *** The properties at concrete inputs *)

(** A connected transport after a write that the server stored. *)
Definition sample_exchange : TransportReply.t * LoopbackTransport.t :=
  exchange_spec (LoopbackTransport.mk initial_server true [] [] 1)
    (wire (write_request 1 0x100 [to_byte 7])) 5.

Lemma trace_replays_the_server_witness :
  TraceRecord.outcome <$> LoopbackTransport.trace sample_exchange.2 = ["sent"; "write_ok"] /\
  replay initial_server (LoopbackTransport.trace sample_exchange.2) =
    Done (LoopbackTransport.server_ sample_exchange.2) /\
  byte_at (memory_of sample_exchange.2) 0x100 = Some (to_byte 7).
Proof.
  split; [by vm_compute|]. split; [|by vm_compute].
  apply (trace_replays_the_server initial_server sample_exchange.2).
  apply (used_exchange _ (LoopbackTransport.mk initial_server true [] [] 1)
           (wire (write_request 1 0x100 [to_byte 7])) 5 sample_exchange.1).
  - exact (used_connect _ initial_loopback true _
             (used_construct _ initial_server_reachable) eq_refl).
  - rewrite <-surjective_pairing.
    exact (exchange_refines (LoopbackTransport.mk initial_server true [] [] 1) _ 5
             (server_reachable_wf _ initial_server_reachable)).
Defined.

Lemma session_trace_is_explained_witness :
  exists rs c' tr',
    scripted [operate (write_operation 0x100 [to_byte 7] 50); operate (read_operation 0x100 1 50)]
      (sample_client, connected_loopback) = Done (rs, (c', tr')) /\
    (fun r => (TraceRecord.sequence r, TraceRecord.outcome r)) <$> LoopbackTransport.trace tr' =
      [(1, "sent"); (2, "timeout"); (3, "sent"); (4, "read_ok")].
Proof.
  destruct (session_trace_is_explained
              [operate (write_operation 0x100 [to_byte 7] 50); operate (read_operation 0x100 1 50)]
              sample_client connected_loopback sample_client_wf connected_loopback_reachable)
    as (rs & c' & tr' & E & Ht).
  - constructor; [by split|]. constructor; [by split|constructor].
  - exists rs, c', tr'. split; [exact E|]. rewrite Ht. by vm_compute.
Defined.
