(* ===== verification/Limits.v ===== *)
(** * What a session may use, and how the system recovers.

    The bounds of docs/big-o.md on attempts, queued faults, trace records and bytes;
    and that the system is an atomic memory again once the faults are used up. *)

From S2P Require Import Prelude Types BigEndian Crc Codec Memory Server Transport.
From S2P Require Import ImlpClient ClientProperties System TraceLog.

(** ** Attempts and faults *)

(** An operation uses one fault for each attempt, while there are any. *)
Lemma undergo_consumes n faults :
  (1 <= n)%nat ->
  let '(k, rest, _) := undergo n faults in
  1 <= k <= Z.of_nat n /\ rest = drop (Z.to_nat k) faults.
Proof.
  revert n; induction faults as [|fault faults IH]; intros n Hn; cbn [undergo]; [split; [lia|done]|].
  destruct (transient fault) as [e|]; [|split; [lia|done]].
  destruct n as [|[|n]]; [lia|split; [lia|done]|].
  specialize (IH (S n) ltac:(lia)). destruct (undergo (S n) faults) as [[k rest] d].
  destruct IH as [Hk ->]. split; [lia|].
  by replace (Z.to_nat (k + 1)) with (S (Z.to_nat k)) by lia.
Qed.

Definition allowance (max : Z) (o : Operation) : Z :=
  if accepted o then Z.of_nat (attempts_allowed max o) else 0.

Lemma faulty_perform_consumes p max m faults o :
  1 <= max ->
  let '((_, k), (_, rest)) := faulty_perform p max (m, faults) o in
  0 <= k <= allowance max o /\ (accepted o = true -> 1 <= k) /\
  rest = drop (Z.to_nat k) faults.
Proof.
  intros Hm. unfold faulty_perform, allowance. destruct (atomic_perform p m o) as [x m'].
  destruct (accepted o); cbn [negb]; [|split; [lia|done]].
  assert (1 <= attempts_allowed max o)%nat as Hn by (destruct o; cbn; lia).
  pose proof (undergo_consumes _ faults Hn) as Hu.
  destruct (undergo (attempts_allowed max o) faults) as [[k rest] d]. destruct Hu as [Hk ->].
  destruct d; (split; [lia|]; split; [lia|done]).
Qed.

Definition total_attempts (rs : list OperationResult.t) : Z :=
  foldr (fun r n => OperationResult.attempts r + n) 0 rs.

(** ** Recovery *)

(** A session uses a fault for each attempt, and an attempt for each operation whose
    arguments are accepted. *)
Lemma session_drains os c tr :
  Client.wf c -> loopback_valid tr -> Forall arguments_wf os ->
  exists rs c' tr', session os (c, tr) = Done (rs, (c', tr')) /\
    Client.wf c' /\ loopback_valid tr' /\ policy_of tr' = policy_of tr /\
    zlen (List.filter accepted os) <= total_attempts rs /\
    LoopbackTransport.faults_ tr' =
      drop (Z.to_nat (total_attempts rs)) (LoopbackTransport.faults_ tr).
Proof.
  intros Hc Hv Hos. revert c tr Hc Hv; induction Hos as [|o os Ho _ IH]; intros c tr Hc Hv.
  { by exists [], c, tr. }
  destruct (perform_faulty o c tr Hc Hv Ho) as (r & c1 & tr1 & Hr & Hc1 & Hv1 & _ & Hp1 & Hx).
  destruct (IH c1 tr1 Hc1 Hv1) as (rs & c2 & tr2 & Hrs & Hc2 & Hv2 & Hp2 & Hn & Hf).
  exists (r :: rs), c2, tr2. cbn [session]. rewrite run_bind_eq, Hr. cbn [mbind exec_bind].
  rewrite run_bind_eq, Hrs. split; [done|]. split; [done|]. split; [done|].
  split; [by rewrite Hp2|].
  pose proof (faulty_perform_consumes (policy_of tr) (maximum c) (memory_of tr)
                (LoopbackTransport.faults_ tr) o (proj1 (proj1 Hc))) as Hk.
  rewrite <-Hx in Hk. destruct Hk as (Hk & Ha & Hf1). rewrite Hf1 in Hf.
  pose proof (zlen_nonneg (List.filter accepted os)).
  cbn [total_attempts foldr]. fold (total_attempts rs). split.
  - cbn [List.filter]. destruct (accepted o); [rewrite zlen_cons; specialize (Ha eq_refl)|]; lia.
  - rewrite Hf, drop_drop. f_equal. lia.
Qed.

(** ** Records and bytes *)

Lemma zlen_damage fault g :
  protocol_frame g -> Frame.wf g -> zlen (damage fault (wire g)) <= zlen (wire g).
Proof.
  intros Hp Hw. destruct fault as [[| | | |]|]; [reflexivity|reflexivity| | | |reflexivity].
  - cbn [damage]. unfold zlen. rewrite length_take. lia.
  - cbn [damage]. unfold zlen. rewrite length_alter. reflexivity.
  - rewrite (proj1 (wrong_id_response g Hp Hw)), !zlen_wire. reflexivity.
Qed.

Lemma attempt_outcomes_length n faults answer :
  (1 <= n)%nat -> zlen (attempt_outcomes n faults answer) = (undergo n faults).1.1.
Proof.
  revert faults; induction n as [|n IH]; intros faults Hn; [lia|].
  cbn [attempt_outcomes]. rewrite zlen_cons.
  destruct faults as [|fault faults]; cbn [undergo next_failure tail]; [done|].
  destruct (transient fault) as [e|]; [|done]. destruct n as [|n]; [done|].
  rewrite IH by lia. destruct (undergo (S n) faults) as [[k rest] d]. cbn. lia.
Qed.

Definition within_frame (bytes : list byte) : Prop := zlen bytes <= maximum_frame_size.

Lemma attempt_outcomes_small n faults outcome g :
  protocol_frame g -> Frame.wf g ->
  Forall (fun x => within_frame x.2) (attempt_outcomes n faults (outcome, wire g)).
Proof.
  intros Hp Hw. revert faults; induction n as [|n IH]; intros faults; cbn [attempt_outcomes];
    [constructor|].
  constructor.
  - unfold attempt_outcome. destruct (next_failure faults); cbn [snd]; unfold within_frame; [done|].
    pose proof (zlen_damage (head faults) g Hp Hw). pose proof (zlen_wire_bound g Hp). lia.
  - destruct (next_failure faults); [apply IH|constructor].
Qed.

Lemma attempt_records_bounded n request outcomes :
  within_frame request -> Forall (fun x => within_frame x.2) outcomes ->
  zlen (attempt_records n request outcomes) = 2 * zlen outcomes /\
  Forall (fun r => within_frame (TraceRecord.bytes r)) (attempt_records n request outcomes).
Proof.
  intros Hr. revert n; induction outcomes as [|x outcomes IH]; intros n Hx; cbn [attempt_records].
  { done. }
  apply Forall_cons in Hx as [Hx Hxs]. destruct (IH (after_records n) Hxs) as [Hl Hs].
  rewrite zlen_app, Hl, zlen_cons. change (zlen (exchange_records n request x.1 x.2)) with 2.
  split; [lia|].
  apply Forall_app. split; [|exact Hs]. repeat constructor; done.
Qed.

(** The records of one operation: two for each attempt, of at most a frame each. *)
Lemma operation_records_bounded n c tr o :
  Client.wf c -> loopback_valid tr -> arguments_wf o ->
  let s := (memory_of tr, LoopbackTransport.faults_ tr) in
  let records :=
    operation_records (policy_of tr) (maximum c) (Client.next_request_id_ c) n s o in
  zlen records = 2 * (faulty_perform (policy_of tr) (maximum c) s o).1.2 /\
  Forall (fun r => within_frame (TraceRecord.bytes r)) records.
Proof.
  intros Hc Hv Ha s records. subst records s. unfold operation_records, operation_outcomes.
  cbn [fst snd]. unfold faulty_perform. destruct (atomic_perform _ _ o) as [x m'].
  destruct (accepted o) eqn:Ho; cbn [negb]; [|split; [done|constructor]].
  pose proof (request_of_wf c o Hc Ha) as Hw.
  pose proof (request_of_protocol (Client.next_request_id_ c) o Ho) as Hp.
  destruct (decision_proper _ tr Hw Hp Hv) as (Hgp & Hgw & _).
  assert (1 <= attempts_allowed (maximum c) o)%nat as Hn
    by (destruct Hc as [Hm _]; unfold maximum; destruct o; cbn; lia).
  unfold server_answer. fold (decision tr (request_of (Client.next_request_id_ c) o)).
  destruct (attempt_records_bounded n (wire (request_of (Client.next_request_id_ c) o))
    (attempt_outcomes (attempts_allowed (maximum c) o) (LoopbackTransport.faults_ tr)
       (decided_detail (decision tr (request_of (Client.next_request_id_ c) o)),
        wire (response_frame (request_of (Client.next_request_id_ c) o)
                (decision tr (request_of (Client.next_request_id_ c) o))))))
    as [Hl Hs]; [by apply zlen_wire_bound|by apply attempt_outcomes_small|].
  split; [|exact Hs]. rewrite Hl, attempt_outcomes_length by exact Hn.
  by destruct (undergo _ _) as [[k rest] [e|fault]].
Qed.

(** ** Scripts *)

Definition script_allowance (max : Z) (script : list Step) : Z :=
  foldr (fun s n => match s with operate o => allowance max o + n | inject _ => n end) 0 script.

Definition injected (script : list Step) : list TransportFault.t :=
  omap (fun s => match s with operate _ => None | inject fault => Some fault end) script.

(** What the script [script], run from [tr] to [tr'] with results [rs], has used. *)
Definition frugal (max : Z) (script : list Step) (tr tr' : LoopbackTransport.t)
    (rs : list OperationResult.t) : Prop :=
  0 <= total_attempts rs <= script_allowance max script /\
  zlen (LoopbackTransport.faults_ tr) + zlen (injected script) <=
    zlen (LoopbackTransport.faults_ tr') + total_attempts rs /\
  exists records,
    LoopbackTransport.trace tr' = LoopbackTransport.trace tr ++ records /\
    zlen records = 2 * total_attempts rs /\
    Forall (fun r => within_frame (TraceRecord.bytes r)) records.

Lemma frugal_operate max o script tr tr1 tr2 r rs records :
  frugal max script tr1 tr2 rs ->
  0 <= OperationResult.attempts r <= allowance max o ->
  LoopbackTransport.faults_ tr1 =
    drop (Z.to_nat (OperationResult.attempts r)) (LoopbackTransport.faults_ tr) ->
  LoopbackTransport.trace tr1 = LoopbackTransport.trace tr ++ records ->
  zlen records = 2 * OperationResult.attempts r ->
  Forall (fun r => within_frame (TraceRecord.bytes r)) records ->
  frugal max (operate o :: script) tr tr2 (r :: rs).
Proof.
  intros (Ha & Hf & records2 & Ht & Hl & Hs) Hr Hf1 Ht1 Hl1 Hs1. unfold frugal.
  cbn [total_attempts script_allowance foldr]. fold (total_attempts rs) (script_allowance max script).
  change (injected (operate o :: script)) with (injected script).
  split; [lia|]. split.
  - rewrite Hf1 in Hf. unfold zlen in *. rewrite length_drop in Hf. lia.
  - exists (records ++ records2). rewrite Ht, Ht1, app_assoc, zlen_app, Hl, Hl1.
    split; [done|]. split; [lia|by apply Forall_app].
Qed.

Lemma script_frugal script c tr :
  Client.wf c -> loopback_valid tr -> sequence_wf tr -> Forall step_wf script ->
  exists rs c' tr', scripted script (c, tr) = Done (rs, (c', tr')) /\
    frugal (maximum c) script tr tr' rs.
Proof.
  intros Hc Hv Hn Hs. revert c tr Hc Hv Hn.
  induction Hs as [|[o|fault] script Ho _ IH]; intros c tr Hc Hv Hn.
  - exists [], c, tr. split; [done|]. split; [done|]. split; [reflexivity|].
    exists []. by rewrite app_nil_r.
  - destruct (perform_faulty o c tr Hc Hv Ho) as (r & c1 & tr1 & Hr & Hc1 & Hv1 & Hm1 & _ & Hx).
    destruct (perform_traced o c tr r c1 tr1 Hc Hv Hn Ho Hr) as [_ Hg].
    destruct (IH c1 tr1 Hc1 Hv1 (grows_sequence_wf _ _ _ Hg)) as (rs & c2 & tr2 & Hrs & Hfr).
    exists (r :: rs), c2, tr2. cbn [scripted]. rewrite run_bind_eq, Hr. cbn [mbind exec_bind].
    rewrite run_bind_eq, Hrs. split; [done|]. rewrite Hm1 in Hfr.
    pose proof (faulty_perform_consumes (policy_of tr) (maximum c) (memory_of tr)
                  (LoopbackTransport.faults_ tr) o (proj1 (proj1 Hc))) as Hk.
    destruct (operation_records_bounded (LoopbackTransport.next_sequence_ tr) c tr o Hc Hv Ho)
      as [Hl Hs1].
    rewrite <-Hx in Hk, Hl. destruct Hk as (Hk & _ & Hf).
    exact (frugal_operate _ o _ tr tr1 tr2 r rs _ Hfr Hk Hf (proj1 Hg) Hl Hs1).
  - destruct (IH c (LoopbackTransport.push_fault tr fault) Hc Hv Hn)
      as (rs & c2 & tr2 & Hrs & Ha & Hf & Hrec).
    exists rs, c2, tr2. split; [exact Hrs|]. split; [exact Ha|]. split; [|exact Hrec].
    change (injected (inject fault :: script)) with (fault :: injected script).
    revert Hf. cbn [LoopbackTransport.push_fault LoopbackTransport.faults_].
    rewrite zlen_app, !zlen_cons, zlen_nil. lia.
Qed.

(** ** Properties *)

(** C19. The system recovers from faults.  Whatever faults are queued, once a session
    has made as many operations with valid arguments as there were faults, no fault is
    left, and any further session is one on an atomic memory: each operation takes at
    most one attempt and has the result of the same operation on the server's memory,
    under the policy there was at the beginning. *)
Theorem system_recovers_from_faults os os' c tr :
  Client.wf c -> loopback_reachable tr -> Forall arguments_wf os -> Forall arguments_wf os' ->
  zlen (LoopbackTransport.faults_ tr) <= zlen (List.filter accepted os) ->
  exists rs c1 tr1 rs' c2 tr2,
    session os (c, tr) = Done (rs, (c1, tr1)) /\ LoopbackTransport.faults_ tr1 = [] /\
    session os' (c1, tr1) = Done (rs', (c2, tr2)) /\
    (observe <$> rs', memory_of tr2) = atomic_session (policy_of tr) (memory_of tr1) os' /\
    Forall (fun r => OperationResult.attempts r <= 1) rs'.
Proof.
  intros Hc Htr%loopback_reachable_valid Hos Hos' Hn.
  destruct (session_drains os c tr Hc Htr Hos)
    as (rs & c1 & tr1 & E & Hc1 & Hv1 & Hp & Ha & Hf).
  rewrite drop_ge in Hf by (unfold zlen in *; lia).
  destruct (quiet_session os' c1 tr1 Hc1 (conj Hv1 Hf) Hos') as (rs' & c2 & tr2 & E' & _ & Hx & Hat).
  rewrite Hp in Hx. by exists rs, c1, tr1, rs', c2, tr2.
Qed.

(** C20. A session stays within its bounds.  Over any sequence of reads, writes and
    injected faults, the attempts are at most those that the operations are allowed:
    none for refused arguments, one for a write, [maximum_read_attempts] for a read.
    No more faults are used up than there are attempts, and the trace, which is never
    shortened, grows by exactly two records for each attempt, each of at most the 278
    bytes of a frame. *)
Theorem session_stays_within_bounds script c tr :
  Client.wf c -> loopback_reachable tr -> Forall step_wf script ->
  exists rs c' tr', scripted script (c, tr) = Done (rs, (c', tr')) /\
    frugal (maximum c) script tr tr' rs.
Proof.
  intros Hc Htr Hs. apply script_frugal; [exact Hc|by apply loopback_reachable_valid| |exact Hs].
  exact (proj2 (proj2 (loopback_reachable_inv _ Htr))).
Qed.

(** *** The properties at concrete inputs *)

Lemma system_recovers_from_faults_witness :
  zlen (LoopbackTransport.faults_ connected_loopback) = 1 /\
  exists rs c1 tr1 rs' c2 tr2,
    session [write_operation 0x100 [to_byte 7] 50] (sample_client, connected_loopback) =
      Done (rs, (c1, tr1)) /\
    session [read_operation 0x40 1 50] (c1, tr1) = Done (rs', (c2, tr2)) /\
    Forall (fun r => OperationResult.attempts r <= 1) rs'.
Proof.
  split; [reflexivity|].
  destruct (system_recovers_from_faults [write_operation 0x100 [to_byte 7] 50]
              [read_operation 0x40 1 50] sample_client connected_loopback
              sample_client_wf connected_loopback_reachable)
    as (rs & c1 & tr1 & rs' & c2 & tr2 & E & _ & E' & _ & Ha).
  - constructor; [by split|constructor].
  - constructor; [split; by split|constructor].
  - vm_compute. discriminate.
  - exists rs, c1, tr1, rs', c2, tr2. split; [exact E|]. split; [exact E'|exact Ha].
Defined.

Lemma session_stays_within_bounds_witness :
  exists rs c' tr',
    scripted [operate (read_operation 0 4 50); inject TransportFault.timeout;
              operate (write_operation 0x100 [to_byte 7] 50)]
      (sample_client, connected_loopback) = Done (rs, (c', tr')) /\
    total_attempts rs <= 3 /\
    exists records, LoopbackTransport.trace tr' = records /\ zlen records <= 6.
Proof.
  destruct (session_stays_within_bounds
              [operate (read_operation 0 4 50); inject TransportFault.timeout;
               operate (write_operation 0x100 [to_byte 7] 50)]
              sample_client connected_loopback sample_client_wf connected_loopback_reachable)
    as (rs & c' & tr' & E & [_ Ha] & _ & records & Ht & Hl & _).
  - constructor; [split; by split|]. constructor; [done|]. constructor; [by split|constructor].
  - change (script_allowance _ _) with 3 in Ha.
    exists rs, c', tr'. split; [exact E|]. split; [exact Ha|].
    exists records. split; [exact Ht|]. rewrite Hl. lia.
Defined.
