(* ===== verification/Objects.v ===== *)
(** * Objects that share objects: servers, transports and clients by reference.

    [LoopbackTransport] holds its server and [Client] its transport by reference
    ([MemoryServer& server_], [ITransport& transport_]), so several transports may
    share a server and several clients a transport.  Here the objects live in a store
    and refer to each other by index; the functions are those of [Server],
    [Transport] and [ImlpClient], run on the shared store.  A program is a sequence of
    calls of the public members. *)

From S2P Require Import Prelude Types BigEndian Crc Codec Memory Server Transport.
From S2P Require Import ImlpClient ClientProperties System.

(** ** The store *)

(** A transport, its server a reference. *)
Module TransportObject.
Record t : Set := mk {
  server_ : nat;
  connected_ : bool;
  faults_ : list TransportFault.t;
  trace_ : list TraceRecord.t;
  next_sequence_ : Z;
}.

(** The transport with what its reference refers to, and what remains of it. *)
Definition with_server (o : t) (server : MemoryServer.t) : LoopbackTransport.t :=
  LoopbackTransport.mk server (connected_ o) (faults_ o) (trace_ o) (next_sequence_ o).
Definition of_transport (server : nat) (tr : LoopbackTransport.t) : t :=
  mk server (LoopbackTransport.connected_ tr) (LoopbackTransport.faults_ tr)
     (LoopbackTransport.trace_ tr) (LoopbackTransport.next_sequence_ tr).
End TransportObject.

(** A client, its transport a reference. *)
Module ClientObject.
Record t : Set := mk { transport_ : nat; state : Client.t }.
End ClientObject.

Module Objects.
Record t : Set := mk {
  servers : list MemoryServer.t;
  transports : list TransportObject.t;
  clients : list ClientObject.t;
}.

Definition empty : t := mk [] [] [].

(** The transport that a reference refers to, with its server, and the store once a
    member function has changed them. *)
Definition borrow (h : t) (i : nat) : option LoopbackTransport.t :=
  o ← transports h !! i;
  server ← servers h !! TransportObject.server_ o;
  Some (TransportObject.with_server o server).

Definition give_back (h : t) (i : nat) (tr : LoopbackTransport.t) : t :=
  match transports h !! i with
  | Some o =>
      let s := TransportObject.server_ o in
      mk (<[s := LoopbackTransport.server_ tr]> (servers h))
         (<[i := TransportObject.of_transport s tr]> (transports h)) (clients h)
  | None => h
  end.
End Objects.

(** The value a reference or iterator gives, if there is an object. *)
Definition dereference {A} (x : option A) : Exec A :=
  match x with Some a => Done a | None => Halt invalid_reference end.

(** A member function of the transport at [i], on the store. *)
Definition on_transport {A} (i : nat)
    (f : LoopbackTransport.t -> Exec (A * LoopbackTransport.t)) : Run Objects.t A :=
  fun h =>
    tr ← dereference (Objects.borrow h i);
    '(a, tr) ← f tr;
    Done (a, Objects.give_back h i tr).

(** What a client holds: a reference into the store.  Its virtual calls reach the
    transport there, and the server that this refers to. *)
Definition Shared : Type := Objects.t * nat.

#[export] Instance Shared_ITransport : ITransport Shared := {
  connect := fun '(h, i) =>
    '(b, h) ← on_transport i LoopbackTransport.connect h; Done (b, (h, i));
  close := fun '(h, i) =>
    (match Objects.borrow h i with
     | Some tr => Objects.give_back h i (LoopbackTransport.close tr)
     | None => h
     end, i);
  connected := fun '(h, i) =>
    match Objects.borrow h i with Some tr => LoopbackTransport.connected tr | None => false end;
  exchange := fun '(h, i) request deadline =>
    '(r, h) ← on_transport i (fun tr => LoopbackTransport.exchange tr request deadline) h;
    Done (r, (h, i));
}.

(** A member function of the client at [i], on the store. *)
Definition on_client {A} (i : nat) (f : Run (Client.World Shared) A) : Run Objects.t A :=
  fun h =>
    o ← dereference (Objects.clients h !! i);
    '(a, (c, (h, _))) ← f (ClientObject.state o, (h, ClientObject.transport_ o));
    Done (a, Objects.mk (Objects.servers h) (Objects.transports h)
               (<[i := ClientObject.mk (ClientObject.transport_ o) c]> (Objects.clients h))).

(** ** Programs: the public members, called on references *)

Inductive Call : Set :=
| new_server (policy : ServerPolicy.t)
| new_transport (server : nat)
| new_client (transport : nat) (options : ClientOptions.t)
| server_handle (server : nat) (request : list byte)
| server_memory (server : nat)
| transport_connect (transport : nat)
| transport_close (transport : nat)
| transport_connected (transport : nat)
| transport_exchange (transport : nat) (request : list byte) (deadline : Z)
| transport_push_fault (transport : nat) (fault : TransportFault.t)
| transport_trace (transport : nat)
| transport_clear_trace (transport : nat)
| client_perform (client : nat) (o : Operation)
| client_metrics (client : nat).

Inductive Reply : Set :=
| created (reference : nat)
| nothing
| flag (b : bool)
| handled (r : HandleResult.t)
| replied_with (r : TransportReply.t)
| performed (r : OperationResult.t)
| the_memory (m : MemoryMap.t)
| the_trace (records : list TraceRecord.t)
| the_metrics (m : ClientMetrics.t).

Definition pure_member {A} (i : nat) (f : LoopbackTransport.t -> LoopbackTransport.t)
    (g : LoopbackTransport.t -> A) : Run Objects.t A :=
  on_transport i (fun tr => Done (g tr, f tr)).

Definition invoke (call : Call) : Run Objects.t Reply :=
  match call with
  | new_server policy => fun h =>
      server ← MemoryServer.construct policy;
      Done (created (length (Objects.servers h)),
            Objects.mk (Objects.servers h ++ [server]) (Objects.transports h) (Objects.clients h))
  | new_transport i => fun h =>
      server ← dereference (Objects.servers h !! i);
      let o := TransportObject.of_transport i (LoopbackTransport.construct server) in
      Done (created (length (Objects.transports h)),
            Objects.mk (Objects.servers h) (Objects.transports h ++ [o]) (Objects.clients h))
  | new_client i options => fun h =>
      _ ← dereference (Objects.transports h !! i);
      let o := ClientObject.mk i (Client.construct options) in
      Done (created (length (Objects.clients h)),
            Objects.mk (Objects.servers h) (Objects.transports h) (Objects.clients h ++ [o]))
  | server_handle i request => fun h =>
      server ← dereference (Objects.servers h !! i);
      '(r, server) ← MemoryServer.handle server request;
      Done (handled r, Objects.mk (<[i := server]> (Objects.servers h))
                         (Objects.transports h) (Objects.clients h))
  | server_memory i => fun h =>
      server ← dereference (Objects.servers h !! i);
      Done (the_memory (MemoryServer.memory server), h)
  | transport_connect i => b ← on_transport i LoopbackTransport.connect; mret (flag b)
  | transport_close i => pure_member i LoopbackTransport.close (fun _ => nothing)
  | transport_connected i =>
      pure_member i id (fun tr => flag (LoopbackTransport.connected tr))
  | transport_exchange i request deadline =>
      r ← on_transport i (fun tr => LoopbackTransport.exchange tr request deadline);
      mret (replied_with r)
  | transport_push_fault i fault =>
      pure_member i (fun tr => LoopbackTransport.push_fault tr fault) (fun _ => nothing)
  | transport_trace i => pure_member i id (fun tr => the_trace (LoopbackTransport.trace tr))
  | transport_clear_trace i => pure_member i LoopbackTransport.clear_trace (fun _ => nothing)
  | client_perform i o => r ← on_client i (perform o); mret (performed r)
  | client_metrics i => fun h =>
      o ← dereference (Objects.clients h !! i);
      Done (the_metrics (Client.metrics (ClientObject.state o)), h)
  end.

Fixpoint run (calls : list Call) : Run Objects.t (list Reply) :=
  match calls with
  | [] => mret []
  | call :: calls => r ← invoke call; rs ← run calls; mret (r :: rs)
  end.

(** ** Clients of transports that embed one another

    A client gives the same results over two transports if the states of the first
    are embedded in those of the second and the virtual calls agree. *)
Class TransportEmbedding {T1 T2} `{ITransport T1} `{ITransport T2} (embed : T1 -> T2) := {
  embed_connected a : connected (embed a) = connected a;
  embed_close a : close (embed a) = embed (close a);
  embed_connect a : connect (embed a) = '(b, a) ← connect a; Done (b, embed a);
  embed_exchange a request deadline :
    exchange (embed a) request deadline =
    '(r, a) ← exchange a request deadline; Done (r, embed a);
}.

Create HintDb embedding.

Section Embedding.
Context {T1 T2} `{ITransport T1} `{ITransport T2} (embed : T1 -> T2).
Context `{!TransportEmbedding embed}.

(** The two computations agree. *)
Definition embeds {A} (m1 : Run (Client.World T1) A) (m2 : Run (Client.World T2) A) : Prop :=
  forall c a, m2 (c, embed a) = '(x, (c, a)) ← m1 (c, a); Done (x, (c, embed a)).

Lemma embeds_ret {A} (x : A) : embeds (mret x) (mret x).
Proof. done. Qed.

Lemma embeds_stuck {A} w : embeds (A := A) (fun _ => Halt w) (fun _ => Halt w).
Proof. done. Qed.

Lemma embeds_bind {A B} (m1 : Run (Client.World T1) A) m2 (k1 : A -> Run (Client.World T1) B) k2 :
  embeds m1 m2 -> (forall x, embeds (k1 x) (k2 x)) -> embeds (m1 ≫= k1) (m2 ≫= k2).
Proof.
  intros Hm Hk c a. rewrite !run_bind_eq, Hm.
  destruct (m1 (c, a)) as [[x [c' a']]|]; [|done]. cbn [mbind exec_bind]. apply Hk.
Qed.

Lemma embeds_if {A} (b : bool) (m1 m1' : Run (Client.World T1) A) m2 m2' :
  embeds m1 m2 -> embeds m1' m2' -> embeds (if b then m1 else m1') (if b then m2 else m2').
Proof. by destruct b. Qed.

Lemma embeds_lift {A} (m : Exec A) : embeds (lift m) (lift m).
Proof. intros c a. unfold lift. by destruct m. Qed.

Lemma embeds_gets {A} (f : Client.t -> A) :
  embeds (gets (fun '(c, _) => f c)) (gets (fun '(c, _) => f c)).
Proof. done. Qed.

Lemma embeds_count f : embeds (Client.count f) (Client.count f).
Proof. done. Qed.

Lemma embeds_allocate : embeds Client.allocate_request_id Client.allocate_request_id.
Proof. done. Qed.

Lemma embeds_connected : embeds Client.transport_connected Client.transport_connected.
Proof.
  intros c a. unfold Client.transport_connected, gets. cbn. by rewrite embed_connected.
Qed.

Lemma embeds_close : embeds Client.transport_close Client.transport_close.
Proof. intros c a. unfold Client.transport_close, modify. cbn. by rewrite embed_close. Qed.

Lemma embeds_connect : embeds Client.transport_connect Client.transport_connect.
Proof.
  intros c a. unfold Client.transport_connect. rewrite embed_connect. by destruct (connect a) as [[]|].
Qed.

Lemma embeds_exchange request deadline :
  embeds (Client.transport_exchange request deadline) (Client.transport_exchange request deadline).
Proof.
  intros c a. unfold Client.transport_exchange. rewrite embed_exchange.
  by destruct (exchange a request deadline) as [[]|].
Qed.

#[local] Hint Resolve embeds_ret embeds_stuck embeds_lift embeds_gets embeds_count
  embeds_allocate embeds_connected embeds_close embeds_connect embeds_exchange : embedding.

(** Goes through the structure of a computation. *)
Ltac embed_steps :=
  repeat first
    [ solve [auto with embedding]
    | apply embeds_bind; [|intros ?]
    | apply embeds_if
    | case_match ].

Lemma embeds_ensure_connected : embeds Client.ensure_connected Client.ensure_connected.
Proof. unfold Client.ensure_connected. embed_steps. Qed.

Lemma embeds_validate_response request bytes opcode len n :
  embeds (Client.validate_response request bytes opcode len n)
    (Client.validate_response request bytes opcode len n).
Proof. unfold Client.validate_response. embed_steps. Qed.

Lemma embeds_count_timeout_of e :
  embeds (Client.count_timeout_of e) (Client.count_timeout_of e).
Proof. unfold Client.count_timeout_of. embed_steps. Qed.

#[local] Hint Resolve embeds_ensure_connected embeds_validate_response
  embeds_count_timeout_of : embedding.

Lemma embeds_read_attempts fuel request bytes len deadline attempt :
  embeds (Client.read_attempts fuel request bytes len deadline attempt)
    (Client.read_attempts fuel request bytes len deadline attempt).
Proof.
  revert attempt; induction fuel as [|fuel IH]; intros attempt; cbn [Client.read_attempts];
    [apply embeds_stuck|].
  embed_steps.
Qed.

#[local] Hint Resolve embeds_read_attempts : embedding.

Lemma embeds_perform o : embeds (perform o) (perform o).
Proof.
  destruct o; unfold perform, Client.read, Client.write, Client.execute_read, Client.execute_write;
    embed_steps.
Qed.
End Embedding.

(** ** Typing

    A context counts the objects; a call is well typed when its references are to
    objects and its arguments fit the types of the parameters. *)
Record Context : Set := { server_count : nat; transport_count : nat; client_count : nat }.

Definition empty_context : Context := Build_Context 0 0 0.

Definition well_typed (ctx : Context) (call : Call) : Prop :=
  match call with
  | new_server policy => ServerPolicy.wf policy
  | new_transport i | server_handle i _ | server_memory i => (i < server_count ctx)%nat
  | new_client i options => (i < transport_count ctx)%nat /\ ClientOptions.wf options
  | transport_connect i | transport_close i | transport_connected i
  | transport_exchange i _ _ | transport_push_fault i _ | transport_trace i
  | transport_clear_trace i => (i < transport_count ctx)%nat
  | client_perform i o => (i < client_count ctx)%nat /\ arguments_wf o
  | client_metrics i => (i < client_count ctx)%nat
  end.

#[export] Instance well_typed_dec ctx call : Decision (well_typed ctx call).
Proof.
  destruct call as [| | | | | | | | | | | |i []|]; cbn [well_typed arguments_wf];
    unfold ServerPolicy.wf, ClientOptions.wf; apply _.
Defined.

Definition extend (ctx : Context) (call : Call) : Context :=
  match call with
  | new_server _ => Build_Context (S (server_count ctx)) (transport_count ctx) (client_count ctx)
  | new_transport _ => Build_Context (server_count ctx) (S (transport_count ctx)) (client_count ctx)
  | new_client _ _ => Build_Context (server_count ctx) (transport_count ctx) (S (client_count ctx))
  | _ => ctx
  end.

(** The type checker of programs. *)
Fixpoint check (ctx : Context) (calls : list Call) : option Context :=
  match calls with
  | [] => Some ctx
  | call :: calls =>
      if decide (well_typed ctx call) then check (extend ctx call) calls else None
  end.

Definition transport_typed (ctx : Context) (o : TransportObject.t) : Prop :=
  (TransportObject.server_ o < server_count ctx)%nat /\
  numbered (TransportObject.trace_ o) (TransportObject.next_sequence_ o) /\
  0 <= TransportObject.next_sequence_ o < 2 ^ 64.

Definition client_typed (ctx : Context) (o : ClientObject.t) : Prop :=
  (ClientObject.transport_ o < transport_count ctx)%nat /\ Client.wf (ClientObject.state o).

(** Every reference of a typed store is to an object, and every object is well formed. *)
Record typed_store (ctx : Context) (h : Objects.t) : Prop := {
  typed_counts : ctx = Build_Context (length (Objects.servers h)) (length (Objects.transports h))
                         (length (Objects.clients h));
  typed_servers : Forall MemoryServer.wf (Objects.servers h);
  typed_transports : Forall (transport_typed ctx) (Objects.transports h);
  typed_clients : Forall (client_typed ctx) (Objects.clients h);
}.

(** The type of the reply, with the reference a construction gives. *)
Definition reply_typed (ctx : Context) (call : Call) (r : Reply) : Prop :=
  match call, r with
  | new_server _, created i => i = server_count ctx
  | new_transport _, created i => i = transport_count ctx
  | new_client _ _, created i => i = client_count ctx
  | server_handle _ _, handled _ => True
  | server_memory _, the_memory m => MemoryMap.wf m
  | transport_close _, nothing | transport_push_fault _ _, nothing
  | transport_clear_trace _, nothing => True
  | transport_connect _, flag _ | transport_connected _, flag _ => True
  | transport_exchange _ _ _, replied_with _ => True
  | transport_trace _, the_trace _ => True
  | client_perform _ _, performed _ => True
  | client_metrics _, the_metrics m => ClientMetrics.wf m
  | _, _ => False
  end.

Fixpoint replies_typed (ctx : Context) (calls : list Call) (rs : list Reply) : Prop :=
  match calls, rs with
  | [], [] => True
  | call :: calls, r :: rs => reply_typed ctx call r /\ replies_typed (extend ctx call) calls rs
  | _, _ => False
  end.

(** *** Borrowing *)

Lemma borrow_Some h i tr :
  Objects.borrow h i = Some tr <->
  exists o server, Objects.transports h !! i = Some o /\
    Objects.servers h !! TransportObject.server_ o = Some server /\
    tr = TransportObject.with_server o server.
Proof.
  unfold Objects.borrow. split.
  - intros (o & Ho & (server & Hs & [= <-])%bind_Some)%bind_Some. eauto.
  - intros (o & server & -> & Hs & ->). cbn. by rewrite Hs.
Qed.

Section Borrow.
Context (h : Objects.t) (i : nat) (tr : LoopbackTransport.t).
Hypothesis borrowed : Objects.borrow h i = Some tr.

Lemma borrow_give_back a : Objects.borrow (Objects.give_back h i a) i = Some a.
Proof.
  apply borrow_Some in borrowed as (o & server & Ho & Hs & _). apply borrow_Some.
  unfold Objects.give_back. rewrite Ho. eexists _, (LoopbackTransport.server_ a).
  cbn [Objects.transports Objects.servers].
  rewrite list_lookup_insert_eq by by apply lookup_lt_Some in Ho. split; [done|].
  cbn [TransportObject.server_ TransportObject.of_transport].
  rewrite list_lookup_insert_eq by by apply lookup_lt_Some in Hs. split; [done|]. by destruct a.
Qed.

Lemma give_back_again a b :
  Objects.give_back (Objects.give_back h i a) i b = Objects.give_back h i b.
Proof.
  apply borrow_Some in borrowed as (o & server & Ho & _ & _). unfold Objects.give_back.
  rewrite Ho. cbn [Objects.transports]. rewrite list_lookup_insert_eq by by apply lookup_lt_Some in Ho.
  cbn. by rewrite !list_insert_insert_eq.
Qed.

Lemma give_back_borrowed : Objects.give_back h i tr = h.
Proof.
  apply borrow_Some in borrowed as (o & server & Ho & Hs & ->). unfold Objects.give_back.
  rewrite Ho. destruct h as [ss ts cs]. cbn in *. rewrite list_insert_id by done.
  rewrite list_insert_id; [done|]. by destruct o.
Qed.

(** The borrowed transport, embedded in the store. *)
Definition embedded (a : LoopbackTransport.t) : Shared := (Objects.give_back h i a, i).

Lemma on_transport_embedded {A} (f : LoopbackTransport.t -> Exec (A * LoopbackTransport.t)) a :
  on_transport i f (embedded a).1 = '(x, a) ← f a; Done (x, Objects.give_back h i a).
Proof.
  unfold on_transport, embedded. cbn [fst]. rewrite borrow_give_back. cbn [dereference mbind exec_bind].
  destruct (f a) as [[x b]|]; [|done]. cbn [mbind exec_bind]. by rewrite give_back_again.
Qed.

#[export] Instance embedded_embedding : TransportEmbedding embedded.
Proof.
  split.
  - intros a. cbn. by rewrite borrow_give_back.
  - intros a. cbn [close Shared_ITransport LoopbackTransport_ITransport]. unfold embedded at 1.
    by rewrite borrow_give_back, give_back_again.
  - intros a. cbn [connect Shared_ITransport embedded].
    exact (f_equal (fun r => '(b, h) ← r; Done (b, (h, i)))
             (on_transport_embedded LoopbackTransport.connect a)).
  - intros a request deadline. cbn [exchange Shared_ITransport embedded LoopbackTransport_ITransport].
    pose proof (on_transport_embedded
      (fun tr => LoopbackTransport.exchange tr request deadline) a) as E. cbn [embedded fst] in E.
    rewrite E. by destruct (LoopbackTransport.exchange a request deadline) as [[]|].
Qed.

(** An operation on the store is the operation on the borrowed transport. *)
Lemma perform_borrowed o c :
  perform o (c, (h, i)) =
  '(r, (c, tr)) ← perform o (c, tr); Done (r, (c, (Objects.give_back h i tr, i))).
Proof.
  assert ((h, i) = embedded tr) as -> by (unfold embedded; by rewrite give_back_borrowed).
  apply (embeds_perform embedded).
Qed.
End Borrow.

Lemma on_transport_inv {A} i (f : LoopbackTransport.t -> Exec (A * LoopbackTransport.t)) h x h' :
  on_transport i f h = Done (x, h') ->
  exists tr tr', Objects.borrow h i = Some tr /\ f tr = Done (x, tr') /\
    h' = Objects.give_back h i tr'.
Proof.
  unfold on_transport. destruct (Objects.borrow h i) as [tr|]; [|done].
  cbn [dereference mbind exec_bind]. destruct (f tr) as [[x' tr']|] eqn:Ef; [|done].
  cbn [mbind exec_bind]. intros [= <- <-]%Done_inj. by exists tr, tr'.
Qed.

Lemma pure_member_inv {A} i f (g : LoopbackTransport.t -> A) h x h' :
  pure_member i f g h = Done (x, h') ->
  exists tr, Objects.borrow h i = Some tr /\ x = g tr /\ h' = Objects.give_back h i (f tr).
Proof.
  intros (tr & tr' & E & [= <- <-]%Done_inj & ->)%on_transport_inv. by exists tr.
Qed.

(** *** Type soundness *)

Definition loopback_typed (tr : LoopbackTransport.t) : Prop :=
  loopback_valid tr /\ trace_numbered tr.

#[export] Instance loopback_typed_laws : TransportLaws LoopbackTransport.t loopback_typed.
Proof.
  split.
  - intros tr Htr. by eexists _, _.
  - done.
  - intros tr request deadline [Hv Hn].
    destruct (exchange_returns tr request deadline Hv) as (r & tr' & E & Hv').
    exists r, tr'. split; [done|]. split; [done|]. cbn [exchange LoopbackTransport_ITransport] in E.
    rewrite exchange_refines in E by done. apply Done_inj in E.
    pose proof (exchange_spec_numbered tr request deadline Hn) as Hn'. by rewrite E in Hn'.
Qed.

Section Typed.
Context (ctx : Context) (h : Objects.t).
Hypothesis typed : typed_store ctx h.

Lemma dereference_server i :
  (i < server_count ctx)%nat ->
  exists server, Objects.servers h !! i = Some server /\ MemoryServer.wf server.
Proof.
  intros Hi. destruct typed as [-> Hs _ _]. destruct (lookup_lt_is_Some_2 _ _ Hi) as [server E].
  exists server. split; [done|]. by apply (Forall_lookup_1 _ _ _ _ Hs E).
Qed.

Lemma dereference_client i :
  (i < client_count ctx)%nat ->
  exists o, Objects.clients h !! i = Some o /\ client_typed ctx o.
Proof.
  intros Hi. destruct typed as [Hctx _ _ Hc]. rewrite Hctx in Hi.
  destruct (lookup_lt_is_Some_2 _ _ Hi) as [o E]. exists o.
  split; [done|]. by apply (Forall_lookup_1 _ _ _ _ Hc E).
Qed.

Lemma borrow_typed i :
  (i < transport_count ctx)%nat ->
  exists tr, Objects.borrow h i = Some tr /\ loopback_typed tr.
Proof.
  intros Hi. destruct typed as [Hctx _ Ht _]. rewrite Hctx in Hi.
  destruct (lookup_lt_is_Some_2 _ _ Hi) as [o Ho].
  pose proof (Forall_lookup_1 _ _ _ _ Ht Ho) as (Hs & Hn).
  destruct (dereference_server _ Hs) as (server & E & Hw).
  exists (TransportObject.with_server o server). split; [|by split].
  apply borrow_Some. eauto.
Qed.

Lemma give_back_typed i tr tr' :
  Objects.borrow h i = Some tr -> loopback_typed tr' -> typed_store ctx (Objects.give_back h i tr').
Proof.
  intros (o & server & Ho & Hs & _)%borrow_Some [Hv Hn]. unfold Objects.give_back. rewrite Ho.
  destruct typed as [Hctx Hss Hts Hcs]. split; cbn; rewrite ?length_insert; try done.
  - by apply Forall_insert.
  - apply Forall_insert; [done|]. split; [|done].
    cbn. rewrite Hctx. cbn. by apply lookup_lt_Some in Hs.
Qed.

Lemma on_transport_typed {A} i (f : LoopbackTransport.t -> Exec (A * LoopbackTransport.t)) :
  (i < transport_count ctx)%nat ->
  (forall tr, loopback_typed tr -> exists x tr', f tr = Done (x, tr') /\ loopback_typed tr') ->
  exists x h', on_transport i f h = Done (x, h') /\ typed_store ctx h'.
Proof.
  intros Hi Hf. destruct (borrow_typed i Hi) as (tr & E & Htr).
  destruct (Hf tr Htr) as (x & tr' & Ef & Htr').
  exists x, (Objects.give_back h i tr'). unfold on_transport. rewrite E. cbn. rewrite Ef. cbn.
  split; [done|]. by eapply give_back_typed.
Qed.

Lemma perform_typed i o :
  (i < client_count ctx)%nat -> arguments_wf o ->
  exists r h', on_client i (perform o) h = Done (r, h') /\ typed_store ctx h'.
Proof.
  intros Hi Ho. destruct (dereference_client i Hi) as (co & Ec & Ht & Hc).
  destruct (borrow_typed _ Ht) as (tr & E & Htr).
  destruct (perform_complete o (ClientObject.state co) tr Hc Htr) as (r & c' & tr' & Er & Hc' & Htr' & _).
  { destruct o; [apply Ho|done]. }
  unfold on_client. rewrite Ec. cbn [dereference mbind exec_bind].
  rewrite (perform_borrowed h _ tr E), Er. cbn [mbind exec_bind].
  eexists _, _. split; [reflexivity|].
  destruct (give_back_typed _ tr tr' E Htr') as [Hctx Hss Hts Hcs].
  split; cbn; rewrite ?length_insert; try done. apply Forall_insert; [|done].
  unfold Objects.give_back. by destruct (Objects.transports h !! _), typed.
Qed.

Lemma set_server_typed i server :
  MemoryServer.wf server ->
  typed_store ctx (Objects.mk (<[i := server]> (Objects.servers h)) (Objects.transports h)
                     (Objects.clients h)).
Proof.
  intros Hw. destruct typed. split; cbn; rewrite ?length_insert; try done. by apply Forall_insert.
Qed.
End Typed.

(** New objects may refer to those there were. *)
Lemma typed_grow ctx h ss ts cs :
  let ctx' := Build_Context (server_count ctx + length ss) (transport_count ctx + length ts)
                (client_count ctx + length cs) in
  typed_store ctx h -> Forall MemoryServer.wf ss -> Forall (transport_typed ctx) ts ->
  Forall (client_typed ctx) cs ->
  typed_store ctx' (Objects.mk (Objects.servers h ++ ss) (Objects.transports h ++ ts)
                      (Objects.clients h ++ cs)).
Proof.
  intros ctx' [Hctx Hs Ht Hc] Hss Hts Hcs.
  split; cbn; [|by apply Forall_app|..].
  - subst ctx'. rewrite Hctx, !length_app. done.
  - apply Forall_app. split; (eapply Forall_impl; [eassumption|]);
      intros o [Ho Hn]; (split; [cbn; lia|done]).
  - apply Forall_app. split; (eapply Forall_impl; [eassumption|]);
      intros o [Ho Hn]; (split; [cbn; lia|done]).
Qed.

(** Progress and preservation for one call. *)
Definition sound (ctx : Context) (h : Objects.t) (call : Call) : Prop :=
  exists r h', invoke call h = Done (r, h') /\ typed_store (extend ctx call) h' /\
    reply_typed ctx call r.

Section Sound.
Context (ctx : Context) (h : Objects.t).
Hypothesis typed : typed_store ctx h.

Lemma new_server_sound policy : ServerPolicy.wf policy -> sound ctx h (new_server policy).
Proof.
  intros Hp. unfold sound. cbn [invoke]. rewrite server_construct_spec.
  eexists _, _. split; [reflexivity|].
  pose proof (typed_grow ctx h [MemoryServer.mk policy initial_memory] [] [] typed) as Hg.
  destruct h as [ss ts cs]. cbn in Hg. rewrite !app_nil_r in Hg.
  pose proof (typed_counts _ _ typed) as ->. cbn in *. split; [|done].
  rewrite !Nat.add_0_r, Nat.add_1_r in Hg. apply Hg; repeat constructor; done || apply Hp || apply initial_memory_wf.
Qed.

Lemma new_transport_sound i : (i < server_count ctx)%nat -> sound ctx h (new_transport i).
Proof.
  intros Hi. unfold sound. cbn [invoke].
  destruct (dereference_server ctx h typed i Hi) as (sv & E & _). rewrite E. cbn.
  eexists _, _. split; [reflexivity|].
  pose proof (typed_grow ctx h [] [TransportObject.of_transport i (LoopbackTransport.construct sv)] []
                typed) as Hg.
  destruct h as [ss ts cs]. cbn in Hg. rewrite !app_nil_r in Hg.
  pose proof (typed_counts _ _ typed) as ->. cbn in *. split; [|done].
  rewrite !Nat.add_0_r, Nat.add_1_r in Hg. apply Hg; repeat constructor; try done.
  by apply numbered_nil.
Qed.

Lemma new_client_sound i options :
  (i < transport_count ctx)%nat -> ClientOptions.wf options -> sound ctx h (new_client i options).
Proof.
  intros Hi Ho. unfold sound. cbn [invoke].
  destruct (borrow_typed ctx h typed i Hi) as (tr & (o & sv & E & _)%borrow_Some & _).
  rewrite E. cbn. eexists _, _. split; [reflexivity|].
  pose proof (typed_grow ctx h [] [] [ClientObject.mk i (Client.construct options)] typed) as Hg.
  destruct h as [ss ts cs]. cbn in Hg. rewrite !app_nil_r in Hg.
  pose proof (typed_counts _ _ typed) as ->. cbn in *. split; [|done].
  rewrite !Nat.add_0_r, Nat.add_1_r in Hg. apply Hg; [done|done|].
  constructor; [|done]. split; [done|by apply construct_wf].
Qed.

Lemma server_handle_sound i request :
  (i < server_count ctx)%nat -> sound ctx h (server_handle i request).
Proof.
  intros Hi. unfold sound. cbn [invoke].
  destruct (dereference_server ctx h typed i Hi) as (sv & E & Hw). rewrite E. cbn.
  rewrite handle_refines by done. cbn. destruct (handle_spec sv request) as [r sv'] eqn:Er.
  eexists _, _. split; [reflexivity|]. split; [|done].
  pose proof (handle_spec_wf sv request Hw) as Hw'. rewrite Er in Hw'.
  by apply set_server_typed.
Qed.

(** The member functions of transports that cannot fail. *)
Lemma pure_member_typed i f (g : LoopbackTransport.t -> Reply) :
  (i < transport_count ctx)%nat -> (forall tr, loopback_typed tr -> loopback_typed (f tr)) ->
  exists h' tr, pure_member i f g h = Done (g tr, h') /\ typed_store ctx h'.
Proof.
  intros Hi Hf. destruct (borrow_typed ctx h typed i Hi) as (tr & E & Htr).
  exists (Objects.give_back h i (f tr)), tr. unfold pure_member, on_transport. rewrite E.
  split; [done|]. eapply give_back_typed; eauto.
Qed.

Lemma transport_sound call :
  well_typed ctx call ->
  match call with
  | transport_connect _ | transport_close _ | transport_connected _ | transport_exchange _ _ _
  | transport_push_fault _ _ | transport_trace _ | transport_clear_trace _ => sound ctx h call
  | _ => True
  end.
Proof.
  unfold sound. intros Hi. destruct call; try done; cbn [invoke extend well_typed] in *.
  1, 4: rewrite run_bind_eq.
  - destruct (on_transport_typed ctx h typed transport LoopbackTransport.connect)
      as (x & h' & -> & Hh'); [done|by eexists _, _|by eexists _, _].
  - destruct (on_transport_typed ctx h typed transport
                (fun tr => LoopbackTransport.exchange tr request deadline))
      as (x & h' & -> & Hh'); [done| |by eexists _, _].
    intros tr Htr. exact (exchange_returns tr request deadline Htr).
  - destruct (pure_member_typed transport LoopbackTransport.close (fun _ => nothing))
      as (h' & tr & -> & Hh'); [done|done|by eexists _, _].
  - destruct (pure_member_typed transport id (fun tr => flag (LoopbackTransport.connected tr)))
      as (h' & tr & -> & Hh'); [done|done|by eexists _, _].
  - destruct (pure_member_typed transport (fun tr => LoopbackTransport.push_fault tr fault)
                (fun _ => nothing)) as (h' & tr & -> & Hh'); [done|done|by eexists _, _].
  - destruct (pure_member_typed transport id (fun tr => the_trace (LoopbackTransport.trace tr)))
      as (h' & tr & -> & Hh'); [done|done|by eexists _, _].
  - destruct (pure_member_typed transport LoopbackTransport.clear_trace (fun _ => nothing))
      as (h' & tr & -> & Hh'); [done| |by eexists _, _].
    intros tr [Hv [_ Hn]]. split; [done|]. split; [by apply numbered_nil|done].
Qed.

Lemma invoke_sound call : well_typed ctx call -> sound ctx h call.
Proof.
  intros Hc. pose proof (transport_sound call Hc) as Ht.
  destruct call; cbn [well_typed] in *; try done.
  - by apply new_server_sound.
  - by apply new_transport_sound.
  - destruct Hc. by apply new_client_sound.
  - by apply server_handle_sound.
  - destruct (dereference_server ctx h typed server Hc) as (sv & E & Hw).
    unfold sound. cbn [invoke]. rewrite E. eexists _, _. split; [reflexivity|].
    split; [done|apply Hw].
  - destruct Hc as [Hi Ho]. destruct (perform_typed ctx h typed client o Hi Ho) as (r & h' & E & Hh').
    unfold sound. cbn [invoke]. rewrite run_bind_eq, E. by eexists _, _.
  - destruct (dereference_client ctx h typed client Hc) as (o & E & _ & Hw).
    unfold sound. cbn [invoke]. rewrite E. eexists _, _. split; [reflexivity|].
    split; [done|apply Hw].
Qed.
End Sound.

Lemma run_sound ctx ctx' h calls :
  typed_store ctx h -> check ctx calls = Some ctx' ->
  exists rs h', run calls h = Done (rs, h') /\ typed_store ctx' h' /\ replies_typed ctx calls rs.
Proof.
  revert ctx h; induction calls as [|call calls IH]; intros ctx h Hh Hc; cbn [check] in Hc.
  - injection Hc as <-. by exists [], h.
  - case_decide as Hcall; [|done].
    destruct (invoke_sound ctx h Hh call Hcall) as (r & h1 & Hr & Hh1 & Hty).
    destruct (IH _ h1 Hh1 Hc) as (rs & h' & Hrs & Hh' & Htys).
    exists (r :: rs), h'. cbn [run]. rewrite run_bind_eq, Hr. cbn [mbind exec_bind].
    rewrite run_bind_eq, Hrs. done.
Qed.

(** ** Properties *)

(** C4. Type soundness of programs over the public members.  A program, a sequence of
    calls that construct servers, transports and clients, share them by reference and
    use them, is well typed when its references are to objects constructed before and
    its arguments fit their types.  From every typed store, such a program runs to
    its end: no access outside a container, no dangling reference and no endless loop;
    the replies have the types of the calls, and the store is typed in the context
    that the checker computed: all objects are well formed and all references valid. *)
Theorem well_typed_programs_run ctx ctx' h calls :
  typed_store ctx h -> check ctx calls = Some ctx' ->
  exists rs h', run calls h = Done (rs, h') /\ typed_store ctx' h' /\ replies_typed ctx calls rs.
Proof. apply run_sound. Qed.

(** *** The properties at concrete inputs *)

Lemma empty_typed : typed_store empty_context Objects.empty.
Proof. by split. Qed.

(** Two clients with transports of their own on one server that allows writes. *)
Definition shared_server_program : list Call := [
  new_server (ServerPolicy.mk true 0x0100 0x07FF);
  new_transport 0; new_transport 0;
  new_client 0 ClientOptions.default; new_client 1 ClientOptions.default;
  transport_push_fault 1 TransportFault.timeout;
  client_perform 0 (write_operation 0x0100 [to_byte 7] 50);
  client_perform 1 (read_operation 0x0100 1 50) ].

Lemma well_typed_programs_run_witness :
  exists rs h', run shared_server_program Objects.empty = Done (rs, h') /\
    typed_store (Build_Context 1 2 2) h'.
Proof.
  destruct (well_typed_programs_run empty_context (Build_Context 1 2 2) Objects.empty
              shared_server_program empty_typed) as (rs & h' & E & Hh & _); [reflexivity|].
  exists rs, h'. split; [exact E|exact Hh].
Defined.
