(* ===== verification/Guarantee.v ===== *)
(** * What no program can do to a server.

    A guarantee on the servers of a store that every call of the public members keeps,
    through whatever transports and clients the servers are shared by. *)

From S2P Require Import Prelude Types BigEndian Crc Codec Memory Server Transport.
From S2P Require Import ImlpClient ClientProperties System Objects.

(** A server may only change as its policy allows. *)
Definition guarded (s s' : MemoryServer.t) : Prop :=
  MemoryServer.policy_ s' = MemoryServer.policy_ s /\
  memory_guarantee (MemoryServer.policy_ s) (MemoryServer.memory_ s) (MemoryServer.memory_ s').

#[export] Instance guarded_preorder : PreOrder guarded.
Proof.
  split; [split; reflexivity|]. intros s1 s2 s3 [P1 G1] [P2 G2]. rewrite P1 in P2, G2.
  split; [exact P2|by etrans].
Qed.

Lemma handle_spec_guarded s bytes : MemoryServer.wf s -> guarded s (handle_spec s bytes).2.
Proof. exact (handle_spec_guarantee s bytes). Qed.

(** ** Clients keep what transports keep *)

(** A transport whose server came from [s]. *)
Definition guarded_loopback (s : MemoryServer.t) (tr : LoopbackTransport.t) : Prop :=
  loopback_valid tr /\ guarded s (LoopbackTransport.server_ tr).

Lemma exchange_guarded tr request deadline r tr' :
  loopback_valid tr -> LoopbackTransport.exchange tr request deadline = Done (r, tr') ->
  guarded (LoopbackTransport.server_ tr) (LoopbackTransport.server_ tr').
Proof.
  intros Hv E. rewrite exchange_refines in E by exact Hv. apply Done_inj in E.
  destruct (exchange_spec_server tr request deadline) as [[Es _]|[Es _]]; rewrite E in Es;
    cbn [snd] in Es; rewrite Es; [reflexivity|by apply handle_spec_guarded].
Qed.

#[export] Instance guarded_loopback_laws s :
  TransportLaws LoopbackTransport.t (guarded_loopback s).
Proof.
  split.
  - intros tr Htr. by eexists _, _.
  - done.
  - intros tr request deadline [Hv Hg].
    destruct (exchange_returns tr request deadline Hv) as (r & tr' & E & Hv').
    exists r, tr'. split; [exact E|]. split; [exact Hv'|].
    transitivity (LoopbackTransport.server_ tr); [exact Hg|by eapply exchange_guarded].
Qed.

Lemma perform_guarded o c tr r c' tr' :
  Client.wf c -> loopback_valid tr -> arguments_wf o -> perform o (c, tr) = Done (r, (c', tr')) ->
  guarded (LoopbackTransport.server_ tr) (LoopbackTransport.server_ tr').
Proof.
  intros Hc Hv Ho Hr.
  assert (guarded_loopback (LoopbackTransport.server_ tr) tr) as Hg by (split; [exact Hv|reflexivity]).
  destruct (perform_complete o c tr Hc Hg) as (r1 & c1 & tr1 & Hr1 & _ & [_ Hg1] & _);
    [destruct o; [exact (proj1 (proj2 Ho))|exact I]|]. rewrite Hr in Hr1. apply Done_inj in Hr1 as [= _ _ ->]. exact Hg1.
Qed.

(** ** Calls *)

(** The servers that a call or a program constructs, in their first state. *)
Definition constructed (call : Call) : list MemoryServer.t :=
  match call with new_server policy => [MemoryServer.mk policy initial_memory] | _ => [] end.
Definition new_servers (calls : list Call) : list MemoryServer.t := calls ≫= constructed.

Lemma guarded_same ss : Forall2 guarded ss ss.
Proof. reflexivity. Qed.

Lemma guarded_insert ss i s s' :
  ss !! i = Some s -> guarded s s' -> Forall2 guarded ss (<[i := s']> ss).
Proof.
  intros Hs Hg. rewrite <-(list_insert_id ss i s Hs) at 1. by apply Forall2_insert.
Qed.

Lemma give_back_guarded h i tr tr' :
  Objects.borrow h i = Some tr ->
  guarded (LoopbackTransport.server_ tr) (LoopbackTransport.server_ tr') ->
  Forall2 guarded (Objects.servers h) (Objects.servers (Objects.give_back h i tr')).
Proof.
  intros (o & s & Ho & Hs & ->)%borrow_Some Hg. unfold Objects.give_back. rewrite Ho.
  exact (guarded_insert _ _ s _ Hs Hg).
Qed.

Section Call.
Context (ctx : Context) (h : Objects.t).
Hypothesis typed : typed_store ctx h.

Lemma borrowed_valid i tr :
  (i < transport_count ctx)%nat -> Objects.borrow h i = Some tr -> loopback_valid tr.
Proof.
  intros Hi E. destruct (borrow_typed ctx h typed i Hi) as (tr' & E' & Hv & _).
  rewrite E in E'. injection E' as ->. exact Hv.
Qed.

Lemma on_transport_guarded {A} i (f : LoopbackTransport.t -> Exec (A * LoopbackTransport.t)) x h' :
  (i < transport_count ctx)%nat -> on_transport i f h = Done (x, h') ->
  (forall tr x tr', loopback_valid tr -> f tr = Done (x, tr') ->
     guarded (LoopbackTransport.server_ tr) (LoopbackTransport.server_ tr')) ->
  Forall2 guarded (Objects.servers h) (Objects.servers h').
Proof.
  intros Hi (tr & tr' & Htr & Ef & ->)%on_transport_inv Hf.
  exact (give_back_guarded h i tr tr' Htr (Hf _ _ _ (borrowed_valid i tr Hi Htr) Ef)).
Qed.

(** The member functions that do not touch the server. *)
Lemma pure_member_guarded {A} i f (g : LoopbackTransport.t -> A) x h' :
  (forall tr, LoopbackTransport.server_ (f tr) = LoopbackTransport.server_ tr) ->
  pure_member i f g h = Done (x, h') ->
  Forall2 guarded (Objects.servers h) (Objects.servers h').
Proof.
  intros Hf (tr & Htr & _ & ->)%pure_member_inv. apply (give_back_guarded h i tr (f tr) Htr).
  rewrite Hf. reflexivity.
Qed.

Lemma client_perform_guarded i o r h' :
  (i < client_count ctx)%nat -> arguments_wf o -> on_client i (perform o) h = Done (r, h') ->
  Forall2 guarded (Objects.servers h) (Objects.servers h').
Proof.
  intros Hi Ho E. destruct (dereference_client ctx h typed i Hi) as (co & Ec & Ht & Hc).
  destruct (borrow_typed ctx h typed _ Ht) as (tr & Etr & Hv & _).
  unfold on_client in E. rewrite Ec in E. cbn [dereference mbind exec_bind] in E.
  rewrite (perform_borrowed h _ tr Etr) in E.
  destruct (perform o (ClientObject.state co, tr)) as [[r1 [c1 tr1]]|] eqn:Er; [|discriminate E].
  cbn [mbind exec_bind] in E. apply Done_inj in E as [= _ <-].
  exact (give_back_guarded h _ tr tr1 Etr (perform_guarded o _ tr r1 c1 tr1 Hc Hv Ho Er)).
Qed.

Lemma server_handle_guarded i request r h' :
  (i < server_count ctx)%nat -> invoke (server_handle i request) h = Done (r, h') ->
  Forall2 guarded (Objects.servers h) (Objects.servers h').
Proof.
  intros Hi E. destruct (dereference_server ctx h typed i Hi) as (s & Es & Hw).
  cbn [invoke] in E. rewrite Es in E. cbn [dereference mbind exec_bind] in E.
  rewrite handle_refines in E by exact Hw.
  pose proof (handle_spec_guarded s request Hw) as Hg.
  destruct (handle_spec s request) as [r1 s1]. apply Done_inj in E as [= _ <-].
  exact (guarded_insert _ _ s s1 Es Hg).
Qed.
End Call.

Lemma new_server_constructs policy h r h' :
  invoke (new_server policy) h = Done (r, h') ->
  Objects.servers h' = Objects.servers h ++ [MemoryServer.mk policy initial_memory].
Proof. cbn [invoke]. rewrite server_construct_spec. by intros [= _ <-]%Done_inj. Qed.

(** One call: what it does to the servers there are, and the server it constructs. *)
Lemma invoke_guarded ctx h call r h' :
  typed_store ctx h -> well_typed ctx call -> invoke call h = Done (r, h') ->
  Forall2 guarded (Objects.servers h ++ constructed call) (Objects.servers h').
Proof.
  intros Ht Hc E. destruct call; cbn [constructed well_typed invoke] in *; rewrite ?app_nil_r.
  - rewrite (new_server_constructs policy h r h' E). reflexivity.
  - destruct (Objects.servers h !! server); [|discriminate E]. apply Done_inj in E as [= _ <-].
    reflexivity.
  - destruct (Objects.transports h !! transport); [|discriminate E].
    apply Done_inj in E as [= _ <-]. reflexivity.
  - exact (server_handle_guarded ctx h Ht server request r h' Hc E).
  - destruct (Objects.servers h !! server); [|discriminate E]. apply Done_inj in E as [= _ <-].
    reflexivity.
  - apply run_bind_Done in E as (b & h1 & E & [= _ <-]%Done_inj).
    eapply on_transport_guarded; [exact Ht|exact Hc|exact E|].
    intros tr x tr' _ [= _ <-]%Done_inj. reflexivity.
  - eapply pure_member_guarded; [|exact E]. reflexivity.
  - eapply pure_member_guarded; [|exact E]. reflexivity.
  - apply run_bind_Done in E as (b & h1 & E & [= _ <-]%Done_inj).
    eapply on_transport_guarded; [exact Ht|exact Hc|exact E|].
    intros tr x tr' Hv Hx. exact (exchange_guarded tr request deadline x tr' Hv Hx).
  - eapply pure_member_guarded; [|exact E]. reflexivity.
  - eapply pure_member_guarded; [|exact E]. reflexivity.
  - eapply pure_member_guarded; [|exact E]. reflexivity.
  - apply run_bind_Done in E as (x & h1 & E & [= _ <-]%Done_inj). destruct Hc as [Hi Ho].
    exact (client_perform_guarded ctx h Ht client o x h1 Hi Ho E).
  - destruct (Objects.clients h !! client); [|discriminate E]. apply Done_inj in E as [= _ <-].
    reflexivity.
Qed.

Lemma run_guarded ctx h calls ctx' :
  typed_store ctx h -> check ctx calls = Some ctx' ->
  exists rs h', run calls h = Done (rs, h') /\
    Forall2 guarded (Objects.servers h ++ new_servers calls) (Objects.servers h').
Proof.
  revert ctx h; induction calls as [|call calls IH]; intros ctx h Ht Hc; cbn [check] in Hc.
  - exists [], h. split; [reflexivity|]. cbn. rewrite app_nil_r. reflexivity.
  - destruct (decide (well_typed ctx call)) as [Hcall|]; [|discriminate Hc].
    destruct (invoke_sound ctx h Ht call Hcall) as (r & h1 & Hr & Ht1 & _).
    destruct (IH _ h1 Ht1 Hc) as (rs & h' & Hrs & Hg).
    exists (r :: rs), h'. cbn [run]. rewrite run_bind_eq, Hr. cbn [mbind exec_bind].
    rewrite run_bind_eq, Hrs. split; [reflexivity|].
    transitivity (Objects.servers h1 ++ new_servers calls); [|exact Hg].
    unfold new_servers. cbn [mbind list_bind]. rewrite app_assoc.
    apply Forall2_app; [|reflexivity]. exact (invoke_guarded ctx h call r h1 Ht Hcall Hr).
Qed.

(** ** Properties *)

(** C7. No program defeats a write policy.  Whatever a well-typed program does with
    the public members, sharing servers and transports by reference in any way, and
    whatever bytes and faults it sends, every server there was and every server it
    constructs, the latter from the initial memory, ends under the policy it was given,
    with every byte unchanged outside 0x100..0x7ff and outside the policy's allowlist,
    and with the whole memory unchanged if the policy disables writes. *)
Theorem programs_respect_policies ctx ctx' h calls :
  typed_store ctx h -> check ctx calls = Some ctx' ->
  exists rs h', run calls h = Done (rs, h') /\
    Forall2 guarded (Objects.servers h ++ new_servers calls) (Objects.servers h').
Proof. exact (run_guarded ctx h calls ctx'). Qed.

(** *** The properties at concrete inputs *)

(** A server with writes disabled, written to through a client and around it. *)
Definition read_only_program : list Call := [
  new_server (ServerPolicy.mk false 0x0100 0x07FF);
  new_transport 0; new_client 0 ClientOptions.default;
  client_perform 0 (write_operation 0x0100 [to_byte 7] 50);
  transport_exchange 0 (wire (write_request 1 0x0100 [to_byte 7])) 50 ].

Lemma programs_respect_policies_witness :
  exists rs h', run read_only_program Objects.empty = Done (rs, h') /\
    MemoryServer.memory_ <$> Objects.servers h' = [initial_memory].
Proof.
  destruct (programs_respect_policies empty_context (Build_Context 1 1 1) Objects.empty
              read_only_program empty_typed) as (rs & h' & E & Hg); [reflexivity|].
  exists rs, h'. split; [exact E|]. change (_ ++ _) with
    [MemoryServer.mk (ServerPolicy.mk false 0x0100 0x07FF) initial_memory] in Hg.
  apply Forall2_cons_inv_l in Hg as (s & ss & Hs & Hss & ->). apply Forall2_nil_inv_l in Hss as ->.
  destruct Hs as (_ & _ & _ & Hm). cbn [fmap list_fmap]. rewrite <-(Hm eq_refl). reflexivity.
Defined.
