(* ===== verification/Sharing.v ===== *)
(** * What sharing means: the refinement of the programs of [Objects].

    A store is, for its users, a set of atomic memories reached through lines with
    queued faults ([abstract_run]). *)

From S2P Require Import Prelude Types BigEndian Crc Codec Memory Server Transport.
From S2P Require Import ImlpClient ClientProperties System Objects.

(** ** Shared atomic memories

    What the store is for its users: for every server a policy and a memory, for
    every transport the server it reaches and the faults queued, for every client the
    transport it uses and its attempts. *)
Record Memories : Set := {
  memories : list (ServerPolicy.t * MemoryMap.t);
  lines : list (nat * list TransportFault.t);
  readers : list (nat * Z);
}.

Inductive Observed : Set :=
| observed_creation (reference : nat)
| observed_operation (x : Observation * Z)
| observed_answer (r : HandleResult.t)
| observed_memory (m : MemoryMap.t)
| unobserved.

(** One call, at once.  The connections and traces of transports and the metrics of
    clients are not part of this view, nor is a call of exchange past the clients. *)
Definition abstract_invoke (call : Call) (a : Memories) : option (Observed * Memories) :=
  let set_memory i x := <[i := x]> (memories a) in
  match call with
  | new_server policy =>
      Some (observed_creation (length (memories a)),
            Build_Memories (memories a ++ [(policy, initial_memory)]) (lines a) (readers a))
  | new_transport i =>
      Some (observed_creation (length (lines a)),
            Build_Memories (memories a) (lines a ++ [(i, [])]) (readers a))
  | new_client i options =>
      Some (observed_creation (length (readers a)),
            Build_Memories (memories a) (lines a)
              (readers a ++ [(i, Z.max 1 (ClientOptions.maximum_read_attempts options))]))
  | server_handle i request =>
      '(p, m) ← memories a !! i;
      let '(r, server) := handle_spec (MemoryServer.mk p m) request in
      Some (observed_answer r,
            Build_Memories (set_memory i (p, MemoryServer.memory_ server)) (lines a) (readers a))
  | server_memory i => '(_, m) ← memories a !! i; Some (observed_memory m, a)
  | transport_push_fault i fault =>
      '(s, faults) ← lines a !! i;
      Some (unobserved,
            Build_Memories (memories a) (<[i := (s, faults ++ [fault])]> (lines a)) (readers a))
  | transport_connect _ | transport_close _ | transport_connected _ | transport_trace _
  | transport_clear_trace _ | client_metrics _ => Some (unobserved, a)
  | transport_exchange _ _ _ => None
  | client_perform i o =>
      '(t, max) ← readers a !! i;
      '(s, faults) ← lines a !! t;
      '(p, m) ← memories a !! s;
      let '(x, (m, faults)) := faulty_perform p max (m, faults) o in
      Some (observed_operation x,
            Build_Memories (set_memory s (p, m)) (<[t := (s, faults)]> (lines a)) (readers a))
  end.

Fixpoint abstract_run (calls : list Call) (a : Memories) : option (list Observed * Memories) :=
  match calls with
  | [] => Some ([], a)
  | call :: calls =>
      '(x, a) ← abstract_invoke call a;
      '(xs, a) ← abstract_run calls a;
      Some (x :: xs, a)
  end.

Definition observe_reply (r : Reply) : Observed :=
  match r with
  | created i => observed_creation i
  | performed r => observed_operation (observe r, OperationResult.attempts r)
  | handled r => observed_answer r
  | the_memory m => observed_memory m
  | _ => unobserved
  end.

Definition memory_entry (s : MemoryServer.t) : ServerPolicy.t * MemoryMap.t :=
  (MemoryServer.policy_ s, MemoryServer.memory_ s).
Definition line_entry (o : TransportObject.t) : nat * list TransportFault.t :=
  (TransportObject.server_ o, TransportObject.faults_ o).
Definition reader_entry (o : ClientObject.t) : nat * Z :=
  (ClientObject.transport_ o, maximum (ClientObject.state o)).

Definition abstract_of (h : Objects.t) : Memories :=
  Build_Memories (memory_entry <$> Objects.servers h) (line_entry <$> Objects.transports h)
    (reader_entry <$> Objects.clients h).

(** Calls that go through the clients or to the servers, not around them. *)
Definition through_clients (call : Call) : Prop :=
  match call with transport_exchange _ _ _ => False | _ => True end.

Lemma abstract_give_back h i o tr' :
  Objects.transports h !! i = Some o ->
  abstract_of (Objects.give_back h i tr') =
  Build_Memories
    (<[TransportObject.server_ o := (policy_of tr', memory_of tr')]> (memories (abstract_of h)))
    (<[i := (TransportObject.server_ o, LoopbackTransport.faults_ tr')]> (lines (abstract_of h)))
    (readers (abstract_of h)).
Proof.
  intros Ho. unfold Objects.give_back. rewrite Ho. unfold abstract_of.
  cbn [Objects.servers Objects.transports Objects.clients memories lines readers].
  by rewrite !list_fmap_insert.
Qed.

(** Member functions that keep server and faults are not observed. *)
Lemma abstract_unchanged h i tr tr' :
  Objects.borrow h i = Some tr ->
  LoopbackTransport.server_ tr' = LoopbackTransport.server_ tr ->
  LoopbackTransport.faults_ tr' = LoopbackTransport.faults_ tr ->
  abstract_of (Objects.give_back h i tr') = abstract_of h.
Proof.
  intros (o & sv & Ho & Hs & ->)%borrow_Some Hsv Hf. rewrite (abstract_give_back h i o tr' Ho).
  unfold policy_of, memory_of. rewrite Hsv, Hf. unfold abstract_of.
  cbn [memories lines readers TransportObject.with_server LoopbackTransport.server_
       LoopbackTransport.faults_].
  rewrite !list_insert_id; [done|..].
  - rewrite list_lookup_fmap, Ho. done.
  - rewrite list_lookup_fmap, Hs. done.
Qed.

Section Refines.
Context (ctx : Context) (h : Objects.t).
Hypothesis typed : typed_store ctx h.

(** An operation of a client, on the memory its transport reaches. *)
Lemma perform_refines i o r h' :
  (i < client_count ctx)%nat -> arguments_wf o ->
  on_client i (perform o) h = Done (r, h') ->
  abstract_invoke (client_perform i o) (abstract_of h) =
  Some (observed_operation (observe r, OperationResult.attempts r), abstract_of h').
Proof.
  intros Hi Ho. destruct (dereference_client ctx h typed i Hi) as (co & Ec & Ht & Hc).
  destruct (borrow_typed ctx h typed _ Ht) as (tr & E & Hv & _).
  destruct (perform_faulty o (ClientObject.state co) tr Hc Hv Ho)
    as (r' & c' & tr' & Er & _ & _ & Hm & Hp & Hx).
  unfold on_client. rewrite Ec. cbn [dereference mbind exec_bind].
  rewrite (perform_borrowed h _ tr E), Er. cbn [mbind exec_bind]. intros [= <- <-]%Done_inj.
  apply borrow_Some in E as (to & sv & Eto & Esv & ->).
  cbn [abstract_invoke abstract_of memories lines readers].
  rewrite !list_lookup_fmap, Ec. cbn. rewrite list_lookup_fmap, Eto. cbn.
  rewrite list_lookup_fmap, Esv. cbn.
  unfold policy_of, memory_of in Hx. cbn in Hx. rewrite <-Hx. do 2 f_equal.
  pose proof (abstract_give_back h _ to tr' Eto) as Hg. rewrite Hp in Hg. cbn in Hg.
  pose proof (f_equal memories Hg) as Hg1. pose proof (f_equal lines Hg) as Hg2.
  cbn in Hg1, Hg2. unfold abstract_of. cbn [Objects.servers Objects.transports Objects.clients].
  rewrite Hg1, Hg2. f_equal. rewrite list_fmap_insert, list_insert_id.
  - unfold Objects.give_back. by rewrite Eto.
  - unfold Objects.give_back. rewrite Eto. cbn. rewrite list_lookup_fmap, Ec. cbn.
    unfold reader_entry. cbn. by rewrite Hm.
Qed.

Lemma server_handle_refines i request r h' :
  (i < server_count ctx)%nat ->
  invoke (server_handle i request) h = Done (r, h') ->
  abstract_invoke (server_handle i request) (abstract_of h) = Some (observe_reply r, abstract_of h').
Proof.
  intros Hi. cbn [invoke abstract_invoke].
  destruct (dereference_server ctx h typed i Hi) as (sv & E & Hw). rewrite E.
  cbn [dereference mbind exec_bind]. rewrite handle_refines by done. cbn [mbind exec_bind].
  destruct (handle_spec sv request) as [x sv'] eqn:Er. intros [= <- <-]%Done_inj.
  cbn [abstract_of memories]. rewrite list_lookup_fmap, E. cbn. rewrite server_eta, Er.
  do 2 f_equal. unfold abstract_of. cbn. rewrite list_fmap_insert. do 2 f_equal.
  unfold memory_entry. f_equal. unfold handle_spec in Er.
  destruct (DecodeResult.frame _); by injection Er as <- <-.
Qed.

Lemma push_fault_refines i fault r h' :
  invoke (transport_push_fault i fault) h = Done (r, h') ->
  abstract_invoke (transport_push_fault i fault) (abstract_of h) =
  Some (observe_reply r, abstract_of h').
Proof.
  cbn [invoke abstract_invoke]. intros (tr & E & -> & ->)%pure_member_inv.
  apply borrow_Some in E as (o & sv & Ho & Hs & ->). cbn [lines abstract_of].
  rewrite list_lookup_fmap, Ho. cbn [fmap option_fmap option_map line_entry mbind option_bind].
  rewrite (abstract_give_back h i o _ Ho). do 2 f_equal. cbn [abstract_of memories].
  f_equal. symmetry. apply list_insert_id. by rewrite list_lookup_fmap, Hs.
Qed.

Lemma new_server_refines policy r h' :
  invoke (new_server policy) h = Done (r, h') ->
  abstract_invoke (new_server policy) (abstract_of h) = Some (observe_reply r, abstract_of h').
Proof.
  cbn [invoke abstract_invoke]. rewrite server_construct_spec. intros [= <- <-]%Done_inj.
  unfold abstract_of. cbn. by rewrite fmap_app, length_fmap.
Qed.

Lemma invoke_refines call r h' :
  well_typed ctx call -> through_clients call -> invoke call h = Done (r, h') ->
  abstract_invoke call (abstract_of h) = Some (observe_reply r, abstract_of h').
Proof.
  intros Hc Ht Hr. destruct call; cbn [through_clients] in Ht; try contradiction.
  - by apply new_server_refines.
  - cbn [invoke abstract_invoke] in *. destruct (dereference_server ctx h typed server Hc) as (sv & E & _).
    rewrite E in Hr. apply Done_inj in Hr as [= <- <-].
    unfold abstract_of. cbn. by rewrite fmap_app, length_fmap.
  - cbn [invoke abstract_invoke] in *.
    destruct (borrow_typed ctx h typed transport (proj1 Hc)) as (tr & (o & sv & E & _)%borrow_Some & _).
    rewrite E in Hr. apply Done_inj in Hr as [= <- <-].
    unfold abstract_of. cbn. by rewrite fmap_app, length_fmap.
  - by apply server_handle_refines.
  - cbn [invoke abstract_invoke] in *. destruct (dereference_server ctx h typed server Hc) as (sv & E & _).
    rewrite E in Hr. apply Done_inj in Hr as [= <- <-]. cbn [abstract_of memories].
    by rewrite list_lookup_fmap, E.
  - cbn [invoke abstract_invoke] in *. rewrite run_bind_eq in Hr.
    destruct (on_transport transport _ h) as [[x h1]|] eqn:E; [|done].
    apply Done_inj in Hr as [= <- <-]. apply on_transport_inv in E as (tr & tr' & E & Ef & ->).
    apply Done_inj in Ef as [= _ <-]. by rewrite (abstract_unchanged _ _ tr).
  - apply pure_member_inv in Hr as (tr & E & -> & ->). by rewrite (abstract_unchanged _ _ tr).
  - apply pure_member_inv in Hr as (tr & E & -> & ->). by rewrite (abstract_unchanged _ _ tr).
  - by apply push_fault_refines.
  - apply pure_member_inv in Hr as (tr & E & -> & ->). by rewrite (abstract_unchanged _ _ tr).
  - apply pure_member_inv in Hr as (tr & E & -> & ->). by rewrite (abstract_unchanged _ _ tr).
  - cbn [invoke] in Hr. rewrite run_bind_eq in Hr.
    destruct (on_client client (perform o) h) as [[x h1]|] eqn:E; [|done].
    apply Done_inj in Hr as [= <- <-]. by apply perform_refines; [apply Hc..|].
  - cbn [invoke abstract_invoke] in *.
    destruct (dereference_client ctx h typed client Hc) as (o & E & _).
    rewrite E in Hr. by apply Done_inj in Hr as [= <- <-].
Qed.
End Refines.

(** ** Properties *)

(** C5. Sharing refines shared atomic memories.  In any well-typed program in which
    exchanges are made by clients only, however transports share servers and clients
    share transports, every operation of a client is one step on the memory of the
    server its transport reaches, distorted only by the faults queued at that
    transport; every request handed to a server directly, and every look at its
    memory, sees the same memory, after all the calls before it. *)
Theorem sharing_refines_atomic_memories ctx ctx' h calls :
  typed_store ctx h -> check ctx calls = Some ctx' -> Forall through_clients calls ->
  exists rs h', run calls h = Done (rs, h') /\
    abstract_run calls (abstract_of h) = Some (observe_reply <$> rs, abstract_of h').
Proof.
  intros Hh Hc Hall. revert ctx h Hh Hc; induction Hall as [|call calls Ht _ IH];
    intros ctx h Hh Hc; cbn [check] in Hc.
  - by exists [], h.
  - case_decide as Hcall; [|done].
    destruct (invoke_sound ctx h Hh call Hcall) as (r & h1 & Hr & Hh1 & _).
    destruct (IH _ h1 Hh1 Hc) as (rs & h' & Hrs & Habs).
    exists (r :: rs), h'. cbn [run]. rewrite run_bind_eq, Hr. cbn [mbind exec_bind].
    rewrite run_bind_eq, Hrs. split; [done|]. cbn [abstract_run].
    rewrite (invoke_refines ctx h Hh call r h1 Hcall Ht Hr). cbn [mbind option_bind].
    by rewrite Habs.
Qed.

(** *** The properties at concrete inputs *)

Lemma sharing_refines_atomic_memories_witness :
  exists rs h', run shared_server_program Objects.empty = Done (rs, h') /\
    abstract_run shared_server_program (abstract_of Objects.empty) =
    Some (observe_reply <$> rs, abstract_of h').
Proof.
  destruct (sharing_refines_atomic_memories empty_context (Build_Context 1 2 2) Objects.empty
              shared_server_program empty_typed) as (rs & h' & E & Ha); [reflexivity| |].
  - repeat constructor.
  - exists rs, h'. split; [exact E|exact Ha].
Defined.
