(* ===== verification/Commutation.v ===== *)
(** * Operations on a shared server that commute.

    Clients with transports of their own share a server.  Two operations of theirs of
    which none writes what the other accesses can be done in either order, under any
    queued faults: the results, the traces and the memory are the same. *)

From S2P Require Import Prelude Types BigEndian Crc Codec Memory Server Transport.
From S2P Require Import ImlpClient ClientProperties System Objects.

(** ** Operations that do not conflict *)

Definition writes (o : Operation) : bool :=
  match o with read_operation _ _ _ => false | write_operation _ _ _ => true end.
Definition address_of (o : Operation) : Z :=
  match o with read_operation address _ _ | write_operation address _ _ => address end.

Definition disjoint_operations (o1 o2 : Operation) : Prop :=
  address_of o1 + size_of o1 <= address_of o2 \/ address_of o2 + size_of o2 <= address_of o1.

Definition compatible (o1 o2 : Operation) : Prop :=
  writes o1 || writes o2 = true -> disjoint_operations o1 o2.

(** ** A transport on several memories *)

(** The transport over a server with the memory [m]. *)
Definition with_memory (tr : LoopbackTransport.t) (m : MemoryMap.t) : LoopbackTransport.t :=
  LoopbackTransport.mk (MemoryServer.mk (policy_of tr) m) (LoopbackTransport.connected_ tr)
    (LoopbackTransport.faults_ tr) (LoopbackTransport.trace_ tr)
    (LoopbackTransport.next_sequence_ tr).

(** What a client can see of a decision, and what it makes of the memory. *)
Definition visible (p : ServerPolicy.t) (f : Frame.t) (m : MemoryMap.t)
    : Status.t * string * list byte :=
  let d := serve p m f in (decided_status d, decided_detail d, decided_payload d).
Definition effect (p : ServerPolicy.t) (f : Frame.t) (m : MemoryMap.t) : MemoryMap.t :=
  decided_memory (serve p m f).

(** A computation on a transport that takes the same course on all memories that look
    like [m0] to the request [f], and has the effect of the request on them or none. *)
Definition uniform {A} (f : Frame.t) (m0 : MemoryMap.t) (tr : LoopbackTransport.t)
    (run : LoopbackTransport.t -> Exec A) (result : LoopbackTransport.t -> A)
    (tr' : LoopbackTransport.t) (reached : bool) : Prop :=
  policy_of tr' = policy_of tr /\
  forall m, MemoryMap.wf m -> visible (policy_of tr) f m = visible (policy_of tr) f m0 ->
  run (with_memory tr m) =
  Done (result (with_memory tr' (if reached then effect (policy_of tr) f m else m))).

Section Uniform.
Context (f : Frame.t) (deadline : Z) (m0 : MemoryMap.t).
Hypothesis f_wf : Frame.wf f.
Hypothesis f_protocol : protocol_frame f.

Lemma attempt_uniform tr :
  ServerPolicy.wf (policy_of tr) ->
  exists a tr', uniform f m0 tr (try_exchange (wire f) deadline) (pair a) tr'
                  (negb (is_failed (outcome a))).
Proof.
  intros Hp. set (p := policy_of tr). set (faults := LoopbackTransport.faults_ tr).
  set (response := damage (head faults) (wire (response_frame f (serve p m0 f)))).
  set (detail := decided_detail (serve p m0 f)).
  set (left := fun c faults outcome bytes =>
    after_exchange tr (LoopbackTransport.server_ tr) c faults (wire f) outcome bytes).
  set (a := Build_Attempt (negb (connected tr))).
  assert (forall m, MemoryMap.wf m ->
    try_exchange (wire f) deadline (with_memory tr m) =
    let tr1 := LoopbackTransport.mk (MemoryServer.mk p m) true faults
                 (LoopbackTransport.trace_ tr) (LoopbackTransport.next_sequence_ tr) in
    let '(reply, tr2) := exchange_spec tr1 (wire f) deadline in
    if TransportReply.to_bool reply then Done (a (replied (TransportReply.bytes reply)), tr2)
    else Done (a (failed (TransportReply.error reply)), close tr2)) as E.
  { intros m Hm. unfold try_exchange.
    set (tr1 := LoopbackTransport.mk (MemoryServer.mk p m) true faults
                  (LoopbackTransport.trace_ tr) (LoopbackTransport.next_sequence_ tr)).
    assert ((if connected (with_memory tr m) then Done (true, with_memory tr m)
             else connect (with_memory tr m)) = Done (true, tr1)) as ->
      by (subst tr1 faults p; destruct tr as [? [] ? ? ?]; done).
    cbn [mbind exec_bind negb]. cbn [exchange LoopbackTransport_ITransport].
    rewrite exchange_refines by (split; [exact Hp|exact Hm]). cbn zeta.
    by destruct (exchange_spec tr1 (wire f) deadline). }
  assert (Hcourse : forall m, visible p f m = visible p f m0 ->
    damage (head faults) (wire (response_frame f (serve p m f))) = response /\
    decided_detail (serve p m f) = detail).
  { intros m Hv. unfold visible in Hv. injection Hv as Hs Hd Hpay.
    unfold response, detail, response_frame. by rewrite Hs, Hd, Hpay. }
  destruct (deadline <=? 0) eqn:Hdl; [|destruct (next_failure faults) as [e|] eqn:Hf].
  - exists (a (failed TransportError.timeout)), (left false faults "deadline_expired" []).
    split; [done|]. intros m Hm _. rewrite (E m Hm). unfold exchange_spec.
    cbn [LoopbackTransport.connected_ LoopbackTransport.faults_ LoopbackTransport.server_ negb].
    rewrite Hdl. reflexivity.
  - exists (a (failed e)), (left false (tail faults) (transport_error_name e) []).
    split; [done|]. intros m Hm _. rewrite (E m Hm). unfold exchange_spec.
    cbn [LoopbackTransport.connected_ LoopbackTransport.faults_ LoopbackTransport.server_ negb].
    rewrite Hdl. destruct faults as [|[| | | |] faults']; try done; by injection Hf as <-.
  - exists (a (replied response)), (left true (tail faults) detail response).
    split; [done|]. intros m Hm Hv. rewrite (E m Hm). destruct (Hcourse m Hv) as [<- <-].
    unfold exchange_spec.
    cbn [LoopbackTransport.connected_ LoopbackTransport.faults_ LoopbackTransport.server_ negb].
    rewrite Hdl, (handle_spec_wire f f_wf f_protocol). clear -Hf.
    unfold left, effect. fold p.
    destruct faults as [|[| | | |] faults']; try discriminate Hf; reflexivity.
Qed.

(** The attempts of a request: only the last can reach the server. *)
Lemma tries_uniform n tr :
  ServerPolicy.wf (policy_of tr) ->
  exists l tr' reached, uniform f m0 tr (tries (wire f) deadline n) (pair l) tr' reached.
Proof.
  revert tr; induction n as [|n IH]; intros tr Hp.
  { exists [], tr, false. split; [done|]. intros m _ _. reflexivity. }
  destruct (attempt_uniform tr Hp) as (a & tr1 & Hp1 & E1).
  destruct (is_failed (outcome a)) eqn:Ha; cbn [negb] in E1.
  - destruct (IH tr1) as (l & tr2 & reached & Hp2 & E2); [by rewrite Hp1|].
    exists (a :: l), tr2, reached. split; [by rewrite Hp2|]. intros m Hm Hv.
    rewrite tries_S, (E1 m Hm Hv). cbn [mbind exec_bind]. rewrite Ha, E2 by (rewrite ?Hp1; done).
    cbn [mbind exec_bind]. by rewrite Hp1.
  - exists [a], tr1, true. split; [exact Hp1|]. intros m Hm Hv.
    rewrite tries_S, (E1 m Hm Hv). cbn [mbind exec_bind]. by rewrite Ha.
Qed.
End Uniform.

(** ** Effects *)

Lemma memory_ext m m' :
  MemoryMap.wf m -> MemoryMap.wf m' -> (forall i, byte_at m i = byte_at m' i) -> m = m'.
Proof.
  destruct m as [l], m' as [l']. intros _ _ E. f_equal. apply list_eq. intros i.
  specialize (E (Z.of_nat i)). unfold byte_at in E. cbn [MemoryMap.bytes_] in E.
  rewrite (proj2 (Z.ltb_ge _ _)), Nat2Z.id in E by lia. exact E.
Qed.

Lemma store_disjoint_comm m a data a' data' :
  MemoryMap.wf m -> 0 <= a -> a + zlen data <= 4096 -> 0 <= a' -> a' + zlen data' <= 4096 ->
  a + zlen data <= a' \/ a' + zlen data' <= a ->
  store (store m a data) a' data' = store (store m a' data') a data.
Proof.
  intros Hm Ha He Ha' He' Hd.
  apply memory_ext; [by apply store_wf; [apply store_wf|..]..|].
  intros i. rewrite !byte_at_store by (done || by apply store_wf).
  compare_cases; cbn [andb]; done || lia.
Qed.

(** The effect of an operation on a memory: that of the requests it may send. *)
Definition operation_effect (p : ServerPolicy.t) (o : Operation) (m : MemoryMap.t) : MemoryMap.t :=
  match o with
  | read_operation _ _ _ => m
  | write_operation address data _ => memory_after_write p m address data
  end.

Lemma effect_operation p id o m :
  accepted o = true -> effect p (request_of id o) m = operation_effect p o m.
Proof.
  intros Ho. pose proof (accepted_range o Ho) as [Hs _].
  set (tr := LoopbackTransport.construct (MemoryServer.mk p m)).
  destruct o as [address length deadline|address data deadline]; cbn [request_of operation_effect].
  - cbn [size_of] in Hs. change (decided_memory (decision tr (read_request id address length)) = m).
    by rewrite decision_read, read_verdict_memory by lia.
  - exact (proj1 (proj2 (decision_write tr id address data))).
Qed.

Lemma write_allowed_range p address size :
  write_allowed p address size = true -> 0x100 <= address /\ address + size <= 0x800.
Proof.
  unfold write_allowed. intros E. bool_props.
  match goal with H : bool_decide _ = true |- _ =>
    apply bool_decide_eq_true, write_status_ok in H end. lia.
Qed.

Lemma operation_effect_wf p o m : MemoryMap.wf m -> MemoryMap.wf (operation_effect p o m).
Proof.
  intros Hm. destruct o as [|address data deadline]; [exact Hm|].
  cbn [operation_effect]. unfold memory_after_write.
  destruct (write_allowed _ _ _) eqn:E; [|exact Hm]. apply write_allowed_range in E.
  apply store_wf; done || lia.
Qed.

Lemma operation_effects_commute p o1 o2 m :
  MemoryMap.wf m -> compatible o1 o2 ->
  operation_effect p o1 (operation_effect p o2 m) = operation_effect p o2 (operation_effect p o1 m).
Proof.
  intros Hm Hd. destruct o1 as [|a1 data1 d1], o2 as [|a2 data2 d2]; try reflexivity.
  specialize (Hd eq_refl). unfold disjoint_operations in Hd. cbn [address_of size_of] in Hd.
  cbn [operation_effect]. unfold memory_after_write.
  destruct (write_allowed p a1 (zlen data1)) eqn:E1, (write_allowed p a2 (zlen data2)) eqn:E2;
    try reflexivity.
  apply write_allowed_range in E1, E2. apply store_disjoint_comm; done || lia.
Qed.

(** An operation looks the same after one that does not write what it accesses. *)
Lemma visible_after p id o1 o2 m :
  MemoryMap.wf m -> arguments_wf o2 -> accepted o2 = true -> compatible o1 o2 ->
  visible p (request_of id o2) (operation_effect p o1 m) = visible p (request_of id o2) m.
Proof.
  intros Hm Ha Ho Hd. pose proof (accepted_range o2 Ho) as [Hs _].
  destruct o2 as [address length deadline|address data deadline]; cbn [request_of size_of] in *.
  - destruct Ha as [Ha _]. destruct o1 as [|a1 data1 d1]; [reflexivity|].
    specialize (Hd eq_refl). unfold disjoint_operations in Hd. cbn [address_of size_of] in Hd.
    cbn [operation_effect]. unfold memory_after_write.
    destruct (write_allowed p a1 (zlen data1)) eqn:E; [|reflexivity].
    apply write_allowed_range in E. unfold visible, serve, read_request.
    cbn [Frame.opcode Frame.payload Frame.address].
    rewrite be_value_bytes_small by (cbn; lia).
    case_bool_decide; [|reflexivity]. cbn [decided_status decided_detail decided_payload].
    rewrite bytes_at_store_disjoint by (done || lia). reflexivity.
  - unfold visible, serve, write_request. cbn [Frame.opcode Frame.payload Frame.address].
    by repeat case_match.
Qed.

Lemma compatible_sym o1 o2 : compatible o1 o2 -> compatible o2 o1.
Proof. unfold compatible, disjoint_operations. rewrite orb_comm. tauto. Qed.

(** The memory after a call that reached the server or not. *)
Definition after_call (p : ServerPolicy.t) (o : Operation) (reached : bool) (m : MemoryMap.t)
    : MemoryMap.t :=
  if reached then operation_effect p o m else m.

Lemma after_call_wf p o reached m : MemoryMap.wf m -> MemoryMap.wf (after_call p o reached m).
Proof. destruct reached; [apply operation_effect_wf|done]. Qed.

Lemma visible_after_call p id o1 o2 reached m :
  MemoryMap.wf m -> arguments_wf o2 -> accepted o2 = true -> compatible o1 o2 ->
  visible p (request_of id o2) (after_call p o1 reached m) = visible p (request_of id o2) m.
Proof. destruct reached; [apply visible_after|done]. Qed.

(** ** One operation of a client *)

Lemma perform_uniform o c tr m0 :
  Client.wf c -> ServerPolicy.wf (policy_of tr) -> MemoryMap.wf m0 -> arguments_wf o ->
  let p := policy_of tr in
  let f := request_of (Client.next_request_id_ c) o in
  exists r c' tr' (reached : bool), policy_of tr' = p /\
    forall m, MemoryMap.wf m -> (accepted o = true -> visible p f m = visible p f m0) ->
    perform o (c, with_memory tr m) =
    Done (r, (c', with_memory tr' (after_call p o reached m))).
Proof.
  intros Hc Hp Hm0 Ha p f. destruct (accepted o) eqn:Ho.
  - pose proof (request_of_wf c o Hc Ha) as Hw.
    pose proof (request_of_protocol (Client.next_request_id_ c) o Ho) as Hf.
    assert (1 <= attempts_allowed (maximum c) o)%nat as Hn
      by (destruct Hc as [Hmax _]; unfold maximum; destruct o; cbn; lia).
    destruct (tries_uniform f (deadline_of o) m0 Hw Hf (attempts_allowed (maximum c) o) tr Hp)
      as (l & tr' & reached & Hp' & E).
    destruct (tries_undergo f (deadline_of o) _ (with_memory tr m0) Hw Hf (conj Hp Hm0)
                (proj2 (accepted_range o Ho)) Hn) as (l0 & a & tr0 & E0 & _).
    pose proof (E m0 Hm0 eq_refl) as Em0. rewrite E0 in Em0. apply Done_inj in Em0 as [= <- _].
    eexists _, _, tr', reached. split; [exact Hp'|]. intros m Hm Hv.
    specialize (E m Hm (Hv eq_refl)). fold p in E.
    unfold f in E at 2. rewrite effect_operation in E by exact Ho.
    exact (perform_spec o c (with_memory tr m) l0 a _ Hc Ha Ho E).
  - assert (exists r, forall tr : LoopbackTransport.t, perform o (c, tr) = Done (r, (started c, tr)))
      as [r Hr].
    { destruct o as [address length deadline|address data deadline]; cbn [perform]; eexists;
        intros tr'; [apply read_refused|apply write_refused]; try done. apply Ha. }
    exists r, (started c), tr, false. split; [done|]. intros m _ _. apply Hr.
Qed.

(** The same on the store: the client, its transport and the server are updated. *)
Definition updated (h : Objects.t) (i : nat) (co : ClientObject.t) (to : TransportObject.t)
    (c : Client.t) (tr : LoopbackTransport.t) (m : MemoryMap.t) : Objects.t :=
  Objects.mk
    (<[TransportObject.server_ to := MemoryServer.mk (policy_of tr) m]> (Objects.servers h))
    (<[ClientObject.transport_ co :=
         TransportObject.of_transport (TransportObject.server_ to) tr]> (Objects.transports h))
    (<[i := ClientObject.mk (ClientObject.transport_ co) c]> (Objects.clients h)).

(** The objects that a call of the client at [i] reaches. *)
Definition reaches (h : Objects.t) (i : nat) (co : ClientObject.t) (to : TransportObject.t)
    (p : ServerPolicy.t) (m : MemoryMap.t) : Prop :=
  Objects.clients h !! i = Some co /\
  Objects.transports h !! ClientObject.transport_ co = Some to /\
  Objects.servers h !! TransportObject.server_ to = Some (MemoryServer.mk p m).

Lemma client_perform_store h i o co to p m r c' tr' m' :
  reaches h i co to p m -> policy_of tr' = p ->
  perform o (ClientObject.state co, TransportObject.with_server to (MemoryServer.mk p m)) =
    Done (r, (c', with_memory tr' m')) ->
  invoke (client_perform i o) h = Done (performed r, updated h i co to c' tr' m').
Proof.
  intros (Hc & Ht & Hs) <- E. cbn [invoke]. rewrite run_bind_eq. unfold on_client. rewrite Hc.
  cbn [dereference mbind exec_bind].
  assert (Objects.borrow h (ClientObject.transport_ co) =
          Some (TransportObject.with_server to (MemoryServer.mk (policy_of tr') m))) as Hb
    by (apply borrow_Some; eauto).
  rewrite (perform_borrowed h _ _ Hb), E. cbn [mbind exec_bind].
  unfold Objects.give_back. rewrite Ht. reflexivity.
Qed.

Lemma client_reaches ctx h i co :
  typed_store ctx h -> Objects.clients h !! i = Some co ->
  exists to p m, reaches h i co to p m /\ Client.wf (ClientObject.state co) /\
    ServerPolicy.wf p /\ MemoryMap.wf m.
Proof.
  intros Ht Hc. pose proof (Forall_lookup_1 _ _ _ _ (typed_clients _ _ Ht) Hc) as [Hi Hw].
  destruct (borrow_typed ctx h Ht _ Hi) as (tr & (to & [p m] & Hto & Hs & ->)%borrow_Some & [Hp Hm] & _).
  by exists to, p, m.
Qed.

Lemma run_two a b h ra ha rb hab :
  invoke a h = Done (ra, ha) -> invoke b ha = Done (rb, hab) ->
  run [a; b] h = Done ([ra; rb], hab).
Proof.
  intros Ea Eb. cbn [run]. rewrite !run_bind_eq, Ea. cbn [mbind exec_bind].
  by rewrite !run_bind_eq, Eb.
Qed.

(** The memory that the second of two calls finds: what the first left, [n], if it is on
    the same server, and otherwise its own, [m]. *)
Definition found (to1 to2 : TransportObject.t) (n m : MemoryMap.t) : MemoryMap.t :=
  if decide (TransportObject.server_ to1 = TransportObject.server_ to2) then n else m.

Lemma updated_reaches h i1 i2 co1 co2 to1 to2 p m2 c1 tr1 n1 :
  i1 <> i2 -> ClientObject.transport_ co1 <> ClientObject.transport_ co2 ->
  (TransportObject.server_ to1 = TransportObject.server_ to2 -> policy_of tr1 = p) ->
  reaches h i2 co2 to2 p m2 ->
  reaches (updated h i1 co1 to1 c1 tr1 n1) i2 co2 to2 p (found to1 to2 n1 m2).
Proof.
  intros Hi Hne Hp (Hc & Ht & Hs). unfold reaches, updated, found.
  cbn [Objects.clients Objects.transports Objects.servers].
  rewrite !list_lookup_insert_ne by done. case_decide as E.
  - rewrite E, list_lookup_insert_eq, Hp by (done || by apply lookup_lt_Some in Hs). done.
  - by rewrite list_lookup_insert_ne by done.
Qed.

Lemma updated_comm h i1 i2 co1 co2 to1 to2 c1 tr1 m1 c2 tr2 m2 m1' m2' :
  i1 <> i2 -> ClientObject.transport_ co1 <> ClientObject.transport_ co2 ->
  (if decide (TransportObject.server_ to1 = TransportObject.server_ to2)
   then policy_of tr1 = policy_of tr2 /\ m2 = m1' else m1 = m1' /\ m2 = m2') ->
  updated (updated h i1 co1 to1 c1 tr1 m1) i2 co2 to2 c2 tr2 m2 =
  updated (updated h i2 co2 to2 c2 tr2 m2') i1 co1 to1 c1 tr1 m1'.
Proof.
  intros Hi Hne Hs. unfold updated. cbn [Objects.clients Objects.transports Objects.servers].
  f_equal; [|by apply list_insert_insert_ne..].
  case_decide as E.
  - destruct Hs as [Hp ->]. by rewrite E, !list_insert_insert_eq, Hp.
  - destruct Hs as [-> ->]. by apply list_insert_insert_ne.
Qed.

(** Two calls of which each does the same to what it finds, before the other and after
    it, end in one store if the memories do. *)
Lemma both_orders h i1 i2 o1 o2 co1 co2 to1 to2 p1 p2 m1 m2 r1 r2 c1 c2 tr1 tr2
    (after1 after2 : MemoryMap.t -> MemoryMap.t) :
  i1 <> i2 -> ClientObject.transport_ co1 <> ClientObject.transport_ co2 ->
  reaches h i1 co1 to1 p1 m1 -> reaches h i2 co2 to2 p2 m2 ->
  policy_of tr1 = p1 -> policy_of tr2 = p2 ->
  (forall m, m = m1 \/ m = found to2 to1 (after2 m2) m1 ->
    perform o1 (ClientObject.state co1, TransportObject.with_server to1 (MemoryServer.mk p1 m)) =
    Done (r1, (c1, with_memory tr1 (after1 m)))) ->
  (forall m, m = m2 \/ m = found to1 to2 (after1 m1) m2 ->
    perform o2 (ClientObject.state co2, TransportObject.with_server to2 (MemoryServer.mk p2 m)) =
    Done (r2, (c2, with_memory tr2 (after2 m)))) ->
  (TransportObject.server_ to1 = TransportObject.server_ to2 ->
    p1 = p2 /\ after2 (after1 m1) = after1 (after2 m2)) ->
  exists h', run [client_perform i1 o1; client_perform i2 o2] h =
      Done ([performed r1; performed r2], h') /\
    run [client_perform i2 o2; client_perform i1 o1] h = Done ([performed r2; performed r1], h').
Proof.
  intros Hi Hne R1 R2 Hp1 Hp2 E1 E2 Hs. eexists. split.
  - eapply run_two.
    + exact (client_perform_store _ _ _ _ _ _ _ _ _ _ _ R1 Hp1 (E1 _ (or_introl eq_refl))).
    + eapply client_perform_store;
        [|exact Hp2|exact (E2 _ (or_intror eq_refl))].
      apply updated_reaches; try done. intros Es. rewrite Hp1. by apply Hs.
  - erewrite updated_comm; [eapply run_two|done|done|].
    + exact (client_perform_store _ _ _ _ _ _ _ _ _ _ _ R2 Hp2 (E2 _ (or_introl eq_refl))).
    + eapply client_perform_store;
        [|exact Hp1|exact (E1 _ (or_intror eq_refl))].
      apply updated_reaches; try done. intros Es. rewrite Hp2. symmetry. by apply Hs.
    + unfold found. case_decide as Es.
      * rewrite decide_True by done. rewrite Hp1, Hp2. by apply Hs.
      * by rewrite decide_False by congruence.
Qed.

(** ** Properties *)

(** C6. Operations that do not conflict commute.  Two clients of different transports,
    whose transports may share a server, each do one read or write, with any faults
    queued.  If neither operation writes an address that the other accesses, the two
    orders give the same results, attempts and diagnostics included, and end in the
    same store: the same memories, traces, connections, faults left and metrics. *)
Theorem non_conflicting_operations_commute ctx h i1 i2 co1 co2 o1 o2 :
  typed_store ctx h -> Objects.clients h !! i1 = Some co1 -> Objects.clients h !! i2 = Some co2 ->
  ClientObject.transport_ co1 <> ClientObject.transport_ co2 ->
  arguments_wf o1 -> arguments_wf o2 -> compatible o1 o2 ->
  exists r1 r2 h', run [client_perform i1 o1; client_perform i2 o2] h = Done ([r1; r2], h') /\
    run [client_perform i2 o2; client_perform i1 o1] h = Done ([r2; r1], h').
Proof.
  intros Ht Hc1 Hc2 Hne Ha1 Ha2 Hcomp. assert (i1 <> i2) as Hi by (intros ->; congruence).
  destruct (client_reaches ctx h i1 co1 Ht Hc1) as (to1 & p1 & m1 & R1 & Hw1 & Hp1 & Hm1).
  destruct (client_reaches ctx h i2 co2 Ht Hc2) as (to2 & p2 & m2 & R2 & Hw2 & Hp2 & Hm2).
  destruct (perform_uniform o1 (ClientObject.state co1)
              (TransportObject.with_server to1 (MemoryServer.mk p1 m1)) m1 Hw1 Hp1 Hm1 Ha1)
    as (r1 & c1 & tr1 & d1 & Hq1 & E1).
  destruct (perform_uniform o2 (ClientObject.state co2)
              (TransportObject.with_server to2 (MemoryServer.mk p2 m2)) m2 Hw2 Hp2 Hm2 Ha2)
    as (r2 & c2 & tr2 & d2 & Hq2 & E2).
  assert (TransportObject.server_ to1 = TransportObject.server_ to2 -> p1 = p2 /\ m1 = m2) as Hs
    by (destruct R1 as (_ & _ & S1), R2 as (_ & _ & S2); intros Es; rewrite Es in S1; split; congruence).
  exists (performed r1), (performed r2).
  apply (both_orders h i1 i2 o1 o2 co1 co2 to1 to2 p1 p2 m1 m2 r1 r2 c1 c2 tr1 tr2
           (after_call p1 o1 d1) (after_call p2 o2 d2)); try done.
  - intros m [->| ->]; [by apply E1|]. unfold found. case_decide as Es; [|by apply E1].
    destruct (Hs (eq_sym Es)) as [-> ->].
    apply E1; [by apply after_call_wf|]. intros Ho.
    by apply visible_after_call; try done; apply compatible_sym.
  - intros m [->| ->]; [by apply E2|]. unfold found. case_decide as Es; [|by apply E2].
    destruct (Hs Es) as [-> ->].
    apply E2; [by apply after_call_wf|]. intros Ho. by apply visible_after_call.
  - intros Es. destruct (Hs Es) as [-> ->]. split; [done|]. unfold after_call.
    destruct d1, d2; try reflexivity. symmetry. by apply operation_effects_commute.
Qed.

(** *** The properties at concrete inputs *)

(** Two clients on transports of their own to one server; a write of the first and a
    read of the next address by the second, whose transport is already connected. *)
Definition shared_server : Objects.t :=
  Objects.mk [initial_server]
    [TransportObject.of_transport 0 initial_loopback;
     TransportObject.of_transport 0 connected_loopback]
    [ClientObject.mk 0 sample_client; ClientObject.mk 1 sample_client].

Lemma shared_server_typed : typed_store (Build_Context 1 2 2) shared_server.
Proof.
  pose proof initial_loopback_valid. pose proof sample_client_wf.
  split; [done|..]; repeat constructor; try done; try (cbn; lia); by apply numbered_nil.
Qed.

Lemma non_conflicting_operations_commute_witness :
  exists r1 r2 h',
    run [client_perform 0 (write_operation 0x0100 [to_byte 7] 50);
         client_perform 1 (read_operation 0x0101 1 50)] shared_server = Done ([r1; r2], h') /\
    run [client_perform 1 (read_operation 0x0101 1 50);
         client_perform 0 (write_operation 0x0100 [to_byte 7] 50)] shared_server =
      Done ([r2; r1], h').
Proof.
  apply (non_conflicting_operations_commute (Build_Context 1 2 2) shared_server 0 1
    (ClientObject.mk 0 sample_client) (ClientObject.mk 1 sample_client));
    [exact shared_server_typed|reflexivity|reflexivity|..].
  - discriminate.
  - cbn [arguments_wf]. lia.
  - cbn [arguments_wf]. lia.
  - left. by vm_compute.
Defined.
