(* ===== verification/Tools.v ===== *)
(** * The fuzz harness [fuzz/codec_fuzzer.cpp], and the default server that it and the
    benchmark drive without a client. *)

From S2P Require Import Prelude Types BigEndian Crc Codec Memory Server Transport.

(** ** The fuzz harness *)

Module CodecFuzzer.
(** [std::abort], or the value returned to the fuzzing engine. *)
Inductive Verdict : Set := aborted | returned (value : Z).

(** Whether the checks on the decoded input pass. *)
Definition stable (decoded : DecodeResult.t) : Exec bool :=
  match DecodeResult.to_bool decoded, DecodeResult.frame decoded with
  | true, Some frame =>
      let encoded := encode frame in
      if negb (EncodeResult.to_bool encoded) then Done false
      else
        round_trip ← decode (EncodeResult.bytes encoded);
        match DecodeResult.to_bool round_trip, DecodeResult.frame round_trip with
        | true, Some frame' => Done (bool_decide (frame' = frame))
        | _, _ => Done false
        end
  | _, _ => Done true
  end.

Definition LLVMFuzzerTestOneInput (bytes : list byte) : Exec Verdict :=
  if maximum_frame_size * 2 <? zlen bytes then Done (returned 0)
  else
    decoded ← decode bytes;
    is_stable ← stable decoded;
    if negb is_stable then Done aborted
    else
      server ← MemoryServer.construct ServerPolicy.default;
      '(_, _) ← MemoryServer.handle server bytes;
      Done (returned 0).
End CodecFuzzer.

(** ** Lemmas *)

Lemma stable_decoded bytes decoded :
  decode bytes = Done decoded -> CodecFuzzer.stable decoded = Done true.
Proof.
  intros Hd. unfold CodecFuzzer.stable.
  destruct (decode_cases bytes) as [(e & c & He & E)|(f & -> & Hp & Hw & E)];
    rewrite Hd in E; apply Done_inj in E as ->.
  - by destruct (DecodeResult.to_bool _).
  - cbn [DecodeResult.frame]. unfold DecodeResult.to_bool.
    cbn [DecodeResult.error DecodeResult.frame].
    rewrite !bool_decide_eq_true_2 by eauto. cbn [andb].
    rewrite encode_wire by done. unfold EncodeResult.to_bool.
    cbn [EncodeResult.error EncodeResult.bytes]. decide_constants.
    rewrite decode_wire by done. cbn [mbind exec_bind DecodeResult.error DecodeResult.frame].
    by rewrite !bool_decide_eq_true_2 by eauto.
Qed.

(** A server in its initial state, under the default policy. *)
Definition default_server : MemoryServer.t := MemoryServer.mk ServerPolicy.default initial_memory.

Lemma default_server_wf : MemoryServer.wf default_server.
Proof. split; [apply ServerPolicy_default_wf|apply initial_memory_wf]. Qed.

Lemma with_default_server {A} (k : MemoryServer.t -> Exec A) :
  (server ← MemoryServer.construct ServerPolicy.default; k server) = k default_server.
Proof. by rewrite server_construct_spec. Qed.

Lemma handled s bytes {A} (x : A) :
  MemoryServer.wf s -> ('(_, _) ← MemoryServer.handle s bytes; Done x) = Done x.
Proof. intros Hs. rewrite handle_refines by done. cbn. by destruct (handle_spec s bytes). Qed.

Lemma handled_by_default_server bytes {A} (x : A) :
  (server ← MemoryServer.construct ServerPolicy.default;
   '(_, _) ← MemoryServer.handle server bytes; Done x) = Done x.
Proof. rewrite with_default_server. apply handled, default_server_wf. Qed.

(** ** Properties *)

(** C37. The fuzz harness never aborts: on every input, of any length, it returns 0;
    whatever the decoder accepts encodes again, to a string that decodes to the
    same frame, and the server handles the input to the end. *)
Theorem fuzz_harness_never_aborts bytes :
  CodecFuzzer.LLVMFuzzerTestOneInput bytes = Done (CodecFuzzer.returned 0).
Proof.
  unfold CodecFuzzer.LLVMFuzzerTestOneInput.
  destruct (maximum_frame_size * 2 <? zlen bytes); [done|].
  rewrite decode_validation. cbn [mbind exec_bind].
  rewrite (stable_decoded bytes) by apply decode_validation. cbn [mbind exec_bind negb].
  apply handled_by_default_server.
Qed.
