(* ===== verification/Cli.v ===== *)
(** * The command line tool: [apps/cli_main.cpp].

    The functions are code over a console; [main] maps the arguments to the exit
    code and the text of the two output streams. *)

From Stdlib Require Import Ascii.
From stdpp Require Import pretty.
From S2P Require Import Prelude Types BigEndian Crc Hex Text Codec Memory Server Transport.
From S2P Require Import ImlpClient ClientProperties System.

(** ** The standard library: [std::from_chars] *)

(** The value of a digit in a base up to 36. *)
Definition digit_value (base : Z) (c : ascii) : option Z :=
  let v := char_value c in
  let d :=
    if (48 <=? v) && (v <=? 57) then v - 48
    else if (97 <=? v) && (v <=? 122) then v - 97 + 10
    else if (65 <=? v) && (v <=? 90) then v - 65 + 10
    else 36 in
  if d <? base then Some d else None.

(** The longest prefix of digits: its value, continuing [value], and what follows. *)
Fixpoint scan_digits (base value : Z) (text : list ascii) : Z * list ascii :=
  match text with
  | [] => (value, [])
  | c :: rest =>
      match digit_value base c with
      | Some d => scan_digits base (value * base + d) rest
      | None => (value, text)
      end
  end.

(** [std::errc] of a conversion. *)
Inductive Errc : Set := no_error | invalid_argument | result_out_of_range.

#[export] Instance Errc_eq_dec : EqDecision Errc.
Proof. solve_decision. Defined.

(** [std::from_chars(first, last, value, base)] for a [std::uint32_t]: the rest of
    the text, the error code and the value, which only success sets.  No sign, white
    space or prefix is part of a number. *)
Definition from_chars_u32 (text : list ascii) (base : Z) : list ascii * Errc * Z :=
  match text with
  | c :: _ =>
      match digit_value base c with
      | Some _ =>
          let '(value, rest) := scan_digits base 0 text in
          if value <? 2 ^ 32 then (rest, no_error, value) else (rest, result_out_of_range, 0)
      | None => (text, invalid_argument, 0)
      end
  | [] => (text, invalid_argument, 0)
  end.

(** ** The functions of the source *)

Definition usage : string := concat_strings
  ["Industrial Memory Protocol Workbench (synthetic simulator only)"; newline;
   "usage:"; newline;
   "  imlp-cli inspect <frame-hex>"; newline;
   "  imlp-cli encode-read <address> <length>"; newline;
   "  imlp-cli read <address> <length>"; newline;
   "  imlp-cli write <address> <payload-hex> --allow-writes"; newline;
   "  imlp-cli demo"; newline].

Definition print_usage : Run Console unit := print usage.

(** The parsed value, when the function returns [true]. *)
Definition parse_u32 (text : string) : option Z :=
  let text := chars text in
  let prefixed := (2 <? zlen text) && bool_decide (take 2 text = chars "0x") in
  let base := if prefixed then 16 else 10 in
  let text := if prefixed then drop 2 text else text in
  if bool_decide (text = []) then None
  else
    let '(rest, error, value) := from_chars_u32 text base in
    if bool_decide (error = no_error) && bool_decide (rest = []) then Some value else None.

Definition status_name (status : Status.t) : string :=
  match status with
  | Status.ok => "ok"
  | Status.bad_request => "bad_request"
  | Status.out_of_range => "out_of_range"
  | Status.write_disabled => "write_disabled"
  | Status.access_denied => "access_denied"
  | Status.internal_error => "internal_error"
  | Status.unassigned _ => "unknown"
  end.

Definition print_result (result : OperationResult.t) : Run Console unit :=
  _ ← print (concat_strings
        ["request_id="; show_dec (OperationResult.request_id result);
         " client_error="; client_error_name (OperationResult.error result);
         " remote_status="; status_name (OperationResult.remote_status result);
         " attempts="; show_dec (OperationResult.attempts result);
         " detail="; OperationResult.detail result]);
  _ ← (if negb (bool_decide (OperationResult.data result = [])) then
         hex ← lift (bytes_to_hex (OperationResult.data result));
         print (String.append " data=" hex)
       else mret ());
  print newline.

Fixpoint print_trace (trace : list TraceRecord.t) : Run Console unit :=
  match trace with
  | [] => mret ()
  | record :: trace =>
      hex ← lift (bytes_to_hex (TraceRecord.bytes record));
      _ ← print (concat_strings
            ["trace="; show_dec (TraceRecord.sequence record);
             " direction="; TraceRecord.direction record;
             " outcome="; TraceRecord.outcome record; " bytes="; hex; newline]);
      print_trace trace
  end.

Definition run_inspect (text : string) : Run Console Z :=
  bytes ← lift (bytes_from_hex text);
  match bytes with
  | None => _ ← print_error (String.append "error=invalid_hex" newline); mret 2
  | Some bytes =>
      decoded ← lift (decode bytes);
      match DecodeResult.to_bool decoded, DecodeResult.frame decoded with
      | true, Some frame =>
          hex ← lift (bytes_to_hex (Frame.payload frame));
          _ ← print (concat_strings
                ["version="; show_dec (Frame.version frame);
                 " opcode=0x"; show_hex (Opcode.value (Frame.opcode frame));
                 " flags="; show_dec (Frame.flags frame);
                 " request_id="; show_dec (Frame.request_id frame);
                 " address="; show_dec (Frame.address frame);
                 " status="; status_name (Frame.status frame);
                 " payload="; hex; newline]);
          mret 0
      | _, _ =>
          _ ← print_error (concat_strings
                ["error="; codec_error_name (DecodeResult.error decoded); newline]);
          mret 3
      end
  end.

Definition run_encode_read (address_text length_text : string) : Run Console Z :=
  let invalid :=
    _ ← print_error (String.append "error=invalid_address_or_length" newline); mret 2 in
  match parse_u32 address_text, parse_u32 length_text with
  | Some address, Some length =>
      if (length =? 0) || (maximum_payload_size <? length) then invalid
      else
        let wire_length := u16 length in
        let request := {|
          Frame.version := protocol_version;
          Frame.opcode := Opcode.read_request;
          Frame.flags := 0;
          Frame.request_id := 1;
          Frame.address := address;
          Frame.status := Status.ok;
          Frame.payload := [to_byte (Z.land (Z.shiftr wire_length 8) 0xFF);
                            to_byte (Z.land wire_length 0xFF)] |} in
        let encoded := encode request in
        if negb (EncodeResult.to_bool encoded) then
          _ ← print_error (concat_strings
                ["error="; codec_error_name (EncodeResult.error encoded); newline]);
          mret 3
        else
          hex ← lift (bytes_to_hex (EncodeResult.bytes encoded));
          _ ← print (String.append hex newline);
          mret 0
  | _, _ => invalid
  end.

(** A client and its loopback transport over a new server with the given policy. *)
Definition new_system (policy : ServerPolicy.t) : Exec (Client.World LoopbackTransport.t) :=
  server ← MemoryServer.construct policy;
  Done (Client.construct ClientOptions.default, LoopbackTransport.construct server).

(** [{.writes_enabled = true}]: the other members keep their initialisers. *)
Definition writes_enabled_policy : ServerPolicy.t :=
  ServerPolicy.mk true (ServerPolicy.write_allow_begin ServerPolicy.default)
    (ServerPolicy.write_allow_end ServerPolicy.default).

Definition run_read (address_text length_text : string) : Run Console Z :=
  match parse_u32 address_text, parse_u32 length_text with
  | Some address, Some length =>
      system ← lift (new_system ServerPolicy.default);
      '(result, (_, transport)) ← lift (Client.read address length 100 system);
      _ ← print_result result;
      _ ← print_trace (LoopbackTransport.trace transport);
      mret (if OperationResult.to_bool result then 0 else 4)
  | _, _ =>
      _ ← print_error (String.append "error=invalid_address_or_length" newline); mret 2
  end.

Definition run_write (address_text payload_text confirmation : string) : Run Console Z :=
  payload ← lift (bytes_from_hex payload_text);
  match parse_u32 address_text, payload with
  | Some address, Some payload =>
      if bool_decide (payload = []) || negb (bool_decide (confirmation = "--allow-writes")) then
        _ ← print_error (String.append "error=invalid_write_or_missing_explicit_opt_in" newline);
        mret 2
      else
        system ← lift (new_system writes_enabled_policy);
        '(result, (_, transport)) ← lift (Client.write address payload 100 system);
        _ ← print_result result;
        _ ← print_trace (LoopbackTransport.trace transport);
        mret (if OperationResult.to_bool result then 0 else 4)
  | _, _ =>
      _ ← print_error (String.append "error=invalid_write_or_missing_explicit_opt_in" newline);
      mret 2
  end.

Definition run_demo : Run Console Z :=
  _ ← print (String.append "scenario=read_only_default" newline);
  system ← lift (new_system ServerPolicy.default);
  '(result, system) ← lift (Client.read 0x0000 12 100 system);
  _ ← print_result result;
  let sample := [to_byte 0x12; to_byte 0x34] in
  '(result, (client, transport)) ← lift (Client.write 0x0100 sample 100 system);
  _ ← print_result result;
  _ ← print (String.append "scenario=transient_read_timeout" newline);
  let transport := LoopbackTransport.push_fault transport TransportFault.timeout in
  '(result, (client, transport)) ← lift (Client.read 0x0040 1 100 (client, transport));
  _ ← print_result result;
  _ ← print (String.append "scenario=corrupted_response" newline);
  let transport := LoopbackTransport.push_fault transport TransportFault.corrupt_response in
  '(result, (client, transport)) ← lift (Client.read 0x0000 4 100 (client, transport));
  _ ← print_result result;
  _ ← print_trace (LoopbackTransport.trace transport);
  _ ← print (String.append "scenario=explicit_write_opt_in" newline);
  writable ← lift (new_system writes_enabled_policy);
  '(result, writable) ← lift (Client.write 0x0100 sample 100 writable);
  _ ← print_result result;
  '(result, writable) ← lift (Client.read 0x0100 (zlen sample) 100 writable);
  _ ← print_result result;
  mret 0.

(** [main], on the list of the arguments [argv]; [argc] is its length. *)
Definition main (argv : list string) : Run Console Z :=
  let argc := zlen argv in
  let argument i := vec_at argv i in
  if argc <? 2 then _ ← print_usage; mret 1
  else
    command ← lift (argument 1);
    if bool_decide (command = "inspect") && (argc =? 3) then
      a ← lift (argument 2); run_inspect a
    else if bool_decide (command = "encode-read") && (argc =? 4) then
      a ← lift (argument 2); b ← lift (argument 3); run_encode_read a b
    else if bool_decide (command = "read") && (argc =? 4) then
      a ← lift (argument 2); b ← lift (argument 3); run_read a b
    else if bool_decide (command = "write") && (argc =? 5) then
      a ← lift (argument 2); b ← lift (argument 3); c ← lift (argument 4); run_write a b c
    else if bool_decide (command = "demo") && (argc =? 2) then run_demo
    else _ ← print_usage; mret 1.

(** ** Numerals *)

(** [text] is a non-empty string of digits of the base, with value [v]. *)
Definition numeral (base : Z) (text : list ascii) (v : Z) : Prop :=
  text <> [] /\ exists ds, mapM (digit_value base) text = Some ds /\
  v = foldl (fun value d => value * base + d) 0 ds.

Lemma digit_value_range base c d : digit_value base c = Some d -> 0 <= d < base.
Proof.
  unfold digit_value. pose proof (Ascii.N_ascii_bounded c) as Hb. unfold char_value.
  case_match; intros [= <-]. bool_props. repeat case_match; bool_props; lia.
Qed.

Lemma scan_digits_all base value text ds :
  mapM (digit_value base) text = Some ds ->
  scan_digits base value text = (foldl (fun value d => value * base + d) value ds, []).
Proof.
  revert value ds; induction text as [|c text IH]; intros value ds; cbn.
  - by intros [= <-].
  - destruct (digit_value base c) as [d|]; cbn; [|done].
    destruct (mapM (digit_value base) text) as [ds'|] eqn:E; cbn; [|done].
    intros [= <-]. cbn. by apply IH.
Qed.

Lemma scan_digits_end base value text w :
  scan_digits base value text = (w, []) ->
  exists ds, mapM (digit_value base) text = Some ds /\
    w = foldl (fun value d => value * base + d) value ds.
Proof.
  revert value; induction text as [|c text IH]; intros value; cbn.
  - intros [= <-]. by exists [].
  - destruct (digit_value base c) as [d|]; [|done]. intros Hs.
    destruct (IH _ Hs) as (ds & -> & ->). exists (d :: ds). split; [|done].
    by cbn.
Qed.

Lemma from_chars_numeral base text v :
  (let '(rest, error, value) := from_chars_u32 text base in
   if bool_decide (error = no_error) && bool_decide (rest = []) then Some value else None)
  = Some v <-> numeral base text v /\ v < 2 ^ 32.
Proof.
  unfold from_chars_u32, numeral. destruct text as [|c text].
  { split; [done|]. by intros [[Hn _] _]. }
  destruct (digit_value base c) as [d|] eqn:Ed.
  2: { split; [done|]. intros [[_ (ds & Hm & _)] _]. cbn in Hm. by rewrite Ed in Hm. }
  split.
  - destruct (scan_digits base 0 (c :: text)) as [w rest] eqn:Es.
    destruct (Z.ltb_spec w (2 ^ 32)); [|done]. decide_constants.
    destruct rest; [|done]. decide_constants. intros [= <-]. split; [|done]. split; [done|]. by apply scan_digits_end in Es.
  - intros [[_ (ds & Hm & ->)] Hv]. rewrite (scan_digits_all _ _ _ _ Hm).
    rewrite (proj2 (Z.ltb_lt _ _)) by done. done.
Qed.

Lemma parse_u32_iff text v :
  parse_u32 text = Some v <->
  v < 2 ^ 32 /\
  (numeral 10 (chars text) v \/ exists hex, chars text = chars "0x" ++ hex /\ numeral 16 hex v).
Proof.
  unfold parse_u32. set (cs := chars text).
  destruct ((2 <? zlen cs) && bool_decide (take 2 cs = chars "0x")) eqn:Hp.
  - apply andb_true_iff in Hp as [Hl Hx]. apply bool_decide_eq_true in Hx.
    apply Z.ltb_lt in Hl. unfold zlen in Hl.
    assert (Hcs : cs = chars "0x" ++ drop 2 cs) by by rewrite <-Hx, take_drop.
    assert (Hd : drop 2 cs <> []).
    { intros E. apply (f_equal length) in E. rewrite length_drop in E. cbn in E. lia. }
    rewrite (bool_decide_eq_false_2 _ Hd), from_chars_numeral.
    split; [intros [Hn Hv]; split; [done|]; right; by exists (drop 2 cs)|].
    intros [Hv [[_ (ds & Hm & _)]|(hex & E & Hn)]].
    + rewrite Hcs in Hm. cbn in Hm. done.
    + split; [|done]. rewrite Hcs in E. by apply app_inv_head in E as ->.
  - split.
    + destruct (decide (cs = [])) as [E|E].
      { by rewrite (bool_decide_eq_true_2 _ E). }
      rewrite (bool_decide_eq_false_2 _ E), from_chars_numeral. intros [Hn Hv]. auto.
    + intros [Hv [Hn|(hex & E & Hn)]].
      * rewrite bool_decide_eq_false_2 by apply Hn. by apply from_chars_numeral.
      * destruct Hn as [Hne _]. rewrite E in Hp. apply andb_false_iff in Hp as [Hp|Hp].
        -- apply Z.ltb_ge in Hp. rewrite zlen_app in Hp. change (zlen (chars "0x")) with 2 in Hp.
           destruct hex; [done|]. rewrite zlen_cons in Hp. pose proof (zlen_nonneg hex). lia.
        -- by apply bool_decide_eq_false in Hp.
Qed.

Lemma foldl_digits_nonneg base ds value :
  0 <= base -> 0 <= value -> Forall (fun d => 0 <= d) ds ->
  0 <= foldl (fun value d => value * base + d) value ds.
Proof. intros Hb Hv Hds. revert value Hv; induction Hds; intros; cbn; [done|]. apply IHHds. nia. Qed.

Lemma numeral_nonneg base text v : 0 <= base -> numeral base text v -> 0 <= v.
Proof.
  intros Hb (_ & ds & Hm & ->). apply foldl_digits_nonneg; [done|done|].
  apply mapM_Some in Hm. induction Hm as [|c d cs ds' Hd _ IH]; constructor; [|done].
  by apply digit_value_range in Hd as [? _].
Qed.

Lemma parse_u32_range text v : parse_u32 text = Some v -> 0 <= v < 2 ^ 32.
Proof.
  intros Hp. apply parse_u32_iff in Hp as [Hv [Hn|(hex & _ & Hn)]]; split; try done;
    by apply numeral_nonneg in Hn.
Qed.

(** Decimal output is read back. *)
Lemma pretty_digit_value x : (x < 10)%N -> digit_value 10 (pretty_N_char x) = Some (Z.of_N x).
Proof. intros Hx. destruct x as [|p]; [done|]. do 4 (destruct p as [p|p|]; try done); lia. Qed.

Lemma pretty_N_go_digits x s ds :
  mapM (digit_value 10) (chars s) = Some ds ->
  exists ds', mapM (digit_value 10) (chars (pretty_N_go x s)) = Some (ds' ++ ds) /\
    foldl (fun value d => value * 10 + d) 0 ds' = Z.of_N x.
Proof.
  revert s ds. induction (N.lt_wf_0 x) as [x _ IH]; intros s ds Hs.
  destruct (decide (x = 0)%N) as [->|Hx]; [by exists []|].
  rewrite pretty_N_go_step by lia.
  assert (Hd : (x mod 10 < 10)%N) by by apply N.mod_lt.
  destruct (IH (x `div` 10)%N ltac:(apply N.div_lt; lia)
              (String (pretty_N_char (x `mod` 10)) s) (Z.of_N (x `mod` 10) :: ds))
    as (ds' & Hm & Hv).
  { cbn [chars String.list_ascii_of_string mapM]. rewrite pretty_digit_value by done. cbn.
    fold (chars s). by rewrite Hs. }
  exists (ds' ++ [Z.of_N (x `mod` 10)]). rewrite Hm, <-app_assoc. split; [done|].
  rewrite foldl_app, Hv. cbn. rewrite N2Z.inj_div, N2Z.inj_mod. divmod.
Qed.

Lemma parse_u32_show_dec v : 0 <= v < 2 ^ 32 -> parse_u32 (show_dec v) = Some v.
Proof.
  intros Hv. apply parse_u32_iff. split; [lia|]. left. unfold numeral, show_dec, pretty, pretty_N.
  case_decide as H0.
  { split; [done|]. exists [0]. split; [done|]. cbn. lia. }
  destruct (pretty_N_go_digits (Z.to_N v) "" [] eq_refl) as (ds & Hm & Hd).
  rewrite app_nil_r in Hm. split.
  - intros E. rewrite E in Hm. injection Hm as <-. cbn in Hd. lia.
  - exists ds. split; [done|]. rewrite Hd. lia.
Qed.

(** ** Output *)

(** What a printed result starts with, before its data. *)
Definition result_head (r : OperationResult.t) : string := concat_strings
  ["request_id="; show_dec (OperationResult.request_id r);
   " client_error="; client_error_name (OperationResult.error r);
   " remote_status="; status_name (OperationResult.remote_status r);
   " attempts="; show_dec (OperationResult.attempts r);
   " detail="; OperationResult.detail r].

Definition result_text (r : OperationResult.t) : string :=
  String.append (result_head r)
    (String.append
       (if bool_decide (OperationResult.data r = []) then ""
        else String.append " data=" (hex_text (OperationResult.data r))) newline).

Lemma run_print_result {A} r (k : unit -> Run Console A) con :
  (print_result r ≫= k) con = k () (said con (result_text r)).
Proof.
  rewrite run_bind_eq. unfold print_result. rewrite run_print. fold (result_head r).
  unfold result_text. destruct (decide (OperationResult.data r = [])) as [E|E].
  - rewrite !(bool_decide_eq_true_2 _ E). cbn [negb].
    change (_ (said con (result_head r))) with
      (Done ((), said (said con (result_head r)) newline)). cbn [mbind exec_bind].
    by rewrite said_said.
  - rewrite !(bool_decide_eq_false_2 _ E). cbn [negb].
    rewrite run_bind_eq, run_bytes_to_hex.
    change (Done ((), said (said (said con (result_head r)) (String.append " data="
              (hex_text (OperationResult.data r)))) newline) ≫=
            (fun '(a, s') => k a s') =
            k () (said con (String.append (result_head r)
              (String.append (String.append " data=" (hex_text (OperationResult.data r))) newline)))).
    cbn [mbind exec_bind]. by rewrite !said_said.
Qed.

Lemma run_print_trace {A} trace (k : unit -> Run Console A) con :
  exists text, (print_trace trace ≫= k) con = k () (said con text).
Proof.
  rewrite run_bind_eq.
  assert (exists text, print_trace trace con = Done ((), said con text)) as [text E].
  { revert con; induction trace as [|r trace IH]; intros con; cbn [print_trace].
    - exists "". unfold said. rewrite append_empty. by destruct con.
    - rewrite run_bytes_to_hex, run_print.
      destruct (IH (said con (concat_strings
        ["trace="; show_dec (TraceRecord.sequence r); " direction="; TraceRecord.direction r;
         " outcome="; TraceRecord.outcome r; " bytes="; hex_text (TraceRecord.bytes r);
         newline]))) as [text ->].
      eexists. by rewrite said_said. }
  exists text. by rewrite E.
Qed.

(** ** The commands *)

Definition default_client : Client.t := Client.construct ClientOptions.default.

Lemma default_client_wf : Client.wf default_client.
Proof. by apply construct_wf. Qed.

Definition new_loopback (policy : ServerPolicy.t) : LoopbackTransport.t :=
  LoopbackTransport.construct (MemoryServer.mk policy initial_memory).

Lemma run_new_system {A} policy (k : Client.World LoopbackTransport.t -> Run Console A) con :
  (lift (new_system policy) ≫= k) con = k (default_client, new_loopback policy) con.
Proof. unfold new_system. by rewrite server_construct_spec. Qed.

Lemma new_loopback_quiet policy : ServerPolicy.wf policy -> quiet (new_loopback policy).
Proof. intros Hp. split; [|done]. split; [done|apply initial_memory_wf]. Qed.

Lemma writes_enabled_policy_wf : ServerPolicy.wf writes_enabled_policy.
Proof. by repeat split. Qed.

(** The result of the operation of a command, printed with the trace. *)
Definition report (r : OperationResult.t) (trace : list TraceRecord.t) : Run Console Z :=
  _ ← print_result r;
  _ ← print_trace trace;
  mret (if OperationResult.to_bool r then 0 else 4).

Lemma report_spec r trace con :
  exists text, report r trace con =
    Done ((if bool_decide (OperationResult.error r = ClientError.none) then 0 else 4),
          said con (String.append (result_text r) text)).
Proof.
  unfold report. rewrite run_print_result.
  destruct (run_print_trace trace
              (fun _ => mret (if OperationResult.to_bool r then 0 else 4) : Run Console Z)
              (said con (result_text r))) as [text ->].
  exists text. by rewrite said_said.
Qed.

Lemma valid_read_size length :
  valid_deadline_and_size length 100 = (0 <? length) && (length <=? 256).
Proof. unfold valid_deadline_and_size. change (0 <? 100) with true. apply andb_true_r. Qed.

(** A read or write of a new system: performed, and reported. *)
Lemma run_operation policy o con :
  ServerPolicy.wf policy -> arguments_wf o ->
  exists r text,
    ('(result, (_, transport)) ← lift (perform o (default_client, new_loopback policy));
     report result (LoopbackTransport.trace transport)) con =
    Done ((if bool_decide (OperationResult.error r = ClientError.none) then 0 else 4),
          said con (String.append (result_text r) text)) /\
    observe r = (atomic_perform policy initial_memory o).1.
Proof.
  intros Hp Ho.
  destruct (quiet_perform o default_client (new_loopback policy) default_client_wf
              (new_loopback_quiet policy Hp) Ho) as (r & c' & tr' & Hr & _ & _ & _ & _ & Hobs).
  rewrite Hr, run_lift.
  destruct (report_spec r (LoopbackTransport.trace tr') con) as [text ->].
  exists r, text. split; [done|]. exact (f_equal fst Hobs).
Qed.

Lemma run_read_unfold a n address length con :
  parse_u32 a = Some address -> parse_u32 n = Some length ->
  run_read a n con =
  ('(result, (_, transport)) ←
     lift (perform (read_operation address length 100)
             (default_client, new_loopback ServerPolicy.default));
   report result (LoopbackTransport.trace transport)) con.
Proof. intros Ha Hn. unfold run_read. by rewrite Ha, Hn, run_new_system. Qed.

Lemma run_write_unfold a t confirmation address payload con :
  parse_u32 a = Some address -> bytes_from_hex t = Done (Some payload) ->
  run_write a t confirmation con =
  if negb (bool_decide (payload = [])) && bool_decide (confirmation = "--allow-writes") then
    ('(result, (_, transport)) ←
       lift (perform (write_operation address payload 100)
               (default_client, new_loopback writes_enabled_policy));
     report result (LoopbackTransport.trace transport)) con
  else
    Done (2, complained con
               (String.append "error=invalid_write_or_missing_explicit_opt_in" newline)).
Proof.
  intros Ha Ht. unfold run_write. rewrite Ht, run_lift, Ha.
  destruct (bool_decide (payload = [])); [done|].
  destruct (bool_decide (confirmation = _)); [|done]. cbn [negb orb andb].
  by rewrite run_new_system.
Qed.

(** The line [inspect] prints for a frame. *)
Definition inspect_text (f : Frame.t) : string := concat_strings
  ["version="; show_dec (Frame.version f); " opcode=0x"; show_hex (Opcode.value (Frame.opcode f));
   " flags="; show_dec (Frame.flags f); " request_id="; show_dec (Frame.request_id f);
   " address="; show_dec (Frame.address f); " status="; status_name (Frame.status f);
   " payload="; hex_text (Frame.payload f); newline].

Lemma run_inspect_spec text con :
  run_inspect text con =
  match (if hex_text_fits text then hex_pairs (chars text) else None) with
  | None => Done (2, complained con (String.append "error=invalid_hex" newline))
  | Some bytes =>
      let decoded := decode_by_validation bytes in
      match DecodeResult.frame decoded with
      | Some f => Done (0, said con (inspect_text f))
      | None =>
          Done (3, complained con (concat_strings
            ["error="; codec_error_name (DecodeResult.error decoded); newline]))
      end
  end.
Proof.
  unfold run_inspect. rewrite bytes_from_hex_spec, run_lift.
  destruct (if hex_text_fits text then _ else _) as [bytes|]; [|done].
  rewrite decode_validation, run_lift.
  destruct (DecodeResult.frame (decode_by_validation bytes)) as [f|] eqn:E.
  2: { by destruct (DecodeResult.to_bool _). }
  destruct (decode_accepts _ _ E) as (_ & _ & _ & ->).
  unfold DecodeResult.to_bool. cbn [DecodeResult.error DecodeResult.frame].
  rewrite !bool_decide_eq_true_2 by eauto. cbn [andb].
  by rewrite run_bytes_to_hex, run_print.
Qed.

(** The text of [encode-read] for valid arguments. *)
Lemma run_encode_read_valid a n address length con :
  parse_u32 a = Some address -> parse_u32 n = Some length -> 0 < length <= 256 ->
  run_encode_read a n con =
  Done (0, said con (String.append (hex_text (wire (read_request 1 address length))) newline)).
Proof.
  intros Ha Hn Hl. unfold run_encode_read. rewrite Ha, Hn.
  unfold maximum_payload_size. rewrite (proj2 (Z.eqb_neq length 0)), (proj2 (Z.ltb_ge 256 length)) by lia.
  cbn [orb]. rewrite read_payload by lia. unfold protocol_version.
  change (Frame.mk 1 _ 0 1 address Status.ok _) with (read_request 1 address length).
  rewrite encode_wire by apply read_request_protocol. unfold EncodeResult.to_bool.
  cbn [EncodeResult.error EncodeResult.bytes]. decide_constants.
  by rewrite run_bytes_to_hex, run_print.
Qed.

Lemma run_encode_read_invalid a n con :
  ~ (exists address length, parse_u32 a = Some address /\ parse_u32 n = Some length /\
       0 < length <= 256) ->
  run_encode_read a n con =
  Done (2, complained con (String.append "error=invalid_address_or_length" newline)).
Proof.
  intros Hno. unfold run_encode_read.
  destruct (parse_u32 a) as [address|]; [|done].
  destruct (parse_u32 n) as [length|] eqn:Hn; [|done].
  pose proof (parse_u32_range _ _ Hn). unfold maximum_payload_size.
  destruct (Z.eqb_spec length 0); [done|]. destruct (Z.ltb_spec 256 length); [done|].
  exfalso. apply Hno. exists address, length. repeat split; done || lia.
Qed.

(** *** Every command ends *)

(** The code ends on the console with an exit code of the program. *)
Definition exits (code : Run Console Z) : Prop :=
  forall con, exists n con', code con = Done (n, con') /\ 0 <= n <= 4.

Lemma operation_code r :
  0 <= (if bool_decide (OperationResult.error r = ClientError.none) then 0 else 4) <= 4.
Proof. destruct (bool_decide _); lia. Qed.

Lemma run_read_exits a n : exits (run_read a n).
Proof.
  intros con.
  destruct (parse_u32 a) as [address|] eqn:Ha;
    [|unfold run_read; rewrite Ha; by eexists _, _].
  destruct (parse_u32 n) as [length|] eqn:Hn;
    [|unfold run_read; rewrite Ha, Hn; by eexists _, _].
  rewrite (run_read_unfold a n address length) by done.
  apply parse_u32_range in Ha, Hn.
  destruct (run_operation ServerPolicy.default (read_operation address length 100) con)
    as (r & text & -> & _); [by repeat split|split; lia|].
  eexists _, _. split; [reflexivity|apply operation_code].
Qed.

Lemma run_write_exits a t confirmation : exits (run_write a t confirmation).
Proof.
  intros con. pose proof (bytes_from_hex_spec t) as Ht.
  destruct (if hex_text_fits t then _ else _) as [payload|].
  2: { unfold run_write. rewrite Ht, run_lift. destruct (parse_u32 a); by eexists _, _. }
  destruct (parse_u32 a) as [address|] eqn:Ha.
  2: { unfold run_write. rewrite Ht, run_lift, Ha. by eexists _, _. }
  rewrite (run_write_unfold a t confirmation address payload) by done.
  destruct (negb _ && _); [|by eexists _, _].
  apply parse_u32_range in Ha.
  destruct (run_operation writes_enabled_policy (write_operation address payload 100) con)
    as (r & text & -> & _); [by repeat split|done|].
  eexists _, _. split; [reflexivity|apply operation_code].
Qed.

Lemma run_inspect_exits text : exits (run_inspect text).
Proof.
  intros con. rewrite run_inspect_spec. cbn zeta.
  destruct (if hex_text_fits text then _ else _) as [bytes|]; [|by eexists _, _].
  destruct (DecodeResult.frame _); by eexists _, _.
Qed.

Lemma run_encode_read_exits a n : exits (run_encode_read a n).
Proof.
  intros con.
  assert (Hinvalid : ~ (exists address length, parse_u32 a = Some address /\
            parse_u32 n = Some length /\ 0 < length <= 256) ->
            exists k con', run_encode_read a n con = Done (k, con') /\ 0 <= k <= 4)
    by (intros Hno; rewrite run_encode_read_invalid by done; by eexists _, _).
  destruct (parse_u32 a) as [address|] eqn:Ha; [|by apply Hinvalid; intros (? & ? & ? & _)].
  destruct (parse_u32 n) as [length|] eqn:Hn; [|by apply Hinvalid; intros (? & ? & _ & ? & _)].
  destruct (decide (0 < length <= 256)).
  - rewrite (run_encode_read_valid a n address length) by done. by eexists _, _.
  - apply Hinvalid. intros (? & ? & _ & [= <-] & ?). done.
Qed.

Lemma run_demo_exits : exits run_demo.
Proof. intros con. exists 0. eexists. split; [vm_compute; reflexivity|lia]. Qed.

(** The arguments a command takes are there. *)
Lemma run_argument {A} (argv : list string) i (k : string -> Run Console A) con :
  0 <= i < zlen argv ->
  exists a, (lift (vec_at argv i) ≫= k) con = k a con.
Proof. intros Hi. destruct (vec_at_lt argv i Hi) as (a & _ & E). exists a. by rewrite E. Qed.

Lemma with_argument (argv : list string) i (k : string -> Run Console Z) :
  0 <= i < zlen argv -> (forall a, exits (k a)) -> exits (lift (vec_at argv i) ≫= k).
Proof. intros Hi Hk con. destruct (run_argument argv i k con Hi) as [a ->]. apply Hk. Qed.

Lemma usage_exits : exits (_ ← print_usage; mret 1).
Proof. intros con. by eexists _, _. Qed.

Lemma main_exits argv : exits (main argv).
Proof.
  unfold main. destruct (Z.ltb_spec (zlen argv) 2); [apply usage_exits|].
  apply with_argument; [lia|]. intros command.
  destruct (bool_decide _ && (zlen argv =? 3)) eqn:H3.
  { bool_props. apply with_argument; [lia|]. apply run_inspect_exits. }
  destruct (bool_decide _ && (zlen argv =? 4)) eqn:H4.
  { bool_props. apply with_argument; [lia|]. intros a. apply with_argument; [lia|].
    apply run_encode_read_exits. }
  destruct (bool_decide (command = "read") && _) eqn:H4'.
  { bool_props. apply with_argument; [lia|]. intros a. apply with_argument; [lia|].
    apply run_read_exits. }
  destruct (bool_decide _ && (zlen argv =? 5)) eqn:H5.
  { bool_props. apply with_argument; [lia|]. intros a. apply with_argument; [lia|].
    intros b. apply with_argument; [lia|]. apply run_write_exits. }
  destruct (bool_decide _ && (zlen argv =? 2)); [apply run_demo_exits|apply usage_exits].
Qed.

(** ** Properties *)

(** C31. Numbers on the command line: [parse_u32] accepts exactly the non-empty
    strings of decimal digits, and of hexadecimal digits of either case after the
    prefix 0x, whose value is below 2^32, and returns this value (so 0x alone, signs,
    spaces and larger numbers are refused); every number it should accept is accepted
    in the decimal form the program prints. *)
Theorem parse_u32_reads_numerals :
  (forall text v,
     parse_u32 text = Some v <->
     v < 2 ^ 32 /\
     (numeral 10 (chars text) v \/
      exists hex, chars text = chars "0x" ++ hex /\ numeral 16 hex v)) /\
  (forall text v, parse_u32 text = Some v -> 0 <= v < 2 ^ 32) /\
  (forall v, 0 <= v < 2 ^ 32 -> parse_u32 (show_dec v) = Some v).
Proof.
  split; [apply parse_u32_iff|]. split; [apply parse_u32_range|apply parse_u32_show_dec].
Qed.

(** C32. [read] on the command line: it exits with 0 exactly when both arguments are
    numbers and the interval is non-empty, of at most 256 bytes and below 0x800, and
    its output then contains the hexadecimal text of the initial memory's bytes at
    these addresses; with 2, and no output, when an argument is no number; and with 4
    otherwise. *)
Theorem cli_read_command argv0 a n con :
  exists code con', main [argv0; "read"; a; n] con = Done (code, con') /\
  match parse_u32 a, parse_u32 n with
  | Some address, Some length =>
      err con' = err con /\
      if (0 <? length) && (length <=? 256) && (address + length <=? 0x800) then
        code = 0 /\
        exists head tail,
          out con' = String.append (out con) (String.append head
            (String.append (String.append " data=" (hex_text (bytes_at initial_memory address length)))
               (String.append newline tail)))
      else code = 4
  | _, _ => code = 2 /\ out con' = out con
  end.
Proof.
  change (main [argv0; "read"; a; n] con) with (run_read a n con).
  destruct (parse_u32 a) as [address|] eqn:Ha; [|unfold run_read; rewrite Ha; by eexists _, _].
  destruct (parse_u32 n) as [length|] eqn:Hn; [|unfold run_read; rewrite Ha, Hn; by eexists _, _].
  apply parse_u32_range in Ha as Hra. apply parse_u32_range in Hn as Hrn.
  rewrite (run_read_unfold a n address length) by done.
  destruct (run_operation ServerPolicy.default (read_operation address length 100) con)
    as (r & text & -> & Hobs); [by repeat split|split; lia|].
  eexists _, _. split; [reflexivity|]. split; [done|].
  pose proof (read_status_ok address length) as Hst.
  cbn [atomic_perform] in Hobs. rewrite valid_read_size in Hobs.
  destruct ((0 <? length) && (length <=? 256)) eqn:Hsize; cbn [negb andb] in Hobs |- *.
  - bool_props. destruct (Z.leb_spec (address + length) 0x800).
    + assert (Hok : read_status address length = Status.ok) by (apply Hst; lia).
      rewrite (bool_decide_eq_true_2 _ Hok) in Hobs. cbn [fst] in Hobs.
      pose proof (f_equal observed_error Hobs) as He. pose proof (f_equal observed_data Hobs) as Hd.
      change (OperationResult.error r = ClientError.none) in He.
      change (OperationResult.data r = bytes_at initial_memory address length) in Hd.
      rewrite (bool_decide_eq_true_2 _ He). split; [done|].
      exists (result_head r), text. cbn [said out]. unfold result_text. rewrite Hd.
      rewrite bool_decide_eq_false_2; [by rewrite !append_assoc|].
      intros E. apply (f_equal zlen) in E. rewrite bytes_at_length, zlen_nil in E;
        [lia|apply initial_memory_wf|lia|done].
    + rewrite bool_decide_eq_false_2 in Hobs by (rewrite Hst; lia).
      pose proof (f_equal observed_error Hobs) as He.
      change (OperationResult.error r = ClientError.remote_error) in He. by rewrite He.
  - pose proof (f_equal observed_error Hobs) as He.
    change (OperationResult.error r = ClientError.invalid_argument) in He. by rewrite He.
Qed.

(** C33. [write] on the command line needs the explicit opt-in: it exits with 0
    exactly when the address is a number, the payload the hexadecimal text of 1 to
    256 bytes inside 0x100..0x7ff, and the last argument is --allow-writes; with 2,
    and nothing written to the output, when an argument is malformed or the opt-in
    is missing; and with 4 otherwise. *)
Theorem cli_write_command argv0 a t confirmation con :
  exists code con', main [argv0; "write"; a; t; confirmation] con = Done (code, con') /\
  match parse_u32 a, bytes_from_hex t with
  | Some address, Done (Some payload) =>
      if negb (bool_decide (payload = [])) && bool_decide (confirmation = "--allow-writes") then
        err con' = err con /\
        code = (if (zlen payload <=? 256) && (0x100 <=? address) &&
                   (address + zlen payload <=? 0x800) then 0 else 4)
      else code = 2 /\ out con' = out con
  | _, _ => code = 2 /\ out con' = out con
  end.
Proof.
  change (main [argv0; "write"; a; t; confirmation] con) with (run_write a t confirmation con).
  destruct (bytes_from_hex t) as [payload|] eqn:Ht; [|by rewrite bytes_from_hex_spec in Ht].
  destruct (parse_u32 a) as [address|] eqn:Ha.
  2: { unfold run_write. rewrite Ht, run_lift, Ha. by eexists _, _. }
  destruct payload as [payload|].
  2: { unfold run_write. rewrite Ht, run_lift, Ha. by eexists _, _. }
  rewrite (run_write_unfold a t confirmation address payload) by done.
  destruct (bool_decide (payload = [])) eqn:Hne; [by eexists _, _|].
  destruct (bool_decide (confirmation = _)); cbn [negb andb]; [|by eexists _, _].
  apply parse_u32_range in Ha as Hra.
  destruct (run_operation writes_enabled_policy (write_operation address payload 100) con)
    as (r & text & -> & Hobs); [by repeat split|done|].
  eexists _, _. split; [reflexivity|]. split; [done|].
  apply bool_decide_eq_false in Hne.
  assert (Hpos : 0 < zlen payload).
  { pose proof (zlen_nonneg payload). rewrite <-zlen_zero in Hne. lia. }
  change (OperationResult.error r) with (observed_error (observe r)). rewrite Hobs. clear Hobs.
  pose proof (write_status_ok address (zlen payload)) as Hst. unfold atomic_perform.
  rewrite valid_read_size, (proj2 (Z.ltb_lt 0 _)) by done. cbn [andb].
  destruct (Z.leb_spec (zlen payload) 256); cbn [negb andb]; [|done].
  unfold in_allowlist. cbn [writes_enabled_policy ServerPolicy.writes_enabled negb
    ServerPolicy.write_allow_begin ServerPolicy.write_allow_end ServerPolicy.default].
  rewrite (proj2 (Z.ltb_lt 0 _)) by done.
  destruct (Z.leb_spec 0x100 address); cbn [negb andb]; [|done].
  destruct (Z.leb_spec (address + zlen payload) 0x800).
  - rewrite (proj2 (Z.leb_le _ 0x7FF)) by lia. cbn [negb].
    assert (Hok : write_status address (zlen payload) = Status.ok) by (apply Hst; lia).
    by rewrite (bool_decide_eq_true_2 _ Hok).
  - by rewrite (proj2 (Z.leb_gt _ 0x7FF)) by lia.
Qed.

(** C34. [inspect] on the command line, by exit code: 0 exactly when the argument is
    the hexadecimal text, in either case, of the encoding of a protocol frame, whose
    fields it then prints; 2 exactly when it is not the text of a byte string of
    frame size; 3 in between, with the decoder's error. *)
Theorem cli_inspect_command argv0 text con :
  (forall f, Frame.wf f -> protocol_frame f -> lower_hex text = hex_text (wire f) ->
     main [argv0; "inspect"; text] con = Done (0, said con (inspect_text f))) /\
  (exists code con', main [argv0; "inspect"; text] con = Done (code, con') /\
     (code = 0 -> exists f, protocol_frame f /\ Frame.wf f /\ lower_hex text = hex_text (wire f)) /\
     (code = 2 <-> bytes_from_hex text = Done None) /\
     (code <> 0 -> out con' = out con) /\ (code = 0 \/ code = 2 \/ code = 3)).
Proof.
  change (main [argv0; "inspect"; text] con) with (run_inspect text con).
  pose proof (bytes_from_hex_spec text) as Hspec. rewrite run_inspect_spec.
  set (parsed := if hex_text_fits text then _ else _) in *. split.
  - intros f Hw Hp Hl.
    assert (Hf : bytes_from_hex text = Done (Some (wire f))).
    { apply bytes_from_hex_iff. rewrite bytes_to_hex_spec, Hl. split; [|done].
      rewrite zlen_wire. pose proof (protocol_frame_bounds f Hp) as (_ & _ & ?).
      unfold maximum_frame_size, header_size, maximum_payload_size, checksum_size. lia. }
    rewrite Hspec in Hf. apply Done_inj in Hf as ->. cbn zeta.
    pose proof (decode_wire f Hp Hw) as Hd. rewrite decode_validation in Hd.
    by apply Done_inj in Hd as ->.
  - rewrite Hspec. destruct parsed as [bytes|].
    2: { eexists _, _. split; [reflexivity|]. repeat (split; [done|]). by right; left. }
    cbn zeta. destruct (DecodeResult.frame (decode_by_validation bytes)) as [f|] eqn:E.
    + destruct (decode_accepts _ _ E) as (-> & Hp & Hw & _).
      eexists _, _. split; [reflexivity|]. split; [|split; [done|split; [done|by left]]].
      intros _. exists f. split; [done|]. split; [done|].
      apply bytes_from_hex_iff in Hspec as [_ Hh]. rewrite bytes_to_hex_spec in Hh.
      by apply Done_inj in Hh.
    + eexists _, _. split; [reflexivity|]. split; [done|]. split; [done|]. split; [done|].
      by right; right.
Qed.

(** C35. [encode-read] and [inspect] agree: for numbers whose length is from 1 to 256
    the former prints one line of hexadecimal text, and the latter reads this text
    back as a read request with ID 1, the address, and the length as payload; for all
    other arguments it exits with 2. *)
Theorem cli_encode_read_inspect argv0 a n con :
  (forall address length,
     parse_u32 a = Some address -> parse_u32 n = Some length -> 0 < length <= 256 ->
     exists text,
       main [argv0; "encode-read"; a; n] con = Done (0, said con (String.append text newline)) /\
       forall con', main [argv0; "inspect"; text] con' =
         Done (0, said con' (concat_strings
           ["version=1 opcode=0x1 flags=0 request_id=1 address="; show_dec address;
            " status=ok payload="; hex_text (be_bytes 2 length); newline]))) /\
  (~ (exists address length, parse_u32 a = Some address /\ parse_u32 n = Some length /\
        0 < length <= 256) ->
   exists con', main [argv0; "encode-read"; a; n] con = Done (2, con') /\ out con' = out con).
Proof.
  change (main [argv0; "encode-read"; a; n] con) with (run_encode_read a n con). split.
  - intros address length Ha Hn Hl. set (f := read_request 1 address length).
    exists (hex_text (wire f)). split; [by apply run_encode_read_valid|]. intros con'.
    change (main [argv0; "inspect"; hex_text (wire f)] con')
      with (run_inspect (hex_text (wire f)) con').
    assert (Hf : bytes_from_hex (hex_text (wire f)) = Done (Some (wire f))).
    { apply bytes_from_hex_iff. unfold hex_text. rewrite bytes_to_hex_spec, lower_hex_to_hex.
      split; [|done]. rewrite zlen_wire. done. }
    assert (Hw : Frame.wf f).
    { apply parse_u32_range in Ha. unfold Frame.wf, Opcode.wf, Status.wf, f, read_request.
      repeat split; cbn; lia. }
    rewrite bytes_from_hex_spec in Hf. apply Done_inj in Hf.
    rewrite run_inspect_spec, Hf. cbn zeta.
    pose proof (decode_wire f (read_request_protocol 1 address length) Hw) as Hd.
    rewrite decode_validation in Hd. apply Done_inj in Hd as ->. done.
  - intros Hno. rewrite run_encode_read_invalid by done. by eexists.
Qed.

(** C36. The program always exits: for every list of arguments [main] ends, with a
    code from 0 to 4; it never accesses an argument that is not there, and with
    fewer than two arguments, a command it does not know, or a [write] whose opt-in
    argument is left out, it prints the usage and exits with 1. *)
Theorem cli_always_exits argv con :
  (exists code con', main argv con = Done (code, con') /\ 0 <= code <= 4) /\
  (zlen argv < 2 -> main argv con = Done (1, said con usage)) /\
  (forall argv0 command rest, argv = argv0 :: command :: rest ->
     ~ command ∈ ["inspect"; "encode-read"; "read"; "write"; "demo"] ->
     main argv con = Done (1, said con usage)) /\
  (forall argv0 a t, argv = [argv0; "write"; a; t] -> main argv con = Done (1, said con usage)).
Proof.
  split; [apply main_exits|]. split; [|split; [|by intros argv0 a t ->]].
  - intros Hl. unfold main. by rewrite (proj2 (Z.ltb_lt _ _)).
  - intros argv0 command rest -> Hc. rewrite !not_elem_of_cons in Hc.
    destruct Hc as (H1 & H2 & H3 & H4 & H5 & _). unfold main.
    rewrite (proj2 (Z.ltb_ge _ _)) by (rewrite !zlen_cons; pose proof (zlen_nonneg rest); lia).
    change (vec_at (argv0 :: command :: rest) 1) with (Done command). rewrite run_lift.
    rewrite (bool_decide_eq_false_2 _ H1), (bool_decide_eq_false_2 _ H2),
      (bool_decide_eq_false_2 _ H3), (bool_decide_eq_false_2 _ H4), (bool_decide_eq_false_2 _ H5).
    done.
Qed.
