(* ===== verification/Benchmark.v ===== *)
(** * The benchmark [apps/benchmark_main.cpp].

    Its clock is a parameter: the readings of [std::chrono::steady_clock] in the order
    of the calls, as ticks of a nanosecond.  Times are [double]s, as in [Binary64]. *)

From Stdlib Require Import SpecFloat.
From S2P Require Import Prelude Types BigEndian Crc Hex Text Binary64 Codec Memory Server.
From S2P Require Import Transport Tools.

(** ** The program *)

Module Benchmark.
Definition samples : Z := 5.
Definition operations_per_sample : Z := 50000.

(** The body of the loop of [run_sample], on the server and the checksum; [inr]
    returns the failure value of the function. *)
Definition operation (index : Z) (state : MemoryServer.t * Z)
    : Exec (MemoryServer.t * Z + MemoryServer.t * Z) :=
  let '(server, checksum) := state in
  let request_id := u32 (usize (index + 1)) in
  let request := {|
    Frame.version := protocol_version;
    Frame.opcode := Opcode.read_request;
    Frame.flags := 0;
    Frame.request_id := request_id;
    Frame.address := u32 (index mod 128);
    Frame.status := Status.ok;
    Frame.payload := [to_byte 0; to_byte 16] |} in
  let encoded := encode request in
  if negb (EncodeResult.to_bool encoded) then Done (inr (server, checksum))
  else
    '(handled, server) ← MemoryServer.handle server (EncodeResult.bytes encoded);
    decoded ← decode (HandleResult.response handled);
    match DecodeResult.to_bool decoded, DecodeResult.frame decoded with
    | true, Some frame =>
        let checksum := u64 (checksum + Frame.request_id frame) in
        Done (inl (server, u64 (checksum + zlen (Frame.payload frame))))
    | _, _ => Done (inr (server, checksum))
    end.

(** [std::chrono::duration<double, std::milli>(elapsed).count()]: the conversion divides
    the tick count by the ratio of the periods. *)
Definition milliseconds_of (elapsed : Z) : double := div (of_int elapsed) (of_int 1000000).

Section Clock.
Context (now : nat -> Z).

(** The elapsed milliseconds, or -1.0; the state is the number of clock readings so
    far, the server and the checksum. *)
Definition run_sample (state : nat * (MemoryServer.t * Z))
    : Exec (double * (nat * (MemoryServer.t * Z))) :=
  let '(k, work) := state in
  let started := now k in
  r ← for_loop (Z.to_nat operations_per_sample) 0 operations_per_sample 1 operation work;
  match r with
  | inl work =>
      elapsed ← sub_i64 (now (S k)) started;
      Done (milliseconds_of elapsed, (S (S k), work))
  | inr work => Done (SFopp (of_int 1), (S k, work))
  end.

(** The loop of [main] over the [n] elements that follow [milliseconds]; [None] when
    a sample is negative. *)
Fixpoint run_samples (n : nat) (milliseconds : list double)
    (state : nat * (MemoryServer.t * Z)) : Exec (option (list double) * Z) :=
  match n with
  | O => Done (Some milliseconds, state.2.2)
  | S n =>
      '(sample, state) ← run_sample state;
      if less sample (S754_zero false) then Done (None, state.2.2)
      else run_samples n (milliseconds ++ [sample]) state
  end.

Definition quoted (text : string) : string :=
  let quote := String (Ascii.ascii_of_N 34) EmptyString in concat_strings [quote; text; quote].

Fixpoint print_samples (index : Z) (milliseconds : list double) : Run Console unit :=
  match milliseconds with
  | [] => mret ()
  | x :: milliseconds =>
      _ ← (if negb (index =? 0) then print ", " else mret ());
      _ ← print (fixed3 x);
      print_samples (index + 1) milliseconds
  end.

Definition main : Run Console Z :=
  server ← lift (MemoryServer.construct ServerPolicy.default);
  '(milliseconds, checksum) ← lift (run_samples (Z.to_nat samples) [] (0%nat, (server, 0)));
  match milliseconds with
  | None =>
      _ ← print_error (String.append "benchmark protocol validation failed" newline);
      mret 1
  | Some milliseconds =>
      let sorted := std_sort less milliseconds in
      median_ms ← lift (vec_at sorted (samples / 2));
      let operations_per_second :=
        div (mul (of_int operations_per_sample) (of_int 1000)) median_ms in
      _ ← print (concat_strings
            ["{"; newline; "  "; quoted "operations_per_sample"; ": ";
             show_dec operations_per_sample; ","; newline; "  "; quoted "samples_ms"; ": ["]);
      _ ← print_samples 0 milliseconds;
      _ ← print (concat_strings
            ["],"; newline; "  "; quoted "median_ms"; ": "; fixed3 median_ms; ","; newline; "  ";
             quoted "median_operations_per_second"; ": "; fixed3 operations_per_second; ",";
             newline; "  "; quoted "checksum"; ": "; show_dec checksum; newline; "}"; newline]);
      mret 0
  end.
End Clock.
End Benchmark.

(** ** Lemmas *)

(** The checksum that [n] operations add. *)
Definition checksum_of (n : Z) : Z := n * (n + 1) / 2 + 16 * n.

Lemma checksum_of_succ n : checksum_of (n + 1) = checksum_of n + (n + 1) + 16.
Proof.
  unfold checksum_of. replace ((n + 1) * (n + 1 + 1)) with (n * (n + 1) + (n + 1) * 2) by lia.
  rewrite Z.div_add by lia. lia.
Qed.

Lemma operation_spec s checksum index :
  MemoryServer.wf s -> 0 <= index < 2 ^ 32 - 1 ->
  Benchmark.operation index (s, checksum) =
  Done (inl (s, u64 (checksum + (index + 1) + 16))).
Proof.
  intros Hs Hi. unfold Benchmark.operation.
  assert (u32 (usize (index + 1)) = index + 1) as ->
    by (unfold u32, usize; rewrite (Z.mod_small _ (2 ^ 64)), Z.mod_small; lia).
  pose proof (Z.mod_pos_bound index 128 eq_refl) as Hmod.
  assert (u32 (index mod 128) = index mod 128) as -> by (unfold u32; apply Z.mod_small; lia).
  unfold protocol_version. set (request := Frame.mk 1 _ 0 _ _ _ _).
  assert (Hp : protocol_frame request) by by constructor.
  assert (Hw : Frame.wf request).
  { unfold Frame.wf, Opcode.wf, Status.wf, request. repeat split; cbn; lia. }
  rewrite encode_wire by done. unfold EncodeResult.to_bool.
  cbn [EncodeResult.error EncodeResult.bytes]. decide_constants.
  rewrite handle_refines by done. unfold handle_spec.
  pose proof (decode_wire request Hp Hw) as Hd. rewrite decode_validation in Hd.
  apply Done_inj in Hd as ->. cbn [DecodeResult.frame mbind exec_bind].
  set (d := serve _ _ _).
  assert (Hpa : proper_answer request d) by (apply serve_proper; [apply Hs|done|done]).
  rewrite proper_answer_decodes by done. cbn [mbind exec_bind].
  unfold DecodeResult.to_bool. cbn [DecodeResult.error DecodeResult.frame].
  rewrite !bool_decide_eq_true_2 by eauto. cbn [andb].
  assert (decided_memory d = MemoryServer.memory_ s /\ zlen (decided_payload d) = 16) as [-> Hl].
  { unfold d, serve, request. cbn [Frame.opcode Frame.payload Frame.address].
    assert (be_value [to_byte 0; to_byte 16] = 16) as -> by reflexivity.
    assert (Hok : read_status (index mod 128) 16 = Status.ok) by (apply read_status_ok; lia).
    rewrite (bool_decide_eq_true_2 _ Hok). cbn [decided_memory decided_payload]. split; [done|].
    apply zlen_bytes_at; [apply Hs|lia..]. }
  rewrite server_eta. cbn [response_frame Frame.request_id Frame.payload request].
  rewrite Hl. unfold u64. by rewrite Zplus_mod_idemp_l.
Qed.

(** *** Times *)

Lemma million_normal : normal (of_int 1000000) 8589934592000000 (-33).
Proof. change (of_int 1000000) with (S754_finite false 8589934592000000 (-33)). constructor; lia. Qed.

(** The time of [ns] ticks, as an integer number of units [2^e0]. *)
Lemma milliseconds_normal ns :
  0 < ns < 2 ^ 63 ->
  exists m e mx ex, normal (of_int ns) mx ex /\ normal (Benchmark.milliseconds_of ns) m e /\
    -72 <= e <= -6 /\ ex - 20 <= e /\
    - 2 * 8589934592000000 <= m * 2 ^ (e - (ex - 20)) * 8589934592000000 - mx * 2 ^ 53
      <= 2 * 8589934592000000 /\
    (ns < 2 ^ 53 -> ex <= 0 /\ mx = ns * 2 ^ (- ex)).
Proof.
  intros Hns. destruct (of_int_normal ns Hns) as (mx & ex & Hx & Hex & Hexact).
  destruct (div_normal _ _ _ _ _ _ Hx million_normal) as (m & e & Hn & He & Hm); [lia|].
  replace (ex - -33 - 53) with (ex - 20) in * by lia.
  exists m, e, mx, ex. split; [done|]. split; [exact Hn|]. split; [lia|]. split; [lia|].
  split; [lia|done].
Qed.

Lemma milliseconds_zero : Benchmark.milliseconds_of 0 = S754_zero false.
Proof. reflexivity. Qed.

Lemma milliseconds_ordinary ns : 0 <= ns < 2 ^ 63 -> ordinary (Benchmark.milliseconds_of ns).
Proof.
  intros Hns. destruct (decide (ns = 0)) as [->|].
  - left. apply milliseconds_zero.
  - destruct (milliseconds_normal ns) as (m & e & _ & _ & _ & Hn & _); [lia|]. right. eauto.
Qed.

Lemma milliseconds_sign ns :
  - 2 ^ 63 < ns < 2 ^ 63 -> less (Benchmark.milliseconds_of ns) (S754_zero false) = (ns <? 0).
Proof.
  intros Hns. destruct (Z.ltb_spec ns 0) as [Hneg|Hpos].
  - replace ns with (- (- ns)) by lia. set (n := - ns). assert (0 < n < 2 ^ 63) as Hn by lia.
    unfold Benchmark.milliseconds_of. rewrite of_int_opposite by lia.
    destruct (of_int_normal n Hn) as (mx & ex & Hx & _ & _).
    rewrite (div_opposite _ _ _ _ _ _ Hx million_normal).
    destruct (milliseconds_normal n Hn) as (m & e & _ & _ & _ & Hm & _).
    unfold Benchmark.milliseconds_of in Hm. by destruct Hm.
  - rewrite less_key; [|apply milliseconds_ordinary; lia|by left].
    apply Z.ltb_ge. unfold key. destruct (Benchmark.milliseconds_of ns) as [| | |[] ? e]; try lia.
Qed.

(** A time below 2^53 ns, about 104 days, is printed to the microsecond. *)
Lemma milliseconds_text ns :
  0 <= ns < 2 ^ 53 ->
  exists t, fixed3 (Benchmark.milliseconds_of ns) = fixed_text t /\ -502 <= 1000 * t - ns <= 502.
Proof.
  intros Hns. destruct (decide (ns = 0)) as [->|].
  { exists 0. rewrite milliseconds_zero. split; [done|lia]. }
  destruct (milliseconds_normal ns) as (m & e & mx & ex & _ & Hn & He & Hee & Hm & Hexact); [lia|].
  destruct (Hexact ltac:(lia)) as [Hex ->].
  destruct Hn as [p e Hp _]. cbn [fixed3 signed]. exists (thousandths (Zpos p) e). split; [done|].
  pose proof (thousandths_half (Zpos p) e ltac:(lia)) as Ht.
  set (t := thousandths (Zpos p) e) in *. set (a := - ex) in *.
  assert (Ha : 0 <= a) by lia. replace (ex - 20) with (- (a + 20)) in * by lia.
  (* In units of 2^-(a+20). *)
  assert (2 ^ (a + 20) = 2 ^ (- e) * 2 ^ (e - - (a + 20))) as Hpow
    by (rewrite <-Z.pow_add_r by lia; f_equal; lia).
  set (u := 2 ^ (e - - (a + 20))) in *. assert (0 < u) by (apply Z.pow_pos_nonneg; lia).
  assert (Hu : - 2 ^ (a + 20) <= 2 * (2 ^ (a + 20) * t - 1000 * (Zpos p * u)) <= 2 ^ (a + 20))
    by (rewrite Hpow; nia).
  assert (- (2 * 1000000) <= Zpos p * u * 1000000 - ns * 2 ^ (a + 20) <= 2 * 1000000) as Hv.
  { change 8589934592000000 with (1000000 * 2 ^ 33) in Hm.
    rewrite Z.pow_add_r by lia. change (2 ^ 20) with 1048576.
    change (2 ^ 33) with 8589934592 in Hm. change (2 ^ 53) with (8589934592 * 1048576) in Hm.
    set (y := 2 ^ a) in *. clearbody y u. lia. }
  assert (2 ^ 20 <= 2 ^ (a + 20)) as Hlarge by (apply Z.pow_le_mono_r; lia).
  set (w := 2 ^ (a + 20)) in *. clearbody w t u. change (2 ^ 20) with 1048576 in Hlarge. nia.
Qed.

(** *** The throughput *)

Definition throughput (median : double) : double :=
  div (mul (of_int Benchmark.operations_per_sample) (of_int 1000)) median.

Lemma rate_normal :
  normal (mul (of_int Benchmark.operations_per_sample) (of_int 1000)) 6710886400000000 (-27).
Proof.
  change (mul _ _) with (S754_finite false 6710886400000000 (-27)). constructor; lia.
Qed.

Lemma throughput_zero : fixed3 (throughput (S754_zero false)) = "inf".
Proof. reflexivity. Qed.

Lemma throughput_text ns :
  0 < ns < 2 ^ 63 -> exists t, fixed3 (throughput (Benchmark.milliseconds_of ns)) = fixed_text t.
Proof.
  intros Hns. destruct (milliseconds_normal ns Hns) as (m & e & _ & _ & _ & Hn & He & _).
  destruct (div_normal _ _ _ _ _ _ rate_normal Hn) as (m' & e' & Hn' & _); [lia|].
  unfold throughput. destruct Hn'. eexists. reflexivity.
Qed.

(** *** The runs *)

Lemma run_sample_spec now k s checksum :
  MemoryServer.wf s -> 0 <= checksum < 2 ^ 64 -> - 2 ^ 63 <= now (S k) - now k < 2 ^ 63 ->
  Benchmark.run_sample now (k, (s, checksum)) =
  Done (Benchmark.milliseconds_of (now (S k) - now k),
        (S (S k), (s, u64 (checksum + checksum_of Benchmark.operations_per_sample)))).
Proof.
  intros Hs Hc Hclock. unfold Benchmark.run_sample.
  destruct (for_loop_invariant (R := MemoryServer.t * Z)
              (fun i '(s', sum) => s' = s /\ sum = u64 (checksum + checksum_of i))
              Benchmark.operation (Z.to_nat Benchmark.operations_per_sample) 0
              Benchmark.operations_per_sample (s, checksum))
    as ([s' sum] & -> & -> & ->); [|done|done|lia| |].
  - intros j [s' sum] Hj [-> ->]. unfold Benchmark.operations_per_sample in Hj.
    eexists. split; [apply operation_spec; [done|lia]|]. split; [done|].
    rewrite checksum_of_succ, <-!Z.add_assoc. unfold u64. rewrite Zplus_mod_idemp_l.
    f_equal. lia.
  - split; [done|]. unfold u64. change (checksum_of 0) with 0. by rewrite Z.add_0_r, Z.mod_small.
  - cbn [mbind exec_bind]. unfold sub_i64.
    rewrite (proj2 (Z.leb_le _ _)), (proj2 (Z.ltb_lt _ _)) by lia. done.
Qed.

(** The ticks the [i]-th sample takes. *)
Definition elapsed (now : nat -> Z) (i : nat) : Z := now (S (2 * i)) - now (2 * i)%nat.

(** Readings of a clock with a 64-bit tick count that starts at zero. *)
Definition readings_wf (now : nat -> Z) : Prop := forall k, 0 <= now k < 2 ^ 63.

Definition times (now : nat -> Z) (first n : nat) : list double :=
  (fun i => Benchmark.milliseconds_of (elapsed now i)) <$> seq first n.

Section Runs.
Context (now : nat -> Z).
Hypothesis now_wf : readings_wf now.

Lemma elapsed_range i : - 2 ^ 63 < elapsed now i < 2 ^ 63.
Proof. unfold elapsed. pose proof (now_wf (S (2 * i))). pose proof (now_wf (2 * i)%nat). lia. Qed.

Lemma run_samples_step n acc s checksum i :
  MemoryServer.wf s -> 0 <= checksum < 2 ^ 64 ->
  Benchmark.run_samples now (S n) acc ((2 * i)%nat, (s, checksum)) =
  let checksum' := u64 (checksum + checksum_of Benchmark.operations_per_sample) in
  if elapsed now i <? 0 then Done (None, checksum')
  else Benchmark.run_samples now n (acc ++ [Benchmark.milliseconds_of (elapsed now i)])
         ((2 * S i)%nat, (s, checksum')).
Proof.
  intros Hs Hc. pose proof (elapsed_range i) as He. cbn [Benchmark.run_samples].
  rewrite run_sample_spec by (done || unfold elapsed in He; lia). cbn [mbind exec_bind].
  fold (elapsed now i). rewrite milliseconds_sign by done.
  replace (2 * S i)%nat with (S (S (2 * i)))%nat by lia. done.
Qed.

Lemma run_samples_spec n acc s checksum i :
  MemoryServer.wf s -> 0 <= checksum < 2 ^ 64 ->
  Forall (fun j => 0 <= elapsed now j) (seq i n) ->
  Benchmark.run_samples now n acc ((2 * i)%nat, (s, checksum)) =
  Done (Some (acc ++ times now i n),
        u64 (checksum + Z.of_nat n * checksum_of Benchmark.operations_per_sample)).
Proof.
  intros Hs. generalize (run_samples_step) as Hstep. set (K := checksum_of _). intros Hstep.
  revert acc checksum i; induction n as [|n IH]; intros acc checksum i Hc Hall.
  - cbn. rewrite app_nil_r, Z.add_0_r. unfold u64. by rewrite Z.mod_small.
  - apply Forall_cons in Hall as [Hi Hall]. rewrite Hstep by done. cbn zeta.
    rewrite (proj2 (Z.ltb_ge _ _)), IH by (done || by apply Z.mod_pos_bound).
    rewrite <-app_assoc. do 2 f_equal. unfold u64. rewrite Zplus_mod_idemp_l. f_equal. lia.
Qed.

Lemma run_samples_refused n acc s checksum i :
  MemoryServer.wf s -> 0 <= checksum < 2 ^ 64 ->
  ~ Forall (fun j => 0 <= elapsed now j) (seq i n) ->
  exists sum, Benchmark.run_samples now n acc ((2 * i)%nat, (s, checksum)) = Done (None, sum).
Proof.
  intros Hs. revert acc checksum i; induction n as [|n IH]; intros acc checksum i Hc Hall.
  - destruct Hall. constructor.
  - rewrite run_samples_step by done. destruct (Z.ltb_spec (elapsed now i) 0); [by eexists|].
    apply IH; [by apply Z.mod_pos_bound|]. intros H'. apply Hall. by constructor.
Qed.

Lemma times_ordinary i n :
  Forall (fun j => 0 <= elapsed now j) (seq i n) -> Forall ordinary (times now i n).
Proof.
  intros Hall. unfold times. apply Forall_fmap. eapply Forall_impl; [exact Hall|].
  intros j Hj. cbn in Hj. apply milliseconds_ordinary. pose proof (elapsed_range j). lia.
Qed.
End Runs.

(** *** The report *)

(** The elements of an array, with their separators. *)
Fixpoint separators (l : list string) : string :=
  match l with [] => "" | x :: l => concat_strings [", "; x; separators l] end.
Definition separated (l : list string) : string :=
  match l with [] => "" | x :: l => String.append x (separators l) end.

(** The text of the report: a JSON object, if the arguments are JSON numbers. *)
Definition report (samples_ms : list string) (median_ms operations_per_second checksum : string)
    : string :=
  let member name value := concat_strings ["  "; Benchmark.quoted name; ": "; value] in
  concat_strings
    ["{"; newline;
     member "operations_per_sample" "50000"; ","; newline;
     member "samples_ms" (concat_strings ["["; separated samples_ms; "]"]); ","; newline;
     member "median_ms" median_ms; ","; newline;
     member "median_operations_per_second" operations_per_second; ","; newline;
     member "checksum" checksum; newline; "}"; newline].

Lemma print_samples_later l index con :
  0 < index ->
  Benchmark.print_samples index l con = Done ((), said con (separators (fixed3 <$> l))).
Proof.
  revert index con; induction l as [|x l IH]; intros index con Hi.
  - cbn. unfold said. rewrite append_empty. by destruct con.
  - cbn [Benchmark.print_samples]. rewrite (proj2 (Z.eqb_neq _ _)) by lia. cbn [negb].
    rewrite !run_print, IH, !said_said by lia.
    cbn [fmap list_fmap separators concat_strings]. by rewrite append_empty.
Qed.

Lemma print_samples_spec {A} l (k : unit -> Run Console A) con :
  (Benchmark.print_samples 0 l ≫= k) con = k () (said con (separated (fixed3 <$> l))).
Proof.
  rewrite run_bind_eq. destruct l as [|x l].
  - cbn. unfold said. rewrite append_empty. by destruct con.
  - cbn [Benchmark.print_samples]. change (0 =? 0) with true. cbn [negb].
    rewrite run_ret_bind, run_print, print_samples_later, said_said by lia. done.
Qed.

(** The middle of the five sorted samples: as many of them on either side. *)
Lemma median_of_five l :
  length l = 5%nat -> Forall ordinary l ->
  exists median, vec_at (std_sort less l) (Benchmark.samples / 2) = Done median /\ median ∈ l /\
    3 <= tally (fun x => key x <=? key median) l /\ 3 <= tally (fun x => key median <=? key x) l.
Proof.
  intros Hlen Hl. pose proof (std_sort_Permutation less l) as Hp.
  pose proof (std_sort_sorted less key ordinary less_key l Hl) as Hs.
  rewrite <-(Permutation_length Hp) in Hlen.
  destruct (std_sort less l) as [|a [|b [|c [|d [|e [|]]]]]]; try done.
  exists c. split; [done|]. split; [rewrite <-Hp; set_solver|].
  rewrite <-!(tally_Permutation _ _ _ Hp). unfold tally. cbn [List.filter].
  repeat match goal with
  | H : StronglySorted _ (_ :: _) |- _ => apply StronglySorted_inv in H as [? ?]
  | H : Forall _ (_ :: _) |- _ => apply Forall_cons in H as [? ?]
  end.
  compare_cases; cbn; unfold zlen; cbn; lia.
Qed.

(** ** Properties *)

(** C38. The report of the benchmark.  Whatever the readings of a clock that starts at
    zero: if no sample takes negative time, which a steady clock guarantees, the
    validation of the 250000 reads never fails and the program exits with 0 and
    prints the report: the five times in order, their median (one of them, with at
    least three not above and three not below), the throughput it means, and the
    checksum 6254125000, which does not depend on the clock.  Otherwise it prints
    nothing but the error message and exits with 1. *)
Theorem benchmark_reports now con :
  readings_wf now ->
  (Forall (fun i => 0 <= elapsed now i) (seq 0 5) ->
   exists median, median ∈ times now 0 5 /\
     3 <= tally (fun x => key x <=? key median) (times now 0 5) /\
     3 <= tally (fun x => key median <=? key x) (times now 0 5) /\
     Benchmark.main now con =
     Done (0, said con (report (fixed3 <$> times now 0 5) (fixed3 median)
                          (fixed3 (throughput median)) "6254125000"))) /\
  (~ Forall (fun i => 0 <= elapsed now i) (seq 0 5) ->
   Benchmark.main now con =
   Done (1, complained con (String.append "benchmark protocol validation failed" newline))).
Proof.
  intros Hnow. unfold Benchmark.main. rewrite server_construct_spec, run_lift.
  fold default_server. split; intros Hall.
  - destruct (median_of_five (times now 0 5)) as (median & Hv & Hin & Hle & Hge);
      [done|by apply times_ordinary|].
    exists median. split; [done|]. split; [done|]. split; [done|].
    pose proof (run_samples_spec now Hnow 5 [] default_server 0 0 default_server_wf
                  ltac:(done) Hall) as E.
    change (2 * 0)%nat with 0%nat in E. change (Z.to_nat Benchmark.samples) with 5%nat.
    rewrite E, run_lift. cbn [app]. rewrite Hv, run_lift, run_print. fold (throughput median).
    change (u64 _) with 6254125000. change (show_dec 6254125000) with "6254125000".
    change (show_dec Benchmark.operations_per_sample) with "50000".
    rewrite print_samples_spec, run_print. unfold mret, run_ret. rewrite !said_said.
    do 3 f_equal. unfold report.
    generalize (separated (fixed3 <$> times now 0 5)), (fixed3 median), (fixed3 (throughput median)).
    intros a b c. cbn [concat_strings]. rewrite !append_empty. by rewrite !append_assoc.
  - destruct (run_samples_refused now Hnow 5 [] default_server 0 0 default_server_wf) as [sum E];
      [done|done|].
    change (2 * 0)%nat with 0%nat in E. change (Z.to_nat Benchmark.samples) with 5%nat.
    by rewrite E, run_lift, run_print_error.
Qed.

(** C39. The printed numbers.  A sample of up to 2^53 ns, about 104 days, is printed in
    milliseconds with three decimals, off by at most 502 ns: half a microsecond for
    the output and 2 ns for the conversion to [double] and the division.  The
    throughput is a decimal number as well, unless no tick of the clock passes in the
    median sample: it is then printed as inf, and the report is not JSON. *)
Theorem benchmark_numbers_are_accurate ns :
  0 <= ns < 2 ^ 53 ->
  (exists t, fixed3 (Benchmark.milliseconds_of ns) = fixed_text t /\
     Z.abs (1000 * t - ns) <= 502) /\
  (if ns =? 0 then fixed3 (throughput (Benchmark.milliseconds_of ns)) = "inf"
   else exists r, fixed3 (throughput (Benchmark.milliseconds_of ns)) = fixed_text r).
Proof.
  intros Hns. split.
  - destruct (milliseconds_text ns Hns) as (t & Ht & Hb). exists t. split; [done|lia].
  - destruct (Z.eqb_spec ns 0) as [->|]; [apply throughput_zero|]. apply throughput_text. lia.
Qed.

(** *** The properties at concrete inputs *)

(** A clock on which every sample takes a millisecond. *)
Definition sample_clock (k : nat) : Z := 1000000 * Z.of_nat (Nat.min k 9).

Lemma sample_clock_wf : readings_wf sample_clock.
Proof. intros k. unfold sample_clock. pose proof (Nat.le_min_r k 9). lia. Qed.

Lemma benchmark_reports_witness :
  exists text, Benchmark.main sample_clock {| out := ""; err := "" |} =
    Done (0, {| out := text; err := "" |}).
Proof.
  destruct (proj1 (benchmark_reports sample_clock {| out := ""; err := "" |} sample_clock_wf))
    as (median & _ & _ & _ & E).
  - repeat constructor; vm_compute; discriminate.
  - eexists. exact E.
Defined.

Lemma benchmark_numbers_are_accurate_witness :
  exists t, fixed3 (Benchmark.milliseconds_of 1234567) = fixed_text t /\
    Z.abs (1000 * t - 1234567) <= 502.
Proof. refine (proj1 (benchmark_numbers_are_accurate 1234567 _)). split; reflexivity || discriminate. Defined.
