(* ===== verification/Suite.v ===== *)
(** * The test suite: [tests/].

    The tests are translated with their expectations in order and run on the
    definitions of this development, so that these are checked against what the
    repository expects of the code; the generated inputs of
    [tests/test_properties.cpp] come from the same generator. *)

From S2P Require Import Prelude Types BigEndian Crc Hex Text Codec Memory Server Transport.
From S2P Require Import ImlpClient ClientProperties Tools Benchmark.

(** ** The harness: [tests/test_harness.hpp] and [tests/test_main.cpp] *)

(** What a test does: it gives a value or throws.  All that the tests throw is the
    [std::runtime_error] of [expect], whose [what()] is kept; the handler of other
    exceptions in [main] has nothing to catch. *)
Inductive Outcome (A : Type) : Type := returned (a : A) | threw (what : string).
Arguments returned {A} a.
Arguments threw {A} what.

(** Code that works on objects of type [S] and may throw. *)
Definition Test (S A : Type) : Type := S -> Exec (Outcome A * S).

#[export] Instance test_ret {S} : MRet (Test S) := fun A a s => Done (returned a, s).
#[export] Instance test_bind {S} : MBind (Test S) := fun A B k m s =>
  match m s with
  | Done (returned a, s) => k a s
  | Done (threw what, s) => Done (threw what, s)
  | Halt w => Halt w
  end.

(** The code of the program, which does not throw. *)
Definition calling {S A} (m : Run S A) : Test S A := fun s => '(a, s) ← m s; Done (returned a, s).
Definition evaluating {S A} (m : Exec A) : Test S A := calling (lift m).

(** [*optional], undefined when it is empty. *)
Definition value_of {S A} (x : option A) : Test S A :=
  evaluating (match x with Some a => Done a | None => Halt invalid_reference end).

Definition expect {S} (file : string) (line : Z) (expression : string) (condition : bool)
    : Test S unit :=
  if condition then mret ()
  else fun s =>
    Done (threw (concat_strings [file; ":"; show_dec line; " expectation failed: "; expression]), s).

(** [for (std::size_t i = first; i < bound; ++i) body(i);] *)
Fixpoint test_loop {S} (fuel : nat) (i bound : Z) (body : Z -> Test S unit) : Test S unit :=
  if i <? bound then
    match fuel with
    | O => fun _ => Halt out_of_fuel
    | Datatypes.S fuel => _ ← body i; test_loop fuel (usize (i + 1)) bound body
    end
  else mret ().

(** The body of a test, on the objects that it creates first. *)
Definition on {S} (objects : Exec S) (body : Test S unit) : Exec (Outcome unit) :=
  s ← objects; '(outcome, _) ← body s; Done outcome.

Record TestCase : Type := { name : string; function : Exec (Outcome unit) }.

(** The loop of [main], with its counters. *)
Fixpoint run_tests (tests : list TestCase) (passed failures : Z) : Run Console (Z * Z) :=
  match tests with
  | [] => mret (passed, failures)
  | test :: tests =>
      outcome ← lift (function test);
      match outcome with
      | returned _ =>
          let passed := usize (passed + 1) in
          _ ← print (concat_strings ["PASS "; name test; newline]);
          run_tests tests passed failures
      | threw what =>
          let failures := usize (failures + 1) in
          _ ← print_error (concat_strings ["FAIL "; name test; ": "; what; newline]);
          run_tests tests passed failures
      end
  end.

Definition test_main (registry : list TestCase) : Run Console Z :=
  '(passed, failures) ← run_tests registry 0 0;
  _ ← print (concat_strings
        ["SUMMARY passed="; show_dec passed; " failed="; show_dec failures; newline]);
  mret (if failures =? 0 then 0 else 1).

(** A frame whose other members have their default initialisers. *)
Definition request_frame (opcode : Opcode.t) (request_id address : Z) (payload : list byte)
    : Frame.t :=
  Frame.mk protocol_version opcode 0 request_id address Status.ok payload.

(** The tests, for the directory that [__FILE__] names; it and the line, the first of
    an expectation, occur in the messages of failures only. *)
Section Tests.
Context (directory : string).

(** ** [tests/test_codec.cpp] *)

Section Codec.
#[local] Abbreviation IMLP_EXPECT := (expect (String.append directory "/test_codec.cpp")).

Definition ascii_bytes (text : string) : list byte :=
  (fun value => to_byte (char_value value)) <$> chars text.

Definition crc32_matches_published_check_value : Test unit unit :=
  let bytes := ascii_bytes "123456789" in
  IMLP_EXPECT 31 "imlp::crc32(bytes) == 0xCBF43926U" (crc32 bytes =? 0xCBF43926).

Definition read_request_round_trips_with_big_endian_fields : Test unit unit :=
  let frame := request_frame Opcode.read_request 0x10203040 0x50607080
                 [to_byte 0x00; to_byte 0x20] in
  let encoded := encode frame in
  _ ← IMLP_EXPECT 42 "encoded" (EncodeResult.to_bool encoded);
  b ← evaluating (vec_at (EncodeResult.bytes encoded) 6);
  _ ← IMLP_EXPECT 43 "encoded.bytes[6] == std::byte{0x10}" (bool_decide (b = to_byte 0x10));
  b ← evaluating (vec_at (EncodeResult.bytes encoded) 9);
  _ ← IMLP_EXPECT 44 "encoded.bytes[9] == std::byte{0x40}" (bool_decide (b = to_byte 0x40));
  b ← evaluating (vec_at (EncodeResult.bytes encoded) 10);
  _ ← IMLP_EXPECT 45 "encoded.bytes[10] == std::byte{0x50}" (bool_decide (b = to_byte 0x50));
  b ← evaluating (vec_at (EncodeResult.bytes encoded) 13);
  _ ← IMLP_EXPECT 46 "encoded.bytes[13] == std::byte{0x80}" (bool_decide (b = to_byte 0x80));
  decoded ← evaluating (decode (EncodeResult.bytes encoded));
  _ ← IMLP_EXPECT 48 "decoded" (DecodeResult.to_bool decoded);
  decoded_frame ← value_of (DecodeResult.frame decoded);
  IMLP_EXPECT 49 "*decoded.frame == frame" (bool_decide (decoded_frame = frame)).

(** [bytes.pop_back()] and [bytes.back() ^= std::byte{0x01}], undefined on an empty
    vector. *)
Definition pop_back (bytes : list byte) : Exec (list byte) := vec_range bytes 0 (zlen bytes - 1).
Definition flip_back (bytes : list byte) : Exec (list byte) :=
  b ← vec_at bytes (zlen bytes - 1);
  vec_set bytes (zlen bytes - 1) (to_byte (Z.lxor (to_integer b) 0x01)).

(** [imlp::decode(bytes).error == error]. *)
Definition decode_error_is {S} (bytes : list byte) (error : CodecError.t) : Test S bool :=
  decoded ← evaluating (decode bytes);
  mret (bool_decide (DecodeResult.error decoded = error)).

Definition codec_rejects_truncation_trailing_bytes_and_corruption : Test unit unit :=
  let frame := request_frame Opcode.write_request 7 0x0100 [to_byte 0xAA; to_byte 0x55] in
  let encoded := encode frame in
  _ ← IMLP_EXPECT 60 "encoded" (EncodeResult.to_bool encoded);
  truncated ← evaluating (pop_back (EncodeResult.bytes encoded));
  b ← decode_error_is truncated CodecError.truncated;
  _ ← IMLP_EXPECT 64 "imlp::decode(truncated).error == imlp::CodecError::truncated" b;
  let trailing := EncodeResult.bytes encoded ++ [to_byte 0] in
  b ← decode_error_is trailing CodecError.length_mismatch;
  _ ← IMLP_EXPECT 68 "imlp::decode(trailing).error == imlp::CodecError::length_mismatch" b;
  corrupted ← evaluating (flip_back (EncodeResult.bytes encoded));
  b ← decode_error_is corrupted CodecError.checksum_mismatch;
  IMLP_EXPECT 72 "imlp::decode(corrupted).error == imlp::CodecError::checksum_mismatch" b.

Definition codec_rejects_untrusted_header_fields_before_indexing_payload : Test unit unit :=
  let frame := request_frame Opcode.read_request 1 0 [to_byte 0; to_byte 1] in
  let encoded := encode frame in
  _ ← IMLP_EXPECT 82 "encoded" (EncodeResult.to_bool encoded);
  bad_magic ← evaluating (vec_set (EncodeResult.bytes encoded) 0 (to_byte 0));
  b ← decode_error_is bad_magic CodecError.bad_magic;
  _ ← IMLP_EXPECT 86 "imlp::decode(bad_magic).error == imlp::CodecError::bad_magic" b;
  bad_reserved ← evaluating (vec_set (EncodeResult.bytes encoded) 5 (to_byte 1));
  b ← decode_error_is bad_reserved CodecError.nonzero_reserved;
  _ ← IMLP_EXPECT 90 "imlp::decode(bad_reserved).error == imlp::CodecError::nonzero_reserved" b;
  oversized ← evaluating (vec_set (EncodeResult.bytes encoded) 14 (to_byte 0x01));
  oversized ← evaluating (vec_set oversized 15 (to_byte 0x01));
  b ← decode_error_is oversized CodecError.payload_too_large;
  IMLP_EXPECT 95 "imlp::decode(oversized).error == imlp::CodecError::payload_too_large" b.

Definition encoder_rejects_semantically_invalid_frames : Test unit unit :=
  let read := request_frame Opcode.read_request 0 0 [to_byte 1] in
  _ ← IMLP_EXPECT 103 "imlp::encode(read).error == imlp::CodecError::invalid_semantics"
        (bool_decide (EncodeResult.error (encode read) = CodecError.invalid_semantics));
  let response := request_frame Opcode.data_response 0 0 [to_byte 1] in
  _ ← IMLP_EXPECT 110 "imlp::encode(response).error == imlp::CodecError::invalid_semantics"
        (bool_decide (EncodeResult.error (encode response) = CodecError.invalid_semantics));
  let oversized := request_frame Opcode.write_request 0 0
                     (replicate (Z.to_nat (maximum_payload_size + 1)) (to_byte 0)) in
  IMLP_EXPECT 116 "imlp::encode(oversized).error == imlp::CodecError::payload_too_large"
    (bool_decide (EncodeResult.error (encode oversized) = CodecError.payload_too_large)).

(** A C++ string literal in the text of an expression. *)
#[local] Abbreviation literal := Benchmark.quoted.

(** [!imlp::bytes_from_hex(text).has_value()]. *)
Definition not_hex (text : string) : Test unit bool :=
  parsed ← evaluating (bytes_from_hex text);
  mret (negb (bool_decide (is_Some parsed))).

Definition hex_conversion_is_exact_and_bounded : Test unit unit :=
  let expected := [to_byte 0x00; to_byte 0xA5; to_byte 0xFF] in
  text ← evaluating (bytes_to_hex expected);
  _ ← IMLP_EXPECT 121
        (concat_strings ["imlp::bytes_to_hex(expected) == std::string("; literal "00a5ff"; ")"])
        (bool_decide (text = "00a5ff"));
  parsed ← evaluating (bytes_from_hex "00A5ff");
  parsed ← value_of parsed;
  _ ← IMLP_EXPECT 122
        (concat_strings ["*imlp::bytes_from_hex("; literal "00A5ff"; ") == expected"])
        (bool_decide (parsed = expected));
  b ← not_hex "0";
  _ ← IMLP_EXPECT 123
        (concat_strings ["!imlp::bytes_from_hex("; literal "0"; ").has_value()"]) b;
  b ← not_hex "zz";
  _ ← IMLP_EXPECT 124
        (concat_strings ["!imlp::bytes_from_hex("; literal "zz"; ").has_value()"]) b;
  b ← not_hex (of_chars (replicate (Z.to_nat (maximum_frame_size * 2 + 2)) (Ascii.ascii_of_N 48)));
  IMLP_EXPECT 125
    (concat_strings ["!imlp::bytes_from_hex(std::string(imlp::maximum_frame_size * 2U + 2U, '0'))";
                     ".has_value()"]) b.
End Codec.

(** ** [tests/test_memory.cpp] *)

Section Memory.
#[local] Abbreviation IMLP_EXPECT := (expect (String.append directory "/test_memory.cpp")).

Definition encoded_bytes {S} (frame : Frame.t) : Test S (list byte) :=
  let encoded := encode frame in
  _ ← IMLP_EXPECT 22 "encoded" (EncodeResult.to_bool encoded);
  mret (EncodeResult.bytes encoded).

Definition response_frame {S} (result : HandleResult.t) : Test S Frame.t :=
  decoded ← evaluating (decode (HandleResult.response result));
  _ ← IMLP_EXPECT 29 "decoded" (DecodeResult.to_bool decoded);
  value_of (DecodeResult.frame decoded).

(** The calls [memory.read], [memory.write] and [server.handle]. *)
Definition memory_read (address length : Z) : Test MemoryMap.t MemoryResult.t :=
  calling (fun memory => r ← MemoryMap.read memory address length; Done (r, memory)).
Definition memory_write (address : Z) (data : list byte) : Test MemoryMap.t Status.t :=
  calling (fun memory => MemoryMap.write memory address data).
Definition server_handle (request : list byte) : Test MemoryServer.t HandleResult.t :=
  calling (fun server => MemoryServer.handle server request).

(** [memory.read(address, length).status == status] and
    [memory.write(address, data) == status]. *)
Definition read_status_is (address length : Z) (status : Status.t) : Test MemoryMap.t bool :=
  r ← memory_read address length; mret (bool_decide (MemoryResult.status r = status)).
Definition write_status_is (address : Z) (data : list byte) (status : Status.t)
    : Test MemoryMap.t bool :=
  r ← memory_write address data; mret (bool_decide (r = status)).

Definition memory_map_enforces_regions_and_range_boundaries : Test MemoryMap.t unit :=
  _ ← IMLP_EXPECT 35 "imlp::MemoryMap::access_for(0x0000U) == imlp::Access::read_only"
        (bool_decide (MemoryMap.access_for 0x0000 = Access.read_only));
  _ ← IMLP_EXPECT 36 "imlp::MemoryMap::access_for(0x0100U) == imlp::Access::read_write"
        (bool_decide (MemoryMap.access_for 0x0100 = Access.read_write));
  _ ← IMLP_EXPECT 37 "imlp::MemoryMap::access_for(0x0800U) == imlp::Access::denied"
        (bool_decide (MemoryMap.access_for 0x0800 = Access.denied));
  r ← memory_read 0 8;
  _ ← IMLP_EXPECT 38 "memory.read(0U, 8U)" (MemoryResult.to_bool r);
  b ← read_status_is 0x0800 1 Status.access_denied;
  _ ← IMLP_EXPECT 39 "memory.read(0x0800U, 1U).status == imlp::Status::access_denied" b;
  b ← read_status_is 0xFFFFFFFF 2 Status.out_of_range;
  _ ← IMLP_EXPECT 40 "memory.read(0xFFFFFFFFU, 2U).status == imlp::Status::out_of_range" b;
  b ← read_status_is 0 0 Status.out_of_range;
  IMLP_EXPECT 41 "memory.read(0U, 0U).status == imlp::Status::out_of_range" b.

Definition memory_map_rejects_read_only_and_cross_region_writes : Test MemoryMap.t unit :=
  let bytes := [to_byte 0x11; to_byte 0x22] in
  b ← write_status_is 0x0000 bytes Status.access_denied;
  _ ← IMLP_EXPECT 47 "memory.write(0x0000U, bytes) == imlp::Status::access_denied" b;
  b ← write_status_is 0x0100 bytes Status.ok;
  _ ← IMLP_EXPECT 48 "memory.write(0x0100U, bytes) == imlp::Status::ok" b;
  r ← memory_read 0x0100 (zlen bytes);
  _ ← IMLP_EXPECT 49 "memory.read(0x0100U, bytes.size()).data == bytes"
        (bool_decide (MemoryResult.data r = bytes));
  b ← write_status_is 0x07FF bytes Status.access_denied;
  IMLP_EXPECT 50 "memory.write(0x07FFU, bytes) == imlp::Status::access_denied" b.

Definition server_defaults_to_read_only_and_returns_correlated_error : Test MemoryServer.t unit :=
  let request := request_frame Opcode.write_request 42 0x0100 [to_byte 0xAB] in
  bytes ← encoded_bytes request;
  handled ← server_handle bytes;
  response ← response_frame handled;
  _ ← IMLP_EXPECT 63 "response.opcode == imlp::Opcode::error_response"
        (bool_decide (Frame.opcode response = Opcode.error_response));
  _ ← IMLP_EXPECT 64 "response.status == imlp::Status::write_disabled"
        (bool_decide (Frame.status response = Status.write_disabled));
  IMLP_EXPECT 65 "response.request_id == request.request_id"
    (Frame.request_id response =? Frame.request_id request).

(** [response_frame(server.handle(encoded_bytes(request))).status == status]. *)
Definition answer_status_is (request : Frame.t) (status : Status.t) : Test MemoryServer.t bool :=
  bytes ← encoded_bytes request;
  handled ← server_handle bytes;
  response ← response_frame handled;
  mret (bool_decide (Frame.status response = status)).

Definition enabled_policy : ServerPolicy.t := ServerPolicy.mk true 0x0120 0x012F.

Definition server_allows_only_explicitly_enabled_allowlisted_writes : Test MemoryServer.t unit :=
  let payload := [to_byte 0xAB; to_byte 0xCD] in
  let allowed := request_frame Opcode.write_request 1 0x0120 payload in
  b ← answer_status_is allowed Status.ok;
  _ ← IMLP_EXPECT 77
        "response_frame(server.handle(encoded_bytes(allowed))).status == imlp::Status::ok" b;
  let denied := request_frame Opcode.write_request 2 0x011F payload in
  b ← answer_status_is denied Status.access_denied;
  _ ← IMLP_EXPECT 82
        "response_frame(server.handle(encoded_bytes(denied))).status == imlp::Status::access_denied"
        b;
  let denied := request_frame Opcode.write_request 3 0x012F payload in
  b ← answer_status_is denied Status.access_denied;
  IMLP_EXPECT 87
    "response_frame(server.handle(encoded_bytes(denied))).status == imlp::Status::access_denied"
    b.

Definition server_returns_no_frame_for_undecodable_input : Test MemoryServer.t unit :=
  let malformed := [to_byte 0x49; to_byte 0x4D; to_byte 1] in
  result ← server_handle malformed;
  _ ← IMLP_EXPECT 95 "result.response.empty()" (zlen (HandleResult.response result) =? 0);
  _ ← IMLP_EXPECT 96 "!result.event.request_decoded"
        (negb (ServerEvent.request_decoded (HandleResult.event result)));
  IMLP_EXPECT 97 "result.event.status == imlp::Status::bad_request"
    (bool_decide (ServerEvent.status (HandleResult.event result) = Status.bad_request)).
End Memory.

(** ** [tests/test_client.cpp]

    The objects of a test are a client and the transport that it refers to, with its
    server; nothing else refers to them. *)

Section ClientTests.
#[local] Abbreviation IMLP_EXPECT := (expect (String.append directory "/test_client.cpp")).
#[local] Abbreviation World := (Client.World LoopbackTransport.t).

Definition objects (policy : ServerPolicy.t) (faults : list TransportFault.t)
    (options : ClientOptions.t) : Exec World :=
  server ← MemoryServer.construct policy;
  let transport := LoopbackTransport.construct server in
  let transport := foldl LoopbackTransport.push_fault transport faults in
  Done (Client.construct options, transport).

Definition client_read (address length deadline : Z) : Test World OperationResult.t :=
  calling (Client.read address length deadline).
Definition client_write (address : Z) (data : list byte) (deadline : Z)
    : Test World OperationResult.t := calling (Client.write address data deadline).
Definition client_metric (member : ClientMetrics.t -> Z) : Test World Z :=
  calling (gets (fun '(client, _) => member (Client.metrics client))).
Definition transport_trace : Test World (list TraceRecord.t) :=
  calling (gets (fun '(_, transport) => LoopbackTransport.trace transport)).
Definition push_fault (fault : TransportFault.t) : Test World unit :=
  calling (modify (fun '(client, transport) =>
    (client, LoopbackTransport.push_fault transport fault))).

Definition error_is (result : OperationResult.t) (error : ClientError.t) : bool :=
  bool_decide (OperationResult.error result = error).

(** [IMLP_EXPECT_EQ(client.metrics().member, value)]. *)
Definition expect_metric (line : Z) (member_name : string) (member : ClientMetrics.t -> Z)
    (value : Z) : Test World unit :=
  v ← client_metric member;
  IMLP_EXPECT line
    (concat_strings ["client.metrics()."; member_name; " == "; show_dec value; "U"]) (v =? value).

Definition client_reads_identity_and_reports_metrics : Test World unit :=
  result ← client_read 0 4 100;
  _ ← IMLP_EXPECT 26 "result" (OperationResult.to_bool result);
  text ← evaluating (bytes_to_hex (OperationResult.data result));
  _ ← IMLP_EXPECT 27
        (concat_strings ["imlp::bytes_to_hex(result.data) == std::string(";
                         Benchmark.quoted "494d4c50"; ")"])
        (bool_decide (text = "494d4c50"));
  _ ← IMLP_EXPECT 28 "result.attempts == 1U" (OperationResult.attempts result =? 1);
  _ ← expect_metric 29 "operations" ClientMetrics.operations 1;
  expect_metric 30 "transport_attempts" ClientMetrics.transport_attempts 1.

Definition client_retries_idempotent_read_with_same_correlation_id : Test World unit :=
  result ← client_read 0x0040 1 100;
  _ ← IMLP_EXPECT 39 "result" (OperationResult.to_bool result);
  _ ← IMLP_EXPECT 40 "result.attempts == 2U" (OperationResult.attempts result =? 2);
  _ ← expect_metric 41 "timeouts" ClientMetrics.timeouts 1;
  _ ← expect_metric 42 "retries" ClientMetrics.retries 1;
  trace ← transport_trace;
  _ ← IMLP_EXPECT 43 "transport.trace().size() == 4U" (zlen trace =? 4);
  record ← evaluating (vec_at trace 0);
  first ← evaluating (decode (TraceRecord.bytes record));
  record ← evaluating (vec_at trace 2);
  second ← evaluating (decode (TraceRecord.bytes record));
  _ ← IMLP_EXPECT 46 "first" (DecodeResult.to_bool first);
  _ ← IMLP_EXPECT 47 "second" (DecodeResult.to_bool second);
  first_frame ← value_of (DecodeResult.frame first);
  second_frame ← value_of (DecodeResult.frame second);
  IMLP_EXPECT 48 "first.frame->request_id == second.frame->request_id"
    (Frame.request_id first_frame =? Frame.request_id second_frame).

Definition client_never_retries_an_ambiguous_write_timeout : Test World unit :=
  result ← client_write 0x0100 [to_byte 0x7A] 100;
  _ ← IMLP_EXPECT 58 "!result" (negb (OperationResult.to_bool result));
  _ ← IMLP_EXPECT 59 "result.error == imlp::ClientError::timeout"
        (error_is result ClientError.timeout);
  _ ← IMLP_EXPECT 60 "result.attempts == 1U" (OperationResult.attempts result =? 1);
  _ ← expect_metric 61 "transport_attempts" ClientMetrics.transport_attempts 1;
  expect_metric 62 "retries" ClientMetrics.retries 0.

Definition client_rejects_wrong_correlation_and_corrupt_responses : Test World unit :=
  _ ← push_fault TransportFault.wrong_request_id;
  wrong_id ← client_read 0 4 100;
  _ ← IMLP_EXPECT 72 "wrong_id.error == imlp::ClientError::correlation_mismatch"
        (error_is wrong_id ClientError.correlation_mismatch);
  _ ← push_fault TransportFault.corrupt_response;
  corrupt ← client_read 0 4 100;
  _ ← IMLP_EXPECT 76 "corrupt.error == imlp::ClientError::malformed_response"
        (error_is corrupt ClientError.malformed_response);
  expect_metric 77 "protocol_errors" ClientMetrics.protocol_errors 2.

Definition client_preserves_remote_write_policy_status : Test World unit :=
  result ← client_write 0x0100 [to_byte 0x01] 100;
  _ ← IMLP_EXPECT 86 "result.error == imlp::ClientError::remote_error"
        (error_is result ClientError.remote_error);
  IMLP_EXPECT 87 "result.remote_status == imlp::Status::write_disabled"
    (bool_decide (OperationResult.remote_status result = Status.write_disabled)).

Definition client_validates_arguments_before_transport_use : Test World unit :=
  result ← client_read 0 0 100;
  _ ← IMLP_EXPECT 94
        "client.read(0U, 0U, 100ms).error == imlp::ClientError::invalid_argument"
        (error_is result ClientError.invalid_argument);
  result ← client_read 0 (maximum_payload_size + 1) 100;
  _ ← IMLP_EXPECT 95
        (concat_strings
           ["client.read(0U, imlp::maximum_payload_size + 1U, 100ms).error == ";
            "imlp::ClientError::invalid_argument"])
        (error_is result ClientError.invalid_argument);
  result ← client_write 0x0100 [to_byte 0x01] 0;
  _ ← IMLP_EXPECT 98
        "client.write(0x0100U, data, 0ms).error == imlp::ClientError::invalid_argument"
        (error_is result ClientError.invalid_argument);
  trace ← transport_trace;
  IMLP_EXPECT 99 "transport.trace().empty()" (zlen trace =? 0).
End ClientTests.

(** ** [tests/test_properties.cpp] *)

Section PropertyTests.
#[local] Abbreviation IMLP_EXPECT := (expect (String.append directory "/test_properties.cpp")).

(** The generator, on its [std::uint64_t] state. *)
Definition next_random : Run Z Z := fun state =>
  let state := Z.lxor state (u64 (Z.shiftl state 13)) in
  let state := Z.lxor state (Z.shiftr state 7) in
  let state := Z.lxor state (u64 (Z.shiftl state 17)) in
  Done (state, state).

(** [for (std::byte& byte : bytes) byte = static_cast<std::byte>(next_random(state) & 0xFFU);]
    on a vector of the given size. *)
Fixpoint random_bytes (size : nat) : Run Z (list byte) :=
  match size with
  | O => mret []
  | S size =>
      v ← next_random;
      bytes ← random_bytes size;
      mret (to_byte (Z.land v 0xFF) :: bytes)
  end.

Definition generated_frame (index : Z) : Run Z Frame.t :=
  id ← next_random;
  a ← next_random;
  let request_id := u32 id in
  let address := u32 a in
  let kind := index mod 5 in
  if kind =? 0 then
    v ← next_random;
    let length := u16 (v mod 256 + 1) in
    mret (Frame.mk protocol_version Opcode.read_request 0 request_id address Status.ok
            [to_byte (Z.land (Z.shiftr length 8) 0xFF); to_byte (Z.land length 0xFF)])
  else if kind =? 1 then
    v ← next_random;
    let length := v mod 256 + 1 in
    payload ← random_bytes (Z.to_nat length);
    mret (Frame.mk protocol_version Opcode.write_request 0 request_id address Status.ok payload)
  else if kind =? 2 then
    v ← next_random;
    payload ← random_bytes (Z.to_nat (v mod 257));
    mret (Frame.mk protocol_version Opcode.data_response response_flag request_id address
            Status.ok payload)
  else if kind =? 3 then
    payload ← random_bytes 0;
    mret (Frame.mk protocol_version Opcode.write_acknowledgement response_flag request_id address
            Status.ok payload)
  else
    s ← next_random;
    let status := Status.of_value (u16 (s mod 5 + 1)) in
    v ← next_random;
    payload ← random_bytes (Z.to_nat (v mod 64));
    mret (Frame.mk protocol_version Opcode.error_response response_flag request_id address
            status payload).

(** The bodies of the three loops, on the state of the generator. *)
Definition round_trip (index : Z) : Test Z unit :=
  frame ← calling (generated_frame index);
  let encoded := encode frame in
  _ ← IMLP_EXPECT 70 "encoded" (EncodeResult.to_bool encoded);
  decoded ← evaluating (decode (EncodeResult.bytes encoded));
  _ ← IMLP_EXPECT 72 "decoded" (DecodeResult.to_bool decoded);
  decoded_frame ← value_of (DecodeResult.frame decoded);
  IMLP_EXPECT 73 "*decoded.frame == frame" (bool_decide (decoded_frame = frame)).

Definition checksum_mutation (index : Z) : Test Z unit :=
  frame ← calling (generated_frame index);
  let encoded := encode frame in
  _ ← IMLP_EXPECT 82 "encoded" (EncodeResult.to_bool encoded);
  bytes ← evaluating (flip_back (EncodeResult.bytes encoded));
  b ← decode_error_is bytes CodecError.checksum_mismatch;
  IMLP_EXPECT 84 "imlp::decode(encoded.bytes).error == imlp::CodecError::checksum_mismatch" b.

Definition arbitrary_input (iteration : Z) : Test Z unit :=
  v ← calling next_random;
  bytes ← calling (random_bytes (Z.to_nat (v mod (maximum_frame_size * 2))));
  decoded ← evaluating (decode bytes);
  match DecodeResult.to_bool decoded, DecodeResult.frame decoded with
  | true, Some frame =>
      let encoded := encode frame in
      _ ← IMLP_EXPECT 98 "encoded" (EncodeResult.to_bool encoded);
      IMLP_EXPECT 99 "encoded.bytes == bytes" (bool_decide (EncodeResult.bytes encoded = bytes))
  | _, _ => mret ()
  end.

(** A loop of [count] iterations from a seed of the generator. *)
Definition iterations (count : Z) (body : Z -> Test Z unit) : Test Z unit :=
  test_loop (Z.to_nat count) 0 count body.

Definition generated_valid_frames_round_trip_exactly : Test Z unit := iterations 10000 round_trip.
Definition checksum_mutation_is_always_detected : Test Z unit := iterations 2000 checksum_mutation.
Definition arbitrary_bounded_input_never_produces_an_unstable_frame : Test Z unit :=
  iterations 10000 arbitrary_input.
End PropertyTests.

(** ** The registry

    The tests of each file, in the order of their registrations, and the files in the
    order in which the build names them.  The language leaves open in which order the
    files are initialised. *)

Definition default_server_objects : Exec MemoryServer.t :=
  MemoryServer.construct ServerPolicy.default.

Definition client_tests : list TestCase :=
  let default := objects ServerPolicy.default in [
  {| name := "client_reads_identity_and_reports_metrics";
     function := on (default [] ClientOptions.default) client_reads_identity_and_reports_metrics |};
  {| name := "client_retries_idempotent_read_with_same_correlation_id";
     function := on (default [TransportFault.timeout] (ClientOptions.mk 2))
                   client_retries_idempotent_read_with_same_correlation_id |};
  {| name := "client_never_retries_an_ambiguous_write_timeout";
     function := on (objects (ServerPolicy.mk true 0x0100 0x07FF) [TransportFault.timeout]
                       (ClientOptions.mk 5))
                   client_never_retries_an_ambiguous_write_timeout |};
  {| name := "client_rejects_wrong_correlation_and_corrupt_responses";
     function := on (default [] ClientOptions.default)
                   client_rejects_wrong_correlation_and_corrupt_responses |};
  {| name := "client_preserves_remote_write_policy_status";
     function := on (default [] ClientOptions.default)
                   client_preserves_remote_write_policy_status |};
  {| name := "client_validates_arguments_before_transport_use";
     function := on (default [] ClientOptions.default)
                   client_validates_arguments_before_transport_use |} ].

Definition codec_tests : list TestCase := [
  {| name := "crc32_matches_published_check_value";
     function := on (Done ()) crc32_matches_published_check_value |};
  {| name := "read_request_round_trips_with_big_endian_fields";
     function := on (Done ()) read_request_round_trips_with_big_endian_fields |};
  {| name := "codec_rejects_truncation_trailing_bytes_and_corruption";
     function := on (Done ()) codec_rejects_truncation_trailing_bytes_and_corruption |};
  {| name := "codec_rejects_untrusted_header_fields_before_indexing_payload";
     function := on (Done ()) codec_rejects_untrusted_header_fields_before_indexing_payload |};
  {| name := "encoder_rejects_semantically_invalid_frames";
     function := on (Done ()) encoder_rejects_semantically_invalid_frames |};
  {| name := "hex_conversion_is_exact_and_bounded";
     function := on (Done ()) hex_conversion_is_exact_and_bounded |} ].

Definition memory_tests : list TestCase := [
  {| name := "memory_map_enforces_regions_and_range_boundaries";
     function := on MemoryMap.construct memory_map_enforces_regions_and_range_boundaries |};
  {| name := "memory_map_rejects_read_only_and_cross_region_writes";
     function := on MemoryMap.construct memory_map_rejects_read_only_and_cross_region_writes |};
  {| name := "server_defaults_to_read_only_and_returns_correlated_error";
     function := on default_server_objects
                   server_defaults_to_read_only_and_returns_correlated_error |};
  {| name := "server_allows_only_explicitly_enabled_allowlisted_writes";
     function := on (MemoryServer.construct enabled_policy)
                   server_allows_only_explicitly_enabled_allowlisted_writes |};
  {| name := "server_returns_no_frame_for_undecodable_input";
     function := on default_server_objects server_returns_no_frame_for_undecodable_input |} ].

Definition property_tests : list TestCase := [
  {| name := "generated_valid_frames_round_trip_exactly";
     function := on (Done 0xC0FFEE1234567890) generated_valid_frames_round_trip_exactly |};
  {| name := "checksum_mutation_is_always_detected";
     function := on (Done 0x1234ABCD9876EF01) checksum_mutation_is_always_detected |};
  {| name := "arbitrary_bounded_input_never_produces_an_unstable_frame";
     function := on (Done 0x0BADF00D5EEDFACE)
                   arbitrary_bounded_input_never_produces_an_unstable_frame |} ].

Definition registry : list TestCase :=
  client_tests ++ codec_tests ++ memory_tests ++ property_tests.
End Tests.

(** ** Lemmas *)

(** A drawing from the generator satisfies [P] in every state. *)
Definition draws {A} (m : Run Z A) (P : A -> Prop) : Prop :=
  forall s, exists a s', m s = Done (a, s') /\ P a.

(** The code expects what holds, in every state. *)
Definition passes {S} (t : Test S unit) : Prop := forall s, exists s', t s = Done (returned (), s').

Lemma draws_ret {A} (a : A) (P : A -> Prop) : P a -> draws (mret a) P.
Proof. intros H s. by exists a, s. Qed.

Lemma draws_bind {A B} (m : Run Z A) (k : A -> Run Z B) P Q :
  draws m P -> (forall a, P a -> draws (k a) Q) -> draws (m ≫= k) Q.
Proof.
  intros Hm Hk s. destruct (Hm s) as (a & s' & E & Ha). rewrite run_bind_eq, E.
  exact (Hk a Ha s').
Qed.

Lemma draws_random : draws next_random (fun _ => True).
Proof. intros s. by do 2 eexists. Qed.

Lemma draws_bytes n : draws (random_bytes n) (fun bytes => length bytes = n).
Proof.
  induction n as [|n IH]; cbn [random_bytes]; [by apply draws_ret|].
  eapply draws_bind; [exact draws_random|intros v _].
  eapply draws_bind; [exact IH|intros bytes Hl]. apply draws_ret. cbn. by f_equal.
Qed.

Lemma passes_ret {S} : passes (mret () : Test S unit).
Proof. intros s. by exists s. Qed.

Lemma passes_draw {A} (m : Run Z A) (k : A -> Test Z unit) P :
  draws m P -> (forall a, P a -> passes (k a)) -> passes (calling m ≫= k).
Proof.
  intros Hm Hk s. destruct (Hm s) as (a & s' & E & Ha).
  unfold mbind, test_bind, calling. rewrite E. exact (Hk a Ha s').
Qed.

Lemma passes_value {S A} (a : A) (k : A -> Test S unit) :
  passes (k a) -> passes (evaluating (Done a) ≫= k).
Proof. done. Qed.

Lemma passes_decode_error {S} bytes r e (k : bool -> Test S unit) :
  decode bytes = Done r ->
  passes (k (bool_decide (DecodeResult.error r = e))) -> passes (decode_error_is bytes e ≫= k).
Proof. intros E Hk. unfold decode_error_is. by rewrite E. Qed.

Lemma passes_expect {S} file line e c (k : unit -> Test S unit) :
  c = true -> passes (k ()) -> passes (expect file line e c ≫= k).
Proof. by intros ->. Qed.

Lemma passes_expect_last {S} file line e c : c = true -> passes (expect (S := S) file line e c).
Proof. intros ->. apply passes_ret. Qed.

Lemma passes_seq {S} (t u : Test S unit) : passes t -> passes u -> passes (_ ← t; u).
Proof.
  intros Ht Hu s. destruct (Ht s) as [s' E]. unfold mbind, test_bind. rewrite E. apply Hu.
Qed.

Lemma passes_loop {S} fuel i bound (body : Z -> Test S unit) :
  (forall j, passes (body j)) -> 0 <= i -> bound < 2 ^ 64 -> (Z.to_nat (bound - i) <= fuel)%nat ->
  passes (test_loop fuel i bound body).
Proof.
  intros Hb. revert i; induction fuel as [|fuel IH]; intros i Hi Hbound Hf; cbn [test_loop];
    (destruct (Z.ltb_spec i bound); [|apply passes_ret]); [lia|].
  apply passes_seq; [done|]. rewrite usize_small by lia. apply IH; lia.
Qed.

Lemma passes_iterations count (body : Z -> Test Z unit) :
  (forall j, passes (body j)) -> count < 2 ^ 64 -> passes (iterations count body).
Proof. intros Hb Hc. unfold iterations. apply passes_loop; [done|lia|lia|]. by rewrite Z.sub_0_r. Qed.

Lemma iterations_pass seed count (body : Z -> Test Z unit) :
  (forall j, passes (body j)) -> count < 2 ^ 64 ->
  on (Done seed) (iterations count body) = Done (returned ()).
Proof.
  intros Hb Hc. destruct (passes_iterations count body Hb Hc seed) as [s' E].
  unfold on. cbn [mbind exec_bind]. by rewrite E.
Qed.

(** *** Generated frames *)

Lemma u32_range v : 0 <= u32 v < 2 ^ 32.
Proof. unfold u32. by apply Z.mod_pos_bound. Qed.

Lemma generated_frame_valid index :
  draws (generated_frame index) (fun f => protocol_frame f /\ Frame.wf f).
Proof.
  unfold generated_frame.
  eapply draws_bind; [exact draws_random|intros v1 _].
  eapply draws_bind; [exact draws_random|intros v2 _].
  pose proof (u32_range v1) as H1. pose proof (u32_range v2) as H2.
  generalize dependent (u32 v2). generalize dependent (u32 v1). intros id Hid address Ha.
  assert (Hwf : forall o fl st p, Opcode.wf o -> 0 <= fl < 2 -> Status.wf st ->
    Frame.wf (Frame.mk 1 o fl id address st p)).
  { intros o fl st p Ho Hfl Hst. unfold Frame.wf. cbn. by split_and!; try lia. }
  repeat case_match.
  - eapply draws_bind; [exact draws_random|intros v _]. apply draws_ret.
    split; [by constructor|by apply Hwf].
  - eapply draws_bind; [exact draws_random|intros v _].
    eapply draws_bind; [apply draws_bytes|intros p Hp]. apply draws_ret.
    split; [constructor; unfold zlen; rewrite Hp; divmod|by apply Hwf].
  - eapply draws_bind; [exact draws_random|intros v _].
    eapply draws_bind; [apply draws_bytes|intros p Hp]. apply draws_ret.
    split; [constructor; unfold zlen; rewrite Hp; divmod|by apply Hwf].
  - eapply draws_bind; [apply draws_bytes|intros p Hp]. apply draws_ret.
    apply nil_length_inv in Hp as ->. split; [constructor|by apply Hwf].
  - eapply draws_bind; [exact draws_random|intros v _].
    eapply draws_bind; [exact draws_random|intros w _].
    eapply draws_bind; [apply draws_bytes|intros p Hp]. apply draws_ret.
    assert (Hs : 1 <= u16 (v mod 5 + 1) <= 5) by (unfold u16; divmod).
    split; [constructor|apply Hwf; [done|done|apply Status_of_value_wf; lia]].
    + intros E. apply (f_equal Status.value) in E. rewrite Status_value_of_value in E. cbn in E. lia.
    + unfold zlen. rewrite Hp. divmod.
Qed.

Lemma encoded_to_bool f : protocol_frame f -> EncodeResult.to_bool (encode f) = true.
Proof. intros Hf. by rewrite encode_wire. Qed.

Lemma round_trip_passes directory index : passes (round_trip directory index).
Proof.
  unfold round_trip. eapply passes_draw; [apply generated_frame_valid|intros f [Hp Hw]].
  apply passes_expect; [by apply encoded_to_bool|]. rewrite encode_wire by done.
  cbn [EncodeResult.bytes]. rewrite decode_wire by done. apply passes_value.
  apply passes_expect; [done|]. apply passes_value.
  apply passes_expect_last. by apply bool_decide_eq_true_2.
Qed.

Lemma flip_back_damages f :
  flip_back (wire f) = Done (damage (Some TransportFault.corrupt_response) (wire f)).
Proof.
  pose proof (apply_fault_corrupt (wire f)) as E. unfold LoopbackTransport.apply_fault in E.
  cbn [andb] in E. rewrite (bool_decide_eq_false_2 (wire f = [])) in E by done.
  revert E. decide_constants. done.
Qed.

Lemma checksum_mutation_passes directory index : passes (checksum_mutation directory index).
Proof.
  unfold checksum_mutation. eapply passes_draw; [apply generated_frame_valid|intros f [Hp Hw]].
  apply passes_expect; [by apply encoded_to_bool|]. rewrite encode_wire by done.
  cbn [EncodeResult.bytes]. rewrite flip_back_damages. apply passes_value.
  eapply passes_decode_error; [by apply corrupted_response_rejected|].
  by apply passes_expect_last.
Qed.

Lemma arbitrary_input_passes directory index : passes (arbitrary_input directory index).
Proof.
  unfold arbitrary_input. eapply passes_draw; [exact draws_random|intros v _].
  eapply passes_draw; [apply draws_bytes|intros bytes _].
  destruct (decode_cases bytes) as [(e & c & He & ->)|(f & -> & Hp & Hw & ->)]; apply passes_value.
  - unfold DecodeResult.to_bool. cbn. rewrite bool_decide_eq_false_2 by done. apply passes_ret.
  - unfold DecodeResult.to_bool. cbn [DecodeResult.error DecodeResult.frame].
    rewrite !bool_decide_eq_true_2 by eauto. cbn [andb].
    apply passes_expect; [by apply encoded_to_bool|]. apply passes_expect_last.
    rewrite encode_wire by done. by apply bool_decide_eq_true_2.
Qed.

(** *** The runner *)

Definition pass_line (test : TestCase) : string := concat_strings ["PASS "; name test; newline].

Lemma run_passing tests passes con :
  Forall (fun test => function test = Done (returned ())) tests ->
  0 <= passes -> passes + zlen tests < 2 ^ 64 ->
  run_tests tests passes 0 con =
  Done ((passes + zlen tests, 0), said con (concat_strings (pass_line <$> tests))).
Proof.
  intros Ht. revert passes con; induction Ht as [|test tests E _ IH]; intros passes con Hp Hl.
  - unfold said. cbn. change (zlen _) with 0. rewrite append_empty, Z.add_0_r. by destruct con.
  - rewrite zlen_cons in Hl |- *. pose proof (zlen_nonneg tests).
    cbn [run_tests]. rewrite E, run_lift, run_print, usize_small by lia.
    rewrite IH by lia. rewrite said_said. do 3 f_equal. lia.
Qed.

Lemma all_pass tests n :
  function <$> tests = replicate n (Done (returned ())) ->
  Forall (fun test => function test = Done (returned ())) tests.
Proof.
  intros E. apply (Forall_fmap function (fun o => o = Done (returned ())) tests).
  rewrite E. by apply Forall_replicate.
Qed.

(** The tests that generate nothing, by evaluation. *)
Lemma fixed_tests_pass directory :
  Forall (fun test => function test = Done (returned ()))
    (client_tests directory ++ codec_tests directory ++ memory_tests directory).
Proof.
  apply (all_pass _ 17). vm_cast_no_check (eq_refl (replicate 17 (Done (returned (A := unit) ())))).
Qed.

Lemma property_tests_pass directory :
  Forall (fun test => function test = Done (returned ())) (property_tests directory).
Proof.
  refine (Forall_cons_2 _ _ _ _ (Forall_cons_2 _ _ _ _ (Forall_cons_2 _ _ _ _ (Forall_nil_2 _)))).
  - exact (iterations_pass _ 10000 _ (round_trip_passes directory) eq_refl).
  - exact (iterations_pass _ 2000 _ (checksum_mutation_passes directory) eq_refl).
  - exact (iterations_pass _ 10000 _ (arbitrary_input_passes directory) eq_refl).
Qed.

Lemma registry_passes directory :
  Forall (fun test => function test = Done (returned ())) (registry directory).
Proof.
  unfold registry. rewrite !app_assoc. apply Forall_app.
  split; [rewrite <-app_assoc; apply fixed_tests_pass|apply property_tests_pass].
Qed.

Lemma zlen_registry directory tests : tests ≡ₚ registry directory -> zlen tests = 20.
Proof. intros Ht. unfold zlen. rewrite Ht. reflexivity. Qed.

(** ** Properties *)

(** The test suite of the repository passes on the definitions of this
    development: in whatever order the static initialisers have registered the twenty
    tests, the runner prints a PASS line for each, in that order, then the summary of
    20 passed and 0 failed, writes nothing to the error stream and exits with 0. *)
Theorem test_suite_passes directory tests :
  tests ≡ₚ registry directory ->
  test_main tests {| out := ""; err := "" |} =
  Done (0, {| out := String.append (concat_strings (pass_line <$> tests))
                       (String.append "SUMMARY passed=20 failed=0" newline);
              err := "" |}).
Proof.
  intros Ht. pose proof (zlen_registry directory tests Ht) as Hl.
  unfold test_main. rewrite run_bind_eq, run_passing; [|rewrite Ht; apply registry_passes|lia..].
  cbn [mbind exec_bind]. rewrite Hl, run_print. unfold mret, run_ret, said. cbn [out err].
  do 3 f_equal.
Qed.

Lemma test_suite_passes_witness :
  exists con,
    test_main (reverse (registry "tests")) {| out := ""; err := "" |} = Done (0, con) /\ err con = "".
Proof.
  eexists. split; [apply (test_suite_passes "tests"), reverse_Permutation|reflexivity].
Defined.

(** C40. The property tests pass from any seed and at any number of iterations, not
    only at the three that the repository fixes: every frame that the generator draws
    round-trips, the flip of the last bit of its encoding is reported as a checksum
    mismatch, and what decodes from arbitrary bytes encodes to the same bytes. *)
Theorem generated_tests_pass_from_any_seed directory seed count :
  0 <= count < 2 ^ 64 ->
  Forall (fun body => on (Done seed) (iterations count (body directory)) = Done (returned ()))
    [round_trip; checksum_mutation; arbitrary_input].
Proof.
  intros [_ Hc].
  refine (Forall_cons_2 _ _ _ _ (Forall_cons_2 _ _ _ _ (Forall_cons_2 _ _ _ _ (Forall_nil_2 _)))).
  - exact (iterations_pass seed count _ (round_trip_passes directory) Hc).
  - exact (iterations_pass seed count _ (checksum_mutation_passes directory) Hc).
  - exact (iterations_pass seed count _ (arbitrary_input_passes directory) Hc).
Qed.

Lemma generated_tests_pass_from_any_seed_witness :
  on (Done 1) (iterations 1000000 (round_trip "tests")) = Done (returned ()).
Proof.
  refine (Forall_inv (generated_tests_pass_from_any_seed "tests" 1 1000000 _)). lia.
Defined.
