(* ===== verification/Vectors.v ===== *)
(** * Published examples, run on the definitions.

    The repository prints what its tools answer: a frame in docs/protocol-spec.md, two
    commands in docs/cli.md, the scenarios of the demonstration in README.md.  The
    definitions give the same. *)

From S2P Require Import Prelude Types BigEndian Crc Hex Text Codec Memory Server Transport.
From S2P Require Import ImlpClient Cli.

Open Scope string_scope.

Definition silent : Console := {| out := ""; err := "" |}.
Definition printed (lines : list string) : Console :=
  {| out := concat_strings ((fun line => line ++ newline) <$> lines); err := "" |}.

(** docs/protocol-spec.md, "Test vector": a read of four bytes at 0x100 with request ID 1. *)
Definition published_frame : string := "494d010100000000000100000100000200000004a0cf9ffd".

Theorem published_frame_encodes :
  exists bytes, bytes_from_hex published_frame = Done (Some bytes) /\
    encode (read_request 1 0x100 4) = EncodeResult.mk bytes CodecError.none /\
    decode bytes = Done (DecodeResult.mk (Some (read_request 1 0x100 4)) CodecError.none 24).
Proof. eexists. split; [vm_compute; reflexivity|]. split; vm_compute; reflexivity. Qed.

(** docs/cli.md, "Inspect a frame" and "Generate a read test vector". *)
Theorem inspect_prints_the_documented_line argv0 :
  main [argv0; "inspect"; published_frame] silent =
  Done (0, printed ["version=1 opcode=0x1 flags=0 request_id=1 address=256 status=ok payload=0004"]).
Proof. vm_compute. reflexivity. Qed.

Theorem encode_read_prints_the_published_frame argv0 :
  main [argv0; "encode-read"; "0x100"; "4"] silent = Done (0, printed [published_frame]).
Proof. vm_compute. reflexivity. Qed.

(** README.md, "What the demo proves", and the results of docs/reports: the identity is
    read, the write of a read-only server refused, the read after a timeout repeated
    with the same frame and answered at the second attempt, the corrupted response
    rejected by its checksum, and the permitted write read back. *)
Definition demo_report : list string := [
    "scenario=read_only_default";
    "request_id=1 client_error=none remote_status=ok attempts=1 detail=ok data=494d4c502f3120" ++
      "73796e7468";
    "request_id=2 client_error=remote_error remote_status=write_disabled attempts=1 detail=re" ++
      "mote request rejected data=77726974655f64697361626c6564";
    "scenario=transient_read_timeout";
    "request_id=3 client_error=none remote_status=ok attempts=2 detail=ok data=01";
    "scenario=corrupted_response";
    "request_id=4 client_error=malformed_response remote_status=ok attempts=1 detail=checksum" ++
      "_mismatch";
    "trace=1 direction=client_to_server outcome=sent bytes=494d010100000000000100000000000200" ++
      "00000c62be1751";
    "trace=2 direction=server_to_client outcome=read_ok bytes=494d018101000000000100000000000" ++
      "c0000494d4c502f312073796e7468b1f02def";
    "trace=3 direction=client_to_server outcome=sent bytes=494d010200000000000200000100000200" ++
      "001234349ae207";
    "trace=4 direction=server_to_client outcome=write_disabled bytes=494d01ff0100000000020000" ++
      "0100000e000377726974655f64697361626c65649431c7ee";
    "trace=5 direction=client_to_server outcome=sent bytes=494d010100000000000300000040000200" ++
      "0000010068a754";
    "trace=6 direction=server_to_client outcome=timeout bytes=";
    "trace=7 direction=client_to_server outcome=sent bytes=494d010100000000000300000040000200" ++
      "0000010068a754";
    "trace=8 direction=server_to_client outcome=read_ok bytes=494d018101000000000300000040000" ++
      "1000001e7798d43";
    "trace=9 direction=client_to_server outcome=sent bytes=494d010100000000000400000000000200" ++
      "0000041d323321";
    "trace=10 direction=server_to_client outcome=read_ok bytes=494d01810100000000040000000000" ++
      "040000494d4c50caf5d0b7";
    "scenario=explicit_write_opt_in";
    "request_id=1 client_error=none remote_status=ok attempts=1 detail=ok";
    "request_id=2 client_error=none remote_status=ok attempts=1 detail=ok data=1234" ].

Theorem demo_prints_its_scenarios argv0 :
  main [argv0; "demo"] silent = Done (0, printed demo_report).
Proof. vm_compute. reflexivity. Qed.
